(** * zestor: a typed key-value store with two interchangeable engines

    This development embeds the two engines of the repository,
    [store/gomap] (in memory) and [store/sqlite] (durable), together with
    the shared contract of [store/store.go], and proves properties of
    their create/update/no-op classification, of event emission and of
    the watcher life cycle.

    Modelling conventions.
    - Every public operation is embedded as the sequential execution of
      its body: the locks of the source make the part between Lock and
      Unlock atomic, and the fan-out that follows is run to completion.
      The writers of the in-memory engine send after they unlock;
      [gomap_facts.step] takes their critical sections and their sends as
      separate steps, so that calls which overlap are runs too.
    - Go channels live in an explicit heap, shared between the store (which
      sends and closes) and the subscriber (which holds the receive end).
      Closing a closed channel and sending on a closed channel are run-time
      panics in Go; they are results of type [run] here.  So is [make] on a
      size the runtime refuses ([makeChanRun], [WatchRun]); memory itself is
      not bounded, a size the runtime grants is allocated.
    - Go leaves the iteration order of a map unspecified.  The embedding
      iterates in the order of [map_to_list]; statements about sequences of
      events are made up to permutation so that they do not depend on it.
    - The relational engine under [store/sqlite] is used, not reimplemented:
      a table is a finite map from the primary key (kind, key) to a row, a
      transaction is a working copy of the table that is written back on
      commit, and the statements executed on an open database do not fail.
      SQL integers are unbounded here; a version outside the 64-bit range
      stands for the REAL that SQLite stores in its place, which does not
      scan into a Go [int]. *)

From Stdlib Require Import ZArith Lia.
From stdpp Require Import base option list gmap sets strings pretty sorting.

(** ** Results of code that may panic *)

Inductive run (A : Type) : Type :=
  | Done (a : A)
  | Panic (msg : string).
Arguments Done {A} a.
Arguments Panic {A} msg.

#[global] Instance run_ret : MRet run := λ A a, Done a.
#[global] Instance run_bind : MBind run := λ A B f m,
  match m with
  | Done a => f a
  | Panic msg => Panic msg
  end.

Definition returns {A} (m : run A) (a : A) : Prop := m = Done a.

Definition panics {A} (m : run A) : Prop :=
  match m with
  | Done _ => False
  | Panic _ => True
  end.

(** Monadic left fold, the shape of every [for ... range] loop whose body
    sends on or closes a channel. *)
Fixpoint forM {A S} (f : A → S → run S) (l : list A) (s : S) : run S :=
  match l with
  | [] => Done s
  | a :: l => s' ← f a s; forM f l s'
  end.

(** The line feed that ends each line of a dump. *)
Definition newline : string := String (Ascii.ascii_of_nat 10) EmptyString.

(** ** store/store.go *)

Module store.

Inductive error :=
  | ErrClosed
  | ErrKeyNotFound
  | ErrKindRequired
  | ErrOther (msg : string).

#[global] Instance error_eq_dec : EqDecision error.
Proof. solve_decision. Defined.

(** [err.Error()] *)
Definition Error (e : error) : string :=
  match e with
  | ErrClosed => "store closed"
  | ErrKeyNotFound => "key not found"
  | ErrKindRequired => "kind required"
  | ErrOther msg => msg
  end.

(** [type EventType string] with its three constants. *)
Definition EventTypeCreate : string := "create".
Definition EventTypeUpdate : string := "update".
Definition EventTypeDelete : string := "delete".

Definition DefaultWatchBufferSize : Z := 128.

Record Event (T : Type) := mkEvent {
  Kind : string;
  Name : string;
  EventType : string;
  Object : T;
}.
Arguments mkEvent {T} _ _ _ _.
Arguments Kind {T} _.
Arguments Name {T} _.
Arguments EventType {T} _.
Arguments Object {T} _.

Record KeyValue (T : Type) := mkKeyValue { Key : string; Value : T }.
Arguments mkKeyValue {T} _ _.

(** [WatchCfg]: a nil [EventTypes] map is [None]. *)
Record WatchCfg := mkWatchCfg {
  Initial : bool;
  EventTypes : option (gset string);
  BufferSize : Z;
}.

Definition WatchOption := WatchCfg → WatchCfg.

Definition WithInitialReplay : WatchOption := λ w,
  mkWatchCfg true (EventTypes w) (BufferSize w).

Definition WithEventTypes (eventTypes : list string) : WatchOption := λ w,
  mkWatchCfg (Initial w)
    (Some (list_to_set eventTypes ∪ default ∅ (EventTypes w)))
    (BufferSize w).

Definition WithBufferSize (size : Z) : WatchOption := λ w,
  mkWatchCfg (Initial w) (EventTypes w) size.

(** [cfg := &WatchCfg{}; for _, o := range opts { o(cfg) }] *)
Definition applyOpts (opts : list WatchOption) : WatchCfg :=
  foldl (λ cfg o, o cfg) (mkWatchCfg false None 0) opts.

(** [reflect.DeepEqual], on a value type with decidable equality. *)
Definition DefaultCompareFunc {T} `{EqDecision T} (prev new : T) : bool :=
  bool_decide (prev = new).

(** *** Channels *)

Section channels.
Context {T : Type}.

(** A buffered [chan *Event[T]]. *)
Record chanState := mkChan {
  buf : list (Event T);
  cap : nat;
  isClosed : bool;
}.

(** The part of the Go heap the engines share with their subscribers:
    delivery channels, and the [done] channels of replay goroutines
    ([true] once closed). *)
Record heap := mkHeap {
  chans : gmap nat chanState;
  dones : gmap nat bool;
}.

Definition emptyHeap : heap := mkHeap ∅ ∅.

Definition updChan (c : nat) (st : chanState) (h : heap) : heap :=
  mkHeap (<[c := st]> (chans h)) (dones h).

(** [make(chan *Event[T], bufSize)] *)
Definition makeChan (bufSize : Z) (h : heap) : nat * heap :=
  let c := fresh (dom (chans h)) in
  (c, updChan c (mkChan [] (Z.to_nat bufSize) false) h).

(** The runtime does not grant every size: [make] panics with
    "makechan: size out of range" when the size is negative or when that
    many pointers are more than it can address.  [maxChan] is the largest
    size it grants, (maxAlloc - hchanSize) / 8 for a channel of pointers:
    2^45 - 12 with maxAlloc = 2^48 and hchanSize = 96.  [makeChan] is the
    allocation of a granted size. *)
Definition makeChanRun (maxChan bufSize : Z) (h : heap) : run (nat * heap) :=
  if decide (0 ≤ bufSize ≤ maxChan)%Z then Done (makeChan bufSize h)
  else Panic "makechan: size out of range".

(** [make(chan struct{})] *)
Definition makeDone (h : heap) : nat * heap :=
  let d := fresh (dom (dones h)) in
  (d, mkHeap (chans h) (<[d := false]> (dones h))).

(** [select { case c <- ev: default: }] *)
Definition trySend (c : nat) (ev : Event T) (h : heap) : run heap :=
  match chans h !! c with
  | None => Panic "send on a channel that was never made"
  | Some st =>
      if isClosed st then Panic "send on closed channel"
      else if decide (length (buf st) < cap st)
      then Done (updChan c (mkChan (buf st ++ [ev]) (cap st) false) h)
      else Done h
  end.

(** [close(c)] *)
Definition closeChan (c : nat) (h : heap) : run heap :=
  match chans h !! c with
  | None => Panic "close of a channel that was never made"
  | Some st =>
      if isClosed st then Panic "close of closed channel"
      else Done (updChan c (mkChan (buf st) (cap st) true) h)
  end.

(** [close(doneCh)] *)
Definition closeDone (d : nat) (h : heap) : run heap :=
  match dones h !! d with
  | None => Panic "close of a channel that was never made"
  | Some true => Panic "close of closed channel"
  | Some false => Done (mkHeap (chans h) (<[d := true]> (dones h)))
  end.

(** What the subscriber sees: [ev, ok := <-c] on a channel that is not
    empty, or that is closed ([ok = false], end of stream); [None] when the
    receive would block. *)
Definition recv (c : nat) (h : heap) : option (option (Event T) * heap) :=
  match chans h !! c with
  | None => None
  | Some st =>
      match buf st with
      | ev :: rest => Some (Some ev, updChan c (mkChan rest (cap st) (isClosed st)) h)
      | [] => if isClosed st then Some (None, h) else None
      end
  end.

Definition chanOpen (c : nat) (h : heap) : Prop :=
  ∃ st, chans h !! c = Some st ∧ isClosed st = false.

Definition chanClosed (c : nat) (h : heap) : Prop :=
  ∃ st, chans h !! c = Some st ∧ isClosed st = true.

Definition chanBuf (c : nat) (h : heap) : list (Event T) :=
  match chans h !! c with
  | Some st => buf st
  | None => []
  end.

(** One event of type [evType] per entry of [m], in iteration order. *)
Definition eventsOf (kind evType : string) (m : gmap string T) : list (Event T) :=
  (λ kv, mkEvent kind kv.1 evType kv.2) <$> map_to_list m.

(** *** Watchers

    Both engines declare the same struct
    [watcher { ch chan *Event[T]; eventTypes map[EventType]struct{} }]. *)
Record watcher := mkWatcher {
  ch : nat;
  eventTypes : option (gset string);
}.

(** [if w.eventTypes != nil { if _, ok := w.eventTypes[t]; !ok { continue } }] *)
Definition accepts (w : watcher) (evType : string) : bool :=
  match eventTypes w with
  | None => true
  | Some types => bool_decide (evType ∈ types)
  end.

(** The body of the fan-out loop shared by every publisher. *)
Definition deliver (ev : Event T) (w : watcher) (h : heap) : run heap :=
  if accepts w (EventType ev) then trySend (ch w) ev h else Done h.

Definition fanout (wchs : list watcher) (ev : Event T) (h : heap) : run heap :=
  forM (deliver ev) wchs h.

End channels.

Arguments chanState T : clear implicits.
Arguments heap T : clear implicits.

End store.

(** ** store/gomap: the in-memory engine *)

Module gomap.
Import store.

Section memStore.
Context {T : Type}.
(** [var zero T], and the rendering of a value by [fmt]'s [%+v]. *)
Context (zero : T) (show : T → string).

Record StoreOptions := mkStoreOptions {
  CompareFn : option (T → T → bool);
  ValidateFns : option (gmap string (T → option error));
}.

Record memStore := mkMemStore {
  kinds : gmap string (gmap string T);
  validationFns : gmap string (T → option error);
  watchers : gmap string (gmap string watcher);
  compareFn : T → T → bool;
  closed : bool;
  (** an [atomic.Uint64] *)
  watcherID : N;
}.

Definition setKinds (ks : gmap string (gmap string T)) (s : memStore) : memStore :=
  mkMemStore ks (validationFns s) (watchers s) (compareFn s) (closed s) (watcherID s).

Definition setWatchers (ws : gmap string (gmap string watcher)) (s : memStore) : memStore :=
  mkMemStore (kinds s) (validationFns s) ws (compareFn s) (closed s) (watcherID s).

Definition setClosed (b : bool) (s : memStore) : memStore :=
  mkMemStore (kinds s) (validationFns s) (watchers s) (compareFn s) b (watcherID s).

Definition setWatcherID (n : N) (s : memStore) : memStore :=
  mkMemStore (kinds s) (validationFns s) (watchers s) (compareFn s) (closed s) n.

Definition NewMemStore `{EqDecision T} (opt : StoreOptions) : memStore :=
  mkMemStore ∅ (default ∅ (ValidateFns opt)) ∅
    (default DefaultCompareFunc (CompareFn opt)) false 0.

Definition ensureKind (kind : string) (s : memStore) : memStore :=
  let ks := match kinds s !! kind with
            | Some _ => kinds s
            | None => <[kind := ∅]> (kinds s)
            end in
  let ws := match watchers s !! kind with
            | Some _ => watchers s
            | None => <[kind := ∅]> (watchers s)
            end in
  setWatchers ws (setKinds ks s).

(** [s.kinds[kind]]: a missing kind reads as the nil map. *)
Definition kindMap (kind : string) (s : memStore) : gmap string T :=
  default ∅ (kinds s !! kind).

Definition kindWatchers (kind : string) (s : memStore) : gmap string watcher :=
  default ∅ (watchers s !! kind).

Definition cloneMap (m : gmap string T) : gmap string T := m.

(** *** Readers *)

Definition Get (kind key : string) (s : memStore) : T * bool * option error :=
  if closed s then (zero, false, Some ErrClosed)
  else match kindMap kind s !! key with
       | Some v => (v, true, None)
       | None => (zero, false, None)
       end.

(** A nil filter is skipped. *)
Definition passes (filters : list (option (string → T → bool))) (k : string) (v : T) : bool :=
  forallb (λ f, match f with Some f => f k v | None => true end) filters.

Definition List (kind : string) (filters : list (option (string → T → bool)))
    (s : memStore) : option (gmap string T) * option error :=
  if closed s then (None, Some ErrClosed)
  else (Some (filter (λ kv, passes filters kv.1 kv.2 = true) (kindMap kind s)), None).

Definition Keys (kind : string) (s : memStore) : option (list string) * option error :=
  if closed s then (None, Some ErrClosed)
  else (Some ((map_to_list (kindMap kind s)).*1), None).

Definition Values (kind : string) (s : memStore)
    : option (list (KeyValue T)) * option error :=
  if closed s then (None, Some ErrClosed)
  else (Some ((λ kv, mkKeyValue kv.1 kv.2) <$> map_to_list (kindMap kind s)), None).

Definition Count (kind : string) (s : memStore) : Z * option error :=
  if closed s then (0%Z, Some ErrClosed)
  else (Z.of_nat (size (kindMap kind s)), None).

Definition GetAll (s : memStore) : option (gmap string (gmap string T)) * option error :=
  if closed s then (None, Some ErrClosed)
  else (Some (cloneMap <$> kinds s), None).

(** [Dump] has no closed check and no error result. *)
Definition Dump (s : memStore) : string :=
  foldr (λ km acc,
      (km.1 +:+ ":" +:+ newline) +:+
      foldr (λ kv acc', ("  " +:+ kv.1 +:+ ": " +:+ show kv.2 +:+ newline) +:+ acc')
        "" (map_to_list km.2) +:+ acc)
    "" (map_to_list (kinds s)).

(** *** Writers

    Each writer is split the way its body is: the part executed between
    [s.mu.Lock()] and [s.mu.Unlock()], which computes the new store, the
    snapshot of the kind's watchers and the events to send, and the fan-out
    executed after the unlock. *)

Record locked (R : Type) := mkLocked {
  after : memStore;
  wchs : list watcher;
  events : list (Event T);
  result : R;
}.
Arguments mkLocked {R} _ _ _ _.
Arguments after {R} _.
Arguments wchs {R} _.
Arguments events {R} _.
Arguments result {R} _.

(** [for _, ch := range s.watchers[kind] { wchs = append(wchs, ch) }] *)
Definition snapshot (kind : string) (s : memStore) : list watcher :=
  (map_to_list (kindWatchers kind s)).*2.

Definition unlockAndSend {R} (l : locked R) (h : heap T)
    : run (memStore * heap T * R) :=
  h' ← forM (fanout (wchs l)) (events l) h;
  Done (after l, h', result l).

Definition validate (kind : string) (value : T) (s : memStore) : option error :=
  match validationFns s !! kind with
  | Some fn => fn value
  | None => None
  end.

Definition SetLocked (kind key : string) (value : T) (s : memStore)
    : locked (bool * option error) :=
  if closed s then mkLocked s [] [] (false, Some ErrClosed)
  else
    let s := ensureKind kind s in
    match validate kind value s with
    | Some err => mkLocked s [] [] (false, Some err)
    | None =>
        let m := kindMap kind s in
        let prev := default zero (m !! key) in
        let existed := bool_decide (is_Some (m !! key)) in
        let s := setKinds (<[kind := <[key := value]> m]> (kinds s)) s in
        if compareFn s prev value then mkLocked s [] [] (false, None)
        else
          let evType := if existed then EventTypeUpdate else EventTypeCreate in
          mkLocked s (snapshot kind s) [mkEvent kind key evType value]
            (negb existed, None)
    end.

Definition Set_ (kind key : string) (value : T) (s : memStore) (h : heap T)
    : run (memStore * heap T * (bool * option error)) :=
  unlockAndSend (SetLocked kind key value s) h.

Definition DeleteLocked (kind key : string) (s : memStore)
    : locked (bool * T * option error) :=
  if closed s then mkLocked s [] [] (false, zero, Some ErrClosed)
  else
    let s := ensureKind kind s in
    let m := kindMap kind s in
    match m !! key with
    | None => mkLocked s [] [] (false, zero, None)
    | Some prev =>
        let s := setKinds (<[kind := delete key m]> (kinds s)) s in
        mkLocked s (snapshot kind s) [mkEvent kind key EventTypeDelete prev]
          (true, prev, None)
    end.

Definition Delete (kind key : string) (s : memStore) (h : heap T)
    : run (memStore * heap T * (bool * T * option error)) :=
  unlockAndSend (DeleteLocked kind key s) h.

Definition SetFnLocked (kind key : string) (fn : T → T * option error) (s : memStore)
    : locked (bool * option error) :=
  if closed s then mkLocked s [] [] (false, Some ErrClosed)
  else
    let s := ensureKind kind s in
    let m := kindMap kind s in
    match m !! key with
    | None => mkLocked s [] [] (false, Some ErrKeyNotFound)
    | Some prev =>
        match fn prev with
        | (_, Some err) => mkLocked s [] [] (false, Some err)
        | (value, None) =>
            let s := setKinds (<[kind := <[key := value]> m]> (kinds s)) s in
            mkLocked s (snapshot kind s) [mkEvent kind key EventTypeUpdate value]
              (false, None)
        end
    end.

Definition SetFn (kind key : string) (fn : T → T * option error) (s : memStore)
    (h : heap T) : run (memStore * heap T * (bool * option error)) :=
  unlockAndSend (SetFnLocked kind key fn s) h.

(** [SetAll] validates every value, then classifies and writes key by key,
    then sends per watcher: the created keys, then the updated ones. *)

Definition validateAll (fn : T → option error) (values : gmap string T) : option error :=
  foldr (λ kv rest, match fn kv.2 with Some err => Some err | None => rest end)
    None (map_to_list values).

Definition classify (k : string) (v : T)
    (acc : gmap string T * gmap string T * gmap string T)
    : gmap string T * gmap string T * gmap string T :=
  let '(created, updated, m) := acc in
  if bool_decide (is_Some (m !! k))
  then (created, <[k := v]> updated, <[k := v]> m)
  else (<[k := v]> created, updated, <[k := v]> m).

Record lockedAll := mkLockedAll {
  afterAll : memStore;
  wchsAll : list watcher;
  created : gmap string T;
  updated : gmap string T;
  resultAll : option error;
}.

Definition SetAllLocked (kind : string) (values : gmap string T) (s : memStore)
    : lockedAll :=
  if closed s then mkLockedAll s [] ∅ ∅ (Some ErrClosed)
  else
    let s := ensureKind kind s in
    match from_option (λ fn, validateAll fn values) None (validationFns s !! kind) with
    | Some err => mkLockedAll s [] ∅ ∅ (Some err)
    | None =>
        let '(cr, up, m) := map_fold classify (∅, ∅, kindMap kind s) values in
        let s := setKinds (<[kind := m]> (kinds s)) s in
        mkLockedAll s (snapshot kind s) cr up None
    end.

Definition sendAllTo (kind : string) (cr up : gmap string T) (w : watcher)
    (h : heap T) : run (heap T) :=
  let wantsCreate := accepts w EventTypeCreate in
  let wantsUpdate := accepts w EventTypeUpdate in
  h1 ← (if wantsCreate
        then forM (trySend (ch w)) (eventsOf kind EventTypeCreate cr) h
        else Done h);
  if wantsUpdate
  then forM (trySend (ch w)) (eventsOf kind EventTypeUpdate up) h1
  else Done h1.

Definition SetAll (kind : string) (values : gmap string T) (s : memStore)
    (h : heap T) : run (memStore * heap T * option error) :=
  let l := SetAllLocked kind values s in
  h' ← forM (sendAllTo kind (created l) (updated l)) (wchsAll l) h;
  Done (afterAll l, h', resultAll l).

(** The events a [SetAll] hands to its watchers. *)
Definition SetAllEvents (kind : string) (values : gmap string T) (s : memStore)
    : list (Event T) :=
  let l := SetAllLocked kind values s in
  eventsOf kind EventTypeCreate (created l) ++ eventsOf kind EventTypeUpdate (updated l).

(** *** Watch

    [Watch] hands back the receive end of the channel and a [cancel]
    closure.  The closure captures the kind, the watcher id and the [done]
    channel of the replay goroutine; [cancelFn] records these three. *)

Record cancelFn := mkCancel {
  ckind : string;
  cid : string;
  cdone : nat;
}.

(** The replay goroutine: the channel it sends on, the [done] channel it
    selects on, and the snapshot events it has not sent yet. *)
Record goroutine := mkGoroutine {
  gch : nat;
  gdone : nat;
  gpending : list (Event T);
}.

Definition Watch (kind : string) (opts : list WatchOption) (s : memStore) (h : heap T)
    : memStore * heap T * option goroutine
      * (option nat * option cancelFn * option error) :=
  if decide (kind = "") then (s, h, None, (None, None, Some ErrKindRequired))
  else
    let cfg := applyOpts opts in
    if closed s then (s, h, None, (None, None, Some ErrClosed))
    else
      let s := ensureKind kind s in
      let bufSize := if decide (BufferSize cfg ≤ 0)%Z
                     then DefaultWatchBufferSize else BufferSize cfg in
      let n := ((watcherID s + 1) mod 2 ^ 64)%N in
      let id := pretty n in
      let s := setWatcherID n s in
      let '(c, h) := makeChan bufSize h in
      let wch := mkWatcher c (EventTypes cfg) in
      let s := setWatchers (<[kind := <[id := wch]> (kindWatchers kind s)]> (watchers s)) s in
      let snap := if Initial cfg then cloneMap (kindMap kind s) else ∅ in
      let '(d, h) := makeDone h in
      let sendInitial :=
        match eventTypes wch with
        | None => true
        | Some types => bool_decide (EventTypeCreate ∈ types)
        end in
      let g := if Initial cfg && bool_decide (0 < size snap) && sendInitial
               then Some (mkGoroutine c d (eventsOf kind EventTypeCreate snap))
               else None in
      (s, h, g, (Some c, Some (mkCancel kind id d), None)).

(** [Watch] with the runtime's check of the channel size.  [make] is
    reached once the kind and the closed flag have passed; the store is
    then locked and its counter advanced.  A refused size panics there, and
    [s.mu] is never released: no later call on the store returns. *)
Definition WatchRun (maxChan : Z) (kind : string) (opts : list WatchOption)
    (s : memStore) (h : heap T)
    : run (memStore * heap T * option goroutine
           * (option nat * option cancelFn * option error)) :=
  if decide (kind = "") then Done (Watch kind opts s h)
  else if closed s then Done (Watch kind opts s h)
  else
    let cfg := applyOpts opts in
    let bufSize := if decide (BufferSize cfg ≤ 0)%Z
                   then DefaultWatchBufferSize else BufferSize cfg in
    made ← makeChanRun maxChan bufSize h;
    Done (Watch kind opts s h).

(** The goroutine's loop body is
    [select { case wch.ch <- ev: case <-doneCh: return }].
    The send case is ready when the buffer has room, and also when the
    channel is closed (the send then panics); the done case is ready once
    [done] is closed.  When both are ready Go picks one at random:
    [pickDone] is that choice.  With no case ready the goroutine blocks. *)
Inductive selected := SelSend | SelDone | SelBlocked.

Definition replaySelect (pickDone : bool) (c d : nat) (h : heap T) : run selected :=
  match chans h !! c with
  | None => Panic "send on a channel that was never made"
  | Some st =>
      let sendReady := isClosed st || bool_decide (length (buf st) < cap st) in
      let doneReady := bool_decide (dones h !! d = Some true) in
      Done (if doneReady && (pickDone || negb sendReady) then SelDone
            else if sendReady then SelSend else SelBlocked)
  end.

(** The goroutine run until it finishes, returns or blocks; a blocked
    goroutine is handed back with the events it still has to send. *)
Fixpoint replayLoop (pickDone : bool) (c d : nat) (pending : list (Event T))
    (h : heap T) : run (option goroutine * heap T) :=
  match pending with
  | [] => Done (None, h)
  | ev :: rest =>
      sel ← replaySelect pickDone c d h;
      match sel with
      | SelDone => Done (None, h)
      | SelBlocked => Done (Some (mkGoroutine c d pending), h)
      | SelSend => h' ← trySend c ev h; replayLoop pickDone c d rest h'
      end
  end.

Definition runReplay (pickDone : bool) (g : goroutine) (h : heap T)
    : run (option goroutine * heap T) :=
  replayLoop pickDone (gch g) (gdone g) (gpending g) h.

(** One turn of the goroutine's loop, for the runs in which other calls
    come between two turns. *)
Definition replayTurn (pickDone : bool) (g : goroutine) (h : heap T)
    : run (option goroutine * heap T) :=
  match gpending g with
  | [] => Done (None, h)
  | ev :: rest =>
      sel ← replaySelect pickDone (gch g) (gdone g) h;
      match sel with
      | SelDone => Done (None, h)
      | SelBlocked => Done (Some g, h)
      | SelSend =>
          h' ← trySend (gch g) ev h;
          Done (Some (mkGoroutine (gch g) (gdone g) rest), h')
      end
  end.

Definition cancel (c : cancelFn) (s : memStore) (h : heap T)
    : run (memStore * heap T) :=
  match watchers s !! ckind c with
  | Some w =>
      match w !! cid c with
      | Some wch =>
          let s' := setWatchers (<[ckind c := delete (cid c) w]> (watchers s)) s in
          h1 ← closeDone (cdone c) h;
          h2 ← closeChan (ch wch) h1;
          Done (s', h2)
      | None => Done (s, h)
      end
  | None => Done (s, h)
  end.

(** Every registered watcher, kind by kind. *)
Definition allWatchers (s : memStore) : list watcher :=
  map_to_list (watchers s) ≫= λ km, (map_to_list km.2).*2.

Definition Close (s : memStore) (h : heap T) : run (memStore * heap T * option error) :=
  if closed s then Done (s, h, None)
  else
    h' ← forM (λ wch, closeChan (ch wch)) (allWatchers s) h;
    Done (setWatchers ((λ _, ∅) <$> watchers s) (setClosed true s), h', None).

End memStore.

Arguments StoreOptions T : clear implicits.
Arguments memStore T : clear implicits.
Arguments locked T R : clear implicits.
Arguments mkLocked {T R} _ _ _ _.
Arguments after {T R} _.
Arguments wchs {T R} _.
Arguments events {T R} _.
Arguments result {T R} _.
Arguments lockedAll T : clear implicits.
Arguments goroutine T : clear implicits.

End gomap.

(** ** store/sqlite: the durable engine *)

Module sqlite.
Import store.

#[global] Instance watcher_eq_dec : EqDecision watcher.
Proof. solve_decision. Defined.

#[global] Instance watcher_countable : Countable watcher.
Proof.
  apply (inj_countable' (λ w, (ch w, eventTypes w)) (λ p, mkWatcher p.1 p.2)).
  by intros [].
Defined.

(** A row of [zestor_kv]; the primary key (kind, key) is the key of the
    table.  A [BLOB] is a byte string, [updated_at] is the text produced by
    [STRFTIME]. *)
Record row := mkRow {
  value : string;
  version : Z;
  updated_at : string;
}.

#[global] Instance row_eq_dec : EqDecision row.
Proof. solve_decision. Defined.

(** The [*sql.DB] handle: the table, and whether [db.Close] was called. *)
Record DB := mkDB {
  rows : gmap (string * string) row;
  dbClosed : bool;
}.

(** *** The SQL statements of the source, on a table *)

(** [INSERT INTO zestor_kv(kind,key,value) VALUES(?,?,?)
     ON CONFLICT(kind,key) DO NOTHING], with the number of rows affected;
    [version] and [updated_at] take their column defaults. *)
Definition setQuery (kind key enc now : string) (t : gmap (string * string) row)
    : gmap (string * string) row * Z :=
  match t !! (kind, key) with
  | Some _ => (t, 0%Z)
  | None => (<[(kind, key) := mkRow enc 1 now]> t, 1%Z)
  end.

(** [SELECT value FROM zestor_kv WHERE kind=? AND key=?]; [None] is
    [sql.ErrNoRows]. *)
Definition getQuery (kind key : string) (t : gmap (string * string) row) : option string :=
  value <$> t !! (kind, key).

(** [UPDATE zestor_kv SET value=?, version=version+1, updated_at=now
     WHERE kind=? AND key=?] *)
Definition updateQuery (enc kind key now : string) (t : gmap (string * string) row)
    : gmap (string * string) row :=
  alter (λ r, mkRow enc (version r + 1) now) (kind, key) t.

(** The prepared statement of [SetAll]:
    [INSERT ... ON CONFLICT(kind,key) DO UPDATE SET value = excluded.value,
     version = CASE WHEN zestor_kv.value != excluded.value
                    THEN zestor_kv.version + 1 ELSE zestor_kv.version END,
     updated_at = CASE WHEN zestor_kv.value != excluded.value
                       THEN now ELSE zestor_kv.updated_at END] *)
Definition upsertQuery (kind key enc now : string) (t : gmap (string * string) row)
    : gmap (string * string) row :=
  match t !! (kind, key) with
  | None => <[(kind, key) := mkRow enc 1 now]> t
  | Some r =>
      <[(kind, key) :=
          mkRow enc
            (if decide (value r ≠ enc) then version r + 1 else version r)%Z
            (if decide (value r ≠ enc) then now else updated_at r)]> t
  end.

(** [DELETE FROM zestor_kv WHERE kind=? AND key=?] *)
Definition deleteQuery (kind key : string) (t : gmap (string * string) row)
    : gmap (string * string) row :=
  delete (kind, key) t.

(** The rows [WHERE kind=?], by key. *)
Definition kindRows (kind : string) (t : gmap (string * string) row) : gmap string row :=
  default ∅ (map_curry (M1:=gmap string) (M2:=gmap string) t !! kind).

(** [ORDER BY kind, key] *)
Definition keyLe (a b : string * string * row) : Prop :=
  match String.compare a.1.1 b.1.1 with
  | Lt => True
  | Gt => False
  | Eq => String.leb a.1.2 b.1.2 = true
  end.

#[global] Instance keyLe_dec a b : Decision (keyLe a b).
Proof. unfold keyLe. destruct (String.compare _ _); apply _. Defined.

Definition orderedRows (t : gmap (string * string) row) : list (string * string * row) :=
  merge_sort keyLe (map_to_list t).

Section sqLiteStore.
Context {T : Type}.
Context (zero : T).

(** [codec.Codec]: [Marshal(v) ([]byte, error)] and
    [Unmarshal(data, &v) error], the latter returning the decoded value. *)
Record Codec := mkCodec {
  Marshal : T → string * option error;
  Unmarshal : string → T * option error;
}.

Record sqLiteStore := mkStore {
  db : DB;
  codec : Codec;
  (** kind -> set of watchers.  A [*watcher] is identified with the struct
      it points to: its channel is made with it and belongs to no other. *)
  subs : gmap string (gset watcher);
  closed : bool;
}.

Definition setRows (t : gmap (string * string) row) (s : sqLiteStore) : sqLiteStore :=
  mkStore (mkDB t (dbClosed (db s))) (codec s) (subs s) (closed s).

Definition setSubs (m : gmap string (gset watcher)) (s : sqLiteStore) : sqLiteStore :=
  mkStore (db s) (codec s) m (closed s).

(** [New]: the schema is applied to the database found at the DSN, whose
    table is [t]. *)
Definition New (c : Codec) (t : gmap (string * string) row) : sqLiteStore :=
  mkStore (mkDB t false) c ∅ false.

(** *** Readers *)

Definition Get (kind key : string) (s : sqLiteStore) : T * bool * option error :=
  if closed s then (zero, false, Some ErrClosed)
  else match getQuery kind key (rows (db s)) with
       | None => (zero, false, None)
       | Some blob =>
           match Unmarshal (codec s) blob with
           | (_, Some err) => (zero, false, Some err)
           | (v, None) => (v, true, None)
           end
       end.

(** The scan loop shared by [List], [Values] and [GetAll]: decode row after
    row, stopping at the first codec error. *)
Fixpoint decodeRows {K} (c : Codec) (l : list (K * row)) : list (K * T) * option error :=
  match l with
  | [] => ([], None)
  | (k, r) :: l =>
      match Unmarshal c (value r) with
      | (_, Some err) => ([], Some err)
      | (v, None) =>
          match decodeRows c l with
          | (_, Some err) => ([], Some err)
          | (out, None) => ((k, v) :: out, None)
          end
      end
  end.

Definition passes (filters : list (option (string → T → bool))) (k : string) (v : T) : bool :=
  forallb (λ f, match f with Some f => f k v | None => true end) filters.

Definition List (kind : string) (filters : list (option (string → T → bool)))
    (s : sqLiteStore) : option (gmap string T) * option error :=
  if closed s then (None, Some ErrClosed)
  else match decodeRows (codec s) (map_to_list (kindRows kind (rows (db s)))) with
       | (_, Some err) => (None, Some err)
       | (out, None) =>
           (Some (list_to_map (filter (λ kv, passes filters kv.1 kv.2 = true) out)), None)
       end.

Definition Count (kind : string) (s : sqLiteStore) : Z * option error :=
  if closed s then (0%Z, Some ErrClosed)
  else (Z.of_nat (size (kindRows kind (rows (db s)))), None).

Definition Keys (kind : string) (s : sqLiteStore) : option (list string) * option error :=
  if closed s then (None, Some ErrClosed)
  else (Some ((map_to_list (kindRows kind (rows (db s)))).*1), None).

Definition Values (kind : string) (s : sqLiteStore)
    : option (list (KeyValue T)) * option error :=
  if closed s then (None, Some ErrClosed)
  else match decodeRows (codec s) (map_to_list (kindRows kind (rows (db s)))) with
       | (_, Some err) => (None, Some err)
       | (out, None) => (Some ((λ kv, mkKeyValue kv.1 kv.2) <$> out), None)
       end.

Definition GetAll (s : sqLiteStore)
    : option (gmap string (gmap string T)) * option error :=
  if closed s then (None, Some ErrClosed)
  else match decodeRows (codec s) (orderedRows (rows (db s))) with
       | (_, Some err) => (None, Some err)
       | (out, None) =>
           (Some (foldl (λ acc kkv,
                     <[kkv.1.1 := <[kkv.1.2 := kkv.2]> (default ∅ (acc !! kkv.1.1))]> acc)
                   ∅ out), None)
       end.

(** [Dump] queries the handle without looking at [s.closed]; on a closed
    handle [database/sql] answers every query with its own error, and
    [Dump] returns that error's text. *)
Definition errDBClosed : error := ErrOther "sql: database is closed".

Definition dumpLine (r : string * string * row) : string :=
  r.1.1 +:+ "/" +:+ r.1.2 +:+ " v" +:+ pretty (version r.2) +:+ " ("
    +:+ pretty (String.length (value r.2)) +:+ "B) " +:+ updated_at r.2
    +:+ " | value=" +:+ value r.2 +:+ newline.

(** [rows.Scan(&kind, &key, &value, &ver, &updated)] with [var ver int]:
    the text and blob columns always scan into strings; [version] scans
    when it is a 64-bit integer.  A version past that range is held by
    SQLite as a REAL, which [database/sql] does not convert to [int]. *)
Definition scans (r : row) : bool :=
  bool_decide (- 2 ^ 63 ≤ version r < 2 ^ 63)%Z.

(** [if err := rows.Scan(...); err == nil { fmt.Fprintf(...) }]: a row
    that does not scan is skipped without a trace. *)
Definition Dump (s : sqLiteStore) : string :=
  if dbClosed (db s) then Error errDBClosed
  else foldr (λ r acc, if scans r.2 then dumpLine r +:+ acc else acc) ""
         (orderedRows (rows (db s))).

(** *** Writers

    Each writer runs one transaction and publishes after the commit.  The
    transaction part returns the store after commit (the store as it was
    when the transaction is rolled back), the events to publish and the
    results of the call. *)

Record committed (R : Type) := mkCommitted {
  after : sqLiteStore;
  events : list (Event T);
  result : R;
}.
Arguments mkCommitted {R} _ _ _.
Arguments after {R} _.
Arguments events {R} _.
Arguments result {R} _.

Definition publish (kind : string) (s : sqLiteStore) (ev : Event T) (h : heap T)
    : run (heap T) :=
  forM (deliver ev) (elements (default ∅ (subs s !! kind))) h.

Definition publishAll {R} (kind : string) (c : committed R) (h : heap T)
    : run (sqLiteStore * heap T * R) :=
  h' ← forM (publish kind (after c)) (events c) h;
  Done (after c, h', result c).

Definition errNoRows : error := ErrOther "sql: no rows in result set".

Definition SetTx (kind key : string) (value : T) (now : string) (s : sqLiteStore)
    : committed (bool * option error) :=
  if closed s then mkCommitted s [] (false, Some ErrClosed)
  else
    match Marshal (codec s) value with
    | (_, Some err) => mkCommitted s [] (false, Some err)
    | (enc, None) =>
        let '(tx, createdRows) := setQuery kind key enc now (rows (db s)) in
        let created := bool_decide (0 < createdRows)%Z in
        if negb created then
          match getQuery kind key tx with
          | None => mkCommitted s [] (false, Some errNoRows)
          | Some cur =>
              if decide (cur = enc)
              then mkCommitted (setRows tx s) [] (false, None)
              else
                let tx := updateQuery enc kind key now tx in
                mkCommitted (setRows tx s)
                  [mkEvent kind key EventTypeUpdate value] (created, None)
          end
        else
          mkCommitted (setRows tx s)
            [mkEvent kind key EventTypeCreate value] (created, None)
    end.

Definition Set_ (kind key : string) (value : T) (now : string) (s : sqLiteStore)
    (h : heap T) : run (sqLiteStore * heap T * (bool * option error)) :=
  publishAll kind (SetTx kind key value now s) h.

Definition SetFnTx (kind key : string) (fn : T → T * option error) (now : string)
    (s : sqLiteStore) : committed (bool * option error) :=
  if closed s then mkCommitted s [] (false, Some ErrClosed)
  else
    match getQuery kind key (rows (db s)) with
    | None => mkCommitted s [] (false, Some ErrKeyNotFound)
    | Some curBytes =>
        match Unmarshal (codec s) curBytes with
        | (_, Some err2) => mkCommitted s [] (false, Some err2)
        | (cur, None) =>
            match fn cur with
            | (_, Some err) => mkCommitted s [] (false, Some err)
            | (nv, None) =>
                match Marshal (codec s) nv with
                | (_, Some err) => mkCommitted s [] (false, Some err)
                | (newBytes, None) =>
                    if decide (curBytes = newBytes)
                    then mkCommitted s [] (false, None)
                    else
                      let tx := updateQuery newBytes kind key now (rows (db s)) in
                      mkCommitted (setRows tx s)
                        [mkEvent kind key EventTypeUpdate nv] (false, None)
                end
            end
        end
    end.

Definition SetFn (kind key : string) (fn : T → T * option error) (now : string)
    (s : sqLiteStore) (h : heap T)
    : run (sqLiteStore * heap T * (bool * option error)) :=
  publishAll kind (SetFnTx kind key fn now s) h.

(** The loop of [SetAll] over the supplied values: marshal, execute the
    prepared upsert, classify by the keys selected at the start of the
    transaction.  [now k] is the clock when the row of [k] is written. *)
Fixpoint setAllLoop (c : Codec) (kind : string) (now : string → string)
    (existingKeys : gset string) (l : list (string * T))
    (acc : gmap (string * string) row * gmap string T * gmap string T)
    : gmap (string * string) row * gmap string T * gmap string T * option error :=
  match l with
  | [] => (acc, None)
  | (k, v) :: l =>
      let '(tx, created, updated) := acc in
      match Marshal c v with
      | (_, Some err) => (acc, Some err)
      | (enc, None) =>
          let tx := upsertQuery kind k enc (now k) tx in
          setAllLoop c kind now existingKeys l
            (if decide (k ∈ existingKeys)
             then (tx, created, <[k := v]> updated)
             else (tx, <[k := v]> created, updated))
      end
  end.

Definition SetAllTx (kind : string) (values : gmap string T) (now : string → string)
    (s : sqLiteStore) : committed (option error) :=
  if closed s then mkCommitted s [] (Some ErrClosed)
  else
    let existingKeys := dom (kindRows kind (rows (db s))) in
    match setAllLoop (codec s) kind now existingKeys (map_to_list values)
            (rows (db s), ∅, ∅) with
    | (_, Some err) => mkCommitted s [] (Some err)
    | ((tx, created, updated), None) =>
        mkCommitted (setRows tx s)
          (eventsOf kind EventTypeCreate created ++ eventsOf kind EventTypeUpdate updated)
          None
    end.

Definition SetAll (kind : string) (values : gmap string T) (now : string → string)
    (s : sqLiteStore) (h : heap T) : run (sqLiteStore * heap T * option error) :=
  publishAll kind (SetAllTx kind values now s) h.

Definition DeleteTx (kind key : string) (s : sqLiteStore)
    : committed (bool * T * option error) :=
  if closed s then mkCommitted s [] (false, zero, Some ErrClosed)
  else
    match getQuery kind key (rows (db s)) with
    | None => mkCommitted s [] (false, zero, None)
    | Some prevBytes =>
        match Unmarshal (codec s) prevBytes with
        | (_, Some err) => mkCommitted s [] (false, zero, Some err)
        | (prev, None) =>
            let tx := deleteQuery kind key (rows (db s)) in
            mkCommitted (setRows tx s)
              [mkEvent kind key EventTypeDelete prev] (true, prev, None)
        end
    end.

Definition Delete (kind key : string) (s : sqLiteStore) (h : heap T)
    : run (sqLiteStore * heap T * (bool * T * option error)) :=
  publishAll kind (DeleteTx kind key s) h.

(** *** Watch *)

(** The [cancel] closure captures the kind and the watcher. *)
Record cancelFn := mkCancel {
  ckind : string;
  cw : watcher;
}.

(** The replay goroutine captures the kind and the watcher; it lists the
    kind when it runs. *)
Record goroutine := mkGoroutine {
  gkind : string;
  gw : watcher;
}.

Definition Watch (kind : string) (opts : list WatchOption) (s : sqLiteStore) (h : heap T)
    : sqLiteStore * heap T * option goroutine
      * (option nat * option cancelFn * option error) :=
  if decide (kind = "") then (s, h, None, (None, None, Some ErrKindRequired))
  else if closed s then (s, h, None, (None, None, Some ErrClosed))
  else
    let cfg := applyOpts opts in
    let bufSize := if decide (BufferSize cfg ≤ 0)%Z
                   then DefaultWatchBufferSize else BufferSize cfg in
    let '(c, h) := makeChan bufSize h in
    let w := mkWatcher c (EventTypes cfg) in
    let s := setSubs (<[kind := {[w]} ∪ default ∅ (subs s !! kind)]> (subs s)) s in
    let sendInitial :=
      match EventTypes cfg with
      | None => true
      | Some types => bool_decide (EventTypeCreate ∈ types)
      end in
    let g := if Initial cfg && sendInitial then Some (mkGoroutine kind w) else None in
    (s, h, g, (Some c, Some (mkCancel kind w), None)).

(** [Watch] with the runtime's check of the channel size: [make] is
    reached once the kind and the closed flag have passed, before any lock
    is taken and before the watcher is registered. *)
Definition WatchRun (maxChan : Z) (kind : string) (opts : list WatchOption)
    (s : sqLiteStore) (h : heap T)
    : run (sqLiteStore * heap T * option goroutine
           * (option nat * option cancelFn * option error)) :=
  if decide (kind = "") then Done (Watch kind opts s h)
  else if closed s then Done (Watch kind opts s h)
  else
    let cfg := applyOpts opts in
    let bufSize := if decide (BufferSize cfg ≤ 0)%Z
                   then DefaultWatchBufferSize else BufferSize cfg in
    made ← makeChanRun maxChan bufSize h;
    Done (Watch kind opts s h).

(** The goroutine body: [m, err := s.List(kind)], then one non-blocking
    send per entry. *)
Definition runReplay (g : goroutine) (s : sqLiteStore) (h : heap T) : run (heap T) :=
  match List (gkind g) [] s with
  | (Some m, None) => forM (trySend (ch (gw g))) (eventsOf (gkind g) EventTypeCreate m) h
  | _ => Done h
  end.

Definition cancel (c : cancelFn) (s : sqLiteStore) (h : heap T)
    : run (sqLiteStore * heap T) :=
  match subs s !! ckind c with
  | Some ws =>
      if decide (cw c ∈ ws) then
        let ws' := ws ∖ {[cw c]} in
        let m := if decide (size ws' = 0)
                 then delete (ckind c) (subs s)
                 else <[ckind c := ws']> (subs s) in
        h' ← closeChan (ch (cw c)) h;
        Done (setSubs m s, h')
      else Done (s, h)
  | None => Done (s, h)
  end.

Definition allWatchers (s : sqLiteStore) : list watcher :=
  map_to_list (subs s) ≫= λ km, elements km.2.

(** [s.subs = nil] reads as the empty map; [db.Close()] succeeds. *)
Definition Close (s : sqLiteStore) (h : heap T)
    : run (sqLiteStore * heap T * option error) :=
  if closed s then Done (s, h, None)
  else
    h' ← forM (λ w, closeChan (ch w)) (allWatchers s) h;
    Done (mkStore (mkDB (rows (db s)) true) (codec s) ∅ true, h', None).

End sqLiteStore.

Arguments Codec T : clear implicits.
Arguments sqLiteStore T : clear implicits.
Arguments committed T R : clear implicits.
Arguments mkCommitted {T R} _ _ _.
Arguments after {T R} _.
Arguments events {T R} _.
Arguments result {T R} _.

End sqlite.

(** ** store/sqlite/example: the consumer of a watch channel

    [go func() { for ev := range ch { fmt.Printf(...) } }()]: the loop
    receives until the channel is closed and drained.  [rangeChan] runs it
    for at most [fuel] receives and tells how it stands: ended, blocked on
    an open and empty channel, or still going. *)

Module example.
Import store.

Section consumer.
Context {T : Type}.

Inductive ranged :=
  | RangeEnded (seen : list (Event T)) (h : heap T)
  | RangeBlocked (seen : list (Event T)) (h : heap T)
  | RangeGoing (seen : list (Event T)) (h : heap T).

Fixpoint rangeChan (fuel : nat) (c : nat) (h : heap T) (seen : list (Event T)) : ranged :=
  match fuel with
  | 0 => RangeGoing seen h
  | S fuel =>
      match recv c h with
      | None => RangeBlocked seen h
      | Some (None, h') => RangeEnded seen h'
      | Some (Some ev, h') => rangeChan fuel c h' (seen ++ [ev])
      end
  end.

End consumer.

Arguments ranged T : clear implicits.

End example.

(** * Properties *)

(** ** Loops and channels *)

Lemma forM_cons {A S} (f : A → S → run S) (a : A) (l : list A) (s : S) :
  forM f (a :: l) s = f a s ≫= forM f l.
Proof. done. Qed.

Lemma forM_app {A S} (f : A → S → run S) (l1 l2 : list A) (s : S) :
  forM f (l1 ++ l2) s = (s' ← forM f l1 s; forM f l2 s').
Proof.
  revert s. induction l1 as [|a l1 IH]; intros s; simpl; [done|].
  destruct (f a s) as [s'|msg]; simpl; [apply IH|done].
Qed.

Lemma forM_bind {A B S} (f : B → S → run S) (k : A → list B) (l : list A) (s : S) :
  forM (λ a, forM f (k a)) l s = forM f (l ≫= k) s.
Proof.
  revert s. induction l as [|a l IH]; intros s; [done|].
  rewrite bind_cons, forM_app. simpl.
  destruct (forM f (k a) s) as [s'|msg]; simpl; [apply IH|done].
Qed.

Lemma forM_ext {A S} (f g : A → S → run S) (l : list A) (s : S) :
  (∀ a s, a ∈ l → f a s = g a s) → forM f l s = forM g l s.
Proof.
  revert s. induction l as [|a l IH]; intros s Hfg; simpl; [done|].
  rewrite (Hfg a s) by left. destruct (g a s) as [s'|msg]; simpl; [|done].
  apply IH. intros b s0 Hb. apply Hfg. by right.
Qed.

Lemma NoDup_fmap_inj_on {A B} (f : A → B) (l : list A) (x y : A) :
  NoDup (f <$> l) → x ∈ l → y ∈ l → f x = f y → x = y.
Proof.
  induction l as [|a l IH]; intros Hnd Hx Hy Heq.
  { by apply elem_of_nil in Hx. }
  rewrite fmap_cons in Hnd. apply NoDup_cons in Hnd as [Ha Hnd].
  apply elem_of_cons in Hx as [->|Hx], Hy as [->|Hy]; try done.
  - destruct Ha. rewrite Heq. apply list_elem_of_fmap. eauto.
  - destruct Ha. rewrite <-Heq. apply list_elem_of_fmap. eauto.
  - by apply IH.
Qed.

Lemma fmap_list_bind {A B C} (f : B → C) (g : A → list B) (l : list A) :
  f <$> (l ≫= g) = l ≫= λ a, f <$> g a.
Proof.
  induction l as [|a l IH]; [done|]. by rewrite !bind_cons, fmap_app, IH.
Qed.

Module heap_facts.
Import store.

(** The capacity [Watch] gives the channel: [cfg.BufferSize], or the
    default when that is not positive. *)
Definition bufSizeOf (cfg : WatchCfg) : Z :=
  if decide (BufferSize cfg ≤ 0)%Z then DefaultWatchBufferSize else BufferSize cfg.

Section heap_facts.
Context {T : Type}.
Implicit Types (h : heap T) (c : nat) (ev : Event T).

(** [grows h h']: [h'] is [h] with events appended to some buffers; no
    channel was made or closed. *)
Definition grows h h' : Prop :=
  dones h' = dones h ∧
  ∀ c, match chans h !! c, chans h' !! c with
       | Some st, Some st' =>
           isClosed st' = isClosed st ∧ cap st' = cap st ∧
           ∃ evs, buf st' = buf st ++ evs
       | None, None => True
       | _, _ => False
       end.

Lemma grows_refl h : grows h h.
Proof.
  split; [done|]. intros c. destruct (chans h !! c) as [st|]; [|done].
  repeat split. exists []. by rewrite app_nil_r.
Qed.

Lemma grows_trans h1 h2 h3 : grows h1 h2 → grows h2 h3 → grows h1 h3.
Proof.
  intros [Hd1 H1] [Hd2 H2]. split; [congruence|]. intros c.
  specialize (H1 c). specialize (H2 c).
  destruct (chans h1 !! c) as [st1|], (chans h2 !! c) as [st2|],
    (chans h3 !! c) as [st3|]; try done.
  destruct H1 as (? & ? & evs1 & ?), H2 as (? & ? & evs2 & ?).
  repeat split; [congruence..|]. exists (evs1 ++ evs2).
  rewrite app_assoc. congruence.
Qed.

Lemma grows_open h h' c : grows h h' → chanOpen c h → chanOpen c h'.
Proof.
  intros [_ H] (st & Hst & Ho). specialize (H c). rewrite Hst in H.
  destruct (chans h' !! c) as [st'|] eqn:E; [|done].
  exists st'. split; [done|]. destruct H as (-> & _). done.
Qed.

Lemma grows_open_inv h h' c : grows h h' → chanOpen c h' → chanOpen c h.
Proof.
  intros [_ H] (st' & Hst & Ho). specialize (H c). rewrite Hst in H.
  destruct (chans h !! c) as [st|] eqn:E; [|done].
  exists st. split; [done|]. destruct H as (<- & _). done.
Qed.

Lemma grows_closed h h' c : grows h h' → chanClosed c h → chanClosed c h'.
Proof.
  intros [_ H] (st & Hst & Ho). specialize (H c). rewrite Hst in H.
  destruct (chans h' !! c) as [st'|] eqn:E; [|done].
  exists st'. split; [done|]. destruct H as (-> & _). done.
Qed.

Lemma grows_dom h h' : grows h h' → dom (chans h') = dom (chans h).
Proof.
  intros [_ H]. apply set_eq. intros c. rewrite !elem_of_dom.
  specialize (H c).
  destruct (chans h !! c), (chans h' !! c); try done;
    split; intros [? ?]; by eauto.
Qed.

(** A non-blocking send on an open channel never panics; it appends the
    event when there is room and drops it otherwise. *)
Lemma trySend_open c ev h st :
  chans h !! c = Some st → isClosed st = false →
  trySend c ev h =
    Done (if decide (length (buf st) < cap st)
          then updChan c (mkChan (buf st ++ [ev]) (cap st) false) h
          else h).
Proof. intros Hst Ho. unfold trySend. rewrite Hst, Ho. by case_decide. Qed.

Lemma trySend_grows c ev h :
  chanOpen c h → ∃ h', trySend c ev h = Done h' ∧ grows h h'.
Proof.
  intros (st & Hst & Ho). rewrite (trySend_open _ _ _ st) by done.
  eexists. split; [done|]. case_decide; [|apply grows_refl].
  split; [done|]. intros c'. simpl.
  destruct (decide (c' = c)) as [->|Hne].
  - rewrite Hst, lookup_insert_eq. simpl. repeat split; [by rewrite Ho|by eexists].
  - rewrite lookup_insert_ne by done.
    destruct (chans h !! c') as [st'|]; [|done].
    repeat split. exists []. by rewrite app_nil_r.
Qed.

(** A sequence of sends, each a pair of a channel and an event. *)
Definition send1 (ce : nat * Event T) (h : heap T) : run (heap T) :=
  trySend ce.1 ce.2 h.

Definition sentTo c (l : list (nat * Event T)) : list (Event T) :=
  (filter (λ ce, ce.1 = c) l).*2.

Lemma sentTo_app c l1 l2 : sentTo c (l1 ++ l2) = sentTo c l1 ++ sentTo c l2.
Proof. unfold sentTo. by rewrite filter_app, fmap_app. Qed.

Lemma sends_spec (l : list (nat * Event T)) h :
  (∀ ce, ce ∈ l → chanOpen ce.1 h) →
  ∃ h', forM send1 l h = Done h' ∧ grows h h' ∧
    ∀ c st, chans h !! c = Some st →
      length (buf st) + length (sentTo c l) ≤ cap st →
      chanBuf c h' = buf st ++ sentTo c l.
Proof.
  revert h. induction l as [|[c0 ev] l IH]; intros h Hopen.
  - exists h. split; [done|]. split; [apply grows_refl|].
    intros c st Hst _. unfold chanBuf. rewrite Hst. by rewrite app_nil_r.
  - assert (chanOpen c0 h) as Hc0 by (apply (Hopen (c0, ev)); left).
    destruct (trySend_grows c0 ev h Hc0) as (h1 & Hh1 & Hg1).
    change (forM send1 ((c0, ev) :: l) h)
      with (trySend c0 ev h ≫= forM send1 l).
    rewrite Hh1. simpl.
    destruct (IH h1) as (h' & Hrun & Hg & Hbuf).
    { intros ce Hce. eapply grows_open; [done|]. apply Hopen. by right. }
    exists h'. split; [done|]. split; [by eapply grows_trans|].
    intros c st Hst Hroom. unfold sentTo in *. rewrite filter_cons in *.
    simpl in *. destruct Hc0 as (st0 & Hst0 & Ho0).
    rewrite (trySend_open _ _ _ st0) in Hh1 by done. injection Hh1 as Hh1.
    destruct (decide (c0 = c)) as [->|Hne].
    + csimpl in Hroom. rewrite Hst in Hst0. injection Hst0 as <-.
      assert (length (buf st) < cap st) as Hlt by lia.
      rewrite decide_True in Hh1 by done. subst h1.
      rewrite (Hbuf c (mkChan (buf st ++ [ev]) (cap st) false)).
      * simpl. by rewrite <-app_assoc.
      * simpl. by rewrite lookup_insert_eq.
      * simpl. rewrite length_app. simpl. lia.
    + apply Hbuf; [|done].
      subst h1. case_decide; [|done]. simpl. by rewrite lookup_insert_ne.
Qed.

(** The fan-out of one event is the sequence of its sends to the watchers
    that accept it. *)
Definition sendsOf (wchs : list watcher) ev : list (nat * Event T) :=
  (λ w, (ch w, ev)) <$> filter (λ w, accepts w (EventType ev) = true) wchs.

Lemma deliver_accepted ev (w : watcher) h :
  accepts w (EventType ev) = true → deliver ev w h = trySend (ch w) ev h.
Proof. intros E. unfold deliver. by rewrite E. Qed.

Lemma deliver_filtered ev (w : watcher) h :
  accepts w (EventType ev) = false → deliver ev w h = Done h.
Proof. intros E. unfold deliver. by rewrite E. Qed.

Lemma fanout_sends wchs ev h : fanout wchs ev h = forM send1 (sendsOf wchs ev) h.
Proof.
  unfold fanout, sendsOf. revert h.
  induction wchs as [|w wchs IH]; intros h; [done|].
  rewrite filter_cons, forM_cons.
  destruct (accepts w (EventType ev)) eqn:E.
  - rewrite decide_True by done. rewrite fmap_cons, forM_cons.
    rewrite deliver_accepted by done.
    change (send1 (ch w, ev) h) with (trySend (ch w) ev h).
    destruct (trySend (ch w) ev h); simpl; [apply IH|done].
  - rewrite decide_False by done. rewrite deliver_filtered by done. apply IH.
Qed.

Lemma fanoutAll_sends wchs (evs : list (Event T)) h :
  forM (fanout wchs) evs h = forM send1 (evs ≫= sendsOf wchs) h.
Proof.
  rewrite <-forM_bind. apply forM_ext. intros ev h' _. apply fanout_sends.
Qed.

(** Closing, one after the other, channels that are open and distinct. *)
Lemma closeAll_spec (l : list nat) h :
  NoDup l → (∀ c, c ∈ l → chanOpen c h) →
  ∃ h', forM closeChan l h = Done h' ∧ dones h' = dones h ∧
    dom (chans h') = dom (chans h) ∧
    (∀ c, c ∈ l → chanClosed c h') ∧
    (∀ c, c ∉ l → chans h' !! c = chans h !! c) ∧
    (∀ c, chanBuf c h' = chanBuf c h).
Proof.
  revert h. induction l as [|c0 l IH]; intros h Hnd Hopen.
  - exists h. repeat split; try done. intros c Hc. by apply elem_of_nil in Hc.
  - apply NoDup_cons in Hnd as [Hc0 Hnd].
    destruct (Hopen c0) as (st0 & Hst0 & Ho0); [left|].
    set (h1 := updChan c0 (mkChan (buf st0) (cap st0) true) h).
    rewrite forM_cons.
    assert (closeChan c0 h = Done h1) as ->.
    { unfold closeChan. by rewrite Hst0, Ho0. }
    simpl.
    destruct (IH h1 Hnd) as (h' & Hrun & Hd & Hdom & Hcl & Hother & Hbuf).
    { intros c Hc. destruct (Hopen c) as (st & Hst & Ho); [by right|].
      exists st. split; [|done]. unfold h1. simpl.
      rewrite lookup_insert_ne; [done|]. intros ->. done. }
    exists h'. split; [done|]. split; [by rewrite Hd|]. split.
    { rewrite Hdom. unfold h1. simpl. rewrite dom_insert_L.
      apply elem_of_dom_2 in Hst0. apply set_eq. intros x.
      rewrite elem_of_union, elem_of_singleton.
      split; [by intros [->|?]|by right]. }
    split; [|split].
    + intros c Hc. apply elem_of_cons in Hc as [->|Hc]; [|by apply Hcl].
      exists (mkChan (buf st0) (cap st0) true). split; [|done].
      rewrite Hother by done. unfold h1. simpl. by rewrite lookup_insert_eq.
    + intros c Hc. apply not_elem_of_cons in Hc as [Hne Hc].
      rewrite Hother by done. unfold h1. simpl. by rewrite lookup_insert_ne.
    + intros c. rewrite Hbuf. unfold chanBuf, h1. simpl.
      destruct (decide (c = c0)) as [->|Hne].
      * by rewrite lookup_insert_eq, Hst0.
      * by rewrite lookup_insert_ne.
Qed.

(** What one watcher is sent by a fan-out over watchers with distinct
    channels: the events its filter accepts, in order. *)
Lemma sentTo_sendsOf_none (wchs : list watcher) c ev :
  c ∉ ch <$> wchs → sentTo c (sendsOf wchs ev) = [].
Proof.
  unfold sentTo, sendsOf. induction wchs as [|w wchs IH]; intros Hc; [done|].
  rewrite fmap_cons in Hc. apply not_elem_of_cons in Hc as [Hne Hc].
  rewrite filter_cons. case_decide; [|by apply IH].
  rewrite fmap_cons, filter_cons. simpl. rewrite decide_False by done.
  by apply IH.
Qed.

Lemma sentTo_sendsOf (wchs : list watcher) (w0 : watcher) ev :
  NoDup (ch <$> wchs) → w0 ∈ wchs →
  sentTo (ch w0) (sendsOf wchs ev) =
    if accepts w0 (EventType ev) then [ev] else [].
Proof.
  induction wchs as [|w wchs IH]; intros Hnd Hin.
  { by apply elem_of_nil in Hin. }
  rewrite fmap_cons in Hnd. apply NoDup_cons in Hnd as [Hw Hnd].
  change (sendsOf (w :: wchs) ev)
    with ((λ w, (ch w, ev)) <$>
          filter (λ w, accepts w (EventType ev) = true) (w :: wchs)).
  rewrite filter_cons.
  apply elem_of_cons in Hin as [->|Hin].
  - pose proof (sentTo_sendsOf_none wchs (ch w) ev Hw) as Hrest.
    unfold sendsOf in Hrest.
    destruct (accepts w (EventType ev)) eqn:E.
    + rewrite decide_True by done. rewrite fmap_cons.
      unfold sentTo in *. rewrite filter_cons. simpl.
      rewrite decide_True by done. rewrite fmap_cons. by rewrite Hrest.
    + rewrite decide_False by done. done.
  - assert (ch w ≠ ch w0) as Hne.
    { intros Heq. apply Hw. rewrite Heq. apply list_elem_of_fmap. eauto. }
    specialize (IH Hnd Hin). unfold sendsOf in IH.
    case_decide; [|done].
    rewrite fmap_cons. unfold sentTo in *. rewrite filter_cons. simpl.
    by rewrite decide_False by done.
Qed.

Lemma sentTo_fanoutAll (wchs : list watcher) (w0 : watcher) (evs : list (Event T)) :
  NoDup (ch <$> wchs) → w0 ∈ wchs →
  sentTo (ch w0) (evs ≫= sendsOf wchs) =
    filter (λ ev, accepts w0 (EventType ev) = true) evs.
Proof.
  intros Hnd Hin. induction evs as [|ev evs IH]; [done|].
  rewrite bind_cons, sentTo_app, IH, sentTo_sendsOf by done.
  rewrite filter_cons. by destruct (accepts w0 (EventType ev)).
Qed.

(** Fan-out to registered, open channels never panics and only appends. *)
Lemma fanoutAll_total (wchs : list watcher) (evs : list (Event T)) h :
  (∀ w, w ∈ wchs → chanOpen (ch w) h) →
  ∃ h', forM (fanout wchs) evs h = Done h' ∧ grows h h' ∧
    ∀ w0 st, NoDup (ch <$> wchs) → w0 ∈ wchs →
      chans h !! ch w0 = Some st →
      length (buf st) + length evs ≤ cap st →
      chanBuf (ch w0) h' =
        buf st ++ filter (λ ev, accepts w0 (EventType ev) = true) evs.
Proof.
  intros Hopen. rewrite fanoutAll_sends.
  destruct (sends_spec (evs ≫= sendsOf wchs) h) as (h' & Hrun & Hg & Hbuf).
  { intros [c ev] Hce. apply list_elem_of_bind in Hce as (ev' & Hce & _).
    unfold sendsOf in Hce. apply list_elem_of_fmap in Hce as (w & [= -> ->] & Hw).
    apply list_elem_of_filter in Hw as [_ Hw]. by apply Hopen. }
  exists h'. split; [done|]. split; [done|].
  intros w0 st Hnd Hin Hst Hroom.
  rewrite <-(sentTo_fanoutAll wchs w0 evs) by done.
  apply Hbuf; [done|]. rewrite sentTo_fanoutAll by done.
  pose proof (length_filter (λ ev, accepts w0 (EventType ev) = true) evs). lia.
Qed.

(** Loops that send to each watcher's own channel, watcher by watcher. *)
Lemma sentTo_own (wchs : list watcher) (w0 : watcher)
    (k : watcher → list (nat * Event T)) :
  (∀ w ce, ce ∈ k w → ce.1 = ch w) →
  NoDup (ch <$> wchs) → w0 ∈ wchs →
  sentTo (ch w0) (wchs ≫= k) = (k w0).*2.
Proof.
  intros Hown.
  assert (∀ w, sentTo (ch w) (k w) = (k w).*2) as Hself.
  { intros w. unfold sentTo. f_equal. pose proof (Hown w) as Hw.
    induction (k w) as [|ce l IH]; [done|]. rewrite filter_cons.
    rewrite decide_True by (apply Hw; left). f_equal. apply IH.
    intros ce' Hce'. apply Hw. by right. }
  assert (∀ w c, c ≠ ch w → sentTo c (k w) = []) as Hother.
  { intros w c Hne. unfold sentTo. pose proof (Hown w) as Hw.
    induction (k w) as [|ce l IH]; [done|]. rewrite filter_cons.
    rewrite decide_False by (rewrite (Hw ce) by left; done). apply IH.
    intros ce' Hce'. apply Hw. by right. }
  induction wchs as [|w wchs IH]; intros Hnd Hin.
  { by apply elem_of_nil in Hin. }
  rewrite fmap_cons in Hnd. apply NoDup_cons in Hnd as [Hw Hnd].
  rewrite bind_cons, sentTo_app.
  apply elem_of_cons in Hin as [->|Hin].
  - rewrite Hself.
    assert (sentTo (ch w) (wchs ≫= k) = []) as ->; [|by rewrite app_nil_r].
    clear -Hw Hother. induction wchs as [|w' wchs IH]; [done|].
    rewrite fmap_cons in Hw. apply not_elem_of_cons in Hw as [Hne Hw].
    rewrite bind_cons, sentTo_app, Hother by done. by apply IH.
  - rewrite Hother; [by apply IH|].
    intros Heq. apply Hw. rewrite <-Heq. apply list_elem_of_fmap. eauto.
Qed.

Lemma forM_trySend c (evs : list (Event T)) h :
  forM (trySend c) evs h = forM send1 ((λ ev, (c, ev)) <$> evs) h.
Proof.
  revert h. induction evs as [|ev evs IH]; intros h; [done|].
  rewrite fmap_cons, !forM_cons. change (send1 (c, ev) h) with (trySend c ev h).
  destruct (trySend c ev h); simpl; [apply IH|done].
Qed.

(** The supplied entries whose key is absent from, resp. present in, the
    kind before the call. *)
Definition absentIn {V} (m0 : gmap string V) (values : gmap string T) : gmap string T :=
  filter (λ kv, kv.1 ∉ dom m0) values.

Definition presentIn {V} (m0 : gmap string V) (values : gmap string T) : gmap string T :=
  filter (λ kv, kv.1 ∈ dom m0) values.

Lemma absentIn_lookup {V} (m0 : gmap string V) (values : gmap string T) k v :
  absentIn m0 values !! k = Some v ↔ values !! k = Some v ∧ m0 !! k = None.
Proof.
  unfold absentIn. rewrite map_lookup_filter_Some. simpl.
  by rewrite not_elem_of_dom.
Qed.

Lemma presentIn_lookup {V} (m0 : gmap string V) (values : gmap string T) k v :
  presentIn m0 values !! k = Some v ↔ values !! k = Some v ∧ is_Some (m0 !! k).
Proof.
  unfold presentIn. rewrite map_lookup_filter_Some. simpl.
  by rewrite elem_of_dom.
Qed.

Lemma size_absent_present {V} (m0 : gmap string V) (values : gmap string T) :
  size (absentIn m0 values) + size (presentIn m0 values) = size values.
Proof.
  unfold absentIn, presentIn.
  induction values as [|k v m Hk IH] using map_ind.
  { by rewrite !map_filter_empty, !map_size_empty. }
  rewrite map_size_insert_None by done.
  destruct (decide (k ∈ dom m0)) as [Hin|Hin].
  - rewrite (map_filter_insert_True (λ kv, kv.1 ∈ dom m0)) by done.
    rewrite (map_filter_insert_False (λ kv, kv.1 ∉ dom m0)) by (by intros ?).
    rewrite delete_id by done. rewrite map_size_insert_None; [lia|].
    by rewrite map_lookup_filter_None_2; [|left].
  - rewrite (map_filter_insert_True (λ kv, kv.1 ∉ dom m0)) by done.
    rewrite (map_filter_insert_False (λ kv, kv.1 ∈ dom m0)) by done.
    rewrite delete_id by done. rewrite map_size_insert_None; [lia|].
    by rewrite map_lookup_filter_None_2; [|left].
Qed.

(** The events made from a map: one per entry, carrying its value. *)
Lemma elem_of_eventsOf kind evType (m : gmap string T) ev :
  ev ∈ eventsOf kind evType m ↔
    ∃ k v, m !! k = Some v ∧ ev = mkEvent kind k evType v.
Proof.
  unfold eventsOf. rewrite list_elem_of_fmap. split.
  - intros ([k v] & -> & Hin%elem_of_map_to_list). by exists k, v.
  - intros (k & v & Hkv & ->). exists (k, v). split; [done|].
    by apply elem_of_map_to_list.
Qed.

Lemma eventsOf_NoDup kind evType (m : gmap string T) :
  NoDup (Name <$> eventsOf kind evType m).
Proof.
  unfold eventsOf. rewrite <-list_fmap_compose.
  apply (NoDup_fmap_fst (map_to_list m)); [|apply NoDup_map_to_list].
  intros k v1 v2 H1%elem_of_map_to_list H2%elem_of_map_to_list. congruence.
Qed.

Lemma eventsOf_length kind evType (m : gmap string T) :
  length (eventsOf kind evType m) = size m.
Proof. unfold eventsOf. by rewrite length_fmap, length_map_to_list. Qed.

(** With no filter every event type is accepted. *)
Lemma filter_accepts_all (w : watcher) (evs : list (Event T)) :
  eventTypes w = None → filter (λ ev, accepts w (EventType ev) = true) evs = evs.
Proof.
  intros Hw. induction evs as [|ev evs IH]; [done|].
  rewrite filter_cons, IH. unfold accepts. by rewrite Hw.
Qed.

(** Sending a list of events to one open channel that has room for all. *)
Lemma sendAll_room c (evs : list (Event T)) h st :
  chans h !! c = Some st → isClosed st = false →
  length (buf st) + length evs ≤ cap st →
  ∃ h', forM (trySend c) evs h = Done h' ∧ grows h h' ∧
    chanBuf c h' = buf st ++ evs.
Proof.
  intros Hst Ho Hroom. rewrite forM_trySend.
  destruct (sends_spec ((λ ev, (c, ev)) <$> evs) h) as (h' & Hrun & Hg & Hbuf).
  { intros ce (ev & -> & _)%list_elem_of_fmap. by exists st. }
  assert (sentTo c ((λ ev, (c, ev)) <$> evs) = evs) as Hsent.
  { unfold sentTo. clear. induction evs as [|ev evs IH]; [done|].
    rewrite fmap_cons, filter_cons. simpl. rewrite decide_True by done.
    rewrite fmap_cons. simpl. by rewrite IH. }
  exists h'. split_and!; try done.
  rewrite (Hbuf c st Hst) by (by rewrite Hsent). by rewrite Hsent.
Qed.

(** Receiving from a closed, drained channel reports the end of the
    stream. *)
Lemma recv_closed_empty c h st :
  chans h !! c = Some st → isClosed st = true → buf st = [] →
  recv c h = Some (None, h).
Proof. intros Hst Hc Hb. unfold recv. by rewrite Hst, Hb, Hc. Qed.

Lemma trySend_Done_grows c ev h h' : trySend c ev h = Done h' → grows h h'.
Proof.
  unfold trySend. destruct (chans h !! c) as [st|] eqn:Hst; [|done].
  destruct (isClosed st) eqn:Ho; [done|]. intros Hrun.
  destruct (trySend_grows c ev h) as (h2 & Hh2 & Hg); [by exists st|].
  unfold trySend in Hh2. rewrite Hst, Ho in Hh2. congruence.
Qed.


End heap_facts.
End heap_facts.

(** ** The in-memory engine: registry and channels *)

Module gomap_facts.
Import store heap_facts gomap.

Section gomap_facts.
Context {T : Type} (zero : T).
Implicit Types (s : memStore T) (h : heap T) (w : watcher).

(** [reg s kind id w]: watcher [w] is registered under [id] for [kind]. *)
Definition reg s (kind id : string) w : Prop :=
  ∃ m, watchers s !! kind = Some m ∧ m !! id = Some w.

(** The invariant tying the registry to the channel heap: the registered
    channels are open, pairwise distinct, and they are all the open
    channels there are; watcher ids come from the counter; a closed store
    has no watcher left. *)
Record wf s h : Prop := mkWf {
  wf_open : ∀ kind id w, reg s kind id w → chanOpen (ch w) h;
  wf_inj : ∀ k1 i1 w1 k2 i2 w2,
    reg s k1 i1 w1 → reg s k2 i2 w2 → ch w1 = ch w2 → k1 = k2 ∧ i1 = i2;
  wf_only : ∀ c, chanOpen c h → ∃ kind id w, reg s kind id w ∧ ch w = c;
  wf_ids : ∀ kind id w, reg s kind id w →
    ∃ n, id = pretty n ∧ (n ≤ watcherID s)%N;
  wf_closed : closed s = true → ∀ kind id w, ¬ reg s kind id w;
}.

(** [keeps s s']: same registry, same flag, same counter. *)
Definition keeps s s' : Prop :=
  (∀ kind id w, reg s' kind id w ↔ reg s kind id w) ∧
  closed s' = closed s ∧ watcherID s' = watcherID s.

Lemma mem_keeps_refl s : keeps s s.
Proof. by repeat split. Qed.

Lemma keeps_trans s1 s2 s3 : keeps s1 s2 → keeps s2 s3 → keeps s1 s3.
Proof.
  intros (H1 & ? & ?) (H2 & ? & ?). repeat split; try congruence.
  - intros ?. by apply H1, H2.
  - intros ?. by apply H2, H1.
Qed.

Lemma keeps_ensureKind kind s : keeps s (ensureKind kind s).
Proof.
  repeat split; try done; unfold reg, ensureKind; simpl.
  - intros (m & Hm & Hw). destruct (watchers s !! kind) as [m0|] eqn:E; [eauto|].
    destruct (decide (kind0 = kind)) as [->|Hne].
    + rewrite lookup_insert_eq in Hm. injection Hm as <-.
      by rewrite lookup_empty in Hw.
    + rewrite lookup_insert_ne in Hm by done. eauto.
  - intros (m & Hm & Hw). exists m. split; [|done].
    destruct (watchers s !! kind) as [m0|] eqn:E; [done|].
    rewrite lookup_insert_ne; [done|]. intros ->. congruence.
Qed.

Lemma keeps_setKinds ks s : keeps s (setKinds ks s).
Proof. by repeat split. Qed.

Lemma mem_wf_keeps s s' h : keeps s s' → wf s h → wf s' h.
Proof.
  intros (Hreg & Hc & Hn) [Ho Hi Hon Hid Hcl]. split.
  - intros ??? ?%Hreg. eauto.
  - intros ?????? ?%Hreg ?%Hreg. eauto.
  - intros c Hc'. destruct (Hon c Hc') as (k & i & w & ? & ?).
    exists k, i, w. split; [by apply Hreg|done].
  - intros ??? ?%Hreg. rewrite Hn. eauto.
  - rewrite Hc. intros Hcs ??? ?%Hreg. by eapply Hcl.
Qed.

Lemma mem_wf_grows s h h' : grows h h' → wf s h → wf s h'.
Proof.
  intros Hg [Ho Hi Hon Hid Hcl]. split; try done.
  - intros ??? ?. eapply grows_open; eauto.
  - intros c Hc. apply Hon. by eapply grows_open_inv.
Qed.

Lemma elem_of_snapshot kind s w :
  w ∈ snapshot kind s ↔ ∃ id, reg s kind id w.
Proof.
  unfold snapshot, kindWatchers, reg. rewrite list_elem_of_fmap. split.
  - intros ([id w'] & -> & Hin). apply elem_of_map_to_list in Hin.
    exists id. destruct (watchers s !! kind) as [m|]; simpl in *; [eauto|].
    by rewrite lookup_empty in Hin.
  - intros (id & m & Hm & Hw). exists (id, w). split; [done|].
    apply elem_of_map_to_list. by rewrite Hm.
Qed.

Lemma snapshot_NoDup kind s h : wf s h → NoDup (ch <$> snapshot kind s).
Proof.
  intros Hwf. unfold snapshot. rewrite <-list_fmap_compose.
  apply NoDup_fmap_2_strong; [|apply NoDup_map_to_list].
  intros [i1 w1] [i2 w2] H1 H2 Hch. simpl in Hch.
  apply elem_of_map_to_list in H1, H2. unfold kindWatchers in *.
  destruct (watchers s !! kind) as [m|] eqn:E; simpl in *;
    [|by rewrite lookup_empty in H1].
  destruct (wf_inj _ _ Hwf kind i1 w1 kind i2 w2) as [_ ->]; try done;
    [by exists m..|].
  congruence.
Qed.

(** The fan-out phase of a writer, on a well-formed store: it never
    panics, it only appends to buffers, and a watcher of the snapshot whose
    buffer has room receives the events its filter accepts. *)
Lemma unlockAndSend_total {R} (l : locked T R) kind h :
  wf (after l) h →
  wchs l = [] ∨ wchs l = snapshot kind (after l) →
  ∃ h', unlockAndSend l h = Done (after l, h', result l) ∧ grows h h' ∧
    wf (after l) h' ∧
    ∀ w0 st, w0 ∈ wchs l → chans h !! ch w0 = Some st →
      length (buf st) + length (events l) ≤ cap st →
      chanBuf (ch w0) h' =
        buf st ++ filter (λ ev, accepts w0 (EventType ev) = true) (events l).
Proof.
  intros Hwf Hw. unfold unlockAndSend.
  destruct (fanoutAll_total (wchs l) (events l) h) as (h' & Hrun & Hg & Hbuf).
  { intros w Hin. destruct Hw as [Hw|Hw]; rewrite Hw in Hin.
    - by apply elem_of_nil in Hin.
    - apply elem_of_snapshot in Hin as (id & Hreg). by eapply wf_open. }
  exists h'. rewrite Hrun. simpl. split; [done|]. split; [done|].
  split; [by eapply mem_wf_grows|].
  intros w0 st Hin Hst Hroom. apply Hbuf; try done.
  destruct Hw as [Hw|Hw]; rewrite Hw in *.
  - by apply elem_of_nil in Hin.
  - by eapply snapshot_NoDup.
Qed.

(** *** The writers keep the registry and send to the kind's snapshot *)

Lemma SetLocked_shape kind key value s :
  let l := SetLocked zero kind key value s in
  keeps s (after l) ∧ (wchs l = [] ∨ wchs l = snapshot kind (after l)).
Proof.
  unfold SetLocked. destruct (closed s); simpl; [by auto using mem_keeps_refl|].
  destruct (validate kind value (ensureKind kind s)); simpl;
    [by auto using keeps_ensureKind|].
  match goal with |- context [setKinds ?ks ?s0] =>
    assert (keeps s (setKinds ks s0)) as Hk
      by (eapply keeps_trans; [apply keeps_ensureKind|apply keeps_setKinds])
  end.
  destruct (compareFn _ _ _); simpl; auto.
Qed.

Lemma DeleteLocked_shape kind key s :
  let l := DeleteLocked zero kind key s in
  keeps s (after l) ∧ (wchs l = [] ∨ wchs l = snapshot kind (after l)).
Proof.
  unfold DeleteLocked. destruct (closed s); simpl; [by auto using mem_keeps_refl|].
  destruct (kindMap kind (ensureKind kind s) !! key); simpl;
    [|by auto using keeps_ensureKind].
  split; [|by right].
  eapply keeps_trans; [apply keeps_ensureKind|apply keeps_setKinds].
Qed.

Lemma SetFnLocked_shape kind key fn s :
  let l := SetFnLocked kind key fn s in
  keeps s (after l) ∧ (wchs l = [] ∨ wchs l = snapshot kind (after l)).
Proof.
  unfold SetFnLocked. destruct (closed s); simpl; [by auto using mem_keeps_refl|].
  destruct (kindMap kind (ensureKind kind s) !! key) as [prev|]; simpl;
    [|by auto using keeps_ensureKind].
  destruct (fn prev) as [value [err|]]; simpl; [by auto using keeps_ensureKind|].
  split; [|by right].
  eapply keeps_trans; [apply keeps_ensureKind|apply keeps_setKinds].
Qed.

(** On a well-formed store the single-key writers always return. *)
Lemma mem_Set_total kind key value s h :
  wf s h →
  let l := SetLocked zero kind key value s in
  ∃ h', Set_ zero kind key value s h = Done (after l, h', result l) ∧
    grows h h' ∧ wf (after l) h'.
Proof.
  intros Hwf l. destruct (SetLocked_shape kind key value s) as [Hk Hw].
  destruct (unlockAndSend_total l kind h) as (h' & ? & ? & ? & _); eauto.
  by eapply mem_wf_keeps.
Qed.

Lemma mem_Delete_total kind key s h :
  wf s h →
  let l := DeleteLocked zero kind key s in
  ∃ h', Delete zero kind key s h = Done (after l, h', result l) ∧
    grows h h' ∧ wf (after l) h'.
Proof.
  intros Hwf l. destruct (DeleteLocked_shape kind key s) as [Hk Hw].
  destruct (unlockAndSend_total l kind h) as (h' & ? & ? & ? & _); eauto.
  by eapply mem_wf_keeps.
Qed.

Lemma mem_SetFn_total kind key fn s h :
  wf s h →
  let l := SetFnLocked kind key fn s in
  ∃ h', SetFn kind key fn s h = Done (after l, h', result l) ∧
    grows h h' ∧ wf (after l) h'.
Proof.
  intros Hwf l. destruct (SetFnLocked_shape kind key fn s) as [Hk Hw].
  destruct (unlockAndSend_total l kind h) as (h' & ? & ? & ? & _); eauto.
  by eapply mem_wf_keeps.
Qed.

(** [ensureKind] changes no entry: it can only register the kind. *)
Lemma kindMap_ensureKind kind kind' s :
  kindMap kind' (ensureKind kind s) = kindMap kind' s.
Proof.
  unfold kindMap, ensureKind. simpl.
  destruct (kinds s !! kind) as [m|] eqn:E; [done|].
  destruct (decide (kind' = kind)) as [->|Hne].
  - by rewrite lookup_insert_eq, E.
  - by rewrite lookup_insert_ne.
Qed.

Lemma Get_ensureKind kind kind' key s :
  Get zero kind' key (ensureKind kind s) = Get zero kind' key s.
Proof. unfold Get. by rewrite kindMap_ensureKind. Qed.

Lemma ensureKind_registered kind s :
  is_Some (kinds (ensureKind kind s) !! kind).
Proof.
  unfold ensureKind. simpl. destruct (kinds s !! kind) eqn:E.
  - by rewrite E.
  - by rewrite lookup_insert_eq.
Qed.

Lemma ensureKind_idem kind s :
  is_Some (kinds s !! kind) → is_Some (watchers s !! kind) →
  ensureKind kind s = s.
Proof. intros [m Hm] [ws Hws]. unfold ensureKind. rewrite Hm, Hws. by destruct s. Qed.

(** *** Watch, cancel and Close *)

(** The closures handed out so far: each has its own [done] channel, an id
    drawn from the counter, and a [done] channel that is still open for as
    long as its watcher is registered. *)
Definition issued (cs : list cancelFn) s h : Prop :=
  NoDup (cdone <$> cs) ∧
  ∀ c, c ∈ cs →
    is_Some (dones h !! cdone c) ∧
    (∃ n, cid c = pretty n ∧ (n ≤ watcherID s)%N) ∧
    (∀ w, reg s (ckind c) (cid c) w → dones h !! cdone c = Some false).

(** A closure whose watcher is no longer registered. *)
Definition spent (c : cancelFn) s : Prop :=
  ∀ w, ¬ reg s (ckind c) (cid c) w.

Definition nextID s : N := ((watcherID s + 1) mod 2 ^ 64)%N.

(** The store, the heap and the results of a [Watch] that registers. *)
Definition watched (kind : string) (opts : list WatchOption) s h
    : memStore T * heap T * watcher * cancelFn :=
  let cfg := applyOpts opts in
  let c := fresh (dom (chans h)) in
  let d := fresh (dom (dones h)) in
  let wch := mkWatcher c (EventTypes cfg) in
  let s1 := setWatcherID (nextID s) (ensureKind kind s) in
  (setWatchers (<[kind := <[pretty (nextID s) := wch]> (kindWatchers kind s1)]>
                  (watchers s1)) s1,
   mkHeap (<[c := mkChan [] (Z.to_nat (bufSizeOf cfg)) false]> (chans h))
          (<[d := false]> (dones h)),
   wch, mkCancel kind (pretty (nextID s)) d).

Lemma Watch_registers kind opts s h :
  kind ≠ "" → closed s = false →
  let '(s', h', wch, cf) := watched kind opts s h in
  ∃ g, Watch kind opts s h = (s', h', g, (Some (ch wch), Some cf, None)).
Proof.
  intros Hk Hc. unfold watched, Watch.
  rewrite decide_False by done. rewrite Hc. simpl. eexists. reflexivity.
Qed.

Lemma mem_reg_watched kind opts s h k i w :
  let '(s', _, wch, _) := watched kind opts s h in
  reg s' k i w ↔
    (k = kind ∧ i = pretty (nextID s) ∧ w = wch) ∨
    (¬ (k = kind ∧ i = pretty (nextID s)) ∧ reg s k i w).
Proof.
  pose proof (keeps_ensureKind kind s) as (Hreg & _ & _).
  unfold watched. revert Hreg. generalize (ensureKind kind s) as s1.
  intros s1 Hreg. simpl. unfold reg at 1. simpl. unfold kindWatchers. simpl.
  destruct (decide (k = kind)) as [->|Hne].
  - rewrite lookup_insert_eq. destruct (decide (i = pretty (nextID s))) as [->|Hi].
    + split.
      * intros (m & [= <-] & Hw). rewrite lookup_insert_eq in Hw.
        injection Hw as <-. by left.
      * intros [(_ & _ & ->)|[Hn _]]; [|by destruct Hn].
        eexists. split; [done|]. by rewrite lookup_insert_eq.
    + split.
      * intros (m & [= <-] & Hw). rewrite lookup_insert_ne in Hw by done.
        right. split; [by intros [_ ?]|]. apply Hreg. unfold reg.
        destruct (watchers s1 !! kind) as [m|] eqn:E;
          simpl in Hw; [by exists m|by rewrite lookup_empty in Hw].
      * intros [(_ & ? & _)|[_ Hr]]; [done|]. apply Hreg in Hr.
        destruct Hr as (m & Hm & Hw). eexists. split; [done|].
        rewrite lookup_insert_ne by done. by rewrite Hm.
  - rewrite lookup_insert_ne by done. split.
    + intros Hr. right. split; [by intros [? _]|]. by apply Hreg.
    + intros [(? & _ & _)|[_ Hr]]; [done|]. by apply Hreg.
Qed.

Lemma id_fresh s h kind id w :
  wf s h → (watcherID s + 1 < 2 ^ 64)%N → reg s kind id w →
  id ≠ pretty (nextID s).
Proof.
  intros Hwf Hlt Hr Heq. destruct (wf_ids _ _ Hwf _ _ _ Hr) as (n & -> & Hn).
  apply (inj pretty) in Heq. unfold nextID in Heq.
  rewrite N.mod_small in Heq by done. lia.
Qed.

Lemma mem_fresh_chan_not_open h : ¬ chanOpen (fresh (dom (chans h))) h.
Proof.
  intros (st & Hst & _). apply elem_of_dom_2 in Hst. by apply is_fresh in Hst.
Qed.

Lemma mem_Watch_wf kind opts s h :
  wf s h → (watcherID s + 1 < 2 ^ 64)%N → closed s = false →
  let '(s', h', _, _) := watched kind opts s h in wf s' h'.
Proof.
  intros Hwf Hlt Hc.
  pose proof (mem_reg_watched kind opts s h) as Hreg.
  pose proof (id_fresh s h) as Hfresh.
  pose proof (mem_fresh_chan_not_open h) as Hnew.
  unfold watched in *. simpl in *.
  set (c := fresh (dom (chans h))) in *.
  set (wch := mkWatcher c (EventTypes (applyOpts opts))) in *.
  assert (∀ c', chanOpen c'
      (mkHeap (<[c := mkChan [] (Z.to_nat (bufSizeOf (applyOpts opts))) false]> (chans h))
              (<[fresh (dom (dones h)) := false]> (dones h)))
      ↔ c' = c ∨ chanOpen c' h) as Hopen.
  { intros c'. unfold chanOpen. simpl. destruct (decide (c' = c)) as [->|Hne].
    - rewrite lookup_insert_eq. split; [by left|]. intros _. by eexists.
    - rewrite lookup_insert_ne by done. split; [by right|]. by intros [?|?]. }
  split.
  - intros k i w [(-> & -> & ->)|[_ Hr]]%Hreg; apply Hopen; [by left|].
    right. by eapply wf_open.
  - intros k1 i1 w1 k2 i2 w2 H1%Hreg H2%Hreg Hch.
    destruct H1 as [(-> & -> & ->)|[_ H1]], H2 as [(-> & -> & ->)|[_ H2]];
      try done.
    + exfalso. apply Hnew. simpl in Hch. fold c. rewrite Hch. by eapply wf_open.
    + exfalso. apply Hnew. simpl in Hch. fold c. rewrite <-Hch. by eapply wf_open.
    + by eapply wf_inj.
  - intros c' [->|Ho]%Hopen.
    + exists kind, (pretty (nextID s)), wch. split; [|done]. apply Hreg. by left.
    + destruct (wf_only _ _ Hwf c' Ho) as (k & i & w & Hr & Hch).
      exists k, i, w. split; [|done]. apply Hreg. right. split; [|done].
      intros [-> ->]. by eapply Hfresh.
  - intros k i w [(-> & -> & ->)|[_ Hr]]%Hreg.
    + exists (nextID s). split; [done|]. simpl. lia.
    + destruct (wf_ids _ _ Hwf _ _ _ Hr) as (n & -> & Hn).
      exists n. split; [done|]. simpl. unfold nextID.
      rewrite N.mod_small by done. lia.
  - simpl. by rewrite Hc.
Qed.

Lemma Watch_issued kind opts cs s h :
  wf s h → issued cs s h → (watcherID s + 1 < 2 ^ 64)%N →
  let '(s', h', _, cf) := watched kind opts s h in issued (cf :: cs) s' h'.
Proof.
  intros Hwf [Hnd Hcs] Hlt.
  pose proof (mem_reg_watched kind opts s h) as Hreg.
  unfold watched in *. simpl in *.
  set (d := fresh (dom (dones h))) in *.
  assert (∀ c, c ∈ cs → cdone c ≠ d) as Hd.
  { intros c Hc Heq. destruct (Hcs c Hc) as (Hsome & _).
    apply elem_of_dom in Hsome. rewrite Heq in Hsome. by apply is_fresh in Hsome. }
  split.
  - rewrite fmap_cons. apply NoDup_cons. split; [|done]. simpl.
    intros (c & Heq & Hc)%list_elem_of_fmap. by apply (Hd c).
  - intros c [->|Hc]%elem_of_cons; simpl.
    + rewrite lookup_insert_eq. split; [by eexists|]. split; [|done].
      exists (nextID s). split; [done|]. lia.
    + destruct (Hcs c Hc) as (Hsome & (n & Hid & Hn) & Hopen).
      rewrite lookup_insert_ne by (by apply not_eq_sym, Hd).
      split; [done|]. split.
      * exists n. split; [done|]. unfold nextID. rewrite N.mod_small by done. lia.
      * intros w [(_ & Heq & _)|[_ Hr]]%Hreg; [|by eapply Hopen].
        rewrite Hid in Heq. apply (inj pretty) in Heq. unfold nextID in Heq.
        rewrite N.mod_small in Heq by done. lia.
Qed.

Lemma Watch_spent kind opts c s h :
  (∃ n, cid c = pretty n ∧ (n ≤ watcherID s)%N) →
  (watcherID s + 1 < 2 ^ 64)%N → spent c s →
  let '(s', _, _, _) := watched kind opts s h in spent c s'.
Proof.
  intros (n & Hid & Hn) Hlt Hsp.
  pose proof (mem_reg_watched kind opts s h) as Hreg.
  unfold watched in *. simpl in *.
  intros w [(_ & Heq & _)|[_ Hr]]%Hreg; [|by eapply Hsp].
  rewrite Hid in Heq. apply (inj pretty) in Heq. unfold nextID in Heq.
  rewrite N.mod_small in Heq by done. lia.
Qed.

(** A spent closure does nothing. *)
Lemma mem_cancel_spent c s h : spent c s → cancel c s h = Done (s, h).
Proof.
  intros Hsp. unfold cancel.
  destruct (watchers s !! ckind c) as [m|] eqn:Hm; [|done].
  destruct (m !! cid c) as [w|] eqn:Hw; [|done].
  destruct (Hsp w). by exists m.
Qed.

(** The store and the heap after a closure has removed its watcher. *)
Definition cancelled (c : cancelFn) s h : memStore T * heap T :=
  let m := default ∅ (watchers s !! ckind c) in
  let st := default (mkChan [] 0 false)
              (m !! cid c ≫= λ w, chans h !! ch w) in
  (setWatchers (<[ckind c := delete (cid c) m]> (watchers s)) s,
   mkHeap (match m !! cid c with
           | Some w => <[ch w := mkChan (buf st) (cap st) true]> (chans h)
           | None => chans h
           end)
          (<[cdone c := true]> (dones h))).

Lemma mem_cancel_registered c s h w :
  reg s (ckind c) (cid c) w → dones h !! cdone c = Some false →
  chanOpen (ch w) h → cancel c s h = Done (cancelled c s h).
Proof.
  intros (m & Hm & Hw) Hd (st & Hst & Ho). unfold cancel, cancelled.
  rewrite Hm. simpl. rewrite Hw. simpl. unfold closeDone. rewrite Hd. simpl.
  unfold closeChan. simpl. rewrite Hst, Ho. simpl. done.
Qed.

Lemma mem_reg_cancelled c s h k i w :
  reg (cancelled c s h).1 k i w ↔
    reg s k i w ∧ ¬ (k = ckind c ∧ i = cid c).
Proof.
  unfold cancelled, reg. simpl.
  destruct (decide (k = ckind c)) as [->|Hk].
  - rewrite lookup_insert_eq. destruct (decide (i = cid c)) as [->|Hi].
    + split.
      * intros (m & [= <-] & Hw). by rewrite lookup_delete_eq in Hw.
      * intros [_ Hn]. by destruct Hn.
    + split.
      * intros (m & [= <-] & Hw). rewrite lookup_delete_ne in Hw by done.
        split; [|by intros [_ ?]].
        destruct (watchers s !! ckind c) as [m|]; simpl in Hw;
          [by exists m|by rewrite lookup_empty in Hw].
      * intros [(m & Hm & Hw) _]. rewrite Hm. simpl. eexists. split; [done|].
        by rewrite lookup_delete_ne.
  - rewrite lookup_insert_ne by done. split; [|by intros [? _]].
    intros ?. split; [done|]. by intros [? _].
Qed.

(** The first call of a closure removes its watcher and closes the two
    channels; it keeps the invariants, and leaves the closure spent. *)
Lemma cancel_live cs c s h w :
  wf s h → issued cs s h → c ∈ cs → reg s (ckind c) (cid c) w →
  cancel c s h = Done (cancelled c s h) ∧
  wf (cancelled c s h).1 (cancelled c s h).2 ∧
  issued cs (cancelled c s h).1 (cancelled c s h).2 ∧
  spent c (cancelled c s h).1.
Proof.
  intros Hwf [Hnd Hcs] Hc Hr.
  destruct (Hcs c Hc) as (_ & _ & Hdone).
  pose proof (wf_open _ _ Hwf _ _ _ Hr) as Ho.
  split; [by eapply mem_cancel_registered; eauto|].
  pose proof (mem_reg_cancelled c s h) as Hreg.
  destruct Hr as (m & Hm & Hw). destruct Ho as (st & Hst & Hopen).
  assert (∀ c', chanOpen c' (cancelled c s h).2 ↔ c' ≠ ch w ∧ chanOpen c' h) as Hch.
  { intros c'. unfold cancelled, chanOpen. simpl. rewrite Hm. simpl. rewrite Hw.
    simpl. destruct (decide (c' = ch w)) as [->|Hne].
    - rewrite lookup_insert_eq. split; [by intros (? & [= <-] & ?)|by intros [? _]].
    - rewrite lookup_insert_ne by done. split; [done|by intros [_ ?]]. }
  split; [|split].
  - split.
    + intros k i w' [Hr' Hn]%Hreg. apply Hch. split; [|by eapply wf_open].
      intros Heq. apply Hn. eapply (wf_inj _ _ Hwf); [done|by exists m|done].
    + intros k1 i1 w1 k2 i2 w2 [H1 _]%Hreg [H2 _]%Hreg. by eapply wf_inj.
    + intros c' [Hne Ho]%Hch. destruct (wf_only _ _ Hwf c' Ho) as (k & i & w' & Hr' & Heq).
      exists k, i, w'. split; [|done]. apply Hreg. split; [done|].
      intros [-> ->]. destruct Hr' as (m' & Hm' & Hw').
      rewrite Hm in Hm'. injection Hm' as <-. rewrite Hw in Hw'.
      injection Hw' as <-. done.
    + intros k i w' [Hr' _]%Hreg.
      destruct (wf_ids _ _ Hwf _ _ _ Hr') as (n & ? & ?). by exists n.
    + intros Hcl k i w' [Hr' _]%Hreg. by eapply (wf_closed _ _ Hwf).
  - split; [done|]. intros c' Hc'. destruct (Hcs c' Hc') as (Hsome & Hid & Hd').
    unfold cancelled. simpl. split; [|split; [done|]].
    + destruct (decide (cdone c' = cdone c)) as [->|Hne].
      * by rewrite lookup_insert_eq.
      * by rewrite lookup_insert_ne.
    + intros w' Hr'. apply (mem_reg_cancelled c s h) in Hr' as [Hr' Hn].
      rewrite lookup_insert_ne; [by eapply Hd'|].
      intros Heq. apply Hn.
      assert (c = c') as <-; [|done].
      by eapply (NoDup_fmap_inj_on cdone cs).
  - intros w' [_ Hn]%Hreg. by apply Hn.
Qed.

(** Whatever its state, a closure handed out by [Watch] never panics, and
    a second call changes nothing. *)
Lemma mem_cancel_total cs c s h :
  wf s h → issued cs s h → c ∈ cs →
  ∃ s1 h1, cancel c s h = Done (s1, h1) ∧ wf s1 h1 ∧ issued cs s1 h1 ∧
    spent c s1 ∧ kinds s1 = kinds s ∧ closed s1 = closed s ∧
    cancel c s1 h1 = Done (s1, h1).
Proof.
  intros Hwf Hiss Hc.
  assert (spent c s → ∃ s1 h1, cancel c s h = Done (s1, h1) ∧ wf s1 h1 ∧
    issued cs s1 h1 ∧ spent c s1 ∧ kinds s1 = kinds s ∧ closed s1 = closed s ∧
    cancel c s1 h1 = Done (s1, h1)) as Hspent.
  { intros Hsp. exists s, h. split_and!; try done; by apply mem_cancel_spent. }
  destruct (watchers s !! ckind c) as [m|] eqn:Hm.
  - destruct (m !! cid c) as [w|] eqn:Hw.
    + destruct (cancel_live cs c s h w) as (Hrun & ? & ? & Hsp); try done.
      { by exists m. }
      exists (cancelled c s h).1, (cancelled c s h).2.
      split_and!; try done. by apply mem_cancel_spent.
    + apply Hspent. intros w (m' & Hm' & Hw'). congruence.
  - apply Hspent. intros w (m' & Hm' & Hw'). congruence.
Qed.

Lemma mem_elem_of_allWatchers s w :
  w ∈ allWatchers s ↔ ∃ kind id, reg s kind id w.
Proof.
  unfold allWatchers, reg. rewrite list_elem_of_bind. split.
  - intros ([k m] & Hin & Hkm). apply elem_of_map_to_list in Hkm.
    apply list_elem_of_fmap in Hin as ([i w'] & -> & Hin).
    apply elem_of_map_to_list in Hin. by exists k, i, m.
  - intros (k & i & m & Hm & Hw). exists (k, m). split.
    + apply list_elem_of_fmap. exists (i, w). split; [done|].
      by apply elem_of_map_to_list.
    + by apply elem_of_map_to_list.
Qed.

Lemma mem_allWatchers_NoDup s h : wf s h → NoDup (ch <$> allWatchers s).
Proof.
  intros Hwf. unfold allWatchers. rewrite fmap_list_bind.
  apply NoDup_bind; [| |apply NoDup_map_to_list].
  - intros [k1 m1] [k2 m2] c H1 H2 Hc1 Hc2.
    apply elem_of_map_to_list in H1, H2. simpl in *.
    apply list_elem_of_fmap in Hc1 as (w1 & -> & Hw1).
    apply list_elem_of_fmap in Hc2 as (w2 & Hch & Hw2).
    apply list_elem_of_fmap in Hw1 as ([i1 w1'] & -> & Hw1).
    apply list_elem_of_fmap in Hw2 as ([i2 w2'] & -> & Hw2).
    apply elem_of_map_to_list in Hw1, Hw2. simpl in *.
    destruct (wf_inj _ _ Hwf k1 i1 w1' k2 i2 w2') as [-> _]; try done;
      [by exists m1|by exists m2|].
    congruence.
  - intros [k m] Hkm. apply elem_of_map_to_list in Hkm. simpl.
    rewrite <-list_fmap_compose.
    apply NoDup_fmap_2_strong; [|apply NoDup_map_to_list].
    intros [i1 w1] [i2 w2] H1 H2 Hch. simpl in Hch.
    apply elem_of_map_to_list in H1, H2.
    destruct (wf_inj _ _ Hwf k i1 w1 k i2 w2) as [_ ->]; try done;
      [by exists m..|].
    congruence.
Qed.

(** The store after [Close]. *)
Definition closedStore s : memStore T :=
  setWatchers ((λ _, ∅) <$> watchers s) (setClosed true s).

Lemma mem_closedStore_no_watcher s kind id w : ¬ reg (closedStore s) kind id w.
Proof.
  unfold reg, closedStore. simpl. intros (m & Hm & Hw).
  rewrite lookup_fmap in Hm. destruct (watchers s !! kind); simplify_eq/=.
Qed.

Definition allClosed h : Prop :=
  ∀ c st, chans h !! c = Some st → isClosed st = true.

(** Closing an open store never panics: it closes every registered
    channel exactly once, after which no channel of the heap is open. *)
Lemma mem_Close_open s h :
  wf s h → closed s = false →
  ∃ h', Close s h = Done (closedStore s, h', None) ∧
    allClosed h' ∧ dom (chans h') = dom (chans h) ∧ dones h' = dones h ∧
    (∀ c, chanBuf c h' = chanBuf c h) ∧ wf (closedStore s) h'.
Proof.
  intros Hwf Hc. unfold Close. rewrite Hc.
  destruct (closeAll_spec (ch <$> allWatchers s) h)
    as (h' & Hrun & Hd & Hdom & Hcl & Hother & Hbuf).
  { by eapply mem_allWatchers_NoDup. }
  { intros c (w & -> & Hw)%list_elem_of_fmap.
    apply mem_elem_of_allWatchers in Hw as (k & i & Hr). by eapply wf_open. }
  assert (forM (λ wch, closeChan (ch wch)) (allWatchers s) h = Done h') as ->.
  { rewrite <-Hrun. clear. generalize (allWatchers s) h.
    intros l. induction l as [|w l IH]; intros h0; [done|].
    rewrite fmap_cons, !forM_cons.
    destruct (closeChan (ch w) h0); simpl; [apply IH|done]. }
  simpl. exists h'. split; [done|].
  assert (allClosed h') as Hall.
  { intros c st Hst. destruct (decide (c ∈ ch <$> allWatchers s)) as [Hin|Hnin].
    - destruct (Hcl c Hin) as (st' & Hst' & ?). congruence.
    - rewrite Hother in Hst by done.
      destruct (isClosed st) eqn:E; [done|]. exfalso. apply Hnin.
      destruct (wf_only _ _ Hwf c) as (k & i & w & Hr & <-); [by exists st|].
      apply list_elem_of_fmap. exists w. split; [done|].
      apply mem_elem_of_allWatchers. eauto. }
  split_and!; try done. split.
  - intros k i w Hr. by apply mem_closedStore_no_watcher in Hr.
  - intros k1 i1 w1 k2 i2 w2 Hr. by apply mem_closedStore_no_watcher in Hr.
  - intros c (st & Hst & Ho). apply Hall in Hst. congruence.
  - intros k i w Hr. by apply mem_closedStore_no_watcher in Hr.
  - intros _ k i w. apply mem_closedStore_no_watcher.
Qed.

Lemma mem_Close_closed s h : closed s = true → Close s h = Done (s, h, None).
Proof. intros Hc. unfold Close. by rewrite Hc. Qed.

Lemma issued_closedStore cs s h h' :
  issued cs s h → dones h' = dones h → issued cs (closedStore s) h'.
Proof.
  intros [Hnd Hcs] Hd. split; [done|]. intros c Hc.
  destruct (Hcs c Hc) as (? & ? & _). rewrite Hd. split_and!; try done.
  intros w Hr. by apply mem_closedStore_no_watcher in Hr.
Qed.

(** *** SetAll *)

Lemma classify_fold (m0 values : gmap string T) :
  map_fold classify (∅, ∅, m0) values =
    (absentIn m0 values, presentIn m0 values, values ∪ m0).
Proof.
  unfold absentIn, presentIn.
  apply (map_fold_weak_ind (λ r m,
    r = (filter (λ kv, kv.1 ∉ dom m0) m, filter (λ kv, kv.1 ∈ dom m0) m, m ∪ m0))).
  - by rewrite !map_filter_empty, (left_id_L ∅ (∪)).
  - intros k v m r Hk ->. unfold classify.
    rewrite lookup_union_r by done. rewrite <-insert_union_l.
    destruct (m0 !! k) as [v0|] eqn:E.
    + assert (k ∈ dom m0) as Hin by (by apply elem_of_dom_2 in E).
      rewrite bool_decide_eq_true_2 by by eexists.
      rewrite (map_filter_insert_True (λ kv, kv.1 ∈ dom m0)) by done.
      rewrite (map_filter_insert_False (λ kv, kv.1 ∉ dom m0)) by (by intros ?).
      by rewrite delete_id.
    + assert (k ∉ dom m0) as Hin by (by apply not_elem_of_dom).
      rewrite bool_decide_eq_false_2 by (by intros [? ?]).
      rewrite (map_filter_insert_True (λ kv, kv.1 ∉ dom m0)) by done.
      rewrite (map_filter_insert_False (λ kv, kv.1 ∈ dom m0)) by done.
      by rewrite delete_id.
Qed.

Lemma validateAll_None fn (values : gmap string T) :
  validateAll fn values = None ↔ ∀ k v, values !! k = Some v → fn v = None.
Proof.
  unfold validateAll.
  assert (∀ l : list (string * T),
    foldr (λ kv rest, match fn kv.2 with Some err => Some err | None => rest end)
      None l = None ↔ ∀ kv, kv ∈ l → fn kv.2 = None) as Hl.
  { induction l as [|kv l IH]; simpl.
    - split; [|done]. intros _ kv Hkv. by apply elem_of_nil in Hkv.
    - destruct (fn kv.2) eqn:E.
      + split; [done|]. intros H. rewrite <-E. apply H. left.
      + rewrite IH. split.
        * intros H kv' [->|Hin]%elem_of_cons; auto.
        * intros H kv' Hin. apply H. by right. }
  rewrite Hl. split.
  - intros H k v Hkv. apply (H (k, v)). by apply elem_of_map_to_list.
  - intros H [k v] Hkv. apply elem_of_map_to_list in Hkv. by eapply H.
Qed.

Lemma validateAll_Some fn (values : gmap string T) err :
  validateAll fn values = Some err →
  ∃ k v, values !! k = Some v ∧ fn v = Some err.
Proof.
  unfold validateAll. intros H.
  assert (∃ kv, kv ∈ map_to_list values ∧ fn kv.2 = Some err) as ([k v] & Hin & Hfn).
  { revert H. induction (map_to_list values) as [|kv l IH]; simpl; [done|].
    destruct (fn kv.2) eqn:E.
    - intros [= ->]. exists kv. split; [left|done].
    - intros (kv' & ? & ?)%IH. exists kv'. split; [by right|done]. }
  exists k, v. split; [by apply elem_of_map_to_list|done].
Qed.

(** The store a successful [SetAll] leaves. *)
Definition allSet (kind : string) (values : gmap string T) s : memStore T :=
  let s1 := ensureKind kind s in
  setKinds (<[kind := values ∪ kindMap kind s]> (kinds s1)) s1.

Lemma SetAllLocked_valid kind values s :
  closed s = false →
  (∀ fn k v, validationFns s !! kind = Some fn → values !! k = Some v → fn v = None) →
  SetAllLocked kind values s =
    mkLockedAll (allSet kind values s) (snapshot kind (allSet kind values s))
      (absentIn (kindMap kind s) values) (presentIn (kindMap kind s) values) None.
Proof.
  intros Hc Hval. unfold SetAllLocked. rewrite Hc.
  change (validationFns (ensureKind kind s)) with (validationFns s).
  assert (from_option (λ fn, validateAll fn values) None (validationFns s !! kind)
          = None) as ->.
  { destruct (validationFns s !! kind) as [fn|] eqn:E; [|done]. simpl.
    apply validateAll_None. intros k v. by apply Hval. }
  rewrite classify_fold, kindMap_ensureKind. done.
Qed.

Lemma SetAllLocked_shape kind values s :
  let l := SetAllLocked kind values s in
  keeps s (afterAll l) ∧ (wchsAll l = [] ∨ wchsAll l = snapshot kind (afterAll l)).
Proof.
  unfold SetAllLocked. destruct (closed s); simpl; [by auto using mem_keeps_refl|].
  destruct (from_option _ _ _); simpl; [by auto using keeps_ensureKind|].
  destruct (map_fold _ _ _) as [[cr up] m]. simpl. split; [|by right].
  eapply keeps_trans; [apply keeps_ensureKind|apply keeps_setKinds].
Qed.

(** The sends of the per-watcher loop of [SetAll]. *)
Definition sendsAll (kind : string) (cr up : gmap string T) w
    : list (nat * Event T) :=
  ((λ ev, (ch w, ev)) <$>
     (if accepts w EventTypeCreate then eventsOf kind EventTypeCreate cr else []))
  ++ ((λ ev, (ch w, ev)) <$>
     (if accepts w EventTypeUpdate then eventsOf kind EventTypeUpdate up else [])).

Lemma sendAllTo_sends kind cr up w h :
  sendAllTo kind cr up w h = forM send1 (sendsAll kind cr up w) h.
Proof.
  unfold sendAllTo, sendsAll. rewrite forM_app.
  destruct (accepts w EventTypeCreate); simpl.
  - rewrite forM_trySend. destruct (forM send1 _ h) as [h1|]; simpl; [|done].
    destruct (accepts w EventTypeUpdate); simpl; [apply forM_trySend|done].
  - destruct (accepts w EventTypeUpdate); simpl; [apply forM_trySend|done].
Qed.

(** [SetAll] on a well-formed store always returns; a watcher of the kind
    whose buffer has room is sent the created keys, then the updated ones,
    as far as its filter accepts them. *)
Lemma mem_SetAll_total kind values s h :
  wf s h →
  let l := SetAllLocked kind values s in
  ∃ h', SetAll kind values s h = Done (afterAll l, h', resultAll l) ∧
    grows h h' ∧ wf (afterAll l) h' ∧
    ∀ w0 st, w0 ∈ wchsAll l → chans h !! ch w0 = Some st →
      length (buf st) + (size (created l) + size (updated l)) ≤ cap st →
      chanBuf (ch w0) h' =
        buf st ++ (sendsAll kind (created l) (updated l) w0).*2.
Proof.
  intros Hwf l. destruct (SetAllLocked_shape kind values s) as [Hk Hw].
  fold l in Hk, Hw. unfold SetAll. fold l.
  assert (wf (afterAll l) h) as Hwf' by (by eapply mem_wf_keeps).
  assert (forM (sendAllTo kind (created l) (updated l)) (wchsAll l) h =
          forM send1 (wchsAll l ≫= sendsAll kind (created l) (updated l)) h) as ->.
  { rewrite <-forM_bind. apply forM_ext. intros w h0 _. apply sendAllTo_sends. }
  assert (∀ w ce, ce ∈ sendsAll kind (created l) (updated l) w → ce.1 = ch w) as Hown.
  { intros w ce. unfold sendsAll. rewrite elem_of_app, !list_elem_of_fmap.
    intros [(ev & -> & _)|(ev & -> & _)]; done. }
  destruct (sends_spec (wchsAll l ≫= sendsAll kind (created l) (updated l)) h)
    as (h' & Hrun & Hg & Hbuf).
  { intros ce (w & Hce & Hin)%list_elem_of_bind. rewrite (Hown w ce Hce).
    destruct Hw as [Hw|Hw]; rewrite Hw in Hin.
    - by apply elem_of_nil in Hin.
    - apply elem_of_snapshot in Hin as (id & Hreg). by eapply wf_open. }
  exists h'. rewrite Hrun. simpl. split_and!; try done; [by eapply mem_wf_grows|].
  intros w0 st Hin Hst Hroom.
  assert (NoDup (ch <$> wchsAll l)) as Hnd.
  { destruct Hw as [Hw|Hw]; rewrite Hw in *.
    - by apply elem_of_nil in Hin.
    - by eapply snapshot_NoDup. }
  rewrite <-(sentTo_own (wchsAll l) w0 _ Hown Hnd Hin).
  apply Hbuf; [done|]. rewrite (sentTo_own (wchsAll l) w0 _ Hown Hnd Hin).
  rewrite length_fmap. unfold sendsAll. rewrite length_app, !length_fmap.
  assert (∀ (b : bool) evType (m : gmap string T),
    length (if b then eventsOf kind evType m else []) ≤ size m) as Hlen.
  { intros [] evType m; simpl; [|lia].
    unfold eventsOf. by rewrite length_fmap, length_map_to_list. }
  pose proof (Hlen (accepts w0 EventTypeCreate) EventTypeCreate (created l)).
  pose proof (Hlen (accepts w0 EventTypeUpdate) EventTypeUpdate (updated l)).
  lia.
Qed.

(** *** Set on an open store that accepts the value *)

(** The store with [value] written under [key]. *)
Definition stored (kind key : string) (value : T) s : memStore T :=
  let s1 := ensureKind kind s in
  setKinds (<[kind := <[key := value]> (kindMap kind s)]> (kinds s1)) s1.

Lemma SetLocked_open kind key value s :
  closed s = false → validate kind value s = None →
  SetLocked zero kind key value s =
    let s1 := stored kind key value s in
    let o := kindMap kind s !! key in
    if compareFn s (default zero o) value then mkLocked s1 [] [] (false, None)
    else mkLocked s1 (snapshot kind s1)
           [mkEvent kind key
              (if bool_decide (is_Some o) then EventTypeUpdate else EventTypeCreate)
              value]
           (negb (bool_decide (is_Some o)), None).
Proof.
  intros Hc Hv. unfold SetLocked, stored. rewrite Hc. unfold validate in *.
  change (validationFns (ensureKind kind s)) with (validationFns s).
  rewrite Hv, kindMap_ensureKind. done.
Qed.

Lemma kindMap_stored kind key value s :
  kindMap kind (stored kind key value s) = <[key := value]> (kindMap kind s).
Proof. unfold stored, kindMap at 1. simpl. by rewrite lookup_insert_eq. Qed.

Lemma kindMap_stored_ne kind kind' key value s :
  kind' ≠ kind → kindMap kind' (stored kind key value s) = kindMap kind' s.
Proof.
  intros Hne. unfold stored, kindMap at 1. simpl.
  rewrite lookup_insert_ne by done. apply kindMap_ensureKind.
Qed.

Lemma validate_stored kind kind' key value value' s :
  validate kind' value' (stored kind key value s) = validate kind' value' s.
Proof. done. Qed.

Lemma kinds_stored kind key value s :
  kinds (stored kind key value s)
    = <[kind := <[key := value]> (kindMap kind s)]> (kinds (ensureKind kind s)).
Proof. done. Qed.

Lemma kinds_ensureKind_Some kind s :
  is_Some (kinds s !! kind) → kinds (ensureKind kind s) = kinds s.
Proof. intros [m Hm]. unfold ensureKind. simpl. by rewrite Hm. Qed.

Lemma stored_stored kind key value s :
  kinds (stored kind key value (stored kind key value s))
    = kinds (stored kind key value s).
Proof.
  rewrite (kinds_stored _ _ _ (stored kind key value s)).
  rewrite kindMap_stored, insert_insert_eq.
  rewrite kinds_ensureKind_Some
    by (rewrite kinds_stored, lookup_insert_eq; by eexists).
  rewrite kinds_stored. by rewrite insert_insert_eq.
Qed.

(** A new store, with no channel made yet, is well formed. *)
Lemma mem_wf_new `{EqDecision T} (opt : StoreOptions T) : wf (NewMemStore opt) emptyHeap.
Proof.
  assert (∀ kind id w, ¬ reg (NewMemStore opt) kind id w) as Hn.
  { intros kind id w (m & Hm & _). simpl in Hm. by rewrite lookup_empty in Hm. }
  split.
  - intros ??? Hr. by apply Hn in Hr.
  - intros ?????? Hr. by apply Hn in Hr.
  - intros c (st & Hst & _). simpl in Hst. by rewrite lookup_empty in Hst.
  - intros ??? Hr. by apply Hn in Hr.
  - done.
Qed.

Lemma issued_new `{EqDecision T} (opt : StoreOptions T) :
  issued [] (NewMemStore opt) emptyHeap.
Proof. split; [constructor|]. intros c Hc. by apply elem_of_nil in Hc. Qed.

(** *** Delete and SetFn on an open store *)

(** The store with [key] removed. *)
Definition removed (kind key : string) s : memStore T :=
  let s1 := ensureKind kind s in
  setKinds (<[kind := delete key (kindMap kind s)]> (kinds s1)) s1.

Lemma DeleteLocked_open kind key s :
  closed s = false →
  DeleteLocked zero kind key s =
    match kindMap kind s !! key with
    | None => mkLocked (ensureKind kind s) [] [] (false, zero, None)
    | Some prev =>
        mkLocked (removed kind key s) (snapshot kind (removed kind key s))
          [mkEvent kind key EventTypeDelete prev] (true, prev, None)
    end.
Proof.
  intros Hc. unfold DeleteLocked, removed. rewrite Hc, kindMap_ensureKind. done.
Qed.

Lemma kindMap_removed kind key s :
  kindMap kind (removed kind key s) = delete key (kindMap kind s).
Proof. unfold removed, kindMap at 1. simpl. by rewrite lookup_insert_eq. Qed.

Lemma SetFnLocked_open kind key fn s :
  closed s = false →
  SetFnLocked kind key fn s =
    match kindMap kind s !! key with
    | None => mkLocked (ensureKind kind s) [] [] (false, Some ErrKeyNotFound)
    | Some prev =>
        match fn prev with
        | (_, Some err) => mkLocked (ensureKind kind s) [] [] (false, Some err)
        | (value, None) =>
            mkLocked (stored kind key value s) (snapshot kind (stored kind key value s))
              [mkEvent kind key EventTypeUpdate value] (false, None)
        end
    end.
Proof.
  intros Hc. unfold SetFnLocked, stored. rewrite Hc, kindMap_ensureKind. done.
Qed.

Lemma snapshot_keeps kind s s' w :
  keeps s s' → (∃ id, reg s kind id w) → w ∈ snapshot kind s'.
Proof.
  intros (Hreg & _) (id & Hr). apply elem_of_snapshot. exists id. by apply Hreg.
Qed.

(** The replay goroutine [Watch] starts: none unless replay was asked
    for, the kind has entries and the filter (if any) contains the create
    type; otherwise one create event per entry of the kind. *)
Definition sendInitialOf (cfg : WatchCfg) : bool :=
  match EventTypes cfg with
  | None => true
  | Some types => bool_decide (EventTypeCreate ∈ types)
  end.

Lemma Watch_replay kind opts s h :
  kind ≠ "" → closed s = false →
  (Watch kind opts s h).1.2 =
    if Initial (applyOpts opts) && bool_decide (0 < size (kindMap kind s))
       && sendInitialOf (applyOpts opts)
    then Some (mkGoroutine (fresh (dom (chans h))) (fresh (dom (dones h)))
                 (eventsOf kind EventTypeCreate (kindMap kind s)))
    else None.
Proof.
  intros Hk Hc. unfold Watch. rewrite decide_False by done. rewrite Hc.
  pose proof (kindMap_ensureKind kind kind s) as Hkm.
  remember (ensureKind kind s) as s1 eqn:Hs1. clear Hs1.
  unfold makeChan, makeDone, sendInitialOf, cloneMap. simpl.
  change (kindMap kind (setWatchers _ (setWatcherID _ s1))) with (kindMap kind s1).
  rewrite Hkm. destruct (Initial (applyOpts opts)); simpl; [done|].
  done.
Qed.

(** Writers keep the closures' invariant: they touch neither the registry
    nor a [done] channel. *)
Lemma issued_keeps cs s s' h h' :
  keeps s s' → grows h h' → issued cs s h → issued cs s' h'.
Proof.
  intros (Hreg & _ & Hn) [Hd _] [Hnd Hcs]. split; [done|]. intros c Hc.
  destruct (Hcs c Hc) as (? & ? & Hopen). rewrite Hd, Hn. split_and!; try done.
  intros w Hr%Hreg. by eapply Hopen.
Qed.

(** The replay goroutine on a channel that is open, with its [done]
    channel open and room for every pending event: it sends them all, in
    order, and finishes, whatever the scheduler would pick. *)
Lemma replaySelect_send pickDone c d h (st : chanState T) :
  chans h !! c = Some st → isClosed st = false → dones h !! d = Some false →
  length (buf st) < cap st →
  replaySelect pickDone c d h = Done SelSend.
Proof.
  intros Hst Ho Hd Hroom. unfold replaySelect. rewrite Hst, Hd, Ho.
  rewrite (bool_decide_eq_true_2 (length (buf st) < cap st)) by done.
  rewrite (bool_decide_eq_false_2 (Some false = Some true)) by done. done.
Qed.

Lemma replayLoop_room pickDone c d (pending : list (Event T)) h st :
  chans h !! c = Some st → isClosed st = false → dones h !! d = Some false →
  length (buf st) + length pending ≤ cap st →
  ∃ h', replayLoop pickDone c d pending h = Done (None, h') ∧ grows h h' ∧
    chanBuf c h' = buf st ++ pending.
Proof.
  revert h st. induction pending as [|ev rest IH]; intros h st Hst Ho Hd Hroom.
  - exists h. simpl. split_and!; [done|apply grows_refl|].
    unfold chanBuf. by rewrite Hst, app_nil_r.
  - simpl in Hroom.
    change (replayLoop pickDone c d (ev :: rest) h) with
      (replaySelect pickDone c d h ≫= λ sel,
         match sel with
         | SelDone => Done (None, h)
         | SelBlocked => Done (Some (mkGoroutine c d (ev :: rest)), h)
         | SelSend => trySend c ev h ≫= replayLoop pickDone c d rest
         end).
    rewrite (replaySelect_send pickDone c d h st) by (done || lia). simpl.
    rewrite (trySend_open c ev h st) by done. rewrite decide_True by lia. simpl.
    set (h1 := updChan c (mkChan (buf st ++ [ev]) (cap st) false) h).
    destruct (IH h1 (mkChan (buf st ++ [ev]) (cap st) false))
      as (h' & Hrun & Hg & Hbuf); simpl.
    + unfold h1. simpl. by rewrite lookup_insert_eq.
    + done.
    + done.
    + rewrite length_app. simpl. lia.
    + exists h'. split_and!; [done| |rewrite Hbuf; simpl; by rewrite <-app_assoc].
      eapply grows_trans; [|done].
      destruct (trySend_grows c ev h) as (h2 & Hh2 & Hg2); [by exists st|].
      rewrite (trySend_open c ev h st) in Hh2 by done.
      rewrite decide_True in Hh2 by lia. by injection Hh2 as <-.
Qed.

(** *** Every reachable state is well formed

    A run of the engine, at the grain of its critical sections.  A writer
    takes its steps in two parts, as its body does: first the part between
    [s.mu.Lock()] and [s.mu.Unlock()], which changes the store and leaves
    the writer with the sends of its fan-out; then one step per send,
    between which any other call may run.  The [cancel] closures and
    [Close] do their work under the lock, in one step.  So does [Watch]:
    what it does after its unlock (making the [done] channel, starting the
    goroutine, building the closure) touches nothing another call can see,
    and is taken with its critical section.  A replay goroutine takes one
    step per turn of its loop.  A step is a part that returns: a panic ends
    the run.  The watcher counter is taken not to wrap. *)

Lemma replayLoop_grows pickDone c d (pending : list (Event T)) h g' h' :
  replayLoop pickDone c d pending h = Done (g', h') → grows h h'.
Proof.
  revert h. induction pending as [|ev rest IH]; intros h; simpl.
  - intros [= _ <-]. apply grows_refl.
  - destruct (replaySelect pickDone c d h) as [[| |]|]; simpl; try done.
    + destruct (trySend c ev h) as [h1|] eqn:E; simpl; [|done].
      intros Hrun. eapply grows_trans; [by eapply trySend_Done_grows|by apply IH].
    + intros [= _ <-]. apply grows_refl.
    + intros [= _ <-]. apply grows_refl.
Qed.

Lemma replayTurn_grows pickDone (g : goroutine T) h g' h' :
  replayTurn pickDone g h = Done (g', h') → grows h h'.
Proof.
  unfold replayTurn. destruct (gpending g) as [|ev rest].
  - intros [= _ <-]. apply grows_refl.
  - destruct (replaySelect pickDone (gch g) (gdone g) h) as [[| |]|]; simpl; try done.
    + destruct (trySend (gch g) ev h) as [h1|] eqn:E; simpl; [|done].
      intros [= _ <-]. by eapply trySend_Done_grows.
    + intros [= _ <-]. apply grows_refl.
    + intros [= _ <-]. apply grows_refl.
Qed.

Lemma replayTurn_channel pickDone (g g' : goroutine T) h h' :
  replayTurn pickDone g h = Done (Some g', h') → gch g' = gch g.
Proof.
  unfold replayTurn. destruct (gpending g) as [|ev rest]; [done|].
  destruct (replaySelect pickDone (gch g) (gdone g) h) as [[| |]|]; simpl; try done.
  - destruct (trySend (gch g) ev h) as [h1|]; simpl; [|done]. by intros [= <- _].
  - by intros [= <- _].
Qed.

(** The state of a run: the store and the channels, the [cancel] closures
    handed out so far, the writers that have unlocked and not yet returned,
    each with the sends it has left, and the replay goroutines. *)
Record world := mkWorld {
  wstore : memStore T;
  wheap : heap T;
  wcancels : list cancelFn;
  wsending : list (list (nat * Event T));
  wreplays : list (goroutine T);
}.

(** A writer leaves its critical section with the store [s'] and the
    sends [l]. *)
Definition unlocked (s' : memStore T) (l : list (nat * Event T)) (wd : world) : world :=
  mkWorld s' (wheap wd) (wcancels wd) (wsending wd ++ [l]) (wreplays wd).

(** The sends of the fan-out loops, in the order of the loops. *)
Definition sendsLocked {R} (l : locked T R) : list (nat * Event T) :=
  events l ≫= sendsOf (wchs l).

Definition sendsLockedAll (kind : string) (l : lockedAll T) : list (nat * Event T) :=
  wchsAll l ≫= sendsAll kind (created l) (updated l).

Lemma unlockAndSend_sends {R} (l : locked T R) h :
  unlockAndSend l h = (h' ← forM send1 (sendsLocked l) h; Done (after l, h', result l)).
Proof. unfold unlockAndSend, sendsLocked. by rewrite fanoutAll_sends. Qed.

Lemma SetAll_sends kind values s h :
  let l := SetAllLocked kind values s in
  SetAll kind values s h =
    (h' ← forM send1 (sendsLockedAll kind l) h; Done (afterAll l, h', resultAll l)).
Proof.
  intros l. unfold SetAll, sendsLockedAll. fold l.
  assert (forM (sendAllTo kind (created l) (updated l)) (wchsAll l) h =
          forM send1 (wchsAll l ≫= sendsAll kind (created l) (updated l)) h) as ->; [|done].
  rewrite <-forM_bind. apply forM_ext. intros w h0 _. apply sendAllTo_sends.
Qed.

Inductive step (maxChan : Z) : world → world → Prop :=
  | step_Set kind key v wd :
      step maxChan wd
        (unlocked (after (SetLocked zero kind key v (wstore wd)))
           (sendsLocked (SetLocked zero kind key v (wstore wd))) wd)
  | step_SetFn kind key fn wd :
      step maxChan wd
        (unlocked (after (SetFnLocked kind key fn (wstore wd)))
           (sendsLocked (SetFnLocked kind key fn (wstore wd))) wd)
  | step_Delete kind key wd :
      step maxChan wd
        (unlocked (after (DeleteLocked zero kind key (wstore wd)))
           (sendsLocked (DeleteLocked zero kind key (wstore wd))) wd)
  | step_SetAll kind values wd :
      step maxChan wd
        (unlocked (afterAll (SetAllLocked kind values (wstore wd)))
           (sendsLockedAll kind (SetAllLocked kind values (wstore wd))) wd)
  | step_send s h cs fl1 c ev rest fl2 rs h' :
      trySend c ev h = Done h' →
      step maxChan (mkWorld s h cs (fl1 ++ ((c, ev) :: rest) :: fl2) rs)
        (mkWorld s h' cs (fl1 ++ rest :: fl2) rs)
  | step_return s h cs fl1 fl2 rs :
      step maxChan (mkWorld s h cs (fl1 ++ [] :: fl2) rs) (mkWorld s h cs (fl1 ++ fl2) rs)
  | step_Watch kind opts s h cs fl rs s' h' g c cf :
      (watcherID s + 1 < 2 ^ 64)%N →
      WatchRun maxChan kind opts s h = Done (s', h', g, (Some c, Some cf, None)) →
      step maxChan (mkWorld s h cs fl rs)
        (mkWorld s' h' (cf :: cs) fl (option_list g ++ rs))
  | step_cancel c s h cs fl rs s' h' :
      c ∈ cs → cancel c s h = Done (s', h') →
      step maxChan (mkWorld s h cs fl rs) (mkWorld s' h' cs fl rs)
  | step_Close s h cs fl rs s' h' r :
      Close s h = Done (s', h', r) →
      step maxChan (mkWorld s h cs fl rs) (mkWorld s' h' cs fl rs)
  | step_replay pickDone s h cs fl rs1 g rs2 g' h' :
      replayTurn pickDone g h = Done (g', h') →
      step maxChan (mkWorld s h cs fl (rs1 ++ g :: rs2))
        (mkWorld s h' cs fl (rs1 ++ option_list g' ++ rs2)).

(** A new store, before any call. *)
Definition start `{EqDecision T} (opt : StoreOptions T) : world :=
  mkWorld (NewMemStore opt) emptyHeap [] [] [].

(** [made c h]: the channel [c] was made, open or closed since. *)
Definition made (c : nat) h : Prop := is_Some (chans h !! c).

Lemma made_dom c h h' : dom (chans h) ⊆ dom (chans h') → made c h → made c h'.
Proof. unfold made. rewrite <-!elem_of_dom. set_solver. Qed.

Lemma made_grows c h h' : grows h h' → made c h → made c h'.
Proof. intros Hg. apply made_dom. by rewrite (grows_dom h h'). Qed.

Lemma chanOpen_made c h : chanOpen c h → made c h.
Proof. intros (st & Hst & _). by exists st. Qed.

Lemma closeChan_dom c h h' : closeChan c h = Done h' → dom (chans h') = dom (chans h).
Proof.
  unfold closeChan. destruct (chans h !! c) as [st|] eqn:E; [|done].
  destruct (isClosed st); [done|]. intros [= <-]. simpl.
  rewrite dom_insert_L. apply elem_of_dom_2 in E.
  apply set_eq. intros c'. rewrite elem_of_union, elem_of_singleton.
  split; [intros [->|?]; done|by right].
Qed.

Lemma cancel_dom c s h s' h' :
  cancel c s h = Done (s', h') → dom (chans h') = dom (chans h).
Proof.
  unfold cancel. destruct (watchers s !! ckind c) as [m|]; [|by intros [= _ <-]].
  destruct (m !! cid c) as [wch|]; [|by intros [= _ <-]].
  unfold closeDone. destruct (dones h !! cdone c) as [[|]|]; simpl; try done.
  destruct (closeChan _ _) as [h2|] eqn:E; simpl; [|done]. intros [= _ <-].
  by apply closeChan_dom in E.
Qed.

(** What holds of every state of a run: the registry agrees with the
    channels, and every channel a writer or a goroutine will still send on
    was made. *)
Definition invariant (wd : world) : Prop :=
  wf (wstore wd) (wheap wd) ∧ issued (wcancels wd) (wstore wd) (wheap wd) ∧
  (∀ l ce, l ∈ wsending wd → ce ∈ l → made ce.1 (wheap wd)) ∧
  (∀ g, g ∈ wreplays wd → made (gch g) (wheap wd)).

Lemma sendsLocked_made {R} (l : locked T R) kind h ce :
  wf (after l) h → wchs l = [] ∨ wchs l = snapshot kind (after l) →
  ce ∈ sendsLocked l → made ce.1 h.
Proof.
  intros Hwf Hw (ev & Hce & _)%list_elem_of_bind. unfold sendsOf in Hce.
  apply list_elem_of_fmap in Hce as (w & -> & [_ Hin]%list_elem_of_filter). simpl.
  destruct Hw as [Hw|Hw]; rewrite Hw in Hin; [by apply elem_of_nil in Hin|].
  apply elem_of_snapshot in Hin as (id & Hreg).
  apply chanOpen_made. by eapply wf_open.
Qed.

Lemma sendsAll_channel kind cr up w ce : ce ∈ sendsAll kind cr up w → ce.1 = ch w.
Proof.
  unfold sendsAll. rewrite elem_of_app, !list_elem_of_fmap.
  by intros [(ev & -> & _)|(ev & -> & _)].
Qed.

Lemma sendsLockedAll_made kind (l : lockedAll T) h ce :
  wf (afterAll l) h → wchsAll l = [] ∨ wchsAll l = snapshot kind (afterAll l) →
  ce ∈ sendsLockedAll kind l → made ce.1 h.
Proof.
  intros Hwf Hw (w & Hce & Hin)%list_elem_of_bind.
  rewrite (sendsAll_channel _ _ _ _ _ Hce).
  destruct Hw as [Hw|Hw]; rewrite Hw in Hin; [by apply elem_of_nil in Hin|].
  apply elem_of_snapshot in Hin as (id & Hreg).
  apply chanOpen_made. by eapply wf_open.
Qed.

Lemma unlocked_invariant s' l (wd : world) :
  keeps (wstore wd) s' → (∀ ce, ce ∈ l → made ce.1 (wheap wd)) →
  invariant wd → invariant (unlocked s' l wd).
Proof.
  intros Hk Hl (Hwf & Hiss & Hsend & Hrep). unfold invariant, unlocked. simpl.
  split_and!.
  - by eapply mem_wf_keeps.
  - eapply issued_keeps; [done|apply grows_refl|done].
  - intros l0 ce [Hin|Hin]%elem_of_app; [by eapply Hsend|].
    apply list_elem_of_singleton in Hin as ->. apply Hl.
  - done.
Qed.

Lemma step_invariant maxChan wd wd' : step maxChan wd wd' → invariant wd → invariant wd'.
Proof.
  intros Hstep Hinv. destruct Hstep.
  - destruct (SetLocked_shape kind key v (wstore wd)) as [Hk Hw].
    apply unlocked_invariant; [done| |done]. intros ce.
    apply (sendsLocked_made _ kind); [|done]. eapply mem_wf_keeps; [done|apply Hinv].
  - destruct (SetFnLocked_shape kind key fn (wstore wd)) as [Hk Hw].
    apply unlocked_invariant; [done| |done]. intros ce.
    apply (sendsLocked_made _ kind); [|done]. eapply mem_wf_keeps; [done|apply Hinv].
  - destruct (DeleteLocked_shape kind key (wstore wd)) as [Hk Hw].
    apply unlocked_invariant; [done| |done]. intros ce.
    apply (sendsLocked_made _ kind); [|done]. eapply mem_wf_keeps; [done|apply Hinv].
  - destruct (SetAllLocked_shape kind values (wstore wd)) as [Hk Hw].
    apply unlocked_invariant; [done| |done]. intros ce.
    apply (sendsLockedAll_made kind); [|done]. eapply mem_wf_keeps; [done|apply Hinv].
  - destruct Hinv as (Hwf & Hiss & Hsend & Hrep). simpl in *.
    pose proof (trySend_Done_grows _ _ _ _ H) as Hg.
    unfold invariant. simpl. split_and!.
    + by eapply mem_wf_grows.
    + eapply issued_keeps; [apply mem_keeps_refl|done|done].
    + intros l ce Hl Hce. apply (made_grows _ h); [done|].
      apply elem_of_app in Hl as [Hl|Hl].
      { apply (Hsend l); [|done]. apply elem_of_app. by left. }
      apply elem_of_cons in Hl as [->|Hl].
      { apply (Hsend ((c, ev) :: rest)); [|by right].
        apply elem_of_app. right. by left. }
      apply (Hsend l); [|done]. apply elem_of_app. right. by right.
    + intros g Hg'. apply (made_grows _ h); [done|]. by apply Hrep.
  - destruct Hinv as (Hwf & Hiss & Hsend & Hrep). simpl in *.
    unfold invariant. simpl. split_and!; try done.
    intros l ce Hl Hce. apply (Hsend l); [|done].
    apply elem_of_app. apply elem_of_app in Hl as [Hl|Hl]; [by left|].
    right. by right.
  - destruct Hinv as (Hwf & Hiss & Hsend & Hrep). simpl in *.
    assert (kind ≠ "" ∧ closed s = false) as [Hk Hc].
    { unfold WatchRun, Watch in H0. destruct (decide (kind = "")); [done|].
      by destruct (closed s). }
    assert (Watch kind opts s h = (s', h', g, (Some c, Some cf, None))) as HW.
    { unfold WatchRun in H0. rewrite decide_False, Hc in H0 by done.
      destruct (makeChanRun _ _ _); simpl in H0; [|done]. by injection H0. }
    pose proof (Watch_registers kind opts s h Hk Hc) as Hw.
    pose proof (mem_Watch_wf kind opts s h Hwf H Hc) as Hwf'.
    pose proof (Watch_issued kind opts cs s h Hwf Hiss H) as Hiss'.
    pose proof (Watch_replay kind opts s h Hk Hc) as Hg.
    unfold watched in *. destruct Hw as (g0 & Hw). rewrite Hw in HW.
    injection HW as <- <- <- <- <-.
    assert (dom (chans h) ⊆
            dom (<[fresh (dom (chans h)) :=
                     mkChan [] (Z.to_nat (bufSizeOf (applyOpts opts))) false]> (chans h)))
      as Hdom by (rewrite dom_insert_L; set_solver).
    unfold invariant. simpl. split_and!; try done.
    + intros l ce Hl Hce. eapply made_dom; [exact Hdom|]. by eapply Hsend.
    + intros g Hin. apply elem_of_app in Hin as [Hin|Hin].
      * rewrite Hw in Hg. simpl in Hg. rewrite Hg in Hin.
        destruct (_ && _); simpl in Hin; [|by apply elem_of_nil in Hin].
        apply list_elem_of_singleton in Hin as ->. simpl.
        unfold made. simpl. rewrite lookup_insert_eq. eauto.
      * eapply made_dom; [exact Hdom|]. by apply Hrep.
  - destruct Hinv as (Hwf & Hiss & Hsend & Hrep). simpl in *.
    destruct (mem_cancel_total cs c s h Hwf Hiss H) as (s1 & h1 & Hrun & ? & ? & _).
    pose proof (cancel_dom _ _ _ _ _ H0) as Hdom.
    rewrite Hrun in H0. injection H0 as <- <-.
    unfold invariant. simpl. split_and!; try done.
    + intros l ce Hl Hce. apply (made_dom _ h); [by rewrite Hdom|]. by eapply Hsend.
    + intros g Hin. apply (made_dom _ h); [by rewrite Hdom|]. by apply Hrep.
  - destruct Hinv as (Hwf & Hiss & Hsend & Hrep). simpl in *.
    destruct (closed s) eqn:Hc.
    + rewrite mem_Close_closed in H by done. by injection H as <- <- _.
    + destruct (mem_Close_open s h Hwf Hc) as (h1 & Hrun & _ & Hdom & Hd & _ & ?).
      rewrite Hrun in H. injection H as <- <- _.
      unfold invariant. simpl. split_and!; try done.
      * by eapply issued_closedStore.
      * intros l ce Hl Hce. apply (made_dom _ h); [by rewrite Hdom|]. by eapply Hsend.
      * intros g Hin. apply (made_dom _ h); [by rewrite Hdom|]. by apply Hrep.
  - destruct Hinv as (Hwf & Hiss & Hsend & Hrep). simpl in *.
    pose proof (replayTurn_grows _ _ _ _ _ H) as Hg.
    unfold invariant. simpl. split_and!.
    + by eapply mem_wf_grows.
    + eapply issued_keeps; [apply mem_keeps_refl|done|done].
    + intros l ce Hl Hce. apply (made_grows _ h); [done|]. by eapply Hsend.
    + intros g0 Hin. apply (made_grows _ h); [done|].
      rewrite !elem_of_app in Hin. destruct Hin as [Hin|[Hin|Hin]].
      * apply Hrep. apply elem_of_app. by left.
      * destruct g' as [g1|]; simpl in Hin; [|by apply elem_of_nil in Hin].
        apply list_elem_of_singleton in Hin as ->.
        rewrite (replayTurn_channel _ _ _ _ _ H).
        apply Hrep. apply elem_of_app. right. by left.
      * apply Hrep. apply elem_of_app. right. by right.
Qed.

Theorem reachable_invariant `{EqDecision T} (maxChan : Z) (opt : StoreOptions T) wd :
  rtc (step maxChan) (start opt) wd → invariant wd.
Proof.
  intros Hrtc. apply rtc_nsteps in Hrtc as [n Hn].
  revert wd Hn. induction n as [|n IH]; intros wd Hn.
  - inversion Hn; subst. unfold invariant, start. simpl.
    split_and!; [apply mem_wf_new|apply issued_new|..].
    + intros l ce Hl. by apply elem_of_nil in Hl.
    + intros g Hg. by apply elem_of_nil in Hg.
  - apply nsteps_inv_r in Hn as (w1 & Hn & Hstep).
    eapply step_invariant; [done|]. by apply IH.
Qed.

(** A call that runs without another call in between is a run of steps:
    the critical section, the sends one after the other, the return. *)
Lemma sends_steps maxChan s h cs fl l rs h' :
  forM send1 l h = Done h' →
  rtc (step maxChan) (mkWorld s h cs (fl ++ [l]) rs) (mkWorld s h' cs fl rs).
Proof.
  revert h. induction l as [|[c ev] l IH]; intros h.
  - intros [= <-]. apply rtc_once.
    rewrite <-(app_nil_r fl) at 2. apply step_return.
  - rewrite forM_cons. change (send1 (c, ev) h) with (trySend c ev h).
    destruct (trySend c ev h) as [h1|] eqn:E; simpl; [|done]. intros Hrun.
    eapply rtc_l; [|by apply IH]. by apply step_send.
Qed.

Lemma calls_are_runs maxChan kind key v fn values s h cs fl rs :
  let wd := mkWorld s h cs fl rs in
  (∀ s' h' r, Set_ zero kind key v s h = Done (s', h', r) →
     rtc (step maxChan) wd (mkWorld s' h' cs fl rs)) ∧
  (∀ s' h' r, SetFn kind key fn s h = Done (s', h', r) →
     rtc (step maxChan) wd (mkWorld s' h' cs fl rs)) ∧
  (∀ s' h' r, Delete zero kind key s h = Done (s', h', r) →
     rtc (step maxChan) wd (mkWorld s' h' cs fl rs)) ∧
  (∀ s' h' r, SetAll kind values s h = Done (s', h', r) →
     rtc (step maxChan) wd (mkWorld s' h' cs fl rs)).
Proof.
  intros wd. split_and!; intros s' h' r.
  - unfold Set_. rewrite unlockAndSend_sends.
    destruct (forM send1 _ h) as [h1|] eqn:E; simpl; [|done]. intros [= <- <- _].
    eapply rtc_l; [apply (step_Set maxChan kind key v wd)|]. by apply sends_steps.
  - unfold SetFn. rewrite unlockAndSend_sends.
    destruct (forM send1 _ h) as [h1|] eqn:E; simpl; [|done]. intros [= <- <- _].
    eapply rtc_l; [apply (step_SetFn maxChan kind key fn wd)|]. by apply sends_steps.
  - unfold Delete. rewrite unlockAndSend_sends.
    destruct (forM send1 _ h) as [h1|] eqn:E; simpl; [|done]. intros [= <- <- _].
    eapply rtc_l; [apply (step_Delete maxChan kind key wd)|]. by apply sends_steps.
  - rewrite SetAll_sends.
    destruct (forM send1 _ h) as [h1|] eqn:E; simpl; [|done]. intros [= <- <- _].
    eapply rtc_l; [apply (step_SetAll maxChan kind values wd)|]. by apply sends_steps.
Qed.

(** A send on a channel that was made returns, or panics because the
    channel was closed; so does a sequence of sends, which panics when one
    of its channels is closed. *)
Lemma trySend_made c ev h :
  made c h →
  (∃ h', trySend c ev h = Done h' ∧ grows h h') ∨
  (trySend c ev h = Panic "send on closed channel" ∧ chanClosed c h).
Proof.
  intros [st Hst]. destruct (isClosed st) eqn:Ho.
  - right. unfold trySend. rewrite Hst, Ho. split; [done|]. by exists st.
  - left. apply trySend_grows. by exists st.
Qed.

Lemma sends_closed_panic (l : list (nat * Event T)) h ce :
  (∀ ce', ce' ∈ l → made ce'.1 h) → ce ∈ l → chanClosed ce.1 h →
  forM send1 l h = Panic "send on closed channel".
Proof.
  revert h. induction l as [|[c ev] l IH]; intros h Hmade Hin Hcl.
  { by apply elem_of_nil in Hin. }
  rewrite forM_cons. change (send1 (c, ev) h) with (trySend c ev h).
  destruct (trySend_made c ev h) as [(h1 & Hrun & Hg)|[-> _]]; [| |done].
  { apply (Hmade (c, ev)). by left. }
  apply elem_of_cons in Hin as [->|Hin].
  - simpl in Hcl. destruct Hcl as (st & Hst & Ho).
    unfold trySend in Hrun. by rewrite Hst, Ho in Hrun.
  - rewrite Hrun. simpl. apply IH; [|done|by eapply grows_closed].
    intros ce' Hce'. eapply made_grows; [done|]. apply Hmade. by right.
Qed.

(** One turn of a replay goroutine whose channel was made returns, or
    panics because the channel was closed. *)
Lemma replayTurn_made pickDone (g : goroutine T) h :
  made (gch g) h →
  (∃ r, replayTurn pickDone g h = Done r) ∨
  replayTurn pickDone g h = Panic "send on closed channel".
Proof.
  intros [st Hst]. unfold replayTurn. destruct (gpending g) as [|ev rest]; [eauto|].
  unfold replaySelect. rewrite Hst. simpl.
  destruct (_ && _); simpl; [eauto|]. destruct (_ || _); simpl; [|eauto].
  destruct (trySend_made (gch g) ev h) as [(h1 & -> & _)|[-> _]]; [by exists st| |];
    simpl; eauto.
Qed.

(** *** A writer overtaken between its unlock and its sends

    The writers send to the watchers they copied under the lock.  When a
    [cancel] closure or [Close] runs after the unlock and before the sends,
    a copied watcher's channel is closed by then, and the send panics. *)
Lemma sendsLocked_elem {R} (l : locked T R) w ev :
  w ∈ wchs l → ev ∈ events l → accepts w (EventType ev) = true →
  (ch w, ev) ∈ sendsLocked l.
Proof.
  intros Hw Hev Ha. apply list_elem_of_bind. exists ev. split; [|done].
  unfold sendsOf. apply list_elem_of_fmap. exists w. split; [done|].
  by apply list_elem_of_filter.
Qed.

Lemma fanout_after_cancel {R} (l : locked T R) kind cs c w ev h :
  wf (after l) h → issued cs (after l) h → c ∈ cs →
  reg (after l) (ckind c) (cid c) w →
  wchs l = [] ∨ wchs l = snapshot kind (after l) →
  w ∈ wchs l → ev ∈ events l → accepts w (EventType ev) = true →
  ∃ s1 h1, cancel c (after l) h = Done (s1, h1) ∧
    unlockAndSend l h1 = Panic "send on closed channel".
Proof.
  intros Hwf Hiss Hc Hreg Hshape Hw Hev Ha.
  destruct (cancel_live cs c (after l) h w Hwf Hiss Hc Hreg) as (Hrun & _).
  exists (cancelled c (after l) h).1, (cancelled c (after l) h).2.
  split; [by destruct (cancelled c (after l) h)|].
  assert (dom (chans (cancelled c (after l) h).2) = dom (chans h)) as Hdom.
  { apply (cancel_dom c (after l) h (cancelled c (after l) h).1).
    rewrite Hrun. by destruct (cancelled c (after l) h). }
  rewrite unlockAndSend_sends.
  rewrite (sends_closed_panic (sendsLocked l) _ (ch w, ev)); [done| | |].
  - intros ce Hce. apply (made_dom _ h); [by rewrite Hdom|].
    by eapply sendsLocked_made.
  - by apply sendsLocked_elem.
  - simpl. pose proof (wf_open _ _ Hwf _ _ _ Hreg) as (st & Hst & _).
    destruct Hreg as (m & Hm & Hw'). unfold cancelled, chanClosed. simpl.
    rewrite Hm. simpl. rewrite Hw'. simpl. rewrite Hst. simpl.
    rewrite lookup_insert_eq. eauto.
Qed.

Lemma fanout_after_Close {R} (l : locked T R) kind w ev h :
  wf (after l) h → closed (after l) = false →
  wchs l = [] ∨ wchs l = snapshot kind (after l) →
  w ∈ wchs l → ev ∈ events l → accepts w (EventType ev) = true →
  ∃ s1 h1, Close (after l) h = Done (s1, h1, None) ∧
    unlockAndSend l h1 = Panic "send on closed channel".
Proof.
  intros Hwf Hc Hshape Hw Hev Ha.
  destruct (mem_Close_open (after l) h Hwf Hc) as (h1 & Hrun & Hall & Hdom & _).
  exists (closedStore (after l)), h1. split; [done|].
  assert (∀ ce, ce ∈ sendsLocked l → made ce.1 h1) as Hmade.
  { intros ce Hce. apply (made_dom _ h); [by rewrite Hdom|].
    by eapply sendsLocked_made. }
  rewrite unlockAndSend_sends.
  rewrite (sends_closed_panic (sendsLocked l) _ (ch w, ev)); [done|done| |].
  - by apply sendsLocked_elem.
  - destruct (Hmade (ch w, ev)) as [st Hst]; [by apply sendsLocked_elem|].
    exists st. split; [done|]. by eapply Hall.
Qed.

End gomap_facts.

Arguments world T : clear implicits.

End gomap_facts.

(** ** The durable engine: registry and channels *)

Module sqlite_facts.
Import store heap_facts sqlite.

Section sqlite_facts.
Context {T : Type} (zero : T).
Implicit Types (s : sqLiteStore T) (h : heap T) (w : watcher).

(** [reg s kind w]: watcher [w] is subscribed to [kind]. *)
Definition reg s (kind : string) w : Prop :=
  ∃ ws, subs s !! kind = Some ws ∧ w ∈ ws.

(** The subscribed channels are open, pairwise distinct, and they are all
    the open channels there are; a closed store has no subscription left
    and a closed database handle. *)
Record wf s h : Prop := mkWf {
  wf_open : ∀ kind w, reg s kind w → chanOpen (ch w) h;
  wf_inj : ∀ k1 w1 k2 w2,
    reg s k1 w1 → reg s k2 w2 → ch w1 = ch w2 → k1 = k2 ∧ w1 = w2;
  wf_only : ∀ c, chanOpen c h → ∃ kind w, reg s kind w ∧ ch w = c;
  wf_closed : closed s = true → ∀ kind w, ¬ reg s kind w;
  wf_db : dbClosed (db s) = closed s;
}.

(** [keeps s s']: same subscriptions, same flags. *)
Definition keeps s s' : Prop :=
  subs s' = subs s ∧ closed s' = closed s ∧ dbClosed (db s') = dbClosed (db s).

Lemma sq_keeps_refl s : keeps s s.
Proof. done. Qed.

Lemma keeps_setRows t s : keeps s (setRows t s).
Proof. done. Qed.

Lemma sq_wf_keeps s s' h : keeps s s' → wf s h → wf s' h.
Proof.
  intros (Hs & Hc & Hd) [Ho Hi Hon Hcl Hdb].
  split; unfold reg in *; rewrite ?Hs, ?Hc, ?Hd; done.
Qed.

Lemma sq_wf_grows s h h' : grows h h' → wf s h → wf s h'.
Proof.
  intros Hg [Ho Hi Hon Hcl Hdb]. split; try done.
  - intros ?? ?. eapply grows_open; eauto.
  - intros c Hc. apply Hon. by eapply grows_open_inv.
Qed.

(** The watchers [publish] iterates over. *)
Definition subscribers (kind : string) s : list watcher :=
  elements (default ∅ (subs s !! kind)).

Lemma elem_of_subscribers kind s w : w ∈ subscribers kind s ↔ reg s kind w.
Proof.
  unfold subscribers, reg. rewrite elem_of_elements.
  destruct (subs s !! kind) as [ws|]; simpl.
  - split; [by exists ws|]. by intros (? & [= <-] & ?).
  - split; [by intros ?%not_elem_of_empty|]. by intros (? & ? & ?).
Qed.

Lemma subscribers_NoDup kind s h : wf s h → NoDup (ch <$> subscribers kind s).
Proof.
  intros Hwf. apply NoDup_fmap_2_strong; [|apply NoDup_elements].
  intros w1 w2 H1%elem_of_subscribers H2%elem_of_subscribers Hch.
  by destruct (wf_inj _ _ Hwf kind w1 kind w2).
Qed.

Lemma publish_fanout kind s (ev : Event T) h :
  publish kind s ev h = fanout (subscribers kind s) ev h.
Proof. done. Qed.

(** Publishing after the commit, on a well-formed store: it never panics,
    it only appends to buffers, and a subscriber of the kind whose buffer
    has room receives the events its filter accepts, in order. *)
Lemma publishAll_total {R} kind (c : committed T R) h :
  wf (after c) h →
  ∃ h', publishAll kind c h = Done (after c, h', result c) ∧ grows h h' ∧
    wf (after c) h' ∧
    ∀ w0 st, reg (after c) kind w0 → chans h !! ch w0 = Some st →
      length (buf st) + length (events c) ≤ cap st →
      chanBuf (ch w0) h' =
        buf st ++ filter (λ ev, accepts w0 (EventType ev) = true) (events c).
Proof.
  intros Hwf. unfold publishAll.
  assert (forM (publish kind (after c)) (events c) h =
          forM (fanout (subscribers kind (after c))) (events c) h) as -> by done.
  destruct (fanoutAll_total (subscribers kind (after c)) (events c) h)
    as (h' & Hrun & Hg & Hbuf).
  { intros w Hin%elem_of_subscribers. by eapply wf_open. }
  exists h'. rewrite Hrun. simpl. split_and!; try done; [by eapply sq_wf_grows|].
  intros w0 st Hin Hst Hroom. apply Hbuf; try done.
  - by eapply subscribers_NoDup.
  - by apply elem_of_subscribers.
Qed.

(** *** The transactions keep the subscriptions *)

Lemma SetTx_keeps kind key value now s :
  keeps s (after (SetTx kind key value now s)).
Proof.
  unfold SetTx. destruct (closed s); [done|].
  destruct (Marshal _ _) as [enc [err|]]; [done|].
  destruct (setQuery _ _ _ _ _) as [tx n]. simpl.
  destruct (negb _); [|done].
  destruct (getQuery _ _ _); [|done]. by case_decide.
Qed.

Lemma SetFnTx_keeps kind key fn now s :
  keeps s (after (SetFnTx kind key fn now s)).
Proof.
  unfold SetFnTx. destruct (closed s); [done|].
  destruct (getQuery _ _ _); [|done].
  destruct (Unmarshal _ _) as [cur [err|]]; [done|].
  destruct (fn cur) as [nv [err|]]; [done|].
  destruct (Marshal _ _) as [enc [err|]]; [done|]. by case_decide.
Qed.

Lemma SetAllTx_keeps kind values now s :
  keeps s (after (SetAllTx kind values now s)).
Proof.
  unfold SetAllTx. destruct (closed s); [done|].
  by destruct (setAllLoop _ _ _ _ _ _) as [[[tx cr] up] [err|]].
Qed.

Lemma DeleteTx_keeps kind key s :
  keeps s (after (DeleteTx zero kind key s)).
Proof.
  unfold DeleteTx. destruct (closed s); [done|].
  destruct (getQuery _ _ _); [|done].
  by destruct (Unmarshal _ _) as [cur [err|]].
Qed.

(** On a well-formed store every writer returns. *)
Lemma sq_Set_total kind key value now s h :
  wf s h →
  let c := SetTx kind key value now s in
  ∃ h', Set_ kind key value now s h = Done (after c, h', result c) ∧
    grows h h' ∧ wf (after c) h'.
Proof.
  intros Hwf c. destruct (publishAll_total kind c h) as (h' & ? & ? & ? & _); eauto.
  eapply sq_wf_keeps; [apply SetTx_keeps|done].
Qed.

Lemma sq_SetFn_total kind key fn now s h :
  wf s h →
  let c := SetFnTx kind key fn now s in
  ∃ h', SetFn kind key fn now s h = Done (after c, h', result c) ∧
    grows h h' ∧ wf (after c) h'.
Proof.
  intros Hwf c. destruct (publishAll_total kind c h) as (h' & ? & ? & ? & _); eauto.
  eapply sq_wf_keeps; [apply SetFnTx_keeps|done].
Qed.


Lemma sq_Delete_total kind key s h :
  wf s h →
  let c := DeleteTx zero kind key s in
  ∃ h', Delete zero kind key s h = Done (after c, h', result c) ∧
    grows h h' ∧ wf (after c) h'.
Proof.
  intros Hwf c. destruct (publishAll_total kind c h) as (h' & ? & ? & ? & _); eauto.
  eapply sq_wf_keeps; [apply DeleteTx_keeps|done].
Qed.

(** *** Watch, cancel and Close *)

(** The store, the heap and the results of a [Watch] that subscribes. *)
Definition watched (kind : string) (opts : list WatchOption) s h
    : sqLiteStore T * heap T * watcher * cancelFn :=
  let cfg := applyOpts opts in
  let c := fresh (dom (chans h)) in
  let w := mkWatcher c (EventTypes cfg) in
  (setSubs (<[kind := {[w]} ∪ default ∅ (subs s !! kind)]> (subs s)) s,
   mkHeap (<[c := mkChan [] (Z.to_nat (bufSizeOf cfg)) false]> (chans h)) (dones h),
   w, mkCancel kind w).

Lemma Watch_subscribes kind opts s h :
  kind ≠ "" → closed s = false →
  let '(s', h', w, cf) := watched kind opts s h in
  ∃ g, Watch kind opts s h = (s', h', g, (Some (ch w), Some cf, None)).
Proof.
  intros Hk Hc. unfold watched, Watch.
  rewrite decide_False by done. rewrite Hc. simpl. eexists. reflexivity.
Qed.

Lemma sq_reg_watched kind opts s h k w' :
  let '(s', _, w, _) := watched kind opts s h in
  reg s' k w' ↔ (k = kind ∧ w' = w) ∨ reg s k w'.
Proof.
  unfold watched, reg. simpl. destruct (decide (k = kind)) as [->|Hne].
  - rewrite lookup_insert_eq. split.
    + intros (ws & [= <-] & [->%elem_of_singleton|Hin]%elem_of_union); [by left|].
      right. destruct (subs s !! kind) as [ws|]; simpl in Hin;
        [by exists ws|by apply not_elem_of_empty in Hin].
    + intros [[_ ->]|(ws & Hws & Hin)]; eexists; (split; [done|]);
        apply elem_of_union; [left; by apply elem_of_singleton|right].
      by rewrite Hws.
  - rewrite lookup_insert_ne by done. split; [by right|].
    by intros [[? _]|?].
Qed.

Lemma sq_fresh_chan_not_open h : ¬ chanOpen (fresh (dom (chans h))) h.
Proof.
  intros (st & Hst & _). apply elem_of_dom_2 in Hst. by apply is_fresh in Hst.
Qed.

Lemma sq_Watch_wf kind opts s h :
  wf s h → closed s = false →
  let '(s', h', _, _) := watched kind opts s h in wf s' h'.
Proof.
  intros Hwf Hc.
  pose proof (sq_reg_watched kind opts s h) as Hreg.
  pose proof (sq_fresh_chan_not_open h) as Hnew.
  unfold watched in *. simpl in *.
  set (c := fresh (dom (chans h))) in *.
  set (w := mkWatcher c (EventTypes (applyOpts opts))) in *.
  assert (∀ c', chanOpen c'
      (mkHeap (<[c := mkChan [] (Z.to_nat (bufSizeOf (applyOpts opts))) false]> (chans h))
              (dones h))
      ↔ c' = c ∨ chanOpen c' h) as Hopen.
  { intros c'. unfold chanOpen. simpl. destruct (decide (c' = c)) as [->|Hne].
    - rewrite lookup_insert_eq. split; [by left|]. intros _. by eexists.
    - rewrite lookup_insert_ne by done. split; [by right|]. by intros [?|?]. }
  split.
  - intros k w' [[-> ->]|Hr]%Hreg; apply Hopen; [by left|].
    right. by eapply wf_open.
  - intros k1 w1 k2 w2 H1%Hreg H2%Hreg Hch.
    destruct H1 as [[-> ->]|H1], H2 as [[-> ->]|H2]; try done.
    + exfalso. apply Hnew. simpl in Hch. fold c. rewrite Hch. by eapply wf_open.
    + exfalso. apply Hnew. simpl in Hch. fold c. rewrite <-Hch. by eapply wf_open.
    + by eapply wf_inj.
  - intros c' [->|Ho]%Hopen.
    + exists kind, w. split; [|done]. apply Hreg. by left.
    + destruct (wf_only _ _ Hwf c' Ho) as (k & w' & Hr & Hch).
      exists k, w'. split; [|done]. apply Hreg. by right.
  - simpl. by rewrite Hc.
  - simpl. by apply (wf_db _ _ Hwf).
Qed.

Lemma sq_cancel_spent c s h : ¬ reg s (ckind c) (cw c) → cancel c s h = Done (s, h).
Proof.
  intros Hsp. unfold cancel.
  destruct (subs s !! ckind c) as [ws|] eqn:Hws; [|done].
  case_decide; [|done]. destruct Hsp. by exists ws.
Qed.

(** The store and the heap after a closure has removed its watcher. *)
Definition cancelled (c : cancelFn) s h : sqLiteStore T * heap T :=
  let ws' := default ∅ (subs s !! ckind c) ∖ {[cw c]} in
  let st := default (mkChan [] 0 false) (chans h !! ch (cw c)) in
  (setSubs (if decide (size ws' = 0)
            then delete (ckind c) (subs s)
            else <[ckind c := ws']> (subs s)) s,
   updChan (ch (cw c)) (mkChan (buf st) (cap st) true) h).

Lemma sq_cancel_registered c s h :
  reg s (ckind c) (cw c) → chanOpen (ch (cw c)) h →
  cancel c s h = Done (cancelled c s h).
Proof.
  intros (ws & Hws & Hin) (st & Hst & Ho). unfold cancel, cancelled.
  rewrite Hws. simpl. rewrite decide_True by done.
  unfold closeChan. rewrite Hst, Ho. simpl. done.
Qed.

Lemma sq_reg_cancelled c s h k w :
  reg (cancelled c s h).1 k w ↔ reg s k w ∧ ¬ (k = ckind c ∧ w = cw c).
Proof.
  unfold cancelled, reg. simpl.
  set (ws' := default ∅ (subs s !! ckind c) ∖ {[cw c]}).
  assert (∀ w, w ∈ ws' ↔ reg s (ckind c) w ∧ w ≠ cw c) as Hws'.
  { intros w0. unfold ws', reg. rewrite elem_of_difference, not_elem_of_singleton.
    destruct (subs s !! ckind c) as [ws|]; simpl.
    - split; [intros [? ?]; split; [by exists ws|done]|].
      by intros [(? & [= <-] & ?) ?].
    - split; [by intros [?%not_elem_of_empty _]|]. by intros [(? & ? & _) _]. }
  destruct (decide (k = ckind c)) as [->|Hk].
  - case_decide as Hsz.
    + apply size_empty_inv in Hsz. rewrite lookup_delete_eq. split.
      * by intros (? & ? & _).
      * intros [Hr Hn]. assert (w ∈ ws') as Hin.
        { apply Hws'. split; [done|]. intros ->. by apply Hn. }
        apply Hsz in Hin. by apply not_elem_of_empty in Hin.
    + rewrite lookup_insert_eq. split.
      * intros (? & [= <-] & [Hr Hne]%Hws'). split; [done|]. by intros [_ ?].
      * intros [Hr Hn]. exists ws'. split; [done|]. apply Hws'.
        split; [done|]. intros ->. by apply Hn.
  - assert ((if decide (size ws' = 0) then delete (ckind c) (subs s)
             else <[ckind c := ws']> (subs s)) !! k = subs s !! k) as ->.
    { case_decide; [by rewrite lookup_delete_ne|by rewrite lookup_insert_ne]. }
    split; [|by intros [? _]]. intros ?. split; [done|]. by intros [? _].
Qed.

(** A [cancel] closure never panics; once it has run its watcher is gone
    and a further call changes nothing. *)
Lemma sq_cancel_total c s h :
  wf s h →
  ∃ s1 h1, cancel c s h = Done (s1, h1) ∧ wf s1 h1 ∧
    ¬ reg s1 (ckind c) (cw c) ∧ db s1 = db s ∧ closed s1 = closed s ∧
    cancel c s1 h1 = Done (s1, h1).
Proof.
  intros Hwf.
  assert (reg s (ckind c) (cw c) ∨ ¬ reg s (ckind c) (cw c)) as [Hr|Hn].
  { unfold reg. destruct (subs s !! ckind c) as [ws|]; [|right; by intros (? & ? & _)].
    destruct (decide (cw c ∈ ws)); [left; by exists ws|right].
    by intros (? & [= <-] & ?). }
  - pose proof (wf_open _ _ Hwf _ _ Hr) as Ho.
    pose proof (sq_reg_cancelled c s h) as Hreg.
    assert (¬ reg (cancelled c s h).1 (ckind c) (cw c)) as Hsp.
    { intros [_ Hn]%Hreg. by apply Hn. }
    exists (cancelled c s h).1, (cancelled c s h).2.
    split_and!; try done; [by apply sq_cancel_registered| |by apply sq_cancel_spent].
    destruct Ho as (st & Hst & Hopen).
    assert (∀ c', chanOpen c' (cancelled c s h).2 ↔ c' ≠ ch (cw c) ∧ chanOpen c' h)
      as Hch.
    { intros c'. unfold cancelled, chanOpen. simpl. rewrite Hst. simpl.
      destruct (decide (c' = ch (cw c))) as [->|Hne].
      - rewrite lookup_insert_eq. split; [by intros (? & [= <-] & ?)|by intros [? _]].
      - rewrite lookup_insert_ne by done. split; [done|by intros [_ ?]]. }
    split.
    + intros k w [Hr' Hn]%Hreg. apply Hch. split; [|by eapply wf_open].
      intros Heq. apply Hn. by eapply (wf_inj _ _ Hwf).
    + intros k1 w1 k2 w2 [H1 _]%Hreg [H2 _]%Hreg. by eapply wf_inj.
    + intros c' [Hne Ho]%Hch.
      destruct (wf_only _ _ Hwf c' Ho) as (k & w & Hr' & Heq).
      exists k, w. split; [|done]. apply Hreg. split; [done|].
      intros [-> ->]. done.
    + intros Hcl k w [Hr' _]%Hreg. by eapply (wf_closed _ _ Hwf).
    + by apply (wf_db _ _ Hwf).
  - exists s, h. split_and!; try done; by apply sq_cancel_spent.
Qed.

Lemma sq_elem_of_allWatchers s w : w ∈ allWatchers s ↔ ∃ kind, reg s kind w.
Proof.
  unfold allWatchers, reg. rewrite list_elem_of_bind. split.
  - intros ([k ws] & Hin%elem_of_elements & Hkm%elem_of_map_to_list).
    by exists k, ws.
  - intros (k & ws & Hws & Hw). exists (k, ws).
    split; [by apply elem_of_elements|by apply elem_of_map_to_list].
Qed.

Lemma sq_allWatchers_NoDup s h : wf s h → NoDup (ch <$> allWatchers s).
Proof.
  intros Hwf. unfold allWatchers. rewrite fmap_list_bind.
  apply NoDup_bind; [| |apply NoDup_map_to_list].
  - intros [k1 ws1] [k2 ws2] c H1%elem_of_map_to_list H2%elem_of_map_to_list.
    simpl. intros (w1 & -> & Hw1%elem_of_elements)%list_elem_of_fmap
      (w2 & Hch & Hw2%elem_of_elements)%list_elem_of_fmap.
    destruct (wf_inj _ _ Hwf k1 w1 k2 w2) as [-> _]; try done;
      [by exists ws1|by exists ws2|].
    congruence.
  - intros [k ws] Hkm%elem_of_map_to_list. simpl.
    apply NoDup_fmap_2_strong; [|apply NoDup_elements].
    intros w1 w2 H1%elem_of_elements H2%elem_of_elements Hch.
    destruct (wf_inj _ _ Hwf k w1 k w2) as [_ ->]; try done; by exists ws.
Qed.

(** The store after [Close]. *)
Definition closedStore s : sqLiteStore T :=
  mkStore (mkDB (rows (db s)) true) (codec s) ∅ true.

Lemma sq_closedStore_no_watcher s kind w : ¬ reg (closedStore s) kind w.
Proof. unfold reg, closedStore. simpl. by intros (ws & ?%lookup_empty_Some & _). Qed.

Definition allClosed h : Prop :=
  ∀ c st, chans h !! c = Some st → isClosed st = true.

Lemma sq_Close_open s h :
  wf s h → closed s = false →
  ∃ h', Close s h = Done (closedStore s, h', None) ∧
    allClosed h' ∧ dom (chans h') = dom (chans h) ∧
    (∀ c, chanBuf c h' = chanBuf c h) ∧ wf (closedStore s) h'.
Proof.
  intros Hwf Hc. unfold Close. rewrite Hc.
  destruct (closeAll_spec (ch <$> allWatchers s) h)
    as (h' & Hrun & Hd & Hdom & Hcl & Hother & Hbuf).
  { by eapply sq_allWatchers_NoDup. }
  { intros c (w & -> & Hw)%list_elem_of_fmap.
    apply sq_elem_of_allWatchers in Hw as (k & Hr). by eapply wf_open. }
  assert (forM (λ w, closeChan (ch w)) (allWatchers s) h = Done h') as ->.
  { rewrite <-Hrun. clear. generalize (allWatchers s) h.
    intros l. induction l as [|w l IH]; intros h0; [done|].
    rewrite fmap_cons, !forM_cons.
    destruct (closeChan (ch w) h0); simpl; [apply IH|done]. }
  simpl. exists h'. split; [done|].
  assert (allClosed h') as Hall.
  { intros c st Hst. destruct (decide (c ∈ ch <$> allWatchers s)) as [Hin|Hnin].
    - destruct (Hcl c Hin) as (st' & Hst' & ?). congruence.
    - rewrite Hother in Hst by done.
      destruct (isClosed st) eqn:E; [done|]. exfalso. apply Hnin.
      destruct (wf_only _ _ Hwf c) as (k & w & Hr & <-); [by exists st|].
      apply list_elem_of_fmap. exists w. split; [done|].
      apply sq_elem_of_allWatchers. eauto. }
  split_and!; try done. split; try done.
  - intros k w Hr. by apply sq_closedStore_no_watcher in Hr.
  - intros k1 w1 k2 w2 Hr. by apply sq_closedStore_no_watcher in Hr.
  - intros c (st & Hst & Ho). apply Hall in Hst. congruence.
  - intros _ k w. apply sq_closedStore_no_watcher.
Qed.

Lemma sq_Close_closed s h : closed s = true → Close s h = Done (s, h, None).
Proof. intros Hc. unfold Close. by rewrite Hc. Qed.

(** *** Rows and versions *)

Lemma kindRows_lookup (kind k : string) (t : gmap (string * string) row) :
  kindRows kind t !! k = t !! (kind, k).
Proof.
  unfold kindRows. rewrite <-lookup_map_curry.
  destruct (map_curry t !! kind) as [m|]; simpl; [done|apply lookup_empty].
Qed.




Lemma upsert_other (kind k enc now : string) (t : gmap (string * string) row) kk :
  kk ≠ (kind, k) → upsertQuery kind k enc now t !! kk = t !! kk.
Proof.
  intros Hne. unfold upsertQuery.
  destruct (t !! (kind, k)); by rewrite lookup_insert_ne.
Qed.

(** The row written by an upsert depends only on the row it replaces. *)
Lemma upsert_lookup_self (kind k enc now : string) (t : gmap (string * string) row) :
  upsertQuery kind k enc now t !! (kind, k) =
    Some (match t !! (kind, k) with
          | None => mkRow enc 1 now
          | Some r =>
              mkRow enc
                (if decide (value r ≠ enc) then version r + 1 else version r)%Z
                (if decide (value r ≠ enc) then now else updated_at r)
          end).
Proof.
  unfold upsertQuery. destruct (t !! (kind, k)); by rewrite lookup_insert_eq.
Qed.

(** The loop of [SetAll] when no marshalling fails: every supplied key is
    upserted once, no other row is touched, and the keys are split by
    their presence at the start of the transaction. *)
Lemma setAllLoop_ok (c : Codec T) (kind : string) now ex (l : list (string * T))
    tx cr up tx' cr' up' :
  NoDup l.*1 →
  setAllLoop c kind now ex l (tx, cr, up) = (tx', cr', up', None) →
  (∀ k v, (k, v) ∈ l →
     (Marshal c v).2 = None ∧
     tx' !! (kind, k) = upsertQuery kind k (Marshal c v).1 (now k) tx !! (kind, k)) ∧
  (∀ kn k, kn ≠ kind ∨ k ∉ l.*1 → tx' !! (kn, k) = tx !! (kn, k)) ∧
  cr' = list_to_map (filter (λ kv, kv.1 ∉ ex) l) ∪ cr ∧
  up' = list_to_map (filter (λ kv, kv.1 ∈ ex) l) ∪ up.
Proof.
  revert tx cr up. induction l as [|[k v] l IH]; intros tx cr up Hnd Hrun.
  - simpl in Hrun. injection Hrun as <- <- <-. split_and!.
    + intros k v Hin. by apply elem_of_nil in Hin.
    + done.
    + rewrite filter_nil. simpl. by rewrite (left_id_L ∅ (∪)).
    + rewrite filter_nil. simpl. by rewrite (left_id_L ∅ (∪)).
  - rewrite fmap_cons in Hnd. apply NoDup_cons in Hnd as [Hk Hnd]. simpl in Hk.
    simpl in Hrun. destruct (Marshal c v) as [enc [err|]] eqn:Em; [done|].
    assert (∀ P : string * T → Prop, ∀ `{∀ x, Decision (P x)},
      (list_to_map (filter P l) : gmap string T) !! k = None) as Hfresh.
    { intros P ?. apply not_elem_of_list_to_map_1.
      intros (kv & -> & Hin%list_elem_of_filter)%list_elem_of_fmap.
      apply Hk. apply list_elem_of_fmap. exists kv. split; [done|]. apply Hin. }
    destruct (decide (k ∈ ex)) as [Hex|Hex];
      apply IH in Hrun as (Hrows & Hother & -> & ->); try done.
    + split_and!.
      * intros k0 v0 [[= -> ->]|Hin]%elem_of_cons.
        -- rewrite Em. simpl. split; [done|]. apply Hother. by right.
        -- destruct (Hrows k0 v0 Hin) as [? ->]. split; [done|].
           rewrite !upsert_lookup_self. rewrite upsert_other; [done|].
           intros [= ->]. apply Hk. apply list_elem_of_fmap. by exists (k, v0).
      * intros kn k0 Hne. rewrite Hother.
        -- apply upsert_other. intros [= -> ->].
           destruct Hne as [?|Hne]; [done|]. apply Hne. rewrite fmap_cons. left.
        -- destruct Hne as [?|Hne]; [by left|right].
           intros ?. apply Hne. rewrite fmap_cons. by right.
      * rewrite filter_cons. simpl. by rewrite decide_False by (by intros ?).
      * rewrite filter_cons. simpl. rewrite decide_True by done. simpl.
        rewrite <-insert_union_l. by rewrite <-insert_union_r by apply Hfresh.
    + split_and!.
      * intros k0 v0 [[= -> ->]|Hin]%elem_of_cons.
        -- rewrite Em. simpl. split; [done|]. apply Hother. by right.
        -- destruct (Hrows k0 v0 Hin) as [? ->]. split; [done|].
           rewrite !upsert_lookup_self. rewrite upsert_other; [done|].
           intros [= ->]. apply Hk. apply list_elem_of_fmap. by exists (k, v0).
      * intros kn k0 Hne. rewrite Hother.
        -- apply upsert_other. intros [= -> ->].
           destruct Hne as [?|Hne]; [done|]. apply Hne. rewrite fmap_cons. left.
        -- destruct Hne as [?|Hne]; [by left|right].
           intros ?. apply Hne. rewrite fmap_cons. by right.
      * rewrite filter_cons. simpl. rewrite decide_True by done. simpl.
        rewrite <-insert_union_l. by rewrite <-insert_union_r by apply Hfresh.
      * rewrite filter_cons. simpl. by rewrite decide_False by (by intros ?).
Qed.

(** *** Set on an open store whose codec accepts the value *)

Lemma setRows_id s : setRows (rows (db s)) s = s.
Proof. by destruct s as [[] ? ? ?]. Qed.

Lemma SetTx_open (kind key : string) (v : T) (enc now : string) s :
  closed s = false → Marshal (codec s) v = (enc, None) →
  SetTx kind key v now s =
    match rows (db s) !! (kind, key) with
    | None =>
        mkCommitted (setRows (<[(kind, key) := mkRow enc 1 now]> (rows (db s))) s)
          [mkEvent kind key EventTypeCreate v] (true, None)
    | Some r =>
        if decide (value r = enc) then mkCommitted s [] (false, None)
        else
          mkCommitted
            (setRows (<[(kind, key) := mkRow enc (version r + 1) now]> (rows (db s))) s)
            [mkEvent kind key EventTypeUpdate v] (false, None)
    end.
Proof.
  intros Hc Hm. unfold SetTx. rewrite Hc, Hm. unfold setQuery.
  destruct (rows (db s) !! (kind, key)) as [r|] eqn:E; simpl; [|done].
  unfold getQuery. rewrite E. simpl. case_decide; [by rewrite setRows_id|].
  unfold updateQuery. f_equal. f_equal. apply map_eq. intros kk.
  destruct (decide (kk = (kind, key))) as [->|Hne].
  - by rewrite lookup_alter_eq, E, lookup_insert_eq.
  - by rewrite lookup_alter_ne, lookup_insert_ne.
Qed.

(** A newly opened store, with no channel made yet, is well formed. *)
Lemma sq_wf_new (c : Codec T) t : wf (New c t) emptyHeap.
Proof.
  assert (∀ kind w, ¬ reg (New c t) kind w) as Hn.
  { intros kind w (ws & Hws & _). simpl in Hws. by rewrite lookup_empty in Hws. }
  split; try done.
  - intros ?? Hr. by apply Hn in Hr.
  - intros ???? Hr. by apply Hn in Hr.
  - intros c0 (st & Hst & _). simpl in Hst. by rewrite lookup_empty in Hst.
Qed.

(** *** SetAll, SetFn and Delete in closed form *)

Lemma setAllLoop_total (c : Codec T) (kind : string) now ex (l : list (string * T)) acc :
  (∀ kv, kv ∈ l → (Marshal c kv.2).2 = None) →
  ∃ acc', setAllLoop c kind now ex l acc = (acc', None).
Proof.
  revert acc. induction l as [|[k v] l IH]; intros [[tx cr] up] Hok; simpl.
  - by eexists.
  - pose proof (Hok (k, v)) as Hkv. simpl in Hkv.
    destruct (Marshal c v) as [enc [err|]]; [by discriminate Hkv; left|].
    apply IH. intros kv Hin. apply Hok. by right.
Qed.

(** A [SetAll] that commits: every supplied key is upserted, no other row
    changes, and one event is published per supplied key, a create when the
    row was absent at the start of the transaction and an update when it
    was present.  A [SetAll] that fails leaves the store as it was and
    publishes nothing. *)
Lemma SetAllTx_spec (kind : string) (values : gmap string T) now s :
  closed s = false →
  let c := SetAllTx kind values now s in
  let t := rows (db s) in
  let t' := rows (db (after c)) in
  match result c with
  | Some err => after c = s ∧ events c = []
  | None =>
      events c = eventsOf kind EventTypeCreate (absentIn (kindRows kind t) values)
                 ++ eventsOf kind EventTypeUpdate (presentIn (kindRows kind t) values) ∧
      (∀ k v, values !! k = Some v →
         (Marshal (codec s) v).2 = None ∧
         t' !! (kind, k) = upsertQuery kind k (Marshal (codec s) v).1 (now k) t !! (kind, k)) ∧
      (∀ kn k, kn ≠ kind ∨ values !! k = None → t' !! (kn, k) = t !! (kn, k))
  end.
Proof.
  intros Hc. unfold SetAllTx. rewrite Hc.
  destruct (setAllLoop _ _ _ _ _ _) as [[[tx cr] up] [err|]] eqn:E; simpl; [done|].
  apply setAllLoop_ok in E as (Hrows & Hother & -> & ->);
    [|apply NoDup_fst_map_to_list].
  rewrite !(right_id_L ∅ (∪)). rewrite <-!map_filter_alt. split_and!.
  - done.
  - intros k v Hkv. apply Hrows. by apply elem_of_map_to_list.
  - intros kn k [Hne|Hk]; apply Hother; [by left|right].
    intros ([k' v'] & -> & Hin%elem_of_map_to_list)%list_elem_of_fmap.
    simpl in Hk. congruence.
Qed.

Lemma SetAllTx_ok (kind : string) (values : gmap string T) now s :
  closed s = false →
  (∀ k v, values !! k = Some v → (Marshal (codec s) v).2 = None) →
  result (SetAllTx kind values now s) = None.
Proof.
  intros Hc Hok. unfold SetAllTx. rewrite Hc.
  destruct (setAllLoop_total (codec s) kind now
              (dom (kindRows kind (rows (db s)))) (map_to_list values)
              (rows (db s), ∅, ∅)) as ([[tx cr] up] & ->); [|done].
  intros [k v] Hin%elem_of_map_to_list. by eapply Hok.
Qed.

Lemma updateQuery_insert (enc kind key now : string) (t : gmap (string * string) row) r :
  t !! (kind, key) = Some r →
  updateQuery enc kind key now t = <[(kind, key) := mkRow enc (version r + 1) now]> t.
Proof.
  intros E. unfold updateQuery. apply map_eq. intros kk.
  destruct (decide (kk = (kind, key))) as [->|Hne].
  - by rewrite lookup_alter_eq, E, lookup_insert_eq.
  - by rewrite lookup_alter_ne, lookup_insert_ne.
Qed.

Lemma SetFnTx_open (kind key : string) (fn : T → T * option error) (now : string) s :
  closed s = false →
  SetFnTx kind key fn now s =
    match rows (db s) !! (kind, key) with
    | None => mkCommitted s [] (false, Some ErrKeyNotFound)
    | Some r =>
        match Unmarshal (codec s) (value r) with
        | (_, Some err2) => mkCommitted s [] (false, Some err2)
        | (cur, None) =>
            match fn cur with
            | (_, Some err) => mkCommitted s [] (false, Some err)
            | (nv, None) =>
                match Marshal (codec s) nv with
                | (_, Some err) => mkCommitted s [] (false, Some err)
                | (newBytes, None) =>
                    if decide (value r = newBytes) then mkCommitted s [] (false, None)
                    else
                      mkCommitted
                        (setRows (<[(kind, key) := mkRow newBytes (version r + 1) now]>
                                    (rows (db s))) s)
                        [mkEvent kind key EventTypeUpdate nv] (false, None)
                end
            end
        end
    end.
Proof.
  intros Hc. unfold SetFnTx, getQuery. rewrite Hc.
  destruct (rows (db s) !! (kind, key)) as [r|] eqn:E; simpl; [|done].
  destruct (Unmarshal _ _) as [cur [?|]]; [done|].
  destruct (fn cur) as [nv [?|]]; [done|].
  destruct (Marshal _ _) as [enc [?|]]; [done|].
  case_decide; [done|]. by rewrite (updateQuery_insert _ _ _ _ _ r).
Qed.

Lemma DeleteTx_open (kind key : string) s :
  closed s = false →
  DeleteTx zero kind key s =
    match rows (db s) !! (kind, key) with
    | None => mkCommitted s [] (false, zero, None)
    | Some r =>
        match Unmarshal (codec s) (value r) with
        | (_, Some err) => mkCommitted s [] (false, zero, Some err)
        | (prev, None) =>
            mkCommitted (setRows (delete (kind, key) (rows (db s))) s)
              [mkEvent kind key EventTypeDelete prev] (true, prev, None)
        end
    end.
Proof.
  intros Hc. unfold DeleteTx, getQuery. rewrite Hc.
  by destruct (rows (db s) !! (kind, key)) as [r|] eqn:E.
Qed.

(** *** Every reachable state is well formed

    A run of the engine: any sequence of calls of the public operations and
    of cancel closures, interleaved with replay goroutines. *)




End sqlite_facts.
End sqlite_facts.

(** * The claims *)

Import store heap_facts.

(** ** Set followed by the same Set *)

Section set_twice.
Context {T : Type} (zero : T).

(** In-memory engine, first call: on an absent key the previous value read
    from the map is the zero value, and the comparison with it is made
    before looking at [existed].  A value the comparison function equates
    with the zero value is therefore stored, but reported as not created,
    and no event is sent. *)
Lemma gomap_Set_absent_equal_to_zero kind key value (s : gomap.memStore T) h :
  gomap.closed s = false →
  gomap.validate kind value s = None →
  gomap.kindMap kind s !! key = None →
  gomap.compareFn s zero value = true →
  let l := gomap.SetLocked zero kind key value s in
  gomap.result l = (false, None) ∧ gomap.events l = [] ∧
  gomap.Set_ zero kind key value s h = Done (gomap.after l, h, (false, None)) ∧
  gomap.Get zero kind key (gomap.after l) = (value, true, None).
Proof.
  intros Hc Hv Hk Hcmp. unfold gomap.Set_, gomap.unlockAndSend.
  rewrite gomap_facts.SetLocked_open by done. simpl. rewrite Hk. simpl.
  rewrite Hcmp. simpl. split_and!; try done.
  unfold gomap.Get. rewrite gomap_facts.kindMap_stored, lookup_insert_eq.
  change (gomap.closed (gomap_facts.stored kind key value s)) with (gomap.closed s).
  by rewrite Hc.
Qed.

(** In-memory engine, when the comparison function tells the value from
    the zero value and equates it with itself: created, with a create
    event, then not created, with no event and the same entries. *)
Lemma gomap_Set_twice kind key value (s : gomap.memStore T) :
  gomap.closed s = false →
  gomap.validate kind value s = None →
  gomap.kindMap kind s !! key = None →
  gomap.compareFn s zero value = false →
  gomap.compareFn s value value = true →
  let l1 := gomap.SetLocked zero kind key value s in
  let l2 := gomap.SetLocked zero kind key value (gomap.after l1) in
  gomap.result l1 = (true, None) ∧
  gomap.events l1 = [mkEvent kind key EventTypeCreate value] ∧
  gomap.result l2 = (false, None) ∧ gomap.events l2 = [] ∧
  gomap.kinds (gomap.after l2) = gomap.kinds (gomap.after l1).
Proof.
  intros Hc Hv Hk Hz Hr l1 l2.
  assert (l1 = gomap.mkLocked (gomap_facts.stored kind key value s)
                 (gomap.snapshot kind (gomap_facts.stored kind key value s))
                 [mkEvent kind key EventTypeCreate value] (true, None)) as Hl1.
  { unfold l1. rewrite gomap_facts.SetLocked_open by done. simpl.
    rewrite Hk. simpl. by rewrite Hz. }
  assert (l2 = gomap.mkLocked
                 (gomap_facts.stored kind key value (gomap_facts.stored kind key value s))
                 [] [] (false, None)) as Hl2.
  { unfold l2. rewrite Hl1. simpl. rewrite gomap_facts.SetLocked_open by done. simpl.
    rewrite gomap_facts.kindMap_stored, lookup_insert_eq. simpl.
    change (gomap.compareFn (gomap_facts.stored kind key value s))
      with (gomap.compareFn s).
    by rewrite Hr. }
  rewrite Hl2, Hl1. simpl. split_and!; try done.
  apply gomap_facts.stored_stored.
Qed.

(** Durable engine: created at version 1 with a create event, then a
    committed no-op that leaves the row (bytes, version, timestamp) as it
    is and publishes nothing. *)
Lemma sqlite_Set_twice kind key value enc now1 now2 (s : sqlite.sqLiteStore T) :
  sqlite.closed s = false →
  sqlite.rows (sqlite.db s) !! (kind, key) = None →
  sqlite.Marshal (sqlite.codec s) value = (enc, None) →
  let c1 := sqlite.SetTx kind key value now1 s in
  let c2 := sqlite.SetTx kind key value now2 (sqlite.after c1) in
  sqlite.result c1 = (true, None) ∧
  sqlite.events c1 = [mkEvent kind key EventTypeCreate value] ∧
  sqlite.rows (sqlite.db (sqlite.after c1)) !! (kind, key)
    = Some (sqlite.mkRow enc 1 now1) ∧
  sqlite.result c2 = (false, None) ∧ sqlite.events c2 = [] ∧
  sqlite.after c2 = sqlite.after c1.
Proof.
  intros Hc Hk Hm c1 c2.
  assert (c1 = sqlite.mkCommitted
    (sqlite.setRows (<[(kind, key) := sqlite.mkRow enc 1 now1]> (sqlite.rows (sqlite.db s))) s)
    [mkEvent kind key EventTypeCreate value] (true, None)) as Hc1.
  { unfold c1. rewrite (sqlite_facts.SetTx_open _ _ _ enc) by done. by rewrite Hk. }
  assert (c2 = sqlite.mkCommitted (sqlite.after c1) [] (false, None)) as Hc2.
  { unfold c2. rewrite Hc1. simpl.
    rewrite (sqlite_facts.SetTx_open _ _ _ enc) by done. simpl.
    rewrite lookup_insert_eq. simpl. by rewrite decide_True. }
  rewrite Hc2, Hc1. simpl. split_and!; try done. by rewrite lookup_insert_eq.
Qed.

End set_twice.

(** C1 (the code departs from the claim).  On a fresh in-memory store of
    integers with the default comparison and a subscriber on "counters",
    [Set("counters", "visits", 0)] stores the value, as the following
    [Get] shows, yet reports created=false and sends the subscriber
    nothing; the claim promises created=true and a create event. *)
Example gomap_Set_zero_value_not_reported_created :
  let s0 := gomap.NewMemStore (gomap.mkStoreOptions None None) in
  let w := gomap.Watch "counters" [] s0 emptyHeap in
  let s1 := w.1.1.1 in
  let h1 := w.1.1.2 in
  gomap.Get 0%Z "counters" "visits" s1 = (0%Z, false, None) ∧
  ∃ s2, gomap.Set_ 0%Z "counters" "visits" 0%Z s1 h1 = Done (s2, h1, (false, None)) ∧
    gomap.Get 0%Z "counters" "visits" s2 = (0%Z, true, None) ∧
    chanBuf 0 h1 = [].
Proof.
  simpl. split; [by vm_compute|]. eexists. split_and!.
  - vm_compute. reflexivity.
  - by vm_compute.
  - by vm_compute.
Qed.

(** ** The boolean result of SetFn *)

(** C10.  In both engines the boolean that [SetFn] returns, named
    [changed] by the [Writer] interface, is [false] on every path: it is
    [false] in the result computed under the lock (in the transaction), and
    on a well-formed store the call returns with that result, whatever the
    transform did. *)
Theorem SetFn_reports_false {T : Type} (kind key : string)
    (fn : T → T * option error) (now : string)
    (s : gomap.memStore T) (h : heap T) (q : sqlite.sqLiteStore T) (hq : heap T) :
  gomap_facts.wf s h → sqlite_facts.wf q hq →
  (gomap.result (gomap.SetFnLocked kind key fn s)).1 = false ∧
  (sqlite.result (sqlite.SetFnTx kind key fn now q)).1 = false ∧
  (∃ s' h' e, gomap.SetFn kind key fn s h = Done (s', h', (false, e))) ∧
  (∃ q' hq' e, sqlite.SetFn kind key fn now q hq = Done (q', hq', (false, e))).
Proof.
  intros Hs Hq.
  assert ((gomap.result (gomap.SetFnLocked kind key fn s)).1 = false) as Hm.
  { unfold gomap.SetFnLocked. destruct (gomap.closed s); [done|].
    destruct (_ !! key) as [prev|]; [|done]. by destruct (fn prev) as [? [?|]]. }
  assert ((sqlite.result (sqlite.SetFnTx kind key fn now q)).1 = false) as Hd.
  { unfold sqlite.SetFnTx. destruct (sqlite.closed q); [done|].
    destruct (sqlite.getQuery _ _ _); [|done].
    destruct (sqlite.Unmarshal _ _) as [cur [?|]]; [done|].
    destruct (fn cur) as [nv [?|]]; [done|].
    destruct (sqlite.Marshal _ _) as [enc [?|]]; [done|]. by case_decide. }
  split_and!; try done.
  - destruct (gomap_facts.mem_SetFn_total kind key fn s h Hs) as (h' & Hrun & _).
    destruct (gomap.result _) as [b e]. simpl in Hm. subst b. eauto.
  - destruct (sqlite_facts.sq_SetFn_total kind key fn now q hq Hq) as (h' & Hrun & _).
    destruct (sqlite.result _) as [b e]. simpl in Hd. subst b. eauto.
Qed.

(** The codec used in the examples: values are byte strings, stored as
    they are. *)
Definition rawCodec : sqlite.Codec string :=
  sqlite.mkCodec (λ v, (v, None)) (λ b, (b, None)).

(** Two stores of byte strings holding "A" under ("users", "a"): one in
    memory, one durable with the row at version 1. *)
Definition usersMem : gomap.memStore string :=
  gomap.setKinds {[ "users" := {[ "a" := "A" ]} ]}
    (gomap.NewMemStore (gomap.mkStoreOptions None None)).

Definition usersA : sqlite.sqLiteStore string :=
  sqlite.New rawCodec {[ ("users", "a") := sqlite.mkRow "A" 1 "t0" ]}.

Lemma usersMem_wf : gomap_facts.wf usersMem emptyHeap.
Proof.
  eapply gomap_facts.mem_wf_keeps; [apply gomap_facts.keeps_setKinds|].
  apply gomap_facts.mem_wf_new.
Qed.

Lemma usersA_wf : sqlite_facts.wf usersA emptyHeap.
Proof. apply sqlite_facts.sq_wf_new. Qed.

(** A transform whose output is stored and published as an update, and
    reported with [false]. *)
Lemma SetFn_reports_false_witness :
  (gomap.result (gomap.SetFnLocked "users" "a" (λ v, (v +:+ "!", None)) usersMem)).1
    = false ∧
  (sqlite.result (sqlite.SetFnTx "users" "a" (λ v, (v +:+ "!", None)) "t1" usersA)).1
    = false ∧
  (∃ s' h' e, gomap.SetFn "users" "a" (λ v, (v +:+ "!", None)) usersMem emptyHeap
     = Done (s', h', (false, e))) ∧
  (∃ q' hq' e, sqlite.SetFn "users" "a" (λ v, (v +:+ "!", None)) "t1" usersA emptyHeap
     = Done (q', hq', (false, e))).
Proof.
  apply (SetFn_reports_false "users" "a" (λ v, (v +:+ "!", None)) "t1"
           usersMem emptyHeap usersA emptyHeap usersMem_wf usersA_wf).
Defined.

(** ** What an event carries, and Delete *)

Section event_objects.
Context {T : Type} (zero : T).

(** C7.  The events of [Set], [SetFn] and [SetAll] and the replayed
    creates carry the value that is now stored under their key; [Delete] of
    an existing key returns [true] with the stored value, removes the key
    and emits exactly one delete event carrying that value, which every
    watcher of the kind that accepts deletes and has room receives;
    [Delete] of an absent key returns [false] with no error and emits
    nothing.  For the durable engine the stored value is what the codec
    decodes from the row. *)
Theorem events_carry_the_value (kind key : string) (v : T)
    (fn : T → T * option error) (values : gmap string T) (opts : list WatchOption)
    (now : string) (nows : string → string)
    (s : gomap.memStore T) (h : heap T) (q : sqlite.sqLiteStore T) (hq : heap T) :
  gomap_facts.wf s h → sqlite_facts.wf q hq →
  gomap.closed s = false → sqlite.closed q = false →
  (* in memory *)
  (∀ ev, ev ∈ gomap.events (gomap.SetLocked zero kind key v s) →
     ev = mkEvent kind key (EventType ev) v ∧
     (EventType ev = EventTypeCreate ∨ EventType ev = EventTypeUpdate)) ∧
  (∀ ev, ev ∈ gomap.events (gomap.SetFnLocked kind key fn s) →
     ev = mkEvent kind key EventTypeUpdate (Object ev) ∧
     gomap.kindMap kind (gomap.after (gomap.SetFnLocked kind key fn s)) !! key
       = Some (Object ev)) ∧
  (∀ ev, ev ∈ gomap.SetAllEvents kind values s →
     Kind ev = kind ∧ values !! Name ev = Some (Object ev) ∧
     (EventType ev = EventTypeCreate ∨ EventType ev = EventTypeUpdate)) ∧
  (∀ g ev, (gomap.Watch kind opts s h).1.2 = Some g → ev ∈ gomap.gpending g →
     ev = mkEvent kind (Name ev) EventTypeCreate (Object ev) ∧
     gomap.kindMap kind s !! Name ev = Some (Object ev)) ∧
  match gomap.kindMap kind s !! key with
  | Some prev =>
      gomap.events (gomap.DeleteLocked zero kind key s)
        = [mkEvent kind key EventTypeDelete prev] ∧
      ∃ s' h', gomap.Delete zero kind key s h = Done (s', h', (true, prev, None)) ∧
        gomap.kindMap kind s' !! key = None ∧
        ∀ id w st, gomap_facts.reg s kind id w →
          accepts w EventTypeDelete = true →
          chans h !! ch w = Some st → length (buf st) < cap st →
          chanBuf (ch w) h' = buf st ++ [mkEvent kind key EventTypeDelete prev]
  | None =>
      gomap.events (gomap.DeleteLocked zero kind key s) = [] ∧
      ∃ s', gomap.Delete zero kind key s h = Done (s', h, (false, zero, None))
  end ∧
  (* durable *)
  (∀ ev, ev ∈ sqlite.events (sqlite.SetTx kind key v now q) →
     ev = mkEvent kind key (EventType ev) v ∧
     (EventType ev = EventTypeCreate ∨ EventType ev = EventTypeUpdate)) ∧
  (∀ ev, ev ∈ sqlite.events (sqlite.SetFnTx kind key fn now q) →
     ev = mkEvent kind key EventTypeUpdate (Object ev) ∧
     ∃ r', sqlite.rows (sqlite.db (sqlite.after (sqlite.SetFnTx kind key fn now q)))
             !! (kind, key) = Some r' ∧
           sqlite.Marshal (sqlite.codec q) (Object ev) = (sqlite.value r', None)) ∧
  (∀ ev, ev ∈ sqlite.events (sqlite.SetAllTx kind values nows q) →
     Kind ev = kind ∧ values !! Name ev = Some (Object ev) ∧
     (EventType ev = EventTypeCreate ∨ EventType ev = EventTypeUpdate)) ∧
  (∀ w m ev, sqlite.List kind [] q = (Some m, None) →
     sqlite.runReplay (sqlite.mkGoroutine kind w) q hq
       = forM (trySend (ch w)) (eventsOf kind EventTypeCreate m) hq ∧
     (ev ∈ eventsOf kind EventTypeCreate m → m !! Name ev = Some (Object ev))) ∧
  match sqlite.rows (sqlite.db q) !! (kind, key) with
  | Some r =>
      ∀ prev, sqlite.Unmarshal (sqlite.codec q) (sqlite.value r) = (prev, None) →
        sqlite.events (sqlite.DeleteTx zero kind key q)
          = [mkEvent kind key EventTypeDelete prev] ∧
        ∃ q' hq', sqlite.Delete zero kind key q hq = Done (q', hq', (true, prev, None)) ∧
          sqlite.rows (sqlite.db q') !! (kind, key) = None ∧
          ∀ w st, sqlite_facts.reg q kind w →
            accepts w EventTypeDelete = true →
            chans hq !! ch w = Some st → length (buf st) < cap st →
            chanBuf (ch w) hq' = buf st ++ [mkEvent kind key EventTypeDelete prev]
  | None =>
      sqlite.events (sqlite.DeleteTx zero kind key q) = [] ∧
      sqlite.Delete zero kind key q hq = Done (q, hq, (false, zero, None))
  end.
Proof.
  intros Hs Hq Hcs Hcq. split_and!.
  - (* Set *)
    unfold gomap.SetLocked. rewrite Hcs.
    destruct (gomap.validate _ _ _); simpl; [by intros ? ?%elem_of_nil|].
    destruct (gomap.compareFn _ _ _); simpl; [by intros ? ?%elem_of_nil|].
    intros ev ->%list_elem_of_singleton. simpl. split; [done|].
    case_bool_decide; auto.
  - (* SetFn *)
    rewrite gomap_facts.SetFnLocked_open by done.
    destruct (gomap.kindMap kind s !! key) as [prev|]; simpl;
      [|by intros ? ?%elem_of_nil].
    destruct (fn prev) as [nv [err|]]; simpl; [by intros ? ?%elem_of_nil|].
    intros ev ->%list_elem_of_singleton. simpl. split; [done|].
    by rewrite gomap_facts.kindMap_stored, lookup_insert_eq.
  - (* SetAll *)
    unfold gomap.SetAllEvents, gomap.SetAllLocked. rewrite Hcs.
    destruct (from_option _ _ _); simpl.
    { unfold eventsOf. rewrite map_to_list_empty. by intros ? ?%elem_of_nil. }
    rewrite gomap_facts.classify_fold. simpl.
    intros ev [Hin|Hin]%elem_of_app;
      apply elem_of_eventsOf in Hin as (k & v0 & Hkv & ->); simpl.
    + apply absentIn_lookup in Hkv as [? _]. auto.
    + apply presentIn_lookup in Hkv as [? _]. auto.
  - (* replay *)
    intros g ev Hg Hev. destruct (decide (kind = "")) as [->|Hne].
    { unfold gomap.Watch in Hg. by rewrite decide_True in Hg. }
    rewrite gomap_facts.Watch_replay in Hg by done.
    destruct (_ && _); [|done]. injection Hg as <-. simpl in Hev.
    by apply elem_of_eventsOf in Hev as (k & v0 & Hkv & ->).
  - (* Delete *)
    destruct (gomap_facts.DeleteLocked_shape zero kind key s) as [Hk Hw].
    destruct (gomap_facts.unlockAndSend_total
                (gomap.DeleteLocked zero kind key s) kind h)
      as (h' & Hrun & _ & _ & Hbuf); [by eapply gomap_facts.mem_wf_keeps|done|].
    unfold gomap.Delete.
    revert Hrun Hw Hk Hbuf. rewrite gomap_facts.DeleteLocked_open by done.
    destruct (gomap.kindMap kind s !! key) as [prev|] eqn:E; simpl;
      intros Hrun Hw Hk Hbuf.
    + split; [done|]. eexists _, h'. split; [apply Hrun|].
      split; [by rewrite gomap_facts.kindMap_removed, lookup_delete_eq|].
      intros id w st Hr Hacc Hst Hroom.
      rewrite (Hbuf w st).
      * rewrite filter_cons. simpl. by rewrite Hacc.
      * eapply gomap_facts.snapshot_keeps; eauto.
      * done.
      * simpl. lia.
    + split; [done|]. by eexists.
  - (* Set, durable *)
    unfold sqlite.SetTx. rewrite Hcq.
    destruct (sqlite.Marshal _ _) as [enc [err|]]; simpl; [by intros ? ?%elem_of_nil|].
    destruct (sqlite.setQuery _ _ _ _ _) as [tx n]. simpl.
    destruct (negb _); simpl.
    + destruct (sqlite.getQuery _ _ _); simpl; [|by intros ? ?%elem_of_nil].
      case_decide; simpl; [by intros ? ?%elem_of_nil|].
      intros ev ->%list_elem_of_singleton. auto.
    + intros ev ->%list_elem_of_singleton. auto.
  - (* SetFn, durable *)
    rewrite sqlite_facts.SetFnTx_open by done.
    destruct (sqlite.rows (sqlite.db q) !! (kind, key)) as [r|]; simpl;
      [|by intros ? ?%elem_of_nil].
    destruct (sqlite.Unmarshal _ _) as [cur [?|]]; simpl; [by intros ? ?%elem_of_nil|].
    destruct (fn cur) as [nv [?|]]; simpl; [by intros ? ?%elem_of_nil|].
    destruct (sqlite.Marshal _ _) as [enc [?|]] eqn:Em; simpl;
      [by intros ? ?%elem_of_nil|].
    case_decide; simpl; [by intros ? ?%elem_of_nil|].
    intros ev ->%list_elem_of_singleton. simpl. split; [done|].
    eexists. rewrite lookup_insert_eq. split; [done|]. by rewrite Em.
  - (* SetAll, durable *)
    pose proof (sqlite_facts.SetAllTx_spec kind values nows q Hcq) as Hspec.
    simpl in Hspec.
    destruct (sqlite.result _); [destruct Hspec as [_ ->]; by intros ? ?%elem_of_nil|].
    destruct Hspec as (-> & _).
    intros ev [Hin|Hin]%elem_of_app;
      apply elem_of_eventsOf in Hin as (k & v0 & Hkv & ->); simpl.
    + apply absentIn_lookup in Hkv as [? _]. auto.
    + apply presentIn_lookup in Hkv as [? _]. auto.
  - (* replay, durable *)
    intros w m ev Hl. unfold sqlite.runReplay. simpl. rewrite Hl. split; [done|].
    intros (k & v0 & Hkv & ->)%elem_of_eventsOf. done.
  - (* Delete, durable *)
    destruct (sqlite_facts.publishAll_total kind (sqlite.DeleteTx zero kind key q) hq)
      as (h' & Hrun & _ & _ & Hbuf).
    { eapply sqlite_facts.sq_wf_keeps; [apply sqlite_facts.DeleteTx_keeps|done]. }
    pose proof (sqlite_facts.DeleteTx_keeps zero kind key q) as (Hsubs & _).
    revert Hrun Hbuf Hsubs. unfold sqlite.Delete.
    rewrite sqlite_facts.DeleteTx_open by done.
    destruct (sqlite.rows (sqlite.db q) !! (kind, key)) as [r|] eqn:E.
    + intros Hrun Hbuf Hsubs prev Hdec. rewrite Hdec in *. simpl in *.
      split; [done|]. eexists _, h'. split; [apply Hrun|].
      split; [simpl; by rewrite lookup_delete_eq|].
      intros w st Hr Hacc Hst Hroom.
      rewrite (Hbuf w st).
      * rewrite filter_cons. simpl. by rewrite Hacc.
      * done.
      * done.
      * simpl. lia.
    + intros Hrun _ _. split; [done|]. done.
Qed.

End event_objects.

(** On the two example stores, deleting ("users", "a") returns the stored
    "A". *)
Lemma events_carry_the_value_witness :
  gomap.closed usersMem = false ∧ sqlite.closed usersA = false ∧
  (∃ s' h', gomap.Delete "" "users" "a" usersMem emptyHeap
     = Done (s', h', (true, "A", None))) ∧
  (∃ q' hq', sqlite.Delete "" "users" "a" usersA emptyHeap
     = Done (q', hq', (true, "A", None))).
Proof.
  split; [reflexivity|]. split; [reflexivity|].
  destruct (events_carry_the_value "" "users" "a" "B" (λ v, (v, None)) ∅ [] "t1"
              (λ _, "t1") usersMem emptyHeap usersA emptyHeap
              usersMem_wf usersA_wf eq_refl eq_refl)
    as (_ & _ & _ & _ & Hd & _ & _ & _ & _ & Hq).
  split.
  - change (gomap.kindMap "users" usersMem !! "a") with (Some "A") in Hd.
    destruct Hd as (_ & s' & h' & Hrun & _). by exists s', h'.
  - change (sqlite.rows (sqlite.db usersA) !! ("users", "a"))
      with (Some (sqlite.mkRow "A" 1 "t0")) in Hq.
    destruct (Hq "A" eq_refl) as (_ & q' & hq' & Hrun & _). by exists q', hq'.
Defined.

(** ** SetFn on a missing key, and the durable SetFn *)

(** C5 as stated fails for the in-memory engine: [SetFn] calls
    [ensureKind] before it looks the key up, so on a kind the store has not
    seen the failed call registers the kind, which [GetAll] and [Dump]
    then show. *)
Lemma gomap_SetFn_missing_key_registers_kind :
  let s0 : gomap.memStore string := gomap.NewMemStore (gomap.mkStoreOptions None None) in
  ∃ s1, gomap.SetFn "users" "a" (λ v, (v, None)) s0 emptyHeap
          = Done (s1, emptyHeap, (false, Some ErrKeyNotFound)) ∧
    (gomap.GetAll s0).1 = Some ∅ ∧
    (gomap.GetAll s1).1 = Some {[ "users" := ∅ ]} ∧
    gomap.Dump id s0 = "" ∧
    gomap.Dump id s1 = "users:" +:+ newline ∧
    s1 ≠ s0.
Proof.
  simpl. eexists. split_and!.
  - vm_compute. reflexivity.
  - by vm_compute.
  - by vm_compute.
  - by vm_compute.
  - by vm_compute.
  - intros Heq. apply (f_equal (λ s, size (gomap.kinds s))) in Heq.
    vm_compute in Heq. discriminate Heq.
Qed.

Section SetFn_cases.
Context {T : Type}.

(** C5, amended.  [SetFn] on a missing key fails with [ErrKeyNotFound],
    changes no entry and emits no event in both engines.  The durable
    engine leaves its state as it was; the in-memory engine leaves the
    store as [ensureKind] makes it, that is unchanged when the kind is
    known and with the kind registered (no entry, no watcher) otherwise.
    In the durable engine a transform whose output marshals to the stored
    bytes commits nothing and publishes nothing; one whose bytes differ
    writes them, adds one to the version, takes the new timestamp, and
    publishes one update event on the committed store, which a subscriber
    that accepts updates and has room receives. *)
Theorem SetFn_missing_key_and_durable_cases (kind key : string)
    (fn : T → T * option error) (now : string)
    (s : gomap.memStore T) (h : heap T) (q : sqlite.sqLiteStore T) (hq : heap T) :
  gomap.closed s = false → sqlite.closed q = false → sqlite_facts.wf q hq →
  (gomap.kindMap kind s !! key = None →
     gomap.SetFn kind key fn s h
       = Done (gomap.ensureKind kind s, h, (false, Some ErrKeyNotFound)) ∧
     gomap.events (gomap.SetFnLocked kind key fn s) = [] ∧
     (∀ kind', gomap.kindMap kind' (gomap.ensureKind kind s) = gomap.kindMap kind' s) ∧
     (∀ kind' id w, gomap_facts.reg (gomap.ensureKind kind s) kind' id w
                    ↔ gomap_facts.reg s kind' id w) ∧
     (is_Some (gomap.kinds s !! kind) → is_Some (gomap.watchers s !! kind) →
      gomap.ensureKind kind s = s)) ∧
  (sqlite.rows (sqlite.db q) !! (kind, key) = None →
     sqlite.SetFn kind key fn now q hq = Done (q, hq, (false, Some ErrKeyNotFound)) ∧
     sqlite.events (sqlite.SetFnTx kind key fn now q) = []) ∧
  (∀ r cur nv newBytes,
     sqlite.rows (sqlite.db q) !! (kind, key) = Some r →
     sqlite.Unmarshal (sqlite.codec q) (sqlite.value r) = (cur, None) →
     fn cur = (nv, None) →
     sqlite.Marshal (sqlite.codec q) nv = (newBytes, None) →
     (sqlite.value r = newBytes →
        sqlite.SetFn kind key fn now q hq = Done (q, hq, (false, None)) ∧
        sqlite.events (sqlite.SetFnTx kind key fn now q) = []) ∧
     (sqlite.value r ≠ newBytes →
        sqlite.events (sqlite.SetFnTx kind key fn now q)
          = [mkEvent kind key EventTypeUpdate nv] ∧
        ∃ q' hq', sqlite.SetFn kind key fn now q hq = Done (q', hq', (false, None)) ∧
          q' = sqlite.setRows
                 (<[(kind, key) := sqlite.mkRow newBytes (sqlite.version r + 1) now]>
                    (sqlite.rows (sqlite.db q))) q ∧
          ∀ w st, sqlite_facts.reg q kind w → accepts w EventTypeUpdate = true →
            chans hq !! ch w = Some st → length (buf st) < cap st →
            chanBuf (ch w) hq' = buf st ++ [mkEvent kind key EventTypeUpdate nv])).
Proof.
  intros Hcs Hcq Hq. split_and!.
  - intros Hk. unfold gomap.SetFn, gomap.unlockAndSend.
    rewrite gomap_facts.SetFnLocked_open by done. rewrite Hk. simpl.
    split_and!; try done.
    + intros kind'. apply gomap_facts.kindMap_ensureKind.
    + intros kind' id w. apply gomap_facts.keeps_ensureKind.
    + apply gomap_facts.ensureKind_idem.
  - intros Hk. unfold sqlite.SetFn, sqlite.publishAll.
    rewrite sqlite_facts.SetFnTx_open by done. by rewrite Hk.
  - intros r cur nv newBytes Hr Hu Hf Hm.
    destruct (sqlite_facts.publishAll_total kind (sqlite.SetFnTx kind key fn now q) hq)
      as (h' & Hrun & _ & _ & Hbuf).
    { eapply sqlite_facts.sq_wf_keeps; [apply sqlite_facts.SetFnTx_keeps|done]. }
    revert Hrun Hbuf. unfold sqlite.SetFn.
    rewrite sqlite_facts.SetFnTx_open by done. rewrite Hr, Hu, Hf, Hm.
    intros Hrun Hbuf. split.
    + intros Heq. rewrite decide_True in * by done. by split.
    + intros Hne. rewrite decide_False in * by done. simpl in *.
      split; [done|]. eexists _, h'. split; [apply Hrun|]. split; [done|].
      intros w st Hw Hacc Hst Hroom. rewrite (Hbuf w st).
      * rewrite filter_cons. simpl. by rewrite Hacc.
      * done.
      * done.
      * simpl. lia.
Qed.

End SetFn_cases.

(** On a new in-memory store and on the example durable store. *)
Lemma SetFn_missing_key_and_durable_cases_witness :
  gomap.closed (gomap.NewMemStore (T:=string) (gomap.mkStoreOptions None None)) = false ∧
  sqlite.closed usersA = false ∧
  gomap.SetFn "users" "a" (λ v, (v +:+ "!", None))
      (gomap.NewMemStore (gomap.mkStoreOptions None None)) emptyHeap
    = Done (gomap.ensureKind "users" (gomap.NewMemStore (gomap.mkStoreOptions None None)),
            emptyHeap, (false, Some ErrKeyNotFound)) ∧
  sqlite.SetFn "users" "zz" (λ v, (v +:+ "!", None)) "t1" usersA emptyHeap
    = Done (usersA, emptyHeap, (false, Some ErrKeyNotFound)).
Proof.
  split; [reflexivity|]. split; [reflexivity|].
  destruct (SetFn_missing_key_and_durable_cases "users" "a" (λ v, (v +:+ "!", None)) "t1"
              (gomap.NewMemStore (gomap.mkStoreOptions None None)) emptyHeap
              usersA emptyHeap eq_refl eq_refl usersA_wf) as (Hm & _ & _).
  destruct (SetFn_missing_key_and_durable_cases "users" "zz" (λ v, (v +:+ "!", None)) "t1"
              (gomap.NewMemStore (gomap.mkStoreOptions None None)) emptyHeap
              usersA emptyHeap eq_refl eq_refl usersA_wf) as (_ & Hd & _).
  split; [apply Hm; reflexivity|apply Hd; reflexivity].
Defined.

(** ** Validation *)

(** The validator of the package documentation, on byte strings: a value
    must not be empty. *)
Definition nonEmpty (v : string) : option error :=
  if decide (v = "") then Some (ErrOther "email required") else None.

Definition validated : gomap.memStore string :=
  gomap.NewMemStore (gomap.mkStoreOptions None (Some {[ "users" := nonEmpty ]})).

(** C8 as stated fails on its last clause: [Set] and [SetAll] call
    [ensureKind] before they validate, so a rejected write to a kind the
    store has not seen registers the kind, which [GetAll] and [Dump] then
    show. *)
Lemma gomap_rejected_Set_registers_kind :
  ∃ s1, gomap.Set_ "" "users" "bob" "" validated emptyHeap
          = Done (s1, emptyHeap, (false, Some (ErrOther "email required"))) ∧
    gomap.SetAll "users" {[ "bob" := "" ]} validated emptyHeap
          = Done (s1, emptyHeap, Some (ErrOther "email required")) ∧
    (gomap.GetAll validated).1 = Some ∅ ∧
    (gomap.GetAll s1).1 = Some {[ "users" := ∅ ]} ∧
    gomap.Dump id validated = "" ∧
    gomap.Dump id s1 = "users:" +:+ newline.
Proof.
  eexists. split_and!.
  - vm_compute. reflexivity.
  - by vm_compute.
  - by vm_compute.
  - by vm_compute.
  - by vm_compute.
  - by vm_compute.
Qed.

Section validation.
Context {T : Type} (zero : T).

(** C8, amended.  In the in-memory engine, when the kind's validation
    function rejects the value passed to [Set], or any value passed to
    [SetAll], the call returns a validation error, emits no event and
    creates or modifies no entry; for [SetAll] every value is validated
    before any key is written.  The store is left as [ensureKind] makes
    it: every kind has the entries and the watchers it had, and the store
    is unchanged when the kind was already known, while a kind not yet
    known is registered with no entry and no watcher. *)
Theorem rejected_write_changes_no_entry (kind key : string) (v : T)
    (values : gmap string T) (fn : T → option error)
    (s : gomap.memStore T) (h : heap T) :
  gomap.closed s = false → gomap.validationFns s !! kind = Some fn →
  (∀ err, fn v = Some err →
     gomap.Set_ zero kind key v s h
       = Done (gomap.ensureKind kind s, h, (false, Some err)) ∧
     gomap.events (gomap.SetLocked zero kind key v s) = []) ∧
  ((∃ k v', values !! k = Some v' ∧ fn v' ≠ None) →
     ∃ err, (∃ k v', values !! k = Some v' ∧ fn v' = Some err) ∧
       gomap.SetAll kind values s h = Done (gomap.ensureKind kind s, h, Some err) ∧
       gomap.SetAllEvents kind values s = []) ∧
  (∀ kind', gomap.kindMap kind' (gomap.ensureKind kind s) = gomap.kindMap kind' s) ∧
  (∀ kind' key', gomap.Get zero kind' key' (gomap.ensureKind kind s)
                 = gomap.Get zero kind' key' s) ∧
  (∀ kind' id w, gomap_facts.reg (gomap.ensureKind kind s) kind' id w
                 ↔ gomap_facts.reg s kind' id w) ∧
  (is_Some (gomap.kinds s !! kind) → is_Some (gomap.watchers s !! kind) →
   gomap.ensureKind kind s = s).
Proof.
  intros Hc Hfn. split_and!.
  - intros err Herr. unfold gomap.Set_, gomap.unlockAndSend, gomap.SetLocked.
    rewrite Hc. unfold gomap.validate.
    change (gomap.validationFns (gomap.ensureKind kind s)) with (gomap.validationFns s).
    by rewrite Hfn, Herr.
  - intros (k & v' & Hkv & Hrej).
    destruct (gomap.validateAll fn values) as [err|] eqn:E.
    + exists err. split; [by apply gomap_facts.validateAll_Some|].
      unfold gomap.SetAll, gomap.SetAllEvents, gomap.SetAllLocked. rewrite Hc.
      change (gomap.validationFns (gomap.ensureKind kind s)) with (gomap.validationFns s).
      rewrite Hfn. simpl. rewrite E. simpl. split; [done|].
      unfold eventsOf. by rewrite map_to_list_empty.
    + destruct Hrej. eapply gomap_facts.validateAll_None; eauto.
  - intros kind'. apply gomap_facts.kindMap_ensureKind.
  - intros kind' key'. apply gomap_facts.Get_ensureKind.
  - intros kind' id w. apply gomap_facts.keeps_ensureKind.
  - apply gomap_facts.ensureKind_idem.
Qed.

End validation.

(** The documented validator rejecting an empty value. *)
Lemma rejected_write_changes_no_entry_witness :
  gomap.closed validated = false ∧
  gomap.validationFns validated !! "users" = Some nonEmpty ∧
  gomap.Set_ "" "users" "bob" "" validated emptyHeap
    = Done (gomap.ensureKind "users" validated, emptyHeap,
            (false, Some (ErrOther "email required"))).
Proof.
  split; [reflexivity|]. split; [reflexivity|].
  destruct (rejected_write_changes_no_entry "" "users" "bob" "" ∅ nonEmpty
              validated emptyHeap eq_refl eq_refl) as (Hset & _).
  apply (Hset (ErrOther "email required")). reflexivity.
Defined.

(** ** Versions of the durable engine *)

Section versions.
Context {T : Type}.




End versions.


(** ** The events of SetAll *)

Section SetAll_events.
Context {T : Type}.

Lemma snd_pair_fmap (c : nat) (evs : list (Event T)) :
  ((λ ev, (c, ev)) <$> evs).*2 = evs.
Proof. rewrite <-list_fmap_compose. apply list_fmap_id. Qed.

(** C6.  When [SetAll] goes through (the store is open, the in-memory
    validation accepts every value, the codec marshals every value), a
    watcher of the kind that has no event-type filter and room for one
    event per supplied key finds appended to its queue, once the write is
    applied, exactly the create events of the supplied keys that were
    absent before the call followed by the update events of those that
    were present, each carrying the supplied value.  A present key gets its
    update event whether or not its value changed.  The order inside each
    group is Go's map order, so each group is stated up to permutation. *)
Theorem SetAll_one_event_per_key (kind : string) (values : gmap string T)
    (nows : string → string)
    (s : gomap.memStore T) (h : heap T) (id : string) (w : watcher) (st : chanState T)
    (q : sqlite.sqLiteStore T) (hq : heap T) (wq : watcher) (stq : chanState T) :
  gomap_facts.wf s h → sqlite_facts.wf q hq →
  gomap.closed s = false → sqlite.closed q = false →
  (∀ fn k v, gomap.validationFns s !! kind = Some fn → values !! k = Some v →
             fn v = None) →
  (∀ k v, values !! k = Some v → (sqlite.Marshal (sqlite.codec q) v).2 = None) →
  gomap_facts.reg s kind id w → eventTypes w = None →
  chans h !! ch w = Some st → length (buf st) + size values ≤ cap st →
  sqlite_facts.reg q kind wq → eventTypes wq = None →
  chans hq !! ch wq = Some stq → length (buf stq) + size values ≤ cap stq →
  (∃ s' h' crs ups,
     gomap.SetAll kind values s h = Done (s', h', None) ∧
     gomap.kindMap kind s' = values ∪ gomap.kindMap kind s ∧
     chanBuf (ch w) h' = buf st ++ crs ++ ups ∧
     crs ≡ₚ eventsOf kind EventTypeCreate (absentIn (gomap.kindMap kind s) values) ∧
     ups ≡ₚ eventsOf kind EventTypeUpdate (presentIn (gomap.kindMap kind s) values)) ∧
  (∃ q' hq' crs ups,
     sqlite.SetAll kind values nows q hq = Done (q', hq', None) ∧
     (∀ k v, values !! k = Some v →
        sqlite.value <$> sqlite.rows (sqlite.db q') !! (kind, k)
          = Some (sqlite.Marshal (sqlite.codec q) v).1) ∧
     chanBuf (ch wq) hq' = buf stq ++ crs ++ ups ∧
     crs ≡ₚ eventsOf kind EventTypeCreate
              (absentIn (sqlite.kindRows kind (sqlite.rows (sqlite.db q))) values) ∧
     ups ≡ₚ eventsOf kind EventTypeUpdate
              (presentIn (sqlite.kindRows kind (sqlite.rows (sqlite.db q))) values)).
Proof.
  intros Hs Hq Hcs Hcq Hval Hm Hr Hf Hst Hroom Hrq Hfq Hstq Hroomq. split.
  - destruct (gomap_facts.mem_SetAll_total kind values s h Hs)
      as (h' & Hrun & _ & _ & Hbuf).
    destruct (gomap_facts.SetAllLocked_shape kind values s) as [Hk _].
    revert Hrun Hbuf Hk. rewrite gomap_facts.SetAllLocked_valid by done. simpl.
    intros Hrun Hbuf Hk.
    exists (gomap_facts.allSet kind values s), h',
      (eventsOf kind EventTypeCreate (absentIn (gomap.kindMap kind s) values)),
      (eventsOf kind EventTypeUpdate (presentIn (gomap.kindMap kind s) values)).
    split_and!; try done.
    + unfold gomap_facts.allSet, gomap.kindMap at 1. simpl.
      by rewrite lookup_insert_eq.
    + rewrite (Hbuf w st).
      * unfold gomap_facts.sendsAll, accepts. rewrite Hf.
        by rewrite fmap_app, !snd_pair_fmap.
      * eapply gomap_facts.snapshot_keeps; eauto.
      * done.
      * rewrite size_absent_present. lia.
  - destruct (sqlite_facts.publishAll_total kind
                (sqlite.SetAllTx kind values nows q) hq)
      as (h' & Hrun & _ & _ & Hbuf).
    { eapply sqlite_facts.sq_wf_keeps; [apply sqlite_facts.SetAllTx_keeps|done]. }
    pose proof (sqlite_facts.SetAllTx_keeps kind values nows q) as (Hsubs & _).
    pose proof (sqlite_facts.SetAllTx_spec kind values nows q Hcq) as Hspec.
    simpl in Hspec. rewrite (sqlite_facts.SetAllTx_ok kind values nows q) in * by done.
    destruct Hspec as (Hev & Hrows & _).
    exists (sqlite.after (sqlite.SetAllTx kind values nows q)), h',
      (eventsOf kind EventTypeCreate
         (absentIn (sqlite.kindRows kind (sqlite.rows (sqlite.db q))) values)),
      (eventsOf kind EventTypeUpdate
         (presentIn (sqlite.kindRows kind (sqlite.rows (sqlite.db q))) values)).
    split_and!; try done.
    + intros k v Hkv. destruct (Hrows k v Hkv) as [_ ->].
      rewrite sqlite_facts.upsert_lookup_self. simpl. by destruct (_ !! (kind, k)).
    + rewrite (Hbuf wq stq).
      * by rewrite filter_accepts_all, Hev.
      * unfold sqlite_facts.reg in *. by rewrite Hsubs.
      * done.
      * rewrite Hev, length_app, !eventsOf_length, size_absent_present. lia.
Qed.

End SetAll_events.

(** The example stores with one subscriber on "users", unfiltered, with the
    default capacity. *)
Definition watchingMem := gomap_facts.watched "users" [] usersMem emptyHeap.
Definition watchingA := sqlite_facts.watched "users" [] usersA emptyHeap.

Lemma watchingMem_wf : gomap_facts.wf watchingMem.1.1.1 watchingMem.1.1.2.
Proof.
  exact (gomap_facts.mem_Watch_wf "users" [] usersMem emptyHeap usersMem_wf
           eq_refl eq_refl).
Qed.

Lemma watchingA_wf : sqlite_facts.wf watchingA.1.1.1 watchingA.1.1.2.
Proof.
  exact (sqlite_facts.sq_Watch_wf "users" [] usersA emptyHeap usersA_wf eq_refl).
Qed.

Lemma watchingMem_reg :
  gomap_facts.reg watchingMem.1.1.1 "users" "1" watchingMem.1.2.
Proof.
  pose proof (gomap_facts.mem_reg_watched "users" [] usersMem emptyHeap
                "users" "1" watchingMem.1.2) as Hreg.
  apply Hreg. left. split; [done|]. split; [by vm_compute|done].
Qed.

Lemma watchingA_reg : sqlite_facts.reg watchingA.1.1.1 "users" watchingA.1.2.
Proof.
  pose proof (sqlite_facts.sq_reg_watched "users" [] usersA emptyHeap
                "users" watchingA.1.2) as Hreg.
  apply Hreg. by left.
Qed.

(** A batch that updates "a" and creates "b". *)
Definition batch : gmap string string := {[ "a" := "A"; "b" := "B" ]}.

(** The batch on the two example stores with their subscriber. *)
Lemma SetAll_one_event_per_key_witness :
  (∃ s' h' crs ups,
     gomap.SetAll "users" batch watchingMem.1.1.1 watchingMem.1.1.2
       = Done (s', h', None) ∧
     gomap.kindMap "users" s' = batch ∪ gomap.kindMap "users" watchingMem.1.1.1 ∧
     chanBuf (ch watchingMem.1.2) h' = buf (mkChan [] 128 false) ++ crs ++ ups ∧
     crs ≡ₚ eventsOf "users" EventTypeCreate
              (absentIn (gomap.kindMap "users" watchingMem.1.1.1) batch) ∧
     ups ≡ₚ eventsOf "users" EventTypeUpdate
              (presentIn (gomap.kindMap "users" watchingMem.1.1.1) batch)) ∧
  (∃ q' hq' crs ups,
     sqlite.SetAll "users" batch (λ _, "t1") watchingA.1.1.1 watchingA.1.1.2
       = Done (q', hq', None) ∧
     (∀ k v, batch !! k = Some v →
        sqlite.value <$> sqlite.rows (sqlite.db q') !! ("users", k)
          = Some (sqlite.Marshal (sqlite.codec watchingA.1.1.1) v).1) ∧
     chanBuf (ch watchingA.1.2) hq' = buf (mkChan [] 128 false) ++ crs ++ ups ∧
     crs ≡ₚ eventsOf "users" EventTypeCreate
              (absentIn (sqlite.kindRows "users" (sqlite.rows (sqlite.db watchingA.1.1.1)))
                 batch) ∧
     ups ≡ₚ eventsOf "users" EventTypeUpdate
              (presentIn (sqlite.kindRows "users" (sqlite.rows (sqlite.db watchingA.1.1.1)))
                 batch)).
Proof.
  apply (SetAll_one_event_per_key "users" batch (λ _, "t1")
           watchingMem.1.1.1 watchingMem.1.1.2 "1" watchingMem.1.2
           (mkChan [] 128 false)
           watchingA.1.1.1 watchingA.1.1.2 watchingA.1.2 (mkChan [] 128 false)
           watchingMem_wf watchingA_wf).
  - by vm_compute.
  - by vm_compute.
  - intros fn k v Hfn. by vm_compute in Hfn.
  - intros k v _. by vm_compute.
  - apply watchingMem_reg.
  - by vm_compute.
  - by vm_compute.
  - vm_compute. lia.
  - apply watchingA_reg.
  - by vm_compute.
  - by vm_compute.
  - vm_compute. lia.
Defined.

(** What a call returned and what a channel holds afterwards. *)
Definition outcome {T S R} (c : nat) (m : run (S * heap T * R))
    : option (list (Event T) * R) :=
  match m with
  | Done (_, h, r) => Some (chanBuf c h, r)
  | Panic _ => None
  end.

(** The same batch, evaluated: the create of "b", then the update of "a"
    although its value is the one already stored. *)
Example SetAll_batch_evaluated :
  outcome 0 (gomap.SetAll "users" batch watchingMem.1.1.1 watchingMem.1.1.2)
    = Some ([mkEvent "users" "b" EventTypeCreate "B";
             mkEvent "users" "a" EventTypeUpdate "A"], None) ∧
  outcome 0 (sqlite.SetAll "users" batch (λ _, "t1") watchingA.1.1.1 watchingA.1.1.2)
    = Some ([mkEvent "users" "b" EventTypeCreate "B";
             mkEvent "users" "a" EventTypeUpdate "A"], None).
Proof. split; by vm_compute. Qed.

(** ** Cancelling and closing more than once *)

Section idempotence.
Context {T : Type}.

(** C9.  On a well-formed store, in both engines: a [cancel] closure
    handed out by [Watch] returns without panic, and called again it
    returns the store and the heap as they are; [Close] returns without
    panic, after which that closure and a second [Close] return the store
    and the heap as they are.  No call closes a channel that is already
    closed, since that would be a panic.  Each call leaves a well-formed
    store, so the same holds for any later repetition. *)
Theorem cancel_and_Close_are_idempotent
    (cs : list gomap.cancelFn) (c : gomap.cancelFn) (s : gomap.memStore T) (h : heap T)
    (cq : sqlite.cancelFn) (q : sqlite.sqLiteStore T) (hq : heap T) :
  gomap_facts.wf s h → gomap_facts.issued cs s h → c ∈ cs →
  sqlite_facts.wf q hq →
  (∃ s1 h1, gomap.cancel c s h = Done (s1, h1) ∧
     gomap.cancel c s1 h1 = Done (s1, h1) ∧
     gomap.closed s1 = gomap.closed s ∧
     gomap_facts.wf s1 h1 ∧ gomap_facts.issued cs s1 h1) ∧
  (∃ s2 h2, gomap.Close s h = Done (s2, h2, None) ∧
     gomap.closed s2 = true ∧
     gomap.cancel c s2 h2 = Done (s2, h2) ∧
     gomap.Close s2 h2 = Done (s2, h2, None) ∧
     gomap_facts.wf s2 h2 ∧ gomap_facts.issued cs s2 h2) ∧
  (∃ q1 hq1, sqlite.cancel cq q hq = Done (q1, hq1) ∧
     sqlite.cancel cq q1 hq1 = Done (q1, hq1) ∧
     sqlite.closed q1 = sqlite.closed q ∧
     sqlite_facts.wf q1 hq1) ∧
  (∃ q2 hq2, sqlite.Close q hq = Done (q2, hq2, None) ∧
     sqlite.closed q2 = true ∧
     sqlite.cancel cq q2 hq2 = Done (q2, hq2) ∧
     sqlite.Close q2 hq2 = Done (q2, hq2, None) ∧
     sqlite_facts.wf q2 hq2).
Proof.
  intros Hs Hiss Hc Hq. split_and!.
  - destruct (gomap_facts.mem_cancel_total cs c s h Hs Hiss Hc)
      as (s1 & h1 & ? & ? & ? & ? & ? & ? & ?).
    by exists s1, h1.
  - destruct (gomap.closed s) eqn:Hcl.
    + exists s, h.
      split_and!; try done; try (by apply gomap_facts.mem_Close_closed).
      all: apply gomap_facts.mem_cancel_spent; intros w.
      all: by apply (gomap_facts.wf_closed _ _ Hs).
    + destruct (gomap_facts.mem_Close_open s h Hs Hcl)
        as (h' & Hrun & _ & _ & Hd & _ & Hwf').
      exists (gomap_facts.closedStore s), h'.
      split_and!; try done; try (by eapply gomap_facts.issued_closedStore).
      all: apply gomap_facts.mem_cancel_spent; intros w.
      all: apply gomap_facts.mem_closedStore_no_watcher.
  - destruct (sqlite_facts.sq_cancel_total cq q hq Hq)
      as (q1 & hq1 & ? & ? & ? & ? & ? & ?).
    by exists q1, hq1.
  - destruct (sqlite.closed q) eqn:Hcl.
    + exists q, hq.
      split_and!; try done; try (by apply sqlite_facts.sq_Close_closed).
      all: apply sqlite_facts.sq_cancel_spent.
      all: by apply (sqlite_facts.wf_closed _ _ Hq).
    + destruct (sqlite_facts.sq_Close_open q hq Hq Hcl)
        as (h' & Hrun & _ & _ & _ & Hwf').
      exists (sqlite_facts.closedStore q), h'. split_and!; try done.
      all: apply sqlite_facts.sq_cancel_spent.
      all: apply sqlite_facts.sq_closedStore_no_watcher.
Qed.

End idempotence.

Lemma watchingMem_issued :
  gomap_facts.issued [watchingMem.2] watchingMem.1.1.1 watchingMem.1.1.2.
Proof.
  assert (gomap_facts.issued [] usersMem emptyHeap) as Hiss.
  { split; [constructor|]. intros c Hc. by apply elem_of_nil in Hc. }
  exact (gomap_facts.Watch_issued "users" [] [] usersMem emptyHeap usersMem_wf
           Hiss eq_refl).
Qed.

(** The closures of the two example subscribers. *)
Lemma cancel_and_Close_are_idempotent_witness :
  (∃ s1 h1, gomap.cancel watchingMem.2 watchingMem.1.1.1 watchingMem.1.1.2
              = Done (s1, h1) ∧
     gomap.cancel watchingMem.2 s1 h1 = Done (s1, h1) ∧
     gomap.closed s1 = gomap.closed watchingMem.1.1.1 ∧
     gomap_facts.wf s1 h1 ∧ gomap_facts.issued [watchingMem.2] s1 h1) ∧
  (∃ s2 h2, gomap.Close watchingMem.1.1.1 watchingMem.1.1.2 = Done (s2, h2, None) ∧
     gomap.closed s2 = true ∧
     gomap.cancel watchingMem.2 s2 h2 = Done (s2, h2) ∧
     gomap.Close s2 h2 = Done (s2, h2, None) ∧
     gomap_facts.wf s2 h2 ∧ gomap_facts.issued [watchingMem.2] s2 h2) ∧
  (∃ q1 hq1, sqlite.cancel watchingA.2 watchingA.1.1.1 watchingA.1.1.2
               = Done (q1, hq1) ∧
     sqlite.cancel watchingA.2 q1 hq1 = Done (q1, hq1) ∧
     sqlite.closed q1 = sqlite.closed watchingA.1.1.1 ∧
     sqlite_facts.wf q1 hq1) ∧
  (∃ q2 hq2, sqlite.Close watchingA.1.1.1 watchingA.1.1.2 = Done (q2, hq2, None) ∧
     sqlite.closed q2 = true ∧
     sqlite.cancel watchingA.2 q2 hq2 = Done (q2, hq2) ∧
     sqlite.Close q2 hq2 = Done (q2, hq2, None) ∧
     sqlite_facts.wf q2 hq2).
Proof.
  apply (cancel_and_Close_are_idempotent [watchingMem.2] watchingMem.2
           watchingMem.1.1.1 watchingMem.1.1.2
           watchingA.2 watchingA.1.1.1 watchingA.1.1.2
           watchingMem_wf watchingMem_issued).
  - left.
  - apply watchingA_wf.
Defined.

(** The same calls, evaluated on the in-memory example: the subscriber's
    channel is closed once by [cancel] and the calls that follow leave it
    alone; without the first [cancel] it is closed by [Close]. *)
Example cancel_Close_evaluated :
  (mbind (M:=run) (λ sh, gomap.cancel watchingMem.2 sh.1 sh.2)
     (gomap.cancel watchingMem.2 watchingMem.1.1.1 watchingMem.1.1.2)
   ≫= λ sh, gomap.Close sh.1 sh.2
   ≫= λ shr, gomap.cancel watchingMem.2 shr.1.1 shr.1.2
   ≫= λ sh, gomap.Close sh.1 sh.2
   ≫= λ shr, Done (gomap.closed shr.1.1, isClosed <$> chans shr.1.2 !! 0))
  = Done (true, Some true).
Proof. by vm_compute. Qed.

(** ** Operations on a closed store *)

(** C2 as stated fails for [Watch] and for [Dump].  [Watch] checks the
    kind before it looks at the closed flag, so on a closed store an empty
    kind is answered with [ErrKindRequired]; [Dump] has no error result and
    no closed check: in memory it still renders the entries, and the
    durable engine returns the text of the database's own error. *)
Lemma closed_store_Watch_and_Dump :
  (gomap.Close usersMem emptyHeap ≫= λ shr,
     Done ((gomap.Watch "" [] shr.1.1 shr.1.2).2, gomap.Dump id shr.1.1))
    = Done ((None, None, Some ErrKindRequired),
            "users:" +:+ newline +:+ "  a: A" +:+ newline) ∧
  (sqlite.Close usersA emptyHeap ≫= λ shr,
     Done ((sqlite.Watch "" [] shr.1.1 shr.1.2).2, sqlite.Dump shr.1.1))
    = Done ((None, None, Some ErrKindRequired), "sql: database is closed") ∧
  ErrKindRequired ≠ ErrClosed ∧
  "users:" +:+ newline +:+ "  a: A" +:+ newline ≠ Error ErrClosed ∧
  "sql: database is closed" ≠ Error ErrClosed.
Proof. split_and!; by vm_compute. Qed.

Section closed_store.
Context {T : Type} (zero : T) (show : T → string).

Lemma gomap_closed_allClosed (s : gomap.memStore T) h :
  gomap_facts.wf s h → gomap.closed s = true → gomap_facts.allClosed h.
Proof.
  intros Hwf Hc c st Hst. destruct (isClosed st) eqn:E; [done|].
  destruct (gomap_facts.wf_only _ _ Hwf c) as (k & i & w & Hr & _); [by exists st|].
  by destruct (gomap_facts.wf_closed _ _ Hwf Hc k i w).
Qed.

Lemma sqlite_closed_allClosed (q : sqlite.sqLiteStore T) h :
  sqlite_facts.wf q h → sqlite.closed q = true → sqlite_facts.allClosed h.
Proof.
  intros Hwf Hc c st Hst. destruct (isClosed st) eqn:E; [done|].
  destruct (sqlite_facts.wf_only _ _ Hwf c) as (k & w & Hr & _); [by exists st|].
  by destruct (sqlite_facts.wf_closed _ _ Hwf Hc k w).
Qed.

(** C2, amended.  After [Close] has returned, in both engines: [Get],
    [List], [Count], [Keys], [Values], [GetAll], [Set], [SetFn], [SetAll]
    and [Delete] fail with [ErrClosed] and change neither the store nor any
    channel; [Watch] fails with [ErrClosed] on a non-empty kind and with
    [ErrKindRequired] on the empty kind; [Dump] returns a string and no
    error: the in-memory engine renders the entries as before the close,
    the durable engine returns the text of the database's closed-handle
    error.  Every channel made by an earlier [Watch] is closed, and a
    receive on it, once its buffer is drained, reports the end of the
    stream. *)
Theorem closed_store_operations
    (s : gomap.memStore T) (h : heap T) (q : sqlite.sqLiteStore T) (hq : heap T) :
  gomap_facts.wf s h → sqlite_facts.wf q hq →
  (∃ s' h', gomap.Close s h = Done (s', h', None) ∧
     (∀ c st, chans h' !! c = Some st →
        isClosed st = true ∧ (buf st = [] → recv c h' = Some (None, h'))) ∧
     (∀ kind key, gomap.Get zero kind key s' = (zero, false, Some ErrClosed)) ∧
     (∀ kind filters, gomap.List kind filters s' = (None, Some ErrClosed)) ∧
     (∀ kind, gomap.Count kind s' = (0%Z, Some ErrClosed)) ∧
     (∀ kind, gomap.Keys kind s' = (None, Some ErrClosed)) ∧
     (∀ kind, gomap.Values kind s' = (None, Some ErrClosed)) ∧
     gomap.GetAll s' = (None, Some ErrClosed) ∧
     (∀ kind key v, gomap.Set_ zero kind key v s' h'
                    = Done (s', h', (false, Some ErrClosed))) ∧
     (∀ kind key fn, gomap.SetFn kind key fn s' h'
                     = Done (s', h', (false, Some ErrClosed))) ∧
     (∀ kind values, gomap.SetAll kind values s' h' = Done (s', h', Some ErrClosed)) ∧
     (∀ kind key, gomap.Delete zero kind key s' h'
                  = Done (s', h', (false, zero, Some ErrClosed))) ∧
     (∀ kind opts, gomap.Watch kind opts s' h'
        = (s', h', None,
           (None, None,
            Some (if decide (kind = "") then ErrKindRequired else ErrClosed)))) ∧
     gomap.Dump show s' = gomap.Dump show s) ∧
  (∃ q' hq', sqlite.Close q hq = Done (q', hq', None) ∧
     (∀ c st, chans hq' !! c = Some st →
        isClosed st = true ∧ (buf st = [] → recv c hq' = Some (None, hq'))) ∧
     (∀ kind key, sqlite.Get zero kind key q' = (zero, false, Some ErrClosed)) ∧
     (∀ kind filters, sqlite.List kind filters q' = (None, Some ErrClosed)) ∧
     (∀ kind, sqlite.Count kind q' = (0%Z, Some ErrClosed)) ∧
     (∀ kind, sqlite.Keys kind q' = (None, Some ErrClosed)) ∧
     (∀ kind, sqlite.Values kind q' = (None, Some ErrClosed)) ∧
     sqlite.GetAll q' = (None, Some ErrClosed) ∧
     (∀ kind key v now, sqlite.Set_ kind key v now q' hq'
                        = Done (q', hq', (false, Some ErrClosed))) ∧
     (∀ kind key fn now, sqlite.SetFn kind key fn now q' hq'
                         = Done (q', hq', (false, Some ErrClosed))) ∧
     (∀ kind values nows, sqlite.SetAll kind values nows q' hq'
                          = Done (q', hq', Some ErrClosed)) ∧
     (∀ kind key, sqlite.Delete zero kind key q' hq'
                  = Done (q', hq', (false, zero, Some ErrClosed))) ∧
     (∀ kind opts, sqlite.Watch kind opts q' hq'
        = (q', hq', None,
           (None, None,
            Some (if decide (kind = "") then ErrKindRequired else ErrClosed)))) ∧
     sqlite.Dump q' = "sql: database is closed").
Proof.
  intros Hs Hq. split.
  - assert (∃ s' h', gomap.Close s h = Done (s', h', None) ∧
              gomap.closed s' = true ∧ gomap_facts.allClosed h' ∧
              gomap.kinds s' = gomap.kinds s) as (s' & h' & Hrun & Hc & Hall & Hk).
    { destruct (gomap.closed s) eqn:Hcl.
      - exists s, h. split_and!; try done; [by apply gomap_facts.mem_Close_closed|].
        by eapply gomap_closed_allClosed.
      - destruct (gomap_facts.mem_Close_open s h Hs Hcl) as (h' & ? & ? & _).
        by exists (gomap_facts.closedStore s), h'. }
    exists s', h'. split; [done|]. split_and!.
    + intros c st Hst. split; [by eapply Hall|]. intros Hb.
      eapply recv_closed_empty; eauto.
    + intros. unfold gomap.Get. by rewrite Hc.
    + intros. unfold gomap.List. by rewrite Hc.
    + intros. unfold gomap.Count. by rewrite Hc.
    + intros. unfold gomap.Keys. by rewrite Hc.
    + intros. unfold gomap.Values. by rewrite Hc.
    + unfold gomap.GetAll. by rewrite Hc.
    + intros. unfold gomap.Set_, gomap.unlockAndSend, gomap.SetLocked. by rewrite Hc.
    + intros. unfold gomap.SetFn, gomap.unlockAndSend, gomap.SetFnLocked. by rewrite Hc.
    + intros. unfold gomap.SetAll, gomap.SetAllLocked. by rewrite Hc.
    + intros. unfold gomap.Delete, gomap.unlockAndSend, gomap.DeleteLocked. by rewrite Hc.
    + intros kind opts. unfold gomap.Watch. case_decide; [done|]. by rewrite Hc.
    + unfold gomap.Dump. by rewrite Hk.
  - assert (∃ q' hq', sqlite.Close q hq = Done (q', hq', None) ∧
              sqlite.closed q' = true ∧ sqlite_facts.allClosed hq' ∧
              sqlite.dbClosed (sqlite.db q') = true) as (q' & hq' & Hrun & Hc & Hall & Hd).
    { destruct (sqlite.closed q) eqn:Hcl.
      - exists q, hq. split_and!; try done.
        + by apply sqlite_facts.sq_Close_closed.
        + by eapply sqlite_closed_allClosed.
        + by rewrite (sqlite_facts.wf_db _ _ Hq).
      - destruct (sqlite_facts.sq_Close_open q hq Hq Hcl) as (h' & ? & ? & _).
        by exists (sqlite_facts.closedStore q), h'. }
    exists q', hq'. split; [done|]. split_and!.
    + intros c st Hst. split; [by eapply Hall|]. intros Hb.
      eapply recv_closed_empty; eauto.
    + intros. unfold sqlite.Get. by rewrite Hc.
    + intros. unfold sqlite.List. by rewrite Hc.
    + intros. unfold sqlite.Count. by rewrite Hc.
    + intros. unfold sqlite.Keys. by rewrite Hc.
    + intros. unfold sqlite.Values. by rewrite Hc.
    + unfold sqlite.GetAll. by rewrite Hc.
    + intros. unfold sqlite.Set_, sqlite.publishAll, sqlite.SetTx. by rewrite Hc.
    + intros. unfold sqlite.SetFn, sqlite.publishAll, sqlite.SetFnTx. by rewrite Hc.
    + intros. unfold sqlite.SetAll, sqlite.publishAll, sqlite.SetAllTx. by rewrite Hc.
    + intros. unfold sqlite.Delete, sqlite.publishAll, sqlite.DeleteTx. by rewrite Hc.
    + intros kind opts. unfold sqlite.Watch. case_decide; [done|]. by rewrite Hc.
    + unfold sqlite.Dump. by rewrite Hd.
Qed.

End closed_store.

(** Closing the two example stores with their subscriber. *)
Lemma closed_store_operations_witness :
  (∃ s' h', gomap.Close watchingMem.1.1.1 watchingMem.1.1.2 = Done (s', h', None) ∧
     gomap.Get "" "users" "a" s' = ("", false, Some ErrClosed) ∧
     gomap.GetAll s' = (None, Some ErrClosed)) ∧
  (∃ q' hq', sqlite.Close watchingA.1.1.1 watchingA.1.1.2 = Done (q', hq', None) ∧
     sqlite.Get "" "users" "a" q' = ("", false, Some ErrClosed) ∧
     sqlite.Dump q' = "sql: database is closed").
Proof.
  destruct (closed_store_operations "" id watchingMem.1.1.1 watchingMem.1.1.2
              watchingA.1.1.1 watchingA.1.1.2 watchingMem_wf watchingA_wf)
    as [(s' & h' & Hrun & _ & Hget & _ & _ & _ & _ & Hall & _)
        (q' & hq' & Hrunq & _ & Hgetq & _ & _ & _ & _ & _ & _ & _ & _ & _ & _ & Hdump)].
  split.
  - exists s', h'. split; [exact Hrun|]. split; [apply Hget|exact Hall].
  - exists q', hq'. split; [exact Hrunq|]. split; [apply Hgetq|exact Hdump].
Defined.

(** ** Initial replay and the event-type filter *)

(** C3 as stated fails: the replay is decided by
    [sendInitial := eventTypes == nil || create ∈ eventTypes], so a
    subscription whose filter contains the create type does get the replay.
    Here the filter is {create} and the entry of "users" arrives. *)
Lemma replay_with_a_create_filter :
  let opts := [WithInitialReplay; WithEventTypes [EventTypeCreate]] in
  EventTypes (applyOpts opts) = Some {[ EventTypeCreate ]} ∧
  (let w := gomap.Watch "users" opts usersMem emptyHeap in
   match w.1.2 with
   | Some g => outcome 0 (gomap.runReplay false g w.1.1.2 ≫= λ gh, Done (tt, gh.2, gh.1))
   | None => None
   end = Some ([mkEvent "users" "a" EventTypeCreate "A"], None)) ∧
  (let w := sqlite.Watch "users" opts usersA emptyHeap in
   match w.1.2 with
   | Some g => outcome 0 (sqlite.runReplay g w.1.1.1 w.1.1.2 ≫= λ h, Done (tt, h, tt))
   | None => None
   end = Some ([mkEvent "users" "a" EventTypeCreate "A"], tt)).
Proof. split_and!; by vm_compute. Qed.

Section replay.
Context {T : Type}.

Lemma sqlite_List_setSubs kind filters m (q : sqlite.sqLiteStore T) :
  sqlite.List kind filters (sqlite.setSubs m q) = sqlite.List kind filters q.
Proof. done. Qed.

(** C3, amended.  A [Watch] that asks for the initial replay starts the
    replay exactly when its event-type filter is absent or contains the
    create type (and, in memory, the kind has an entry).  The replay then
    offers one create event per entry of the kind, carrying its value: in
    memory the entries at the time of the [Watch], sent in full when the
    new channel has room for them; in the durable engine the entries listed
    when the goroutine runs, sent as far as the channel has room.  With a
    filter that lacks the create type no replay is started. *)
Theorem replay_needs_create_accepted (kind : string) (opts : list WatchOption)
    (s : gomap.memStore T) (h : heap T) (q : sqlite.sqLiteStore T) (hq : heap T) :
  kind ≠ "" → gomap.closed s = false → sqlite.closed q = false →
  let cfg := applyOpts opts in
  let createAccepted :=
    match EventTypes cfg with
    | None => true
    | Some types => bool_decide (EventTypeCreate ∈ types)
    end in
  let wm := gomap.Watch kind opts s h in
  let wq := sqlite.Watch kind opts q hq in
  (is_Some wm.1.2 ↔
     Initial cfg = true ∧ gomap.kindMap kind s ≠ ∅ ∧ createAccepted = true) ∧
  (∀ g, wm.1.2 = Some g →
     Some (gomap.gch g) = wm.2.1.1 ∧
     gomap.gpending g = eventsOf kind EventTypeCreate (gomap.kindMap kind s) ∧
     (length (gomap.gpending g) ≤ Z.to_nat (bufSizeOf cfg) →
      ∀ pickDone, ∃ h', gomap.runReplay pickDone g wm.1.1.2 = Done (None, h') ∧
        chanBuf (gomap.gch g) h' = gomap.gpending g)) ∧
  (is_Some wq.1.2 ↔ Initial cfg = true ∧ createAccepted = true) ∧
  (∀ g m, wq.1.2 = Some g → sqlite.List kind [] q = (Some m, None) →
     Some (ch (sqlite.gw g)) = wq.2.1.1 ∧
     (size m ≤ Z.to_nat (bufSizeOf cfg) →
      ∃ h', sqlite.runReplay g wq.1.1.1 wq.1.1.2 = Done h' ∧
        chanBuf (ch (sqlite.gw g)) h' = eventsOf kind EventTypeCreate m)).
Proof.
  intros Hk Hcs Hcq cfg createAccepted wm wq. split_and!.
  - unfold wm. rewrite gomap_facts.Watch_replay by done.
    fold cfg. change (gomap_facts.sendInitialOf cfg) with createAccepted.
    destruct (Initial cfg), createAccepted; simpl;
      try (split; [by intros [? ?]|by intros (? & ? & ?)]).
    + case_bool_decide as Hsz; simpl.
      * split; [|by eexists]. intros _. split_and!; try done.
        intros Hm. rewrite Hm, map_size_empty in Hsz. lia.
      * split; [by intros [? ?]|]. intros (_ & Hne & _). destruct Hsz.
        destruct (decide (size (gomap.kindMap kind s) = 0)) as [Hz|Hz]; [|lia].
        by apply map_size_empty_inv in Hz.
    + rewrite andb_false_r. split; [by intros [? ?]|by intros (? & ? & ?)].
  - intros g Hg. pose proof Hg as Hg'. unfold wm in Hg'.
    rewrite gomap_facts.Watch_replay in Hg' by done.
    destruct (_ && _); [|done]. injection Hg' as <-. simpl.
    pose proof (gomap_facts.Watch_registers kind opts s h Hk Hcs) as Hw.
    unfold gomap_facts.watched in Hw. destruct Hw as (g0 & Hw).
    unfold wm. rewrite Hw. simpl. split_and!; try done.
    intros Hroom pickDone. unfold gomap.runReplay. simpl.
    destruct (gomap_facts.replayLoop_room pickDone
                (fresh (dom (chans h))) (fresh (dom (dones h)))
                (eventsOf kind EventTypeCreate (gomap.kindMap kind s))
                (mkHeap (<[fresh (dom (chans h)) :=
                            mkChan [] (Z.to_nat (bufSizeOf (applyOpts opts))) false]>
                           (chans h))
                        (<[fresh (dom (dones h)) := false]> (dones h)))
                (mkChan [] (Z.to_nat (bufSizeOf (applyOpts opts))) false))
      as (h' & Hrun & _ & Hbuf); simpl; try done.
    + by rewrite lookup_insert_eq.
    + by rewrite lookup_insert_eq.
    + by exists h'.
  - unfold wq, sqlite.Watch. rewrite decide_False by done. rewrite Hcq. simpl.
    fold cfg. fold createAccepted.
    destruct (Initial cfg), createAccepted; simpl.
    + split; [done|by eexists].
    + split; [by intros [? ?]|by intros [? ?]].
    + split; [by intros [? ?]|by intros [? ?]].
    + split; [by intros [? ?]|by intros [? ?]].
  - intros g m Hg Hl. revert Hg. unfold wq, sqlite.Watch.
    rewrite decide_False by done. rewrite Hcq. simpl. fold cfg.
    destruct (_ && _); [|done]. intros [= <-]. simpl. split; [done|].
    intros Hroom. unfold sqlite.runReplay. simpl.
    rewrite sqlite_List_setSubs, Hl.
    destruct (sendAll_room (fresh (dom (chans hq))) (eventsOf kind EventTypeCreate m)
                (mkHeap (<[fresh (dom (chans hq)) :=
                            mkChan [] (Z.to_nat (bufSizeOf cfg)) false]> (chans hq))
                        (dones hq))
                (mkChan [] (Z.to_nat (bufSizeOf cfg)) false))
      as (h' & Hrun & _ & Hbuf); simpl; try done.
    + by rewrite lookup_insert_eq.
    + by rewrite eventsOf_length.
    + by exists h'.
Qed.

End replay.

(** The subscription of the counterexample: replay asked for, filter
    {create}, one entry in the kind. *)
Lemma replay_needs_create_accepted_witness :
  let opts := [WithInitialReplay; WithEventTypes [EventTypeCreate]] in
  "users" ≠ "" ∧ gomap.closed usersMem = false ∧ sqlite.closed usersA = false ∧
  is_Some (gomap.Watch "users" opts usersMem emptyHeap).1.2 ∧
  is_Some (sqlite.Watch "users" opts usersA emptyHeap).1.2.
Proof.
  intros opts.
  destruct (replay_needs_create_accepted "users" opts usersMem emptyHeap usersA emptyHeap
              ltac:(done) eq_refl eq_refl) as (Hm & _ & Hq & _).
  split; [done|]. split; [reflexivity|]. split; [reflexivity|]. split.
  - apply Hm. split; [by vm_compute|]. split; [|by vm_compute].
    intros Hempty. apply (f_equal size) in Hempty. vm_compute in Hempty.
    discriminate Hempty.
  - apply Hq. split; by vm_compute.
Defined.

(** * Further properties of the two engines *)

(** ** What a subscriber's queue holds after a write *)

Section exact_sends.
Context {T : Type}.
Implicit Types (h : heap T) (c : nat) (ev : Event T).

(** The queue after the non-blocking sends of [evs], one after the other:
    the sends fill the room that is left, the rest is dropped. *)
Definition delivered (st : chanState T) (evs : list (Event T)) : list (Event T) :=
  buf st ++ take (cap st - length (buf st)) evs.

Lemma delivered_nil (st : chanState T) : delivered st [] = buf st.
Proof. unfold delivered. by rewrite take_nil, app_nil_r. Qed.

Lemma delivered_room (st : chanState T) evs :
  length (buf st) + length evs ≤ cap st → delivered st evs = buf st ++ evs.
Proof. intros Hroom. unfold delivered. rewrite take_ge; [done|lia]. Qed.

Lemma delivered_full (st : chanState T) evs :
  cap st ≤ length (buf st) → delivered st evs = buf st.
Proof.
  intros Hfull. unfold delivered.
  replace (cap st - length (buf st)) with 0 by lia. by rewrite app_nil_r.
Qed.

Lemma sends_exact (l : list (nat * Event T)) h :
  (∀ ce, ce ∈ l → chanOpen ce.1 h) →
  ∃ h', forM send1 l h = Done h' ∧ grows h h' ∧
    ∀ c st, chans h !! c = Some st → chanBuf c h' = delivered st (sentTo c l).
Proof.
  revert h. induction l as [|[c0 ev] l IH]; intros h Hopen.
  - exists h. split; [done|]. split; [apply grows_refl|].
    intros c st Hst. unfold chanBuf. rewrite Hst. by rewrite delivered_nil.
  - assert (chanOpen c0 h) as Hc0 by (apply (Hopen (c0, ev)); left).
    destruct (trySend_grows c0 ev h Hc0) as (h1 & Hh1 & Hg1).
    rewrite forM_cons. change (send1 (c0, ev) h) with (trySend c0 ev h).
    rewrite Hh1. simpl.
    destruct (IH h1) as (h' & Hrun & Hg & Hbuf).
    { intros ce Hce. eapply grows_open; [done|]. apply Hopen. by right. }
    exists h'. split; [done|]. split; [by eapply grows_trans|].
    intros c st Hst. unfold sentTo. rewrite filter_cons. simpl.
    destruct Hc0 as (st0 & Hst0 & Ho0).
    rewrite (trySend_open _ _ _ st0) in Hh1 by done. injection Hh1 as Hh1.
    destruct (decide (c0 = c)) as [->|Hne].
    + rewrite Hst in Hst0. injection Hst0 as <-. rewrite fmap_cons. simpl.
      destruct (decide (length (buf st) < cap st)) as [Hlt|Hge].
      * subst h1.
        rewrite (Hbuf c (mkChan (buf st ++ [ev]) (cap st) false))
          by (simpl; by rewrite lookup_insert_eq).
        unfold delivered, sentTo. simpl. rewrite length_app. simpl.
        replace (cap st - length (buf st)) with (S (cap st - (length (buf st) + 1)))
          by lia.
        simpl. by rewrite <-app_assoc.
      * subst h1. rewrite (Hbuf c st Hst).
        rewrite !delivered_full by lia. done.
    + apply Hbuf. subst h1. case_decide; [|done]. simpl.
      by rewrite lookup_insert_ne.
Qed.

Lemma sentTo_fanoutAll_none (wchs : list watcher) c (evs : list (Event T)) :
  c ∉ ch <$> wchs → sentTo c (evs ≫= sendsOf wchs) = [].
Proof.
  intros Hc. induction evs as [|ev evs IH]; [done|].
  by rewrite bind_cons, sentTo_app, IH, sentTo_sendsOf_none.
Qed.

(** The events of one type that a watcher accepts: all or none. *)
Lemma filter_accepts_eventsOf (w : watcher) kind evType (m : gmap string T) :
  filter (λ ev, accepts w (EventType ev) = true) (eventsOf kind evType m) =
    if accepts w evType then eventsOf kind evType m else [].
Proof.
  unfold eventsOf. induction (map_to_list m) as [|kv l IH].
  { by destruct (accepts w evType). }
  rewrite fmap_cons, filter_cons. simpl. rewrite IH.
  destruct (accepts w evType) eqn:E.
  - by rewrite decide_True.
  - by rewrite decide_False.
Qed.

(** The fan-out of a list of events to watchers with open, distinct
    channels: a watcher of the list ends up with what fits of the events it
    accepts, any other channel is left as it is. *)
Lemma fanoutAll_exact (wchs : list watcher) (evs : list (Event T)) h :
  (∀ w, w ∈ wchs → chanOpen (ch w) h) → NoDup (ch <$> wchs) →
  ∃ h', forM (fanout wchs) evs h = Done h' ∧ grows h h' ∧
    (∀ w st, w ∈ wchs → chans h !! ch w = Some st →
       chanBuf (ch w) h' =
         delivered st (filter (λ ev, accepts w (EventType ev) = true) evs)) ∧
    (∀ c st, c ∉ ch <$> wchs → chans h !! c = Some st → chanBuf c h' = buf st).
Proof.
  intros Hopen Hnd. rewrite fanoutAll_sends.
  destruct (sends_exact (evs ≫= sendsOf wchs) h) as (h' & Hrun & Hg & Hbuf).
  { intros [c ev] Hce. apply list_elem_of_bind in Hce as (ev' & Hce & _).
    unfold sendsOf in Hce. apply list_elem_of_fmap in Hce as (w & [= -> ->] & Hw).
    apply list_elem_of_filter in Hw as [_ Hw]. by apply Hopen. }
  exists h'. split_and!; try done.
  - intros w st Hin Hst. rewrite (Hbuf _ _ Hst). by rewrite sentTo_fanoutAll.
  - intros c st Hc Hst. rewrite (Hbuf _ _ Hst).
    by rewrite sentTo_fanoutAll_none, delivered_nil.
Qed.

End exact_sends.

(** ** The in-memory engine: who is sent what *)

Section gomap_delivery.
Context {T : Type} (zero : T).
Import gomap gomap_facts.
Implicit Types (s : memStore T) (h : heap T) (w : watcher).

(** The events a watcher registered under [kind'] is offered by a write to
    [kind]: those of its own kind that its filter accepts. *)
Definition offered (w : watcher) (kind' kind : string) (evs : list (Event T))
    : list (Event T) :=
  if decide (kind' = kind)
  then filter (λ ev, accepts w (EventType ev) = true) evs else [].

Lemma unlockAndSend_exact {R} (l : locked T R) kind h :
  wf (after l) h →
  wchs l = snapshot kind (after l) ∨ (wchs l = [] ∧ events l = []) →
  ∃ h', unlockAndSend l h = Done (after l, h', result l) ∧
    ∀ kind' id w st, reg (after l) kind' id w → chans h !! ch w = Some st →
      chanBuf (ch w) h' = delivered st (offered w kind' kind (events l)).
Proof.
  intros Hwf [Hw|[Hw He]]; unfold unlockAndSend.
  - destruct (fanoutAll_exact (wchs l) (events l) h) as (h' & Hrun & _ & Hin & Hout).
    { intros w Hi. rewrite Hw in Hi. apply elem_of_snapshot in Hi as (id & Hreg).
      by eapply wf_open. }
    { rewrite Hw. by eapply snapshot_NoDup. }
    exists h'. rewrite Hrun. split; [done|].
    intros kind' id w st Hreg Hst. unfold offered.
    destruct (decide (kind' = kind)) as [->|Hne].
    + apply Hin; [|done]. rewrite Hw. apply elem_of_snapshot. eauto.
    + rewrite delivered_nil. apply Hout; [|done].
      rewrite Hw. intros (w' & Hch & Hi)%list_elem_of_fmap.
      apply elem_of_snapshot in Hi as (id' & Hreg').
      by destruct (wf_inj _ _ Hwf kind' id w kind id' w' Hreg Hreg' Hch).
  - rewrite He. simpl. exists h. split; [done|].
    intros kind' id w st _ Hst. unfold offered, chanBuf. rewrite Hst.
    unfold delivered. case_decide; by rewrite ?filter_nil, take_nil, app_nil_r.
Qed.

Lemma SetLocked_sends kind key value s :
  let l := SetLocked zero kind key value s in
  wchs l = snapshot kind (after l) ∨ (wchs l = [] ∧ events l = []).
Proof.
  unfold SetLocked. destruct (closed s); simpl; [by right|].
  destruct (validate kind value (ensureKind kind s)); simpl; [by right|].
  destruct (compareFn _ _ _); simpl; auto.
Qed.

Lemma DeleteLocked_sends kind key s :
  let l := DeleteLocked zero kind key s in
  wchs l = snapshot kind (after l) ∨ (wchs l = [] ∧ events l = []).
Proof.
  unfold DeleteLocked. destruct (closed s); simpl; [by right|].
  destruct (kindMap kind (ensureKind kind s) !! key); simpl; auto.
Qed.

Lemma SetFnLocked_sends kind key fn s :
  let l := SetFnLocked kind key fn s in
  wchs l = snapshot kind (after l) ∨ (wchs l = [] ∧ events l = []).
Proof.
  unfold SetFnLocked. destruct (closed s); simpl; [by right|].
  destruct (kindMap kind (ensureKind kind s) !! key) as [prev|]; simpl; [|by right].
  destruct (fn prev) as [value [err|]]; simpl; auto.
Qed.

End gomap_delivery.

Section gomap_delivery_thm.
Context {T : Type} (zero : T).
Import gomap gomap_facts.
Implicit Types (s : memStore T) (h : heap T) (w : watcher).

Lemma SetAllLocked_sends kind values s :
  let l := SetAllLocked kind values s in
  wchsAll l = snapshot kind (afterAll l) ∨
  (wchsAll l = [] ∧ created l = ∅ ∧ updated l = ∅).
Proof.
  unfold SetAllLocked. destruct (closed s); simpl; [by right|].
  destruct (from_option _ _ _); simpl; [by right|].
  destruct (map_fold _ _ _) as [[cr up] m]. simpl. by left.
Qed.

Lemma sentTo_bind_none (wchs : list watcher) c (k : watcher → list (nat * Event T)) :
  (∀ w ce, ce ∈ k w → ce.1 = ch w) → c ∉ ch <$> wchs → sentTo c (wchs ≫= k) = [].
Proof.
  intros Hown. induction wchs as [|w wchs IH]; intros Hc; [done|].
  rewrite fmap_cons in Hc. apply not_elem_of_cons in Hc as [Hne Hc].
  rewrite bind_cons, sentTo_app, IH, app_nil_r by done.
  unfold sentTo. pose proof (Hown w) as Hw.
  induction (k w) as [|ce l IHl]; [done|]. rewrite filter_cons.
  rewrite decide_False by (rewrite (Hw ce) by left; done). apply IHl.
  intros ce' Hce'. apply Hw. by right.
Qed.

Lemma sendsAll_events kind (cr up : gmap string T) w :
  (sendsAll kind cr up w).*2 =
    filter (λ ev, accepts w (EventType ev) = true)
      (eventsOf kind EventTypeCreate cr ++ eventsOf kind EventTypeUpdate up).
Proof.
  unfold sendsAll. rewrite filter_app, !filter_accepts_eventsOf, fmap_app.
  by rewrite <-!list_fmap_compose, !list_fmap_id.
Qed.

Lemma SetAll_exact kind values s h :
  wf s h →
  let l := SetAllLocked kind values s in
  ∃ h', SetAll kind values s h = Done (afterAll l, h', resultAll l) ∧
    ∀ kind' id w st, reg s kind' id w → chans h !! ch w = Some st →
      chanBuf (ch w) h' = delivered st (offered w kind' kind (SetAllEvents kind values s)).
Proof.
  intros Hwf l. destruct (SetAllLocked_shape kind values s) as [Hk _].
  pose proof (SetAllLocked_sends kind values s) as Hw.
  fold l in Hk, Hw. unfold SetAll, SetAllEvents. fold l.
  assert (wf (afterAll l) h) as Hwf' by (by eapply mem_wf_keeps).
  assert (forM (sendAllTo kind (created l) (updated l)) (wchsAll l) h =
          forM send1 (wchsAll l ≫= sendsAll kind (created l) (updated l)) h) as ->.
  { rewrite <-forM_bind. apply forM_ext. intros w h0 _. apply sendAllTo_sends. }
  assert (∀ w ce, ce ∈ sendsAll kind (created l) (updated l) w → ce.1 = ch w) as Hown.
  { intros w ce. unfold sendsAll. rewrite elem_of_app, !list_elem_of_fmap.
    intros [(ev & -> & _)|(ev & -> & _)]; done. }
  destruct (sends_exact (wchsAll l ≫= sendsAll kind (created l) (updated l)) h)
    as (h' & Hrun & Hg & Hbuf).
  { intros ce (w & Hce & Hin)%list_elem_of_bind. rewrite (Hown w ce Hce).
    destruct Hw as [Hw|[Hw _]]; rewrite Hw in Hin.
    - apply elem_of_snapshot in Hin as (id & Hreg). by eapply wf_open.
    - by apply elem_of_nil in Hin. }
  exists h'. rewrite Hrun. split; [done|].
  intros kind' id w st Hreg Hst. rewrite (Hbuf _ _ Hst). f_equal.
  apply Hk in Hreg. unfold offered.
  destruct Hw as [Hw|(Hw & Hcr & Hup)].
  - destruct (decide (kind' = kind)) as [->|Hne].
    + rewrite sentTo_own; [apply sendsAll_events|done| |].
      * rewrite Hw. by eapply snapshot_NoDup.
      * rewrite Hw. apply elem_of_snapshot. eauto.
    + apply sentTo_bind_none; [done|].
      rewrite Hw. intros (w' & Hch & Hi)%list_elem_of_fmap.
      apply elem_of_snapshot in Hi as (id' & Hreg').
      by destruct (wf_inj _ _ Hwf' kind' id w kind id' w' Hreg Hreg' Hch).
  - rewrite Hw, Hcr, Hup. unfold eventsOf. rewrite map_to_list_empty. simpl.
    rewrite filter_nil. by case_decide.
Qed.

(** X1.  In the in-memory engine a write to [kind] reaches exactly the
    watchers of [kind]: after [Set], [SetFn], [Delete] or [SetAll] on a
    well-formed store, the queue of every registered watcher holds what it
    held before, followed by as many of the call's events of the watcher's
    own kind and of the types its filter accepts as the queue still had
    room for; the rest is dropped.  A watcher of another kind, a watcher
    whose filter lacks the type and a watcher whose queue is full receive
    nothing, and the call returns all the same.  [SetAll] offers the
    creates, then the updates, each group in Go's map order. *)
Theorem gomap_writes_reach_their_watchers (kind key : string) (value : T)
    (fn : T → T * option error) (values : gmap string T) s h :
  wf s h →
  (∃ s' h' r, Set_ zero kind key value s h = Done (s', h', r) ∧
     ∀ kind' id w st, reg s kind' id w → chans h !! ch w = Some st →
       chanBuf (ch w) h' =
         delivered st (offered w kind' kind (events (SetLocked zero kind key value s)))) ∧
  (∃ s' h' r, SetFn kind key fn s h = Done (s', h', r) ∧
     ∀ kind' id w st, reg s kind' id w → chans h !! ch w = Some st →
       chanBuf (ch w) h' =
         delivered st (offered w kind' kind (events (SetFnLocked kind key fn s)))) ∧
  (∃ s' h' r, Delete zero kind key s h = Done (s', h', r) ∧
     ∀ kind' id w st, reg s kind' id w → chans h !! ch w = Some st →
       chanBuf (ch w) h' =
         delivered st (offered w kind' kind (events (DeleteLocked zero kind key s)))) ∧
  (∃ s' h' r crs ups, SetAll kind values s h = Done (s', h', r) ∧
     crs ≡ₚ eventsOf kind EventTypeCreate (created (SetAllLocked kind values s)) ∧
     ups ≡ₚ eventsOf kind EventTypeUpdate (updated (SetAllLocked kind values s)) ∧
     ∀ kind' id w st, reg s kind' id w → chans h !! ch w = Some st →
       chanBuf (ch w) h' = delivered st (offered w kind' kind (crs ++ ups))).
Proof.
  intros Hwf. split_and!.
  - destruct (SetLocked_shape zero kind key value s) as [Hk _].
    destruct (unlockAndSend_exact (SetLocked zero kind key value s) kind h)
      as (h' & Hrun & Hbuf);
      [by eapply mem_wf_keeps|apply SetLocked_sends|].
    eexists _, h', _. split; [apply Hrun|].
    intros kind' id w st Hreg. apply (Hbuf kind' id w st). by apply Hk.
  - destruct (SetFnLocked_shape kind key fn s) as [Hk _].
    destruct (unlockAndSend_exact (SetFnLocked kind key fn s) kind h)
      as (h' & Hrun & Hbuf);
      [by eapply mem_wf_keeps|apply SetFnLocked_sends|].
    eexists _, h', _. split; [apply Hrun|].
    intros kind' id w st Hreg. apply (Hbuf kind' id w st). by apply Hk.
  - destruct (DeleteLocked_shape zero kind key s) as [Hk _].
    destruct (unlockAndSend_exact (DeleteLocked zero kind key s) kind h)
      as (h' & Hrun & Hbuf);
      [by eapply mem_wf_keeps|apply DeleteLocked_sends|].
    eexists _, h', _. split; [apply Hrun|].
    intros kind' id w st Hreg. apply (Hbuf kind' id w st). by apply Hk.
  - destruct (SetAll_exact kind values s h Hwf) as (h' & Hrun & Hbuf).
    eexists _, h', _, _, _. split; [apply Hrun|]. split_and!; [done..|].
    apply Hbuf.
Qed.

End gomap_delivery_thm.

(** ** The durable engine: who is sent what *)

Section sqlite_delivery.
Context {T : Type} (zero : T).
Import sqlite sqlite_facts.
Implicit Types (s : sqLiteStore T) (h : heap T) (w : watcher).

Lemma publishAll_exact {R} kind (c : committed T R) h :
  wf (after c) h →
  ∃ h', publishAll kind c h = Done (after c, h', result c) ∧
    ∀ kind' w st, reg (after c) kind' w → chans h !! ch w = Some st →
      chanBuf (ch w) h' = delivered st (offered w kind' kind (events c)).
Proof.
  intros Hwf. unfold publishAll.
  assert (forM (publish kind (after c)) (events c) h =
          forM (fanout (subscribers kind (after c))) (events c) h) as -> by done.
  destruct (fanoutAll_exact (subscribers kind (after c)) (events c) h)
    as (h' & Hrun & _ & Hin & Hout).
  { intros w Hi%elem_of_subscribers. by eapply wf_open. }
  { by eapply subscribers_NoDup. }
  exists h'. rewrite Hrun. split; [done|].
  intros kind' w st Hreg Hst. unfold offered.
  destruct (decide (kind' = kind)) as [->|Hne].
  - apply Hin; [|done]. by apply elem_of_subscribers.
  - rewrite delivered_nil. apply Hout; [|done].
    intros (w' & Hch & Hi)%list_elem_of_fmap. apply elem_of_subscribers in Hi.
    by destruct (wf_inj _ _ Hwf kind' w kind w' Hreg Hi Hch).
Qed.

Lemma reg_keeps s s' kind w : keeps s s' → reg s kind w → reg s' kind w.
Proof. intros (Hs & _) (ws & Hws & Hin). exists ws. by rewrite Hs. Qed.

(** X2.  In the durable engine the events published after a commit reach
    exactly the subscribers of the kind written: after [Set], [SetFn],
    [Delete] or [SetAll] on a well-formed store, the queue of every
    subscriber holds what it held before, followed by as many of the call's
    events of the subscriber's own kind and of the types its filter accepts
    as the queue still had room for; the rest is dropped, and the call
    returns all the same.  A [SetAll] that commits publishes the creates,
    then the updates, each group in Go's map order. *)
Theorem sqlite_writes_reach_their_subscribers (kind key : string) (value : T)
    (fn : T → T * option error) (values : gmap string T)
    (now : string) (nows : string → string) s h :
  wf s h →
  (∃ s' h' r, Set_ kind key value now s h = Done (s', h', r) ∧
     ∀ kind' w st, reg s kind' w → chans h !! ch w = Some st →
       chanBuf (ch w) h' =
         delivered st (offered w kind' kind (events (SetTx kind key value now s)))) ∧
  (∃ s' h' r, SetFn kind key fn now s h = Done (s', h', r) ∧
     ∀ kind' w st, reg s kind' w → chans h !! ch w = Some st →
       chanBuf (ch w) h' =
         delivered st (offered w kind' kind (events (SetFnTx kind key fn now s)))) ∧
  (∃ s' h' r, Delete zero kind key s h = Done (s', h', r) ∧
     ∀ kind' w st, reg s kind' w → chans h !! ch w = Some st →
       chanBuf (ch w) h' =
         delivered st (offered w kind' kind (events (DeleteTx zero kind key s)))) ∧
  (∃ s' h' r crs ups, SetAll kind values nows s h = Done (s', h', r) ∧
     crs ≡ₚ eventsOf kind EventTypeCreate
              (absentIn (kindRows kind (rows (db s))) values) ∧
     ups ≡ₚ eventsOf kind EventTypeUpdate
              (presentIn (kindRows kind (rows (db s))) values) ∧
     ∀ kind' w st, reg s kind' w → chans h !! ch w = Some st →
       chanBuf (ch w) h' =
         delivered st (offered w kind' kind
                         (match r with None => crs ++ ups | Some _ => [] end))).
Proof.
  intros Hwf. split_and!.
  - pose proof (SetTx_keeps kind key value now s) as Hk.
    destruct (publishAll_exact kind (SetTx kind key value now s) h)
      as (h' & Hrun & Hbuf); [by eapply sq_wf_keeps|].
    eexists _, h', _. split; [apply Hrun|].
    intros kind' w st Hreg. apply Hbuf. by eapply reg_keeps.
  - pose proof (SetFnTx_keeps kind key fn now s) as Hk.
    destruct (publishAll_exact kind (SetFnTx kind key fn now s) h)
      as (h' & Hrun & Hbuf); [by eapply sq_wf_keeps|].
    eexists _, h', _. split; [apply Hrun|].
    intros kind' w st Hreg. apply Hbuf. by eapply reg_keeps.
  - pose proof (DeleteTx_keeps zero kind key s) as Hk.
    destruct (publishAll_exact kind (DeleteTx zero kind key s) h)
      as (h' & Hrun & Hbuf); [by eapply sq_wf_keeps|].
    eexists _, h', _. split; [apply Hrun|].
    intros kind' w st Hreg. apply Hbuf. by eapply reg_keeps.
  - pose proof (SetAllTx_keeps kind values nows s) as Hk.
    destruct (publishAll_exact kind (SetAllTx kind values nows s) h)
      as (h' & Hrun & Hbuf); [by eapply sq_wf_keeps|].
    eexists _, h', _, _, _. split; [apply Hrun|]. split_and!; [done..|].
    intros kind' w st Hreg Hst. rewrite (Hbuf kind' w st) by eauto using reg_keeps.
    do 2 f_equal. destruct (closed s) eqn:Hc.
    + unfold SetAllTx. by rewrite Hc.
    + pose proof (SetAllTx_spec kind values nows s Hc) as Hspec. simpl in Hspec.
      destruct (result (SetAllTx kind values nows s)); by destruct Hspec as [? ?].
Qed.

End sqlite_delivery.

(** ** The in-memory engine: what the readers return *)

Section gomap_data.
Context {T : Type} (zero : T).
Import gomap gomap_facts.
Implicit Types (s : memStore T) (h : heap T) (w : watcher).

Lemma kindMap_removed_ne kind kind' key s :
  kind' ≠ kind → kindMap kind' (removed kind key s) = kindMap kind' s.
Proof.
  intros Hne. unfold removed, kindMap at 1. simpl.
  rewrite lookup_insert_ne by done. apply (kindMap_ensureKind kind kind' s).
Qed.

Lemma Get_stored kind key value kind' key' s :
  Get zero kind' key' (stored kind key value s) =
    if decide (kind' = kind ∧ key' = key)
    then (if closed s then (zero, false, Some ErrClosed) else (value, true, None))
    else Get zero kind' key' s.
Proof.
  unfold Get. change (closed (stored kind key value s)) with (closed s).
  destruct (closed s); [by case_decide|].
  destruct (decide (kind' = kind)) as [->|Hk].
  - rewrite kindMap_stored. destruct (decide (key' = key)) as [->|Hne].
    + rewrite decide_True by done. by rewrite lookup_insert_eq.
    + rewrite decide_False by (by intros [_ ?]). by rewrite lookup_insert_ne.
  - rewrite decide_False by (by intros [? _]). by rewrite kindMap_stored_ne.
Qed.

Lemma Get_removed kind key kind' key' s :
  Get zero kind' key' (removed kind key s) =
    if decide (kind' = kind ∧ key' = key)
    then (if closed s then (zero, false, Some ErrClosed) else (zero, false, None))
    else Get zero kind' key' s.
Proof.
  unfold Get. change (closed (removed kind key s)) with (closed s).
  destruct (closed s); [by case_decide|].
  destruct (decide (kind' = kind)) as [->|Hk].
  - rewrite kindMap_removed. destruct (decide (key' = key)) as [->|Hne].
    + rewrite decide_True by done. by rewrite lookup_delete_eq.
    + rewrite decide_False by (by intros [_ ?]). by rewrite lookup_delete_ne.
  - rewrite decide_False by (by intros [? _]). by rewrite kindMap_removed_ne.
Qed.

(** X3.  [Set] on an open in-memory store whose validator accepts the
    value always stores it: the following [Get] of that key returns the
    value, and every other key of every kind reads as before.  This holds
    also when the comparison function reports the value equal to the
    previous one: the call then returns [false] and sends nothing, but the
    stored value is the new one. *)
Theorem gomap_Set_then_Get (kind key : string) (value : T) s h :
  wf s h → closed s = false → validate kind value s = None →
  ∃ s' h' created,
    Set_ zero kind key value s h = Done (s', h', (created, None)) ∧
    Get zero kind key s' = (value, true, None) ∧
    (∀ kind' key', ¬ (kind' = kind ∧ key' = key) →
       Get zero kind' key' s' = Get zero kind' key' s) ∧
    (compareFn s (default zero (kindMap kind s !! key)) value = true →
       created = false ∧ h' = h) ∧
    (compareFn s (default zero (kindMap kind s !! key)) value = false →
       created = bool_decide (kindMap kind s !! key = None)).
Proof.
  intros Hwf Hc Hv.
  destruct (mem_Set_total zero kind key value s h Hwf) as (h' & Hrun & _).
  revert Hrun. unfold Set_, unlockAndSend.
  rewrite (SetLocked_open zero) by done. simpl.
  destruct (compareFn s _ value) eqn:Hcmp; simpl; intros Hrun.
  - exists (stored kind key value s), h, false. split_and!; try done.
    + rewrite Get_stored, decide_True by done. by rewrite Hc.
    + intros kind' key' Hne. by rewrite Get_stored, decide_False.
  - exists (stored kind key value s), h',
      (negb (bool_decide (is_Some (kindMap kind s !! key)))).
    split_and!; try done.
    + rewrite Get_stored, decide_True by done. by rewrite Hc.
    + intros kind' key' Hne. by rewrite Get_stored, decide_False.
    + intros _. destruct (kindMap kind s !! key) eqn:E.
      * rewrite bool_decide_true by eauto. by rewrite bool_decide_false.
      * rewrite bool_decide_false by (by intros [? ?]). by rewrite bool_decide_true.
Qed.

Lemma removed_registered kind key s :
  is_Some (kinds (removed kind key s) !! kind) ∧
  is_Some (watchers (removed kind key s) !! kind).
Proof.
  unfold removed. simpl. rewrite lookup_insert_eq. split; [done|].
  destruct (watchers s !! kind) eqn:E; [by rewrite E|by rewrite lookup_insert_eq].
Qed.

Lemma ensureKind_registered_both kind s :
  is_Some (kinds (ensureKind kind s) !! kind) ∧
  is_Some (watchers (ensureKind kind s) !! kind).
Proof.
  split; [apply ensureKind_registered|]. unfold ensureKind. simpl.
  destruct (watchers s !! kind) eqn:E; [by rewrite E|by rewrite lookup_insert_eq].
Qed.

(** X4.  [Delete] on an open in-memory store leaves the key absent,
    whether or not it was there: the following [Get] misses, every other
    key of every kind reads as before, and a second [Delete] of the key
    returns [false] with the zero value, sends nothing and changes
    nothing. *)
Theorem gomap_Delete_then_Get (kind key : string) s h :
  wf s h → closed s = false →
  ∃ s' h' r,
    Delete zero kind key s h = Done (s', h', r) ∧
    r = match kindMap kind s !! key with
        | Some prev => (true, prev, None)
        | None => (false, zero, None)
        end ∧
    Get zero kind key s' = (zero, false, None) ∧
    (∀ kind' key', ¬ (kind' = kind ∧ key' = key) →
       Get zero kind' key' s' = Get zero kind' key' s) ∧
    Delete zero kind key s' h' = Done (s', h', (false, zero, None)).
Proof.
  intros Hwf Hc.
  destruct (mem_Delete_total zero kind key s h Hwf) as (h' & Hrun & _).
  revert Hrun. rewrite (DeleteLocked_open zero) by done.
  destruct (kindMap kind s !! key) as [prev|] eqn:E; simpl; intros Hrun.
  - exists (removed kind key s), h', (true, prev, None). split_and!; try done.
    + rewrite Get_removed, decide_True by done. by rewrite Hc.
    + intros kind' key' Hne. by rewrite Get_removed, decide_False.
    + unfold Delete, unlockAndSend. rewrite (DeleteLocked_open zero) by done.
      rewrite kindMap_removed, lookup_delete_eq. simpl.
      destruct (removed_registered kind key s).
      by rewrite ensureKind_idem.
  - exists (ensureKind kind s), h', (false, zero, None).
    assert (h' = h) as ->.
    { unfold Delete, unlockAndSend in Hrun.
      rewrite (DeleteLocked_open zero), E in Hrun by done. simpl in Hrun.
      congruence. }
    split_and!; try done.
    + rewrite Get_ensureKind. unfold Get. by rewrite Hc, E.
    + intros kind' key' _. apply Get_ensureKind.
    + unfold Delete, unlockAndSend. rewrite (DeleteLocked_open zero) by done.
      rewrite kindMap_ensureKind, E. simpl.
      destruct (ensureKind_registered_both kind s).
      by rewrite ensureKind_idem.
Qed.

(** X5.  The readers of the in-memory engine are views of one map.  On an
    open store, for every kind: [List] returns exactly the entries that
    pass every non-nil filter (all entries when there is none); [Keys]
    holds every key once, [Values] every entry once, and [Count] is the
    number of both; [Get] finds a key exactly when [Keys] lists it, with
    the value [Values] and [GetAll] give for it.  A kind never written
    reads as empty, without error. *)
Theorem gomap_readers_agree (kind : string)
    (filters : list (option (string → T → bool))) s :
  closed s = false →
  ∃ m keys values all,
    List kind filters s = (Some m, None) ∧
    Keys kind s = (Some keys, None) ∧
    Values kind s = (Some values, None) ∧
    Count kind s = (Z.of_nat (length keys), None) ∧
    GetAll s = (Some all, None) ∧
    length values = length keys ∧ NoDup keys ∧ NoDup (Key T <$> values) ∧
    (∀ k v, Get zero kind k s = (v, true, None) ↔
            mkKeyValue k v ∈ values) ∧
    (∀ k, k ∈ keys ↔ ∃ v, mkKeyValue k v ∈ values) ∧
    (∀ k v, m !! k = Some v ↔
            mkKeyValue k v ∈ values ∧ ∀ f, Some f ∈ filters → f k v = true) ∧
    (∀ k v, mkKeyValue k v ∈ values ↔ all !! kind ≫= (.!! k) = Some v) ∧
    (kinds s !! kind = None → keys = [] ∧ values = [] ∧ m = ∅).
Proof.
  intros Hc. unfold List, Keys, Values, Count, GetAll, Get. rewrite Hc.
  exists (filter (λ kv, passes filters kv.1 kv.2 = true) (kindMap kind s)),
    ((map_to_list (kindMap kind s)).*1),
    ((λ kv, mkKeyValue kv.1 kv.2) <$> map_to_list (kindMap kind s)),
    (cloneMap <$> kinds s).
  split_and!; try done.
  - by rewrite length_fmap, length_map_to_list.
  - by rewrite !length_fmap.
  - apply NoDup_fst_map_to_list.
  - rewrite <-list_fmap_compose. apply NoDup_fst_map_to_list.
  - intros k v. rewrite list_elem_of_fmap. split.
    + destruct (kindMap kind s !! k) as [v'|] eqn:E; [|done].
      intros [= ->]. exists (k, v). split; [done|]. by apply elem_of_map_to_list.
    + intros ([k' v'] & [= -> ->] & Hin%elem_of_map_to_list). simpl in Hin.
      by rewrite Hin.
  - intros k. rewrite list_elem_of_fmap. split.
    + intros ([k' v] & -> & Hin). exists v. apply list_elem_of_fmap.
      by exists (k', v).
    + intros (v & ([k' v'] & [= -> ->] & Hin)%list_elem_of_fmap).
      by exists (k', v').
  - intros k v. rewrite map_lookup_filter_Some. simpl.
    rewrite list_elem_of_fmap. unfold passes. rewrite forallb_forall.
    split.
    + intros [Hkv Hf]. split.
      * exists (k, v). split; [done|]. by apply elem_of_map_to_list.
      * intros f Hin. apply (Hf (Some f)). by apply list_elem_of_In.
    + intros [([k' v'] & [= -> ->] & Hin%elem_of_map_to_list) Hf].
      split; [done|]. intros [f|] Hf'%list_elem_of_In; [by apply Hf|done].
  - intros k v. rewrite list_elem_of_fmap. rewrite lookup_fmap.
    unfold kindMap, cloneMap. split.
    + intros ([k' v'] & [= -> ->] & Hin%elem_of_map_to_list). simpl in Hin.
      destruct (kinds s !! kind) as [km|]; simpl in *; [done|].
      by rewrite lookup_empty in Hin.
    + intros Hin. exists (k, v). split; [done|]. apply elem_of_map_to_list.
      destruct (kinds s !! kind) as [km|]; simpl in *; done.
  - intros Hk. unfold kindMap. rewrite Hk. simpl.
    rewrite map_to_list_empty. split_and!; try done.
Qed.

(** X6.  [SetFn] of the in-memory engine neither validates nor compares.
    On an existing key whose transform succeeds it stores the transform's
    output, returns [false] with no error and emits one update event,
    whatever the kind's validation function says about the new value and
    whether or not the value changed; [Set] of a value the validator
    rejects fails, so a value [Set] refuses can be stored through
    [SetFn].  When the transform fails, its error is returned, no entry
    changes and nothing is sent. *)
Theorem gomap_SetFn_neither_validates_nor_compares (kind key : string)
    (fn : T → T * option error) (prev : T) s h :
  wf s h → closed s = false → kindMap kind s !! key = Some prev →
  (∀ nv, fn prev = (nv, None) →
     events (SetFnLocked kind key fn s) = [mkEvent kind key EventTypeUpdate nv] ∧
     (∃ s' h', SetFn kind key fn s h = Done (s', h', (false, None)) ∧
        Get zero kind key s' = (nv, true, None)) ∧
     (∀ err, validate kind nv s = Some err →
        Set_ zero kind key nv s h = Done (ensureKind kind s, h, (false, Some err)))) ∧
  (∀ nv err, fn prev = (nv, Some err) →
     SetFn kind key fn s h = Done (ensureKind kind s, h, (false, Some err)) ∧
     ∀ kind' key', Get zero kind' key' (ensureKind kind s) = Get zero kind' key' s).
Proof.
  intros Hwf Hc Hk. split.
  - intros nv Hfn. split_and!.
    + rewrite SetFnLocked_open by done. by rewrite Hk, Hfn.
    + destruct (mem_SetFn_total kind key fn s h Hwf) as (h' & Hrun & _).
      revert Hrun. rewrite SetFnLocked_open by done. rewrite Hk, Hfn. simpl.
      intros Hrun. eexists _, h'. split; [apply Hrun|].
      rewrite Get_stored, decide_True by done. by rewrite Hc.
    + intros err Hv. unfold Set_, unlockAndSend, SetLocked. rewrite Hc.
      unfold validate in *.
      change (validationFns (ensureKind kind s)) with (validationFns s).
      by rewrite Hv.
  - intros nv err Hfn. split.
    + unfold SetFn, unlockAndSend. rewrite SetFnLocked_open by done.
      by rewrite Hk, Hfn.
    + intros kind' key'. apply Get_ensureKind.
Qed.

End gomap_data.

(** ** The durable engine: what the readers return *)

Section sqlite_data.
Context {T : Type} (zero : T).
Import sqlite sqlite_facts.
Implicit Types (s : sqLiteStore T) (h : heap T) (w : watcher).

Lemma Get_rows kind key s s' :
  closed s' = closed s → codec s' = codec s →
  rows (db s') !! (kind, key) = rows (db s) !! (kind, key) →
  Get zero kind key s' = Get zero kind key s.
Proof. intros Hc Hco Hr. unfold Get, getQuery. by rewrite Hc, Hco, Hr. Qed.

(** X7.  [Set] followed by [Get] in the durable engine goes through the
    codec: on an open store, when the value marshals to [enc] and [enc]
    unmarshals to [v'], [Set] returns without error, reporting a creation
    exactly when the row was absent, and the following [Get] of that key
    returns [v'].  No other row is touched, so every other key reads as
    before. *)
Theorem sqlite_Set_then_Get (kind key : string) (v v' : T) (enc now : string) s h :
  wf s h → closed s = false →
  Marshal (codec s) v = (enc, None) → Unmarshal (codec s) enc = (v', None) →
  ∃ s' h',
    Set_ kind key v now s h
      = Done (s', h', (bool_decide (rows (db s) !! (kind, key) = None), None)) ∧
    Get zero kind key s' = (v', true, None) ∧
    (∀ kind' key', ¬ (kind' = kind ∧ key' = key) →
       rows (db s') !! (kind', key') = rows (db s) !! (kind', key') ∧
       Get zero kind' key' s' = Get zero kind' key' s).
Proof.
  intros Hwf Hc Hm Hu.
  destruct (sq_Set_total kind key v now s h Hwf) as (h' & Hrun & _).
  revert Hrun. rewrite (SetTx_open _ _ _ enc) by done.
  assert (∀ kind' key' r, ¬ (kind' = kind ∧ key' = key) →
    <[(kind, key) := r]> (rows (db s)) !! (kind', key') = rows (db s) !! (kind', key'))
    as Hother.
  { intros kind' key' r Hne. apply lookup_insert_ne. intros [= -> ->]. by apply Hne. }
  destruct (rows (db s) !! (kind, key)) as [r|] eqn:E.
  - rewrite bool_decide_false by done. destruct (decide (value r = enc)) as [Heq|Hne].
    + simpl. intros Hrun. exists s, h'. split_and!; try done.
      unfold Get, getQuery. rewrite Hc, E. simpl. by rewrite Heq, Hu.
    + simpl. intros Hrun. eexists _, h'. split; [apply Hrun|]. split.
      * unfold Get, getQuery. simpl. rewrite Hc, lookup_insert_eq. simpl. by rewrite Hu.
      * intros kind' key' Hn. split; [by apply Hother|].
        apply Get_rows; try done. simpl. by apply Hother.
  - rewrite bool_decide_true by done. simpl. intros Hrun.
    eexists _, h'. split; [apply Hrun|]. split.
    + unfold Get, getQuery. simpl. rewrite Hc, lookup_insert_eq. simpl. by rewrite Hu.
    + intros kind' key' Hn. split; [by apply Hother|].
      apply Get_rows; try done. simpl. by apply Hother.
Qed.

(** X8.  The version of a key does not survive its deletion.  In the
    durable engine, [Delete] of an existing key followed by [Set] of the
    same key inserts a new row at version 1, reports a creation and
    publishes a create event, whatever the version of the deleted row was
    and even when the bytes written are the bytes that were deleted. *)
Theorem sqlite_Set_after_Delete_starts_at_version_1 (kind key : string)
    (v prev : T) (enc now : string) (r : row) s h :
  wf s h → closed s = false →
  rows (db s) !! (kind, key) = Some r →
  Unmarshal (codec s) (value r) = (prev, None) →
  Marshal (codec s) v = (enc, None) →
  ∃ s1 h1 s2 h2,
    Delete zero kind key s h = Done (s1, h1, (true, prev, None)) ∧
    Get zero kind key s1 = (zero, false, None) ∧
    Set_ kind key v now s1 h1 = Done (s2, h2, (true, None)) ∧
    events (SetTx kind key v now s1) = [mkEvent kind key EventTypeCreate v] ∧
    rows (db s2) !! (kind, key) = Some (mkRow enc 1 now).
Proof.
  intros Hwf Hc Hr Hu Hm.
  destruct (sq_Delete_total zero kind key s h Hwf) as (h1 & Hrun1 & _ & Hwf1).
  revert Hrun1 Hwf1. rewrite DeleteTx_open by done. rewrite Hr, Hu. simpl.
  set (s1 := setRows (delete (kind, key) (rows (db s))) s). intros Hrun1 Hwf1.
  assert (rows (db s1) !! (kind, key) = None) as Hgone
    by (simpl; apply lookup_delete_eq).
  destruct (sq_Set_total kind key v now s1 h1 Hwf1) as (h2 & Hrun2 & _).
  revert Hrun2. rewrite (SetTx_open _ _ _ enc) by done. rewrite Hgone. simpl.
  intros Hrun2. eexists s1, h1, _, h2. split_and!; try done.
  - unfold Get, getQuery. change (closed s1) with (closed s). by rewrite Hc, Hgone.
  - rewrite (SetTx_open _ _ _ enc) by done. by rewrite Hgone.
  - simpl. by rewrite lookup_insert_eq.
Qed.

(** *** Decoding the rows of a query *)

Definition decoded {K} (c : Codec T) (kr : K * row) : K * T :=
  (kr.1, (Unmarshal c (value kr.2)).1).

Lemma decodeRows_ok {K} (c : Codec T) (l : list (K * row)) :
  (∀ kr, kr ∈ l → (Unmarshal c (value kr.2)).2 = None) →
  decodeRows c l = (decoded c <$> l, None).
Proof.
  induction l as [|[k r] l IH]; intros Hok; [done|]. simpl.
  pose proof (Hok (k, r) ltac:(left)) as Hr. simpl in Hr.
  destruct (Unmarshal c (value r)) as [v [err|]] eqn:E; [done|].
  rewrite IH by (intros kr Hin; apply Hok; by right).
  unfold decoded at 2. simpl. by rewrite E.
Qed.

Lemma decodeRows_err {K} (c : Codec T) (l : list (K * row)) kr :
  kr ∈ l → (Unmarshal c (value kr.2)).2 ≠ None →
  ∃ err, decodeRows c l = ([], Some err).
Proof.
  induction l as [|[k r] l IH]; intros Hin Herr.
  { by apply elem_of_nil in Hin. }
  simpl. destruct (Unmarshal c (value r)) as [v [err|]] eqn:E; [by eexists|].
  apply elem_of_cons in Hin as [->|Hin].
  - simpl in Herr. by rewrite E in Herr.
  - destruct (IH Hin Herr) as (err & ->). by eexists.
Qed.

Lemma elem_of_decoded_kindRows (c : Codec T) (kind : string)
    (t : gmap (string * string) row) (k : string) (v : T) :
  (k, v) ∈ decoded c <$> map_to_list (kindRows kind t) ↔
    ∃ r, t !! (kind, k) = Some r ∧ (Unmarshal c (value r)).1 = v.
Proof.
  rewrite list_elem_of_fmap. split.
  - intros ([k' r] & [= -> ->] & Hin%elem_of_map_to_list).
    rewrite kindRows_lookup in Hin. eauto.
  - intros (r & Hr & <-). exists (k, r). split; [done|].
    apply elem_of_map_to_list. by rewrite kindRows_lookup.
Qed.

Lemma decoded_fst {K} (c : Codec T) (l : list (K * row)) : (decoded c <$> l).*1 = l.*1.
Proof. by rewrite <-list_fmap_compose. Qed.

(** [List] with no filter when every row of the kind decodes. *)
Lemma List_all_decoded (kind : string) s :
  closed s = false →
  (∀ k r, rows (db s) !! (kind, k) = Some r → (Unmarshal (codec s) (value r)).2 = None) →
  ∃ m, List kind [] s = (Some m, None) ∧
    ∀ k v, m !! k = Some v ↔
      ∃ r, rows (db s) !! (kind, k) = Some r ∧ Unmarshal (codec s) (value r) = (v, None).
Proof.
  intros Hc Hok. unfold List. rewrite Hc, decodeRows_ok.
  2:{ intros [k r] Hin%elem_of_map_to_list. rewrite kindRows_lookup in Hin.
      by apply (Hok k r). }
  eexists. split; [done|]. intros k v.
  rewrite <-elem_of_list_to_map.
  2:{ eapply sublist_NoDup; [|apply fmap_sublist, sublist_filter].
      rewrite decoded_fst. apply NoDup_fst_map_to_list. }
  rewrite list_elem_of_filter, elem_of_decoded_kindRows. split.
  - intros [_ (r & Hr & Hv)]. exists r. split; [done|]. specialize (Hok _ _ Hr).
    destruct (Unmarshal (codec s) (value r)) as [? [?|]]; simpl in *; congruence.
  - intros (r & Hr & Hu). split; [done|]. exists r. by rewrite Hu.
Qed.

(** X9.  The readers of the durable engine on one kind.  On an open
    store [Keys] lists every key of the kind once and [Count] is their
    number; neither decodes a value.  When every row of the kind decodes,
    [Values] holds one entry per key with the decoded value, [Get] returns
    that value for the key, and [List] returns exactly the entries that
    pass every non-nil filter.  When some row of the kind does not decode,
    [List] and [Values] fail as a whole with a codec error, while [Keys]
    and [Count] still answer. *)
Theorem sqlite_readers_agree (kind : string)
    (filters : list (option (string → T → bool))) s :
  closed s = false →
  let t := rows (db s) in
  ∃ keys,
    Keys kind s = (Some keys, None) ∧
    Count kind s = (Z.of_nat (length keys), None) ∧
    NoDup keys ∧ (∀ k, k ∈ keys ↔ is_Some (t !! (kind, k))) ∧
    ((∀ k r, t !! (kind, k) = Some r → (Unmarshal (codec s) (value r)).2 = None) →
     ∃ m values,
       List kind filters s = (Some m, None) ∧
       Values kind s = (Some values, None) ∧
       length values = length keys ∧
       (∀ k v, mkKeyValue k v ∈ values ↔
               ∃ r, t !! (kind, k) = Some r ∧ Unmarshal (codec s) (value r) = (v, None)) ∧
       (∀ k v, mkKeyValue k v ∈ values ↔ Get zero kind k s = (v, true, None)) ∧
       (∀ k v, m !! k = Some v ↔
               mkKeyValue k v ∈ values ∧ ∀ f, Some f ∈ filters → f k v = true)) ∧
    (∀ k r, t !! (kind, k) = Some r → (Unmarshal (codec s) (value r)).2 ≠ None →
       (∃ err, List kind filters s = (None, Some err)) ∧
       (∃ err, Values kind s = (None, Some err))).
Proof.
  intros Hc t. unfold Keys, Count, List, Values. rewrite Hc.
  exists ((map_to_list (kindRows kind t)).*1). split_and!; try done.
  - by rewrite length_fmap, length_map_to_list.
  - apply NoDup_fst_map_to_list.
  - intros k. rewrite list_elem_of_fmap. split.
    + intros ([k' r] & -> & Hin%elem_of_map_to_list).
      rewrite kindRows_lookup in Hin. eauto.
    + intros [r Hr]. exists (k, r). split; [done|].
      apply elem_of_map_to_list. by rewrite kindRows_lookup.
  - intros Hok. fold t.
    rewrite decodeRows_ok.
    2:{ intros [k r] Hin%elem_of_map_to_list. rewrite kindRows_lookup in Hin.
        by apply (Hok k r). }
    assert (∀ k v, mkKeyValue k v ∈
              (λ kv, mkKeyValue kv.1 kv.2) <$>
                (decoded (codec s) <$> map_to_list (kindRows kind t)) ↔
            ∃ r, t !! (kind, k) = Some r ∧ Unmarshal (codec s) (value r) = (v, None))
      as Hvals.
    { intros k v. rewrite list_elem_of_fmap. split.
      - intros ([k' v'] & [= -> ->] & Hin). simpl in Hin.
        apply elem_of_decoded_kindRows in Hin as (r & Hr & <-).
        exists r. split; [done|]. specialize (Hok _ _ Hr).
        by destruct (Unmarshal (codec s) (value r)) as [? [?|]].
      - intros (r & Hr & Hu). exists (k, v). split; [done|].
        apply elem_of_decoded_kindRows. exists r. by rewrite Hu. }
    eexists _, _. split_and!; try done.
    + by rewrite !length_fmap.
    + intros k v. rewrite Hvals. unfold Get, getQuery. rewrite Hc. fold t. split.
      * intros (r & -> & Hu). simpl. by rewrite Hu.
      * destruct (t !! (kind, k)) as [r|] eqn:E; simpl; [|done].
        destruct (Unmarshal (codec s) (value r)) as [v0 [err|]] eqn:Eu; [done|].
        intros [= ->]. eauto.
    + intros k v. rewrite Hvals.
      rewrite <-elem_of_list_to_map.
      2:{ eapply sublist_NoDup; [|apply fmap_sublist, sublist_filter].
          rewrite decoded_fst. apply NoDup_fst_map_to_list. }
      rewrite list_elem_of_filter. simpl. unfold passes. rewrite forallb_forall.
      rewrite elem_of_decoded_kindRows. split.
      * intros [Hf (r & Hr & Hv)]. split.
        -- exists r. split; [done|]. specialize (Hok _ _ Hr).
           destruct (Unmarshal (codec s) (value r)) as [? [?|]]; simpl in *; congruence.
        -- intros f Hin. apply (Hf (Some f)). by apply list_elem_of_In.
      * intros [(r & Hr & Hu) Hf]. split.
        -- intros [f|] Hin%list_elem_of_In; [by apply Hf|done].
        -- exists r. by rewrite Hu.
  - intros k r Hr Herr. fold t.
    destruct (decodeRows_err (codec s) (map_to_list (kindRows kind t)) (k, r))
      as (err & ->); [|done|by eauto].
    apply elem_of_map_to_list. by rewrite kindRows_lookup.
Qed.

(** *** GetAll *)

(** The loop of [GetAll] over the decoded rows:
    [if _, ok := out[kind]; !ok { out[kind] = make(map[string]T) };
     out[kind][key] = v]. *)
Definition nest (out : list (string * string * T)) : gmap string (gmap string T) :=
  foldl (λ acc kkv, <[kkv.1.1 := <[kkv.1.2 := kkv.2]> (default ∅ (acc !! kkv.1.1))]> acc)
    ∅ out.

Lemma nest_spec (out : list (string * string * T)) :
  NoDup out.*1 →
  (∀ kind key v, nest out !! kind ≫= (.!! key) = Some v ↔ (kind, key, v) ∈ out) ∧
  (∀ kind km, nest out !! kind = Some km → km ≠ ∅).
Proof.
  induction out as [|[[kd ky] vx] out IH] using rev_ind; intros Hnd.
  { split.
    - intros kind key v. unfold nest. simpl. rewrite lookup_empty. simpl.
      split; [done|]. by intros ?%elem_of_nil.
    - intros kind km. unfold nest. simpl. by rewrite lookup_empty. }
  rewrite fmap_app in Hnd. apply NoDup_app in Hnd as (Hnd & Hnew & _).
  destruct (IH Hnd) as [IH1 IH2].
  assert (∀ v, (kd, ky, v) ∉ out) as Hfresh.
  { intros v Hin. apply (Hnew (kd, ky)).
    - apply list_elem_of_fmap. by exists (kd, ky, v).
    - simpl. left. }
  unfold nest in *. rewrite foldl_app. simpl.
  set (acc := foldl _ ∅ out) in *. split.
  - intros kind key v. rewrite elem_of_app, list_elem_of_singleton.
    destruct (decide (kind = kd)) as [->|Hk].
    + rewrite lookup_insert_eq. simpl.
      destruct (decide (key = ky)) as [->|Hy].
      * rewrite lookup_insert_eq. split.
        -- intros [= ->]. by right.
        -- intros [Hin|[= ->]]; [by apply Hfresh in Hin|done].
      * rewrite lookup_insert_ne by done. rewrite <-IH1.
        assert (default ∅ (acc !! kd) !! key = acc !! kd ≫= (.!! key)) as ->.
        { destruct (acc !! kd); simpl; [done|apply lookup_empty]. }
        split; [by left|]. intros [?|[= ? ?]]; [done|]. by subst.
    + rewrite lookup_insert_ne by done. rewrite IH1.
      split; [by left|]. intros [?|[= ? ?]]; [done|]. by subst.
  - intros kind km. destruct (decide (kind = kd)) as [->|Hk].
    + rewrite lookup_insert_eq. intros [= <-]. apply insert_non_empty.
    + rewrite lookup_insert_ne by done. apply IH2.
Qed.

(** X10.  [GetAll] of the durable engine is built from the rows, in the
    order of the primary key.  On an open store whose rows all decode it
    returns, for every kind and key, the value [Get] returns, and nothing
    else; a kind appears in the result only if it has a row, so no kind
    maps to an empty map.  One row that does not decode makes the whole
    call fail with a codec error. *)
Theorem sqlite_GetAll_lists_the_rows s :
  closed s = false →
  let t := rows (db s) in
  ((∀ kk r, t !! kk = Some r → (Unmarshal (codec s) (value r)).2 = None) →
   ∃ all, GetAll s = (Some all, None) ∧
     (∀ kind key v, all !! kind ≫= (.!! key) = Some v ↔
        ∃ r, t !! (kind, key) = Some r ∧ Unmarshal (codec s) (value r) = (v, None)) ∧
     (∀ kind key v, all !! kind ≫= (.!! key) = Some v ↔
        Get zero kind key s = (v, true, None)) ∧
     (∀ kind km, all !! kind = Some km → km ≠ ∅)) ∧
  (∀ kk r, t !! kk = Some r → (Unmarshal (codec s) (value r)).2 ≠ None →
     ∃ err, GetAll s = (None, Some err)).
Proof.
  intros Hc t. unfold GetAll. rewrite Hc. fold t.
  assert (∀ kr, kr ∈ orderedRows t ↔ t !! kr.1 = Some kr.2) as Hin.
  { intros [kk r]. unfold orderedRows. rewrite merge_sort_Permutation.
    apply elem_of_map_to_list. }
  split.
  - intros Hok. rewrite decodeRows_ok.
    2:{ intros [kk r] Hkr%Hin. by apply (Hok kk r). }
    fold (nest (decoded (codec s) <$> orderedRows t)).
    destruct (nest_spec (decoded (codec s) <$> orderedRows t)) as [H1 H2].
    { rewrite decoded_fst. unfold orderedRows. rewrite merge_sort_Permutation.
      apply NoDup_fst_map_to_list. }
    assert (∀ kind key v,
      nest (decoded (codec s) <$> orderedRows t) !! kind ≫= (.!! key) = Some v ↔
      ∃ r, t !! (kind, key) = Some r ∧ Unmarshal (codec s) (value r) = (v, None))
      as Hall.
    { intros kind key v. rewrite H1, list_elem_of_fmap. split.
      - intros ([kk r] & [= -> ->] & Hkr%Hin). simpl in *. exists r. split; [done|].
        specialize (Hok _ _ Hkr). by destruct (Unmarshal (codec s) (value r)) as [? [?|]].
      - intros (r & Hr & Hu). exists (kind, key, r). unfold decoded. simpl.
        rewrite Hu. split; [done|]. by apply Hin. }
    eexists. split_and!; try done.
    intros kind key v. rewrite Hall. unfold Get, getQuery. rewrite Hc. fold t. split.
    + intros (r & -> & Hu). simpl. by rewrite Hu.
    + destruct (t !! (kind, key)) as [r|] eqn:E; simpl; [|done].
      destruct (Unmarshal (codec s) (value r)) as [v0 [err|]] eqn:Eu; [done|].
      intros [= ->]. eauto.
  - intros kk r Hr Herr.
    destruct (decodeRows_err (codec s) (orderedRows t) (kk, r)) as (err & ->);
      [by apply Hin|done|by eauto].
Qed.

End sqlite_data.

(** ** Watch *)

Section watch_queue.
Context {T : Type} (zero : T).

Lemma fresh_chan_absent (h : heap T) : chans h !! fresh (dom (chans h)) = None.
Proof. apply not_elem_of_dom, is_fresh. Qed.

Lemma bufSizeOf_size (cfg : WatchCfg) :
  bufSizeOf cfg = if decide (0 < BufferSize cfg)%Z then BufferSize cfg else 128%Z.
Proof.
  unfold bufSizeOf, DefaultWatchBufferSize.
  destruct (decide (0 < BufferSize cfg)%Z), (decide (BufferSize cfg ≤ 0)%Z);
    try done; lia.
Qed.

Lemma bufSizeOf_pos (cfg : WatchCfg) : (0 < bufSizeOf cfg)%Z.
Proof. rewrite bufSizeOf_size. by case_decide. Qed.

(** With the kind and the closed flag passed, [Watch] stands or falls
    with [make]. *)
Lemma gomap_WatchRun_make (maxChan : Z) (kind : string) (opts : list WatchOption)
    (s : gomap.memStore T) (h : heap T) :
  kind ≠ "" → gomap.closed s = false →
  gomap.WatchRun maxChan kind opts s h =
    if decide (bufSizeOf (applyOpts opts) ≤ maxChan)%Z
    then Done (gomap.Watch kind opts s h)
    else Panic "makechan: size out of range".
Proof.
  intros Hk Hc. unfold gomap.WatchRun, makeChanRun.
  rewrite decide_False, Hc by done. simpl.
  pose proof (bufSizeOf_pos (applyOpts opts)) as Hpos. unfold bufSizeOf in *.
  destruct (decide (_ ≤ maxChan)%Z).
  - by rewrite decide_True by lia.
  - by rewrite decide_False by lia.
Qed.

Lemma sqlite_WatchRun_make (maxChan : Z) (kind : string) (opts : list WatchOption)
    (q : sqlite.sqLiteStore T) (h : heap T) :
  kind ≠ "" → sqlite.closed q = false →
  sqlite.WatchRun maxChan kind opts q h =
    if decide (bufSizeOf (applyOpts opts) ≤ maxChan)%Z
    then Done (sqlite.Watch kind opts q h)
    else Panic "makechan: size out of range".
Proof.
  intros Hk Hc. unfold sqlite.WatchRun, makeChanRun.
  rewrite decide_False, Hc by done. simpl.
  pose proof (bufSizeOf_pos (applyOpts opts)) as Hpos. unfold bufSizeOf in *.
  destruct (decide (_ ≤ maxChan)%Z).
  - by rewrite decide_True by lia.
  - by rewrite decide_False by lia.
Qed.

(** X11.  What [Watch] sets up, in both engines, and when it cannot.  The
    size of the channel is the [BufferSize] of the options when that is
    positive and 128 otherwise (zero and negative sizes get the default).
    On an open, well-formed store and for a non-empty kind: when the
    runtime grants a channel of that size, [Watch] returns a channel that
    did not exist before, open and empty, of that capacity; the watcher is
    registered under the kind with the event-type filter of the options;
    the channels and the watchers that were there are left as they were, no
    stored value changes, and the store is well formed again.  When the
    size is more than the runtime grants, [make] panics with "makechan:
    size out of range" and [Watch] does not return, in either engine. *)
Theorem Watch_makes_a_new_queue (maxChan : Z) (kind : string) (opts : list WatchOption)
    (s : gomap.memStore T) (h : heap T) (q : sqlite.sqLiteStore T) (hq : heap T) :
  gomap_facts.wf s h → sqlite_facts.wf q hq → kind ≠ "" →
  gomap.closed s = false → sqlite.closed q = false →
  (gomap.watcherID s + 1 < 2 ^ 64)%N →
  let cfg := applyOpts opts in
  let size := if decide (0 < BufferSize cfg)%Z then BufferSize cfg else 128%Z in
  ((size ≤ maxChan)%Z →
   (∃ s' h' g c cf id,
      gomap.WatchRun maxChan kind opts s h = Done (s', h', g, (Some c, Some cf, None)) ∧
      chans h !! c = None ∧ chans h' !! c = Some (mkChan [] (Z.to_nat size) false) ∧
      (∀ c', c' ≠ c → chans h' !! c' = chans h !! c') ∧
      gomap_facts.reg s' kind id (mkWatcher c (EventTypes cfg)) ∧
      (∀ w, ¬ gomap_facts.reg s kind id w) ∧
      (∀ kind' id' w, gomap_facts.reg s kind' id' w → gomap_facts.reg s' kind' id' w) ∧
      (∀ kind' key', gomap.Get zero kind' key' s' = gomap.Get zero kind' key' s) ∧
      gomap_facts.wf s' h') ∧
   (∃ q' hq' g c cf,
      sqlite.WatchRun maxChan kind opts q hq
        = Done (q', hq', g, (Some c, Some cf, None)) ∧
      chans hq !! c = None ∧ chans hq' !! c = Some (mkChan [] (Z.to_nat size) false) ∧
      (∀ c', c' ≠ c → chans hq' !! c' = chans hq !! c') ∧
      sqlite_facts.reg q' kind (mkWatcher c (EventTypes cfg)) ∧
      (∀ kind' w, sqlite_facts.reg q kind' w → sqlite_facts.reg q' kind' w) ∧
      sqlite.db q' = sqlite.db q ∧
      sqlite_facts.wf q' hq')) ∧
  ((maxChan < size)%Z →
   gomap.WatchRun maxChan kind opts s h = Panic "makechan: size out of range" ∧
   sqlite.WatchRun maxChan kind opts q hq = Panic "makechan: size out of range").
Proof.
  intros Hs Hq Hk Hcs Hcq Hid cfg size.
  assert (bufSizeOf cfg = size) as Hcap by apply bufSizeOf_size.
  rewrite gomap_WatchRun_make, sqlite_WatchRun_make by done. fold cfg. rewrite Hcap.
  split; [|intros Hbig; by rewrite !decide_False by lia].
  intros Hfits. rewrite !decide_True by done. split.
  - pose proof (gomap_facts.Watch_registers kind opts s h Hk Hcs) as Hw.
    pose proof (gomap_facts.mem_Watch_wf kind opts s h Hs Hid Hcs) as Hwf.
    pose proof (λ k i w, gomap_facts.mem_reg_watched kind opts s h k i w) as Hreg.
    unfold gomap_facts.watched in *. destruct Hw as (g & Hw).
    eexists _, _, g, _, _, (pretty (gomap_facts.nextID s)).
    split; [by rewrite Hw|]. simpl. split_and!; try done.
    + apply fresh_chan_absent.
    + rewrite lookup_insert_eq. fold cfg. by rewrite Hcap.
    + intros c' Hne. by rewrite lookup_insert_ne.
    + apply Hreg. by left.
    + intros w Hr. by eapply (gomap_facts.id_fresh s h kind).
    + intros kind' id' w Hr. apply Hreg. right. split; [|done].
      intros [-> ->]. by eapply (gomap_facts.id_fresh s h kind).
    + intros kind' key'.
      etransitivity; [|apply (gomap_facts.Get_ensureKind zero kind)]. reflexivity.
  - pose proof (sqlite_facts.Watch_subscribes kind opts q hq Hk Hcq) as Hw.
    pose proof (sqlite_facts.sq_Watch_wf kind opts q hq Hq Hcq) as Hwf.
    pose proof (λ k w, sqlite_facts.sq_reg_watched kind opts q hq k w) as Hreg.
    unfold sqlite_facts.watched in *. destruct Hw as (g & Hw).
    eexists _, _, g, _, _. split; [by rewrite Hw|]. simpl. split_and!; try done.
    + apply fresh_chan_absent.
    + rewrite lookup_insert_eq. fold cfg. by rewrite Hcap.
    + intros c' Hne. by rewrite lookup_insert_ne.
    + apply Hreg. by left.
    + intros kind' w Hr. apply Hreg. by right.
Qed.

End watch_queue.

(** ** cancel *)

Section cancel_one.
Context {T : Type}.

(** X12.  A [cancel] closure of the in-memory engine removes and closes
    its own watcher and nothing else.  Called while its watcher is
    registered, it returns without panic; the watcher is gone from the
    registry and every other watcher is still registered; the watcher's
    channel is closed with the events queued on it still in place, every
    other channel is untouched; the closure's [done] channel is closed;
    the stored kinds and values are the same. *)
Theorem gomap_cancel_closes_only_its_watcher (cs : list gomap.cancelFn)
    (c : gomap.cancelFn) (w : watcher) (st : chanState T)
    (s : gomap.memStore T) (h : heap T) :
  gomap_facts.wf s h → gomap_facts.issued cs s h → c ∈ cs →
  gomap_facts.reg s (gomap.ckind c) (gomap.cid c) w → chans h !! ch w = Some st →
  ∃ s' h', gomap.cancel c s h = Done (s', h') ∧
    (∀ k i w', gomap_facts.reg s' k i w' ↔
       gomap_facts.reg s k i w' ∧ ¬ (k = gomap.ckind c ∧ i = gomap.cid c)) ∧
    chans h' !! ch w = Some (mkChan (buf st) (cap st) true) ∧
    (∀ c', c' ≠ ch w → chans h' !! c' = chans h !! c') ∧
    dones h' !! gomap.cdone c = Some true ∧
    gomap.kinds s' = gomap.kinds s ∧ gomap.closed s' = gomap.closed s ∧
    gomap_facts.wf s' h'.
Proof.
  intros Hs Hiss Hc Hreg Hst.
  destruct (gomap_facts.cancel_live cs c s h w Hs Hiss Hc Hreg) as (Hrun & Hwf & _ & _).
  exists (gomap_facts.cancelled c s h).1, (gomap_facts.cancelled c s h).2.
  split; [by destruct (gomap_facts.cancelled c s h)|].
  split; [intros k i w'; apply gomap_facts.mem_reg_cancelled|].
  destruct Hreg as (m & Hm & Hw). unfold gomap_facts.cancelled. simpl.
  rewrite Hm. simpl. rewrite Hw. simpl. rewrite Hst. simpl.
  split_and!; try done.
  - by rewrite lookup_insert_eq.
  - intros c' Hne. by rewrite lookup_insert_ne.
  - by rewrite lookup_insert_eq.
  - revert Hwf. unfold gomap_facts.cancelled. simpl.
    rewrite Hm. simpl. rewrite Hw. simpl. by rewrite Hst.
Qed.

(** X13.  A [cancel] closure of the durable engine removes and closes its
    own subscription and nothing else.  Called while its watcher is
    subscribed, it returns without panic; the watcher is gone and every
    other subscription is still there; the kind is dropped from the
    registry exactly when this was its last watcher; the watcher's
    channel is closed with the events queued on it still in place, every
    other channel is untouched, and the database is not touched. *)
Theorem sqlite_cancel_closes_only_its_watcher (c : sqlite.cancelFn) (st : chanState T)
    (q : sqlite.sqLiteStore T) (h : heap T) :
  sqlite_facts.wf q h →
  sqlite_facts.reg q (sqlite.ckind c) (sqlite.cw c) →
  chans h !! ch (sqlite.cw c) = Some st →
  ∃ q' h', sqlite.cancel c q h = Done (q', h') ∧
    (∀ k w', sqlite_facts.reg q' k w' ↔
       sqlite_facts.reg q k w' ∧ ¬ (k = sqlite.ckind c ∧ w' = sqlite.cw c)) ∧
    (sqlite.subs q' !! sqlite.ckind c = None ↔
       ∀ w', sqlite_facts.reg q (sqlite.ckind c) w' → w' = sqlite.cw c) ∧
    chans h' !! ch (sqlite.cw c) = Some (mkChan (buf st) (cap st) true) ∧
    (∀ c', c' ≠ ch (sqlite.cw c) → chans h' !! c' = chans h !! c') ∧
    sqlite.db q' = sqlite.db q ∧ sqlite.closed q' = sqlite.closed q ∧
    sqlite_facts.wf q' h'.
Proof.
  intros Hq Hreg Hst.
  pose proof (sqlite_facts.sq_cancel_registered c q h Hreg
                (sqlite_facts.wf_open _ _ Hq _ _ Hreg)) as Hrun.
  assert (sqlite_facts.wf (sqlite_facts.cancelled c q h).1
            (sqlite_facts.cancelled c q h).2) as Hwf.
  { destruct (sqlite_facts.sq_cancel_total c q h Hq) as (q1 & h1 & Hrun1 & Hwf & _).
    assert (sqlite_facts.cancelled c q h = (q1, h1)) as -> by congruence. done. }
  exists (sqlite_facts.cancelled c q h).1, (sqlite_facts.cancelled c q h).2.
  split; [by destruct (sqlite_facts.cancelled c q h)|].
  split; [intros k w'; apply sqlite_facts.sq_reg_cancelled|].
  split_and!.
  - destruct Hreg as (ws & Hws & Hin). unfold sqlite_facts.cancelled. simpl.
    rewrite Hws. simpl. case_decide as Hsz; simpl.
    + rewrite lookup_delete_eq. split; [|done]. intros _ w' (ws' & Hws' & Hin').
      rewrite Hws in Hws'. injection Hws' as <-.
      apply size_empty_inv in Hsz. destruct (decide (w' = sqlite.cw c)); [done|].
      exfalso. apply (elem_of_empty (C:=gset watcher) w'), Hsz.
      apply elem_of_difference. split; [done|]. by rewrite elem_of_singleton.
    + rewrite lookup_insert_eq. split; [done|]. intros Hall. destruct Hsz.
      apply size_empty_iff. apply elem_of_equiv_empty.
      intros w' [Hin' Hne]%elem_of_difference.
      apply Hne, elem_of_singleton, Hall. by exists ws.
  - unfold sqlite_facts.cancelled. simpl. rewrite Hst. simpl.
    by rewrite lookup_insert_eq.
  - intros c' Hne. unfold sqlite_facts.cancelled. simpl. by rewrite lookup_insert_ne.
  - done.
  - done.
  - done.
Qed.

End cancel_one.

Section range_loop.
Context {T : Type}.
Import example.

Lemma rangeChan_drains c (st : chanState T) (h : heap T) seen :
  chans h !! c = Some st →
  ∃ h', rangeChan (S (length (buf st))) c h seen =
          (if isClosed st then RangeEnded (seen ++ buf st) h'
           else RangeBlocked (seen ++ buf st) h') ∧
        chanBuf c h' = [].
Proof.
  destruct st as [b n cl]. simpl. revert h seen.
  induction b as [|ev b IH]; intros h seen Hst.
  - exists h. unfold rangeChan, recv. rewrite Hst. simpl. rewrite app_nil_r.
    unfold chanBuf. rewrite Hst. by destruct cl.
  - destruct (IH (updChan c (mkChan b n cl) h) (seen ++ [ev])) as (h' & Hrun & Hb).
    { simpl. by rewrite lookup_insert_eq. }
    exists h'. split; [|done].
    change (rangeChan (S (length (ev :: b))) c h seen)
      with (match recv c h with
            | None => RangeBlocked seen h
            | Some (None, h') => RangeEnded seen h'
            | Some (Some ev, h') => rangeChan (S (length b)) c h' (seen ++ [ev])
            end).
    unfold recv at 1. rewrite Hst. simpl. rewrite Hrun.
    by rewrite <-app_assoc.
Qed.

(** X14.  Closing is what ends a consumer.  In both engines, on a
    well-formed open store: while a watcher is registered, the loop
    [for ev := range ch] over its channel receives the events queued so far
    and then blocks; after the watcher's [cancel], and after [Close] for
    every channel, the loop receives exactly the events that were queued
    before, in order, and ends.  Neither [cancel] nor [Close] discards a
    queued event. *)
Theorem range_loop_ends_after_cancel_or_Close
    (cs : list gomap.cancelFn) (c : gomap.cancelFn) (w : watcher) (st : chanState T)
    (s : gomap.memStore T) (h : heap T)
    (cq : sqlite.cancelFn) (stq : chanState T) (q : sqlite.sqLiteStore T) (hq : heap T) :
  gomap_facts.wf s h → gomap_facts.issued cs s h → c ∈ cs →
  gomap_facts.reg s (gomap.ckind c) (gomap.cid c) w → chans h !! ch w = Some st →
  sqlite_facts.wf q hq → sqlite_facts.reg q (sqlite.ckind cq) (sqlite.cw cq) →
  chans hq !! ch (sqlite.cw cq) = Some stq →
  (∃ h0, rangeChan (S (length (buf st))) (ch w) h [] = RangeBlocked (buf st) h0) ∧
  (∃ s1 h1 h2, gomap.cancel c s h = Done (s1, h1) ∧
     rangeChan (S (length (buf st))) (ch w) h1 [] = RangeEnded (buf st) h2) ∧
  (∃ s1 h1, gomap.Close s h = Done (s1, h1, None) ∧
     ∀ c' st', chans h !! c' = Some st' →
       ∃ h2, rangeChan (S (length (buf st'))) c' h1 [] = RangeEnded (buf st') h2) ∧
  (∃ h0, rangeChan (S (length (buf stq))) (ch (sqlite.cw cq)) hq []
           = RangeBlocked (buf stq) h0) ∧
  (∃ q1 h1 h2, sqlite.cancel cq q hq = Done (q1, h1) ∧
     rangeChan (S (length (buf stq))) (ch (sqlite.cw cq)) h1 [] = RangeEnded (buf stq) h2) ∧
  (∃ q1 h1, sqlite.Close q hq = Done (q1, h1, None) ∧
     ∀ c' st', chans hq !! c' = Some st' →
       ∃ h2, rangeChan (S (length (buf st'))) c' h1 [] = RangeEnded (buf st') h2).
Proof.
  intros Hs Hiss Hc Hreg Hst Hq Hregq Hstq.
  assert (∀ (h1 : heap T) c' st',
    (∀ c0 st0, chans h1 !! c0 = Some st0 → isClosed st0 = true) →
    is_Some (chans h1 !! c') → chanBuf c' h1 = buf st' →
    ∃ h2, rangeChan (S (length (buf st'))) c' h1 [] = RangeEnded (buf st') h2)
    as Hended.
  { intros h1 c' st' Hall [st1 Hst1] Hbuf.
    destruct (rangeChan_drains c' st1 h1 [] Hst1) as (h2 & Hrun & _).
    unfold chanBuf in Hbuf. rewrite Hst1 in Hbuf. rewrite Hbuf in Hrun.
    rewrite (Hall _ _ Hst1) in Hrun. by exists h2. }
  split_and!.
  - destruct (gomap_facts.wf_open _ _ Hs _ _ _ Hreg) as (st0 & Hst0 & Ho).
    rewrite Hst in Hst0. injection Hst0 as <-.
    destruct (rangeChan_drains (ch w) st h [] Hst) as (h0 & Hrun & _).
    rewrite Ho in Hrun. by exists h0.
  - destruct (gomap_facts.cancel_live cs c s h w Hs Hiss Hc Hreg) as (Hrun & _).
    exists (gomap_facts.cancelled c s h).1, (gomap_facts.cancelled c s h).2.
    assert (chans (gomap_facts.cancelled c s h).2 !! ch w
            = Some (mkChan (buf st) (cap st) true)) as Hst1.
    { destruct Hreg as (m & Hm & Hw). unfold gomap_facts.cancelled. simpl.
      rewrite Hm. simpl. rewrite Hw. simpl. rewrite Hst. simpl.
      by rewrite lookup_insert_eq. }
    destruct (rangeChan_drains (ch w) _ _ [] Hst1) as (h2 & Hrun2 & _).
    exists h2. split; [by destruct (gomap_facts.cancelled c s h)|done].
  - assert (gomap.closed s = false) as Hcl.
    { destruct (gomap.closed s) eqn:E; [|done].
      by destruct (gomap_facts.wf_closed _ _ Hs E _ _ _ Hreg). }
    destruct (gomap_facts.mem_Close_open s h Hs Hcl)
      as (h1 & Hrun & Hall & Hdom & _ & Hbuf & _).
    exists (gomap_facts.closedStore s), h1. split; [done|].
    intros c' st' Hst'. apply Hended; [done| |].
    + apply elem_of_dom. rewrite Hdom. apply elem_of_dom. eauto.
    + rewrite Hbuf. unfold chanBuf. by rewrite Hst'.
  - destruct (sqlite_facts.wf_open _ _ Hq _ _ Hregq) as (st0 & Hst0 & Ho).
    rewrite Hstq in Hst0. injection Hst0 as <-.
    destruct (rangeChan_drains _ stq hq [] Hstq) as (h0 & Hrun & _).
    rewrite Ho in Hrun. by exists h0.
  - pose proof (sqlite_facts.sq_cancel_registered cq q hq Hregq
                  (sqlite_facts.wf_open _ _ Hq _ _ Hregq)) as Hrun.
    exists (sqlite_facts.cancelled cq q hq).1, (sqlite_facts.cancelled cq q hq).2.
    assert (chans (sqlite_facts.cancelled cq q hq).2 !! ch (sqlite.cw cq)
            = Some (mkChan (buf stq) (cap stq) true)) as Hst1.
    { unfold sqlite_facts.cancelled. simpl. rewrite Hstq. simpl.
      by rewrite lookup_insert_eq. }
    destruct (rangeChan_drains _ _ _ [] Hst1) as (h2 & Hrun2 & _).
    exists h2. split; [by destruct (sqlite_facts.cancelled cq q hq)|done].
  - assert (sqlite.closed q = false) as Hcl.
    { destruct (sqlite.closed q) eqn:E; [|done].
      by destruct (sqlite_facts.wf_closed _ _ Hq E _ _ Hregq). }
    destruct (sqlite_facts.sq_Close_open q hq Hq Hcl)
      as (h1 & Hrun & Hall & Hdom & Hbuf & _).
    exists (sqlite_facts.closedStore q), h1. split; [done|].
    intros c' st' Hst'. apply Hended; [done| |].
    + apply elem_of_dom. rewrite Hdom. apply elem_of_dom. eauto.
    + rewrite Hbuf. unfold chanBuf. by rewrite Hst'.
Qed.

End range_loop.

(** ** The replay goroutines *)

Section replays.
Context {T : Type}.

(** Non-blocking sends of a list of events to one open channel. *)
Lemma sendAll_exact c (evs : list (Event T)) (h : heap T) st :
  chans h !! c = Some st → isClosed st = false →
  ∃ h', forM (trySend c) evs h = Done h' ∧ grows h h' ∧
    chanBuf c h' = delivered st evs ∧
    ∀ c' st', c' ≠ c → chans h !! c' = Some st' → chanBuf c' h' = buf st'.
Proof.
  intros Hst Ho. rewrite forM_trySend.
  destruct (sends_exact ((λ ev, (c, ev)) <$> evs) h) as (h' & Hrun & Hg & Hbuf).
  { intros ce (ev & -> & _)%list_elem_of_fmap. by exists st. }
  exists h'. split_and!; try done.
  - rewrite (Hbuf c st Hst). f_equal. unfold sentTo. clear.
    induction evs as [|ev evs IH]; [done|].
    rewrite fmap_cons, filter_cons. simpl. rewrite decide_True by done.
    rewrite fmap_cons. simpl. by rewrite IH.
  - intros c' st' Hne Hst'. rewrite (Hbuf c' st' Hst').
    assert (sentTo c' ((λ ev, (c, ev)) <$> evs) = []) as ->; [|apply delivered_nil].
    unfold sentTo. clear -Hne. induction evs as [|ev evs IH]; [done|].
    rewrite fmap_cons, filter_cons. simpl. by rewrite decide_False.
Qed.

(** X15.  The replay goroutine of the durable engine never blocks and
    never waits for the consumer.  On a well-formed store with the watcher
    subscribed it lists the kind when it runs and offers one create event
    per entry with non-blocking sends: the watcher's queue ends up with
    what it held followed by as many of these events as it had room for,
    in the order of the iteration; the rest is dropped.  No other queue is
    touched.  When the listing fails, nothing is sent. *)
Theorem sqlite_replay_fills_the_room (kind : string) (w : watcher) (st : chanState T)
    (q : sqlite.sqLiteStore T) (h : heap T) :
  sqlite_facts.wf q h → sqlite_facts.reg q kind w → chans h !! ch w = Some st →
  (∀ m, sqlite.List kind [] q = (Some m, None) →
     ∃ h' evs, sqlite.runReplay (sqlite.mkGoroutine kind w) q h = Done h' ∧
       evs ≡ₚ eventsOf kind EventTypeCreate m ∧
       chanBuf (ch w) h' = delivered st evs ∧
       ∀ c' st', c' ≠ ch w → chans h !! c' = Some st' → chanBuf c' h' = buf st') ∧
  (∀ err, sqlite.List kind [] q = (None, Some err) →
     sqlite.runReplay (sqlite.mkGoroutine kind w) q h = Done h).
Proof.
  intros Hq Hreg Hst.
  destruct (sqlite_facts.wf_open _ _ Hq _ _ Hreg) as (st0 & Hst0 & Ho).
  rewrite Hst in Hst0. injection Hst0 as <-. split.
  - intros m Hl. unfold sqlite.runReplay. simpl. rewrite Hl.
    destruct (sendAll_exact (ch w) (eventsOf kind EventTypeCreate m) h st Hst Ho)
      as (h' & Hrun & _ & Hbuf & Hother).
    by exists h', (eventsOf kind EventTypeCreate m).
  - intros err Hl. unfold sqlite.runReplay. simpl. by rewrite Hl.
Qed.

Lemma replaySelect_blocked pickDone c d (h : heap T) (st : chanState T) :
  chans h !! c = Some st → isClosed st = false → dones h !! d = Some false →
  cap st ≤ length (buf st) →
  gomap.replaySelect pickDone c d h = Done gomap.SelBlocked.
Proof.
  intros Hst Ho Hd Hfull. unfold gomap.replaySelect. rewrite Hst, Hd, Ho.
  rewrite (bool_decide_eq_false_2 (length (buf st) < cap st)) by lia.
  rewrite (bool_decide_eq_false_2 (Some false = Some true)) by done. done.
Qed.

Lemma replayLoop_cons pickDone c d ev (rest : list (Event T)) (h : heap T) :
  gomap.replayLoop pickDone c d (ev :: rest) h =
    gomap.replaySelect pickDone c d h ≫= λ sel,
      match sel with
      | gomap.SelDone => Done (None, h)
      | gomap.SelBlocked => Done (Some (gomap.mkGoroutine c d (ev :: rest)), h)
      | gomap.SelSend => trySend c ev h ≫= gomap.replayLoop pickDone c d rest
      end.
Proof. done. Qed.

(** The replay loop of the in-memory engine on an open channel whose
    [done] channel is open: it sends while there is room, then blocks. *)
Lemma replayLoop_blocks pickDone c d (pending : list (Event T)) (h : heap T) st :
  chans h !! c = Some st → isClosed st = false → dones h !! d = Some false →
  let room := cap st - length (buf st) in
  ∃ h', gomap.replayLoop pickDone c d pending h =
          Done (if decide (length pending ≤ room) then None
                else Some (gomap.mkGoroutine c d (drop room pending)), h') ∧
    grows h h' ∧ chanBuf c h' = buf st ++ take room pending.
Proof.
  revert h st. induction pending as [|ev rest IH]; intros h st Hst Ho Hd room.
  { exists h. unfold gomap.replayLoop. rewrite decide_True by (simpl; lia).
    split; [done|].
    split; [apply grows_refl|]. unfold chanBuf. rewrite Hst, take_nil.
    by rewrite app_nil_r. }
  rewrite replayLoop_cons.
  destruct (decide (length (buf st) < cap st)) as [Hlt|Hge].
  - rewrite (gomap_facts.replaySelect_send pickDone c d h st) by done. simpl.
    rewrite (trySend_open _ _ _ st) by done. rewrite decide_True by done. simpl.
    set (h1 := updChan c (mkChan (buf st ++ [ev]) (cap st) false) h).
    destruct (IH h1 (mkChan (buf st ++ [ev]) (cap st) false)) as (h' & Hrun & Hg & Hbuf);
      [by (simpl; rewrite lookup_insert_eq)|done|done|].
    simpl in Hrun, Hbuf. rewrite length_app in Hrun, Hbuf. simpl in Hrun, Hbuf.
    exists h'. rewrite Hrun.
    assert (room = S (cap st - (length (buf st) + 1))) as -> by (unfold room; lia).
    split_and!.
    + f_equal. f_equal. simpl.
      destruct (decide (length rest ≤ _)), (decide (S (length rest) ≤ _));
        try done; lia.
    + eapply grows_trans; [|done].
      destruct (trySend_grows c ev h) as (h2 & Hh2 & Hg2); [by exists st|].
      rewrite (trySend_open _ _ _ st) in Hh2 by done.
      rewrite decide_True in Hh2 by done. by injection Hh2 as <-.
    + rewrite Hbuf. simpl. by rewrite <-app_assoc.
  - rewrite (replaySelect_blocked pickDone c d h st) by (done || lia). simpl.
    exists h. assert (room = 0) as -> by (unfold room; lia).
    rewrite decide_False by (simpl; lia). simpl. split; [done|].
    split; [apply grows_refl|]. unfold chanBuf. by rewrite Hst, app_nil_r.
Qed.

(** X16.  The replay goroutine of the in-memory engine blocks instead of
    dropping.  While its channel and its [done] channel are open it sends
    the snapshot events in order for as long as the queue has room; with
    events left and the queue full it blocks, holding the events it has
    not sent, and it finishes once all are sent.  No event of the snapshot
    is lost or repeated: what was queued followed by what is still pending
    is the snapshot.  The scheduler's choice plays no part. *)
Theorem gomap_replay_blocks_when_full (pickDone : bool) (g : gomap.goroutine T)
    (st : chanState T) (h : heap T) :
  chans h !! gomap.gch g = Some st → isClosed st = false →
  dones h !! gomap.gdone g = Some false →
  let room := cap st - length (buf st) in
  ∃ g' h', gomap.runReplay pickDone g h = Done (g', h') ∧
    chanBuf (gomap.gch g) h' = buf st ++ take room (gomap.gpending g) ∧
    (length (gomap.gpending g) ≤ room → g' = None) ∧
    (room < length (gomap.gpending g) →
       ∃ g1, g' = Some g1 ∧ gomap.gch g1 = gomap.gch g ∧ gomap.gdone g1 = gomap.gdone g ∧
         take room (gomap.gpending g) ++ gomap.gpending g1 = gomap.gpending g ∧
         gomap.gpending g1 ≠ []).
Proof.
  intros Hst Ho Hd room. unfold gomap.runReplay.
  destruct (replayLoop_blocks pickDone (gomap.gch g) (gomap.gdone g) (gomap.gpending g)
              h st Hst Ho Hd) as (h' & Hrun & _ & Hbuf).
  fold room in Hrun, Hbuf. eexists _, h'. split; [apply Hrun|].
  split; [done|]. split.
  - intros Hle. by rewrite decide_True.
  - intros Hlt. rewrite decide_False by lia. eexists. split; [done|]. simpl.
    split_and!; try done; [apply take_drop|].
    intros Hnil. apply (f_equal length) in Hnil. rewrite length_drop in Hnil.
    simpl in Hnil. lia.
Qed.

(** A goroutine that sends on a closed channel, with its [done] channel
    open or the send case picked, panics. *)
Lemma replayLoop_closed pickDone c d ev (rest : list (Event T)) (h : heap T) st :
  chans h !! c = Some st → isClosed st = true →
  gomap.replayLoop pickDone c d (ev :: rest) h =
    if bool_decide (dones h !! d = Some true) && pickDone
    then Done (None, h) else Panic "send on closed channel".
Proof.
  intros Hst Hc. rewrite replayLoop_cons. unfold gomap.replaySelect.
  rewrite Hst, Hc. simpl. rewrite orb_false_r.
  destruct (bool_decide (dones h !! d = Some true) && pickDone); simpl; [done|].
  unfold trySend. by rewrite Hst, Hc.
Qed.

(** X17.  Shutting down while the in-memory replay is still running.
    [Close] closes the watcher's channel but not the goroutine's [done]
    channel, so a replay goroutine that still has an event to send when
    the store is closed panics with a send on a closed channel.  [cancel]
    closes both: a goroutine that comes to its select afterwards finds the
    two cases ready, and ends when the [done] case is picked and panics
    when the send case is picked. *)
Theorem gomap_replay_outlives_its_channel (cs : list gomap.cancelFn)
    (c : gomap.cancelFn) (w : watcher) (g : gomap.goroutine T)
    (s : gomap.memStore T) (h : heap T) :
  gomap_facts.wf s h → gomap_facts.issued cs s h → c ∈ cs →
  gomap_facts.reg s (gomap.ckind c) (gomap.cid c) w →
  gomap.gch g = ch w → gomap.gdone g = gomap.cdone c → gomap.gpending g ≠ [] →
  (∃ s1 h1, gomap.Close s h = Done (s1, h1, None) ∧
     ∀ pickDone, gomap.runReplay pickDone g h1 = Panic "send on closed channel") ∧
  (∃ s1 h1, gomap.cancel c s h = Done (s1, h1) ∧
     gomap.runReplay true g h1 = Done (None, h1) ∧
     gomap.runReplay false g h1 = Panic "send on closed channel").
Proof.
  intros Hs Hiss Hc Hreg Hch Hd Hp.
  destruct (gomap.gpending g) as [|ev rest] eqn:Epend; [done|].
  destruct (gomap_facts.wf_open _ _ Hs _ _ _ Hreg) as (st & Hst & Ho).
  pose proof Hiss as [_ Hiss']. destruct (Hiss' c Hc) as (_ & _ & Hdone).
  specialize (Hdone w Hreg). split.
  - assert (gomap.closed s = false) as Hcl.
    { destruct (gomap.closed s) eqn:E; [|done].
      by destruct (gomap_facts.wf_closed _ _ Hs E _ _ _ Hreg). }
    destruct (gomap_facts.mem_Close_open s h Hs Hcl)
      as (h1 & Hrun & Hall & Hdom & Hdones & _).
    exists (gomap_facts.closedStore s), h1. split; [done|]. intros pickDone.
    assert (is_Some (chans h1 !! ch w)) as [st1 Hst1].
    { apply elem_of_dom. rewrite Hdom. apply elem_of_dom. eauto. }
    unfold gomap.runReplay. rewrite Epend, Hch, Hd.
    rewrite (replayLoop_closed _ _ _ _ _ _ st1) by eauto.
    rewrite Hdones, Hdone. by rewrite bool_decide_false.
  - destruct (gomap_facts.cancel_live cs c s h w Hs Hiss Hc Hreg) as (Hrun & _).
    exists (gomap_facts.cancelled c s h).1, (gomap_facts.cancelled c s h).2.
    split; [by destruct (gomap_facts.cancelled c s h)|].
    assert (chans (gomap_facts.cancelled c s h).2 !! ch w
            = Some (mkChan (buf st) (cap st) true) ∧
            dones (gomap_facts.cancelled c s h).2 !! gomap.cdone c = Some true)
      as [Hst1 Hd1].
    { destruct Hreg as (m & Hm & Hw). unfold gomap_facts.cancelled. simpl.
      rewrite Hm. simpl. rewrite Hw. simpl. rewrite Hst. simpl.
      by rewrite !lookup_insert_eq. }
    unfold gomap.runReplay. rewrite Epend, Hch, Hd.
    rewrite !(replayLoop_closed _ _ _ _ _ _ _ Hst1) by done.
    rewrite Hd1. by rewrite bool_decide_true.
Qed.

(** X18.  Shutting down while the durable replay has not run yet.  After
    [Close] the goroutine's listing fails with the closed error and it
    returns without sending.  After the watcher's [cancel] the store is
    still open, the listing succeeds, and the first send goes to the
    closed channel: with at least one entry in the kind the goroutine
    panics. *)
Theorem sqlite_replay_after_shutdown (c : sqlite.cancelFn) (g : sqlite.goroutine)
    (m : gmap string T) (q : sqlite.sqLiteStore T) (h : heap T) :
  sqlite_facts.wf q h → sqlite_facts.reg q (sqlite.ckind c) (sqlite.cw c) →
  sqlite.gkind g = sqlite.ckind c → sqlite.gw g = sqlite.cw c →
  sqlite.List (sqlite.gkind g) [] q = (Some m, None) → m ≠ ∅ →
  (∃ q1 h1, sqlite.Close q h = Done (q1, h1, None) ∧
     sqlite.runReplay g q1 h1 = Done h1) ∧
  (∃ q1 h1, sqlite.cancel c q h = Done (q1, h1) ∧
     sqlite.runReplay g q1 h1 = Panic "send on closed channel").
Proof.
  intros Hq Hreg Hk Hw Hl Hm. split.
  - assert (sqlite.closed q = false) as Hcl.
    { destruct (sqlite.closed q) eqn:E; [|done].
      by destruct (sqlite_facts.wf_closed _ _ Hq E _ _ Hreg). }
    destruct (sqlite_facts.sq_Close_open q h Hq Hcl) as (h1 & Hrun & _).
    exists (sqlite_facts.closedStore q), h1. split; [done|]. done.
  - pose proof (sqlite_facts.sq_cancel_registered c q h Hreg
                  (sqlite_facts.wf_open _ _ Hq _ _ Hreg)) as Hrun.
    destruct (sqlite_facts.wf_open _ _ Hq _ _ Hreg) as (st & Hst & Ho).
    exists (sqlite_facts.cancelled c q h).1, (sqlite_facts.cancelled c q h).2.
    split; [by destruct (sqlite_facts.cancelled c q h)|].
    unfold sqlite.runReplay.
    assert (sqlite.List (sqlite.gkind g) [] (sqlite_facts.cancelled c q h).1
            = (Some m, None)) as -> by (rewrite <-Hl; done).
    destruct (eventsOf (sqlite.gkind g) EventTypeCreate m) as [|ev evs] eqn:Ee.
    { destruct Hm. apply map_size_empty_inv.
      by rewrite <-(eventsOf_length (sqlite.gkind g) EventTypeCreate m), Ee. }
    rewrite forM_cons, Hw. unfold trySend, sqlite_facts.cancelled. simpl.
    rewrite lookup_insert_eq. done.
Qed.

End replays.

(** ** A write between Watch and the replay *)

Section replay_and_writes.
Context {T : Type} (zero : T).

(** X19.  The in-memory replay sends the snapshot taken by [Watch], not
    the store as it is when the goroutine runs.  When a key of the kind
    is overwritten after [Watch] has returned and before the goroutine
    has sent, the subscriber first receives the update event with the new
    value and then the replayed create event of that key with the value
    it had at the time of the [Watch]; [Get] returns the new value.  (An
    unfiltered watcher with room for all the events.) *)
Theorem gomap_replay_sends_the_snapshot (kind key : string) (prev value : T)
    (opts : list WatchOption) (s : gomap.memStore T) (h : heap T) :
  gomap_facts.wf s h → gomap.closed s = false → kind ≠ "" →
  (gomap.watcherID s + 1 < 2 ^ 64)%N →
  Initial (applyOpts opts) = true → EventTypes (applyOpts opts) = None →
  gomap.kindMap kind s !! key = Some prev →
  gomap.validate kind value s = None → gomap.compareFn s prev value = false →
  size (gomap.kindMap kind s) + 1 ≤ Z.to_nat (bufSizeOf (applyOpts opts)) →
  ∃ s1 h1 g c cf s2 h2,
    gomap.Watch kind opts s h = (s1, h1, Some g, (Some c, Some cf, None)) ∧
    gomap.Set_ zero kind key value s1 h1 = Done (s2, h2, (false, None)) ∧
    gomap.Get zero kind key s2 = (value, true, None) ∧
    mkEvent kind key EventTypeCreate prev ∈ gomap.gpending g ∧
    ∀ pickDone, ∃ h3, gomap.runReplay pickDone g h2 = Done (None, h3) ∧
      chanBuf c h3 = mkEvent kind key EventTypeUpdate value :: gomap.gpending g.
Proof.
  intros Hs Hcl Hk Hid Hini Hfil Hprev Hval Hcmp Hroom.
  pose proof (gomap_facts.Watch_registers kind opts s h Hk Hcl) as Hw.
  pose proof (gomap_facts.mem_Watch_wf kind opts s h Hs Hid Hcl) as Hwf1.
  pose proof (gomap_facts.Watch_replay kind opts s h Hk Hcl) as Hg.
  pose proof (λ k i w, gomap_facts.mem_reg_watched kind opts s h k i w) as Hreg.
  unfold gomap_facts.watched in *. destruct Hw as (g0 & Hw).
  rewrite Hw in Hg. simpl in Hg. rewrite Hini in Hg.
  unfold gomap_facts.sendInitialOf in Hg. rewrite Hfil in Hg.
  rewrite bool_decide_true in Hg.
  2:{ assert (size (gomap.kindMap kind s) ≠ 0); [|lia].
      intros Hz%map_size_empty_inv. by rewrite Hz, lookup_empty in Hprev. }
  simpl in Hg. subst g0.
  set (c := fresh (dom (chans h))) in *. set (d := fresh (dom (dones h))) in *.
  set (w1 := mkWatcher c (EventTypes (applyOpts opts))) in *.
  set (st0 := mkChan (T:=T) [] (Z.to_nat (bufSizeOf (applyOpts opts))) false) in *.
  match type of Hwf1 with gomap_facts.wf ?a ?b => set (s1 := a) in *; set (h1 := b) in * end.
  assert (gomap_facts.reg s1 kind (pretty (gomap_facts.nextID s)) w1) as Hr1
    by (apply Hreg; by left).
  assert (chans h1 !! c = Some st0) as Hst0 by (simpl; by rewrite lookup_insert_eq).
  assert (gomap.kindMap kind s1 = gomap.kindMap kind s) as Hkm
    by apply (gomap_facts.kindMap_ensureKind kind kind s).
  (* the write *)
  pose proof (gomap_facts.SetLocked_open zero kind key value s1 Hcl Hval) as Hopen.
  rewrite Hkm, Hprev in Hopen. simpl in Hopen.
  change (gomap.compareFn s1) with (gomap.compareFn s) in Hopen.
  rewrite Hcmp in Hopen.
  destruct (gomap_facts.mem_Set_total zero kind key value s1 h1 Hwf1)
    as (h2 & Hrun2 & Hg2 & Hwf2).
  destruct (unlockAndSend_exact (gomap.SetLocked zero kind key value s1) kind h1)
    as (h2' & Hrun2' & Hbuf2).
  { by eapply gomap_facts.mem_wf_keeps;
      [apply (gomap_facts.SetLocked_shape zero kind key value s1)|]. }
  { apply SetLocked_sends. }
  assert (h2' = h2) as -> by (unfold gomap.Set_ in Hrun2; congruence).
  clear Hrun2'. rewrite Hopen in Hrun2, Hbuf2. simpl in Hrun2, Hbuf2.
  assert (chanBuf c h2 = [mkEvent kind key EventTypeUpdate value]) as Hc2.
  { etransitivity; [apply (Hbuf2 kind (pretty (gomap_facts.nextID s)) w1 st0)|].
    - pose proof (gomap_facts.SetLocked_shape zero kind key value s1) as [[Hkeep _] _].
      rewrite Hopen in Hkeep. by apply Hkeep.
    - done.
    - unfold offered. rewrite decide_True by done. rewrite filter_accepts_all by done.
      rewrite delivered_room; [done|]. simpl. lia. }
  destruct Hg2 as [Hd2 Hch2]. specialize (Hch2 c). rewrite Hst0 in Hch2.
  destruct (chans h2 !! c) as [st2|] eqn:Hst2; [|done].
  destruct Hch2 as (Ho2 & Hcap2 & _).
  assert (buf st2 = [mkEvent kind key EventTypeUpdate value]) as Hb2
    by (unfold chanBuf in Hc2; by rewrite Hst2 in Hc2).
  exists s1, h1, (gomap.mkGoroutine c d
                    (eventsOf kind EventTypeCreate (gomap.kindMap kind s))),
    c, (gomap.mkCancel kind (pretty (gomap_facts.nextID s)) d),
    (gomap_facts.stored kind key value s1), h2.
  split_and!; try done.
  - rewrite Get_stored, decide_True by done.
    change (gomap.closed s1) with (gomap.closed s). by rewrite Hcl.
  - simpl. apply elem_of_eventsOf. eauto.
  - intros pickDone. unfold gomap.runReplay. simpl.
    destruct (gomap_facts.replayLoop_room pickDone c d
                (eventsOf kind EventTypeCreate (gomap.kindMap kind s)) h2 st2)
      as (h3 & Hrun3 & _ & Hbuf3); try done.
    + rewrite Hd2. simpl. by rewrite lookup_insert_eq.
    + rewrite Hb2, Hcap2, eventsOf_length. simpl. lia.
    + exists h3. split; [done|]. by rewrite Hbuf3, Hb2.
Qed.

(** X20.  The durable replay lists the store when the goroutine runs, not
    when [Watch] is called.  A key created after [Watch] has returned and
    before the goroutine has run is announced twice to the subscriber:
    once by the create event of the [Set], and once more by the replay,
    which finds the new row in its listing and sends a create event with
    the value decoded from it.  (An unfiltered watcher with room for all
    the events, on a store whose rows of the kind decode.) *)
Theorem sqlite_replay_repeats_a_later_write (kind key : string) (v v' : T)
    (enc now : string) (opts : list WatchOption)
    (q : sqlite.sqLiteStore T) (h : heap T) :
  sqlite_facts.wf q h → sqlite.closed q = false → kind ≠ "" →
  Initial (applyOpts opts) = true → EventTypes (applyOpts opts) = None →
  sqlite.rows (sqlite.db q) !! (kind, key) = None →
  sqlite.Marshal (sqlite.codec q) v = (enc, None) →
  sqlite.Unmarshal (sqlite.codec q) enc = (v', None) →
  (∀ k r, sqlite.rows (sqlite.db q) !! (kind, k) = Some r →
     (sqlite.Unmarshal (sqlite.codec q) (sqlite.value r)).2 = None) →
  size (sqlite.kindRows kind (sqlite.rows (sqlite.db q))) + 2
    ≤ Z.to_nat (bufSizeOf (applyOpts opts)) →
  ∃ q1 h1 g c cf q2 h2 h3 evs,
    sqlite.Watch kind opts q h = (q1, h1, Some g, (Some c, Some cf, None)) ∧
    sqlite.Set_ kind key v now q1 h1 = Done (q2, h2, (true, None)) ∧
    sqlite.runReplay g q2 h2 = Done h3 ∧
    chanBuf c h3 = mkEvent kind key EventTypeCreate v :: evs ∧
    mkEvent kind key EventTypeCreate v' ∈ evs ∧
    length evs = S (size (sqlite.kindRows kind (sqlite.rows (sqlite.db q)))).
Proof.
  intros Hq Hcl Hk Hini Hfil Hnone Hm Hu Hok Hroom.
  pose proof (sqlite_facts.Watch_subscribes kind opts q h Hk Hcl) as Hw.
  pose proof (sqlite_facts.sq_Watch_wf kind opts q h Hq Hcl) as Hwf1.
  pose proof (λ k w, sqlite_facts.sq_reg_watched kind opts q h k w) as Hreg.
  unfold sqlite_facts.watched in *. destruct Hw as (g0 & Hw).
  assert (g0 = Some (sqlite.mkGoroutine kind
                       (mkWatcher (fresh (dom (chans h))) (EventTypes (applyOpts opts)))))
    as ->.
  { revert Hw. unfold sqlite.Watch. rewrite decide_False by done. rewrite Hcl.
    unfold makeChan. simpl. rewrite Hini, Hfil. simpl. congruence. }
  set (c := fresh (dom (chans h))) in *.
  set (w1 := mkWatcher c (EventTypes (applyOpts opts))) in *.
  set (st0 := mkChan (T:=T) [] (Z.to_nat (bufSizeOf (applyOpts opts))) false) in *.
  match type of Hwf1 with sqlite_facts.wf ?a ?b => set (q1 := a) in *; set (h1 := b) in * end.
  assert (sqlite_facts.reg q1 kind w1) as Hr1 by (apply Hreg; by left).
  assert (chans h1 !! c = Some st0) as Hst0 by (simpl; by rewrite lookup_insert_eq).
  (* the write *)
  pose proof (sqlite_facts.SetTx_open kind key v enc now q1 Hcl Hm) as Hopen.
  change (sqlite.rows (sqlite.db q1)) with (sqlite.rows (sqlite.db q)) in Hopen.
  rewrite Hnone in Hopen.
  set (q2 := sqlite.setRows (<[(kind, key) := sqlite.mkRow enc 1 now]>
                               (sqlite.rows (sqlite.db q))) q1) in *.
  destruct (sqlite_facts.sq_Set_total kind key v now q1 h1 Hwf1)
    as (h2 & Hrun2 & Hg2 & Hwf2).
  destruct (publishAll_exact kind (sqlite.SetTx kind key v now q1) h1)
    as (h2' & Hrun2' & Hbuf2).
  { eapply sqlite_facts.sq_wf_keeps; [apply sqlite_facts.SetTx_keeps|done]. }
  assert (h2' = h2) as -> by (unfold sqlite.Set_ in Hrun2; congruence).
  clear Hrun2'. rewrite Hopen in Hrun2, Hbuf2, Hwf2. simpl in Hrun2, Hbuf2, Hwf2.
  assert (chanBuf c h2 = [mkEvent kind key EventTypeCreate v]) as Hc2.
  { etransitivity; [apply (Hbuf2 kind w1 st0); done|].
    unfold offered. rewrite decide_True by done. rewrite filter_accepts_all by done.
    rewrite delivered_room; [done|]. simpl. lia. }
  destruct Hg2 as [Hd2 Hch2]. specialize (Hch2 c). rewrite Hst0 in Hch2.
  destruct (chans h2 !! c) as [st2|] eqn:Hst2; [|done].
  destruct Hch2 as (Ho2 & Hcap2 & _).
  assert (buf st2 = [mkEvent kind key EventTypeCreate v]) as Hb2
    by (unfold chanBuf in Hc2; by rewrite Hst2 in Hc2).
  (* the listing made by the goroutine *)
  destruct (List_all_decoded kind q2) as (m2 & Hl2 & Hm2); [done| |].
  { intros k r. simpl. destruct (decide (k = key)) as [->|Hne].
    - rewrite lookup_insert_eq. intros [= <-]. simpl. by rewrite Hu.
    - rewrite lookup_insert_ne by congruence. apply Hok. }
  assert (m2 !! key = Some v') as Hkey.
  { apply Hm2. exists (sqlite.mkRow enc 1 now). simpl. by rewrite lookup_insert_eq. }
  assert (size m2 = S (size (sqlite.kindRows kind (sqlite.rows (sqlite.db q))))) as Hsz.
  { assert (dom m2 = {[key]} ∪ dom (sqlite.kindRows kind (sqlite.rows (sqlite.db q))))
      as Hdom.
    { apply set_eq. intros k. rewrite elem_of_union, elem_of_singleton, !elem_of_dom.
      rewrite sqlite_facts.kindRows_lookup. split.
      - intros [v0 (r & Hr & _)%Hm2]. simpl in Hr.
        destruct (decide (k = key)) as [->|Hne]; [by left|].
        rewrite lookup_insert_ne in Hr by congruence. right. eauto.
      - intros [->|[r Hr]]; [eauto|].
        destruct (decide (k = key)) as [->|Hne]; [eauto|].
        specialize (Hok _ _ Hr).
        destruct (sqlite.Unmarshal (sqlite.codec q) (sqlite.value r)) as [v0 [?|]] eqn:E;
          [done|].
        exists v0. apply Hm2. exists r. simpl. rewrite lookup_insert_ne by congruence.
        by split. }
    rewrite <-!size_dom, Hdom. rewrite size_union, size_singleton; [done|].
    apply disjoint_singleton_l. rewrite elem_of_dom, sqlite_facts.kindRows_lookup.
    by rewrite Hnone. }
  destruct (sendAll_room c (eventsOf kind EventTypeCreate m2) h2 st2)
    as (h3 & Hrun3 & _ & Hbuf3); try done.
  { rewrite Hb2, Hcap2, eventsOf_length, Hsz. simpl. lia. }
  exists q1, h1, (sqlite.mkGoroutine kind w1), c, (sqlite.mkCancel kind w1), q2, h2, h3,
    (eventsOf kind EventTypeCreate m2).
  split_and!; try done.
  - unfold sqlite.runReplay. simpl. by rewrite Hl2.
  - by rewrite Hbuf3, Hb2.
  - apply elem_of_eventsOf. eauto.
  - by rewrite eventsOf_length.
Qed.

End replay_and_writes.

(** ** No run of an engine makes an operation panic *)

Section never_panic.
Context {T : Type} (zero : T).

(** X21.  Where the in-memory engine can panic.  Take any run from
    a new store in which the calls overlap freely: the critical sections
    of [Set], [SetFn], [SetAll], [Delete], [Watch], [Close] and of the
    [cancel] closures handed out, the sends of the writers one by one, and
    the turns of the replay goroutines, in any order (the watcher counter
    not wrapping).  In every state of such a run the registry and the
    channels agree.  Hence every handed-out [cancel] and [Close] return:
    no channel is closed twice.  [Watch] returns unless the runtime
    refuses the size of its channel.  A writer that is not overtaken
    returns.  A send that a writer or a replay goroutine has still to make
    returns or panics with "send on closed channel", never otherwise, and
    it panics only on a channel that no registered watcher holds any more.
    That case is real: the writers send after they unlock, so when
    [cancel] or [Close] runs between the unlock of a [Set] and its sends,
    the [Set] panics. *)
Theorem gomap_writer_panics_only_when_overtaken `{EqDecision T} (maxChan : Z)
    (opt : gomap.StoreOptions T) (wd : gomap_facts.world T) :
  rtc (gomap_facts.step zero maxChan) (gomap_facts.start opt) wd →
  let s := gomap_facts.wstore wd in
  let h := gomap_facts.wheap wd in
  gomap_facts.wf s h ∧
  (∀ c, c ∈ gomap_facts.wcancels wd → ∃ s' h', gomap.cancel c s h = Done (s', h')) ∧
  (∃ s' h', gomap.Close s h = Done (s', h', None)) ∧
  (∀ kind opts,
     (∃ r, gomap.WatchRun maxChan kind opts s h = Done r) ∨
     ((maxChan < bufSizeOf (applyOpts opts))%Z ∧
      gomap.WatchRun maxChan kind opts s h = Panic "makechan: size out of range")) ∧
  (∀ kind key v, ∃ s' h' r, gomap.Set_ zero kind key v s h = Done (s', h', r)) ∧
  (∀ kind key fn, ∃ s' h' r, gomap.SetFn kind key fn s h = Done (s', h', r)) ∧
  (∀ kind values, ∃ s' h' r, gomap.SetAll kind values s h = Done (s', h', r)) ∧
  (∀ kind key, ∃ s' h' r, gomap.Delete zero kind key s h = Done (s', h', r)) ∧
  (∀ l c ev, l ∈ gomap_facts.wsending wd → (c, ev) ∈ l →
     (∃ h', trySend c ev h = Done h') ∨
     (trySend c ev h = Panic "send on closed channel" ∧
      ∀ kind id w, gomap_facts.reg s kind id w → ch w ≠ c)) ∧
  (∀ g pickDone, g ∈ gomap_facts.wreplays wd →
     (∃ r, gomap.replayTurn pickDone g h = Done r) ∨
     gomap.replayTurn pickDone g h = Panic "send on closed channel") ∧
  (∀ c w kind key v ev,
     c ∈ gomap_facts.wcancels wd → gomap_facts.reg s (gomap.ckind c) (gomap.cid c) w →
     w ∈ gomap.wchs (gomap.SetLocked zero kind key v s) →
     ev ∈ gomap.events (gomap.SetLocked zero kind key v s) →
     accepts w (EventType ev) = true →
     ∃ s1 h1,
       gomap.cancel c (gomap.after (gomap.SetLocked zero kind key v s)) h
         = Done (s1, h1) ∧
       gomap.unlockAndSend (gomap.SetLocked zero kind key v s) h1
         = Panic "send on closed channel") ∧
  (∀ w kind key v ev,
     w ∈ gomap.wchs (gomap.SetLocked zero kind key v s) →
     ev ∈ gomap.events (gomap.SetLocked zero kind key v s) →
     accepts w (EventType ev) = true →
     ∃ s1 h1,
       gomap.Close (gomap.after (gomap.SetLocked zero kind key v s)) h
         = Done (s1, h1, None) ∧
       gomap.unlockAndSend (gomap.SetLocked zero kind key v s) h1
         = Panic "send on closed channel").
Proof.
  intros Hreach s h.
  destruct (gomap_facts.reachable_invariant zero maxChan opt _ Hreach)
    as (Hwf & Hiss & Hsend & Hrep).
  fold s h in Hwf, Hiss, Hsend, Hrep. split_and!; try done.
  - intros c Hc.
    destruct (gomap_facts.mem_cancel_total _ c s h Hwf Hiss Hc) as (s' & h' & Hrun & _).
    by exists s', h'.
  - destruct (gomap.closed s) eqn:Hcl.
    + exists s, h. by apply gomap_facts.mem_Close_closed.
    + destruct (gomap_facts.mem_Close_open s h Hwf Hcl) as (h' & Hrun & _).
      by eexists _, h'.
  - intros kind opts. unfold gomap.WatchRun, makeChanRun.
    destruct (decide (kind = "")); [eauto|]. destruct (gomap.closed s); [eauto|].
    fold (bufSizeOf (applyOpts opts)).
    pose proof (bufSizeOf_pos (applyOpts opts)).
    case_decide; simpl; [eauto|]. right. split; [lia|done].
  - intros kind key v.
    destruct (gomap_facts.mem_Set_total zero kind key v s h Hwf) as (h' & Hrun & _).
    by eexists _, h', _.
  - intros kind key fn.
    destruct (gomap_facts.mem_SetFn_total kind key fn s h Hwf) as (h' & Hrun & _).
    by eexists _, h', _.
  - intros kind values.
    destruct (gomap_facts.mem_SetAll_total kind values s h Hwf) as (h' & Hrun & _).
    by eexists _, h', _.
  - intros kind key.
    destruct (gomap_facts.mem_Delete_total zero kind key s h Hwf) as (h' & Hrun & _).
    by eexists _, h', _.
  - intros l c ev Hl Hce.
    destruct (gomap_facts.trySend_made c ev h (Hsend l (c, ev) Hl Hce))
      as [(h' & Hrun & _)|[Hrun (st & Hst & Ho)]]; [eauto|].
    right. split; [done|]. intros kind id w Hr <-.
    destruct (gomap_facts.wf_open _ _ Hwf _ _ _ Hr) as (st' & Hst' & Ho').
    congruence.
  - intros g pickDone Hg. by apply gomap_facts.replayTurn_made, Hrep.
  - intros c w kind key v ev Hc Hr Hw Hev Ha.
    destruct (gomap_facts.SetLocked_shape zero kind key v s) as [Hk Hshape].
    apply (gomap_facts.fanout_after_cancel _ kind
             (gomap_facts.wcancels wd) c w ev h); try done.
    + by eapply gomap_facts.mem_wf_keeps.
    + eapply gomap_facts.issued_keeps; [done|apply grows_refl|done].
    + by apply Hk.
  - intros w kind key v ev Hw Hev Ha.
    destruct (gomap_facts.SetLocked_shape zero kind key v s) as [Hk Hshape].
    apply (gomap_facts.fanout_after_Close _ kind w ev h); try done.
    + by eapply gomap_facts.mem_wf_keeps.
    + destruct Hk as (_ & -> & _). destruct (gomap.closed s) eqn:Hcl; [|done].
      unfold gomap.SetLocked in Hw. rewrite Hcl in Hw. by apply elem_of_nil in Hw.
Qed.


End never_panic.

(** ** The options of Watch *)

Lemma applyOpts_snoc (opts : list WatchOption) (o : WatchOption) :
  applyOpts (opts ++ [o]) = o (applyOpts opts).
Proof. unfold applyOpts. by rewrite foldl_app. Qed.

(** X23.  How the options of [Watch] combine.  Options apply in order.
    [WithBufferSize] overrides the size given before; [WithInitialReplay]
    switches the replay on and no option switches it off.
    [WithEventTypes] adds its types to the filter built so far and never
    removes one, and it makes the filter non-nil even when called with no
    type: a watcher whose only event-type option lists no types accepts no
    event at all, where a watcher with no such option accepts every
    event. *)
Theorem Watch_options_accumulate (opts : list WatchOption) (types : list string)
    (size : Z) (c : nat) (t : string) :
  let cfg := applyOpts opts in
  applyOpts [] = mkWatchCfg false None 0 ∧
  applyOpts (opts ++ [WithBufferSize size])
    = mkWatchCfg (Initial cfg) (EventTypes cfg) size ∧
  applyOpts (opts ++ [WithInitialReplay])
    = mkWatchCfg true (EventTypes cfg) (BufferSize cfg) ∧
  applyOpts (opts ++ [WithEventTypes types])
    = mkWatchCfg (Initial cfg)
        (Some (list_to_set types ∪ default ∅ (EventTypes cfg))) (BufferSize cfg) ∧
  (accepts (mkWatcher c (EventTypes (applyOpts (opts ++ [WithEventTypes types])))) t = true
     ↔ t ∈ types ∨ ∃ old, EventTypes cfg = Some old ∧ t ∈ old) ∧
  accepts (mkWatcher c (EventTypes (applyOpts [WithEventTypes []]))) t = false ∧
  accepts (mkWatcher c (EventTypes (applyOpts []))) t = true.
Proof.
  intros cfg. rewrite !applyOpts_snoc. fold cfg. split_and!; try done.
  unfold accepts, WithEventTypes. simpl.
  rewrite bool_decide_eq_true, elem_of_union, elem_of_list_to_set.
  destruct (EventTypes cfg) as [old|]; simpl.
  - split; [intros [?|?]; eauto|]. intros [?|(old' & [= <-] & ?)]; auto.
  - rewrite elem_of_empty. split; [intros [?|[]]; auto|].
    intros [?|(old' & [=] & _)]. by left.
Qed.

(** ** Dump *)

Lemma append_assoc (a b c : string) : (a +:+ b) +:+ c = a +:+ b +:+ c.
Proof. induction a as [|x a IH]; [done|]. exact (f_equal (String x) IH). Qed.

Lemma append_nil_r (a : string) : a +:+ "" = a.
Proof. induction a as [|x a IH]; [done|]. exact (f_equal (String x) IH). Qed.

(** The concatenation of the pieces a loop writes to a [strings.Builder]. *)
Lemma concat_base {A} (f : A → string) (l : list A) (b : string) :
  foldr (λ a acc, f a +:+ acc) b l = foldr (λ a acc, f a +:+ acc) "" l +:+ b.
Proof.
  induction l as [|a l IH]; simpl; [done|]. by rewrite IH, append_assoc.
Qed.

Lemma concat_contains {A} (f : A → string) (l : list A) (x : A) :
  x ∈ l → ∃ pre post, foldr (λ a acc, f a +:+ acc) "" l = pre +:+ f x +:+ post.
Proof.
  intros (l1 & l2 & ->)%list_elem_of_split.
  exists (foldr (λ a acc, f a +:+ acc) "" l1), (foldr (λ a acc, f a +:+ acc) "" l2).
  rewrite foldr_app. simpl. by rewrite concat_base.
Qed.

(** A loop that writes a piece only for the elements that pass a test
    writes the pieces of the elements that pass. *)
Lemma concat_if {A} (f : A → string) (P : A → bool) (l : list A) :
  foldr (λ a acc, if P a then f a +:+ acc else acc) "" l
  = foldr (λ a acc, f a +:+ acc) "" (filter (λ a, P a = true) l).
Proof.
  induction l as [|a l IH]; [done|]. simpl. rewrite filter_cons.
  destruct (P a) eqn:E.
  - rewrite decide_True by done. simpl. by rewrite IH.
  - rewrite decide_False by done. done.
Qed.

Section dumps.
Context {T : Type} (show : T → string).

(** The line [Dump] writes for an entry of the in-memory engine. *)
Definition memLine (key : string) (v : T) : string :=
  "  " +:+ key +:+ ": " +:+ show v +:+ newline.

(** X24.  What [Dump] shows.  In the in-memory engine it writes, for
    every registered kind, the line [kind:] followed by one line
    [  key: value] per entry of the kind, so every stored entry appears
    after the header of its kind, and a kind with no entry still has its
    header; the closed flag plays no part.  In the durable engine, on an
    open database handle, it writes a line for every row that scans, with
    the key, the version, the length of the value, the time stamp and the
    value, and skips without notice a row that does not: a row whose
    version is not a 64-bit integer.  So the dump is empty exactly when no
    row scans, which may be a table that is not empty; when every version
    is a 64-bit integer it is empty exactly when the table is. *)
Theorem Dump_shows_every_entry (kind key : string)
    (s : gomap.memStore T) (q : sqlite.sqLiteStore T) :
  (∀ km, gomap.kinds s !! kind = Some km →
     (∃ pre post, gomap.Dump show s = pre +:+ (kind +:+ ":" +:+ newline) +:+ post) ∧
     (∀ v, km !! key = Some v →
        ∃ pre mid post,
          gomap.Dump show s =
            pre +:+ (kind +:+ ":" +:+ newline) +:+ mid +:+ memLine key v +:+ post)) ∧
  (gomap.kinds s = ∅ → gomap.Dump show s = "") ∧
  (sqlite.dbClosed (sqlite.db q) = false →
     (∀ r, sqlite.rows (sqlite.db q) !! (kind, key) = Some r →
        (- 2 ^ 63 ≤ sqlite.version r < 2 ^ 63)%Z →
        ∃ pre post, sqlite.Dump q = pre +:+ sqlite.dumpLine (kind, key, r) +:+ post) ∧
     (sqlite.Dump q = "" ↔
        ∀ kk r, sqlite.rows (sqlite.db q) !! kk = Some r →
          ¬ (- 2 ^ 63 ≤ sqlite.version r < 2 ^ 63)%Z) ∧
     ((∀ kk r, sqlite.rows (sqlite.db q) !! kk = Some r →
         (- 2 ^ 63 ≤ sqlite.version r < 2 ^ 63)%Z) →
      (sqlite.Dump q = "" ↔ sqlite.rows (sqlite.db q) = ∅))).
Proof.
  split_and!.
  - intros km Hkm.
    assert (gomap.Dump show s =
      foldr (λ km acc,
               ((km.1 +:+ ":" +:+ newline) +:+
                foldr (λ kv acc', memLine kv.1 kv.2 +:+ acc') "" (map_to_list km.2))
               +:+ acc) "" (map_to_list (gomap.kinds s))) as ->.
    { unfold gomap.Dump. apply foldr_ext; [|done..]. intros [k m] acc. simpl.
      by rewrite !append_assoc. }
    destruct (concat_contains
                (λ km : string * gmap string T,
                   (km.1 +:+ ":" +:+ newline) +:+
                   foldr (λ kv acc', memLine kv.1 kv.2 +:+ acc') "" (map_to_list km.2))
                (map_to_list (gomap.kinds s)) (kind, km))
      as (pre & post & ->); [by apply elem_of_map_to_list|].
    simpl. split.
    + eexists pre, _. by rewrite !append_assoc.
    + intros v Hv.
      destruct (concat_contains (λ kv : string * T, memLine kv.1 kv.2)
                  (map_to_list km) (key, v))
        as (pre' & post' & ->); [by apply elem_of_map_to_list|].
      simpl. eexists pre, pre', _. by rewrite !append_assoc.
  - intros Hk. unfold gomap.Dump. by rewrite Hk, map_to_list_empty.
  - intros Hopen. unfold sqlite.Dump. rewrite Hopen.
    rewrite (concat_if sqlite.dumpLine (λ r, sqlite.scans r.2)).
    set (printed := filter (λ r : string * string * sqlite.row, sqlite.scans r.2 = true)
                      (sqlite.orderedRows (sqlite.rows (sqlite.db q)))).
    assert (∀ kk r, (kk, r) ∈ printed ↔
              sqlite.rows (sqlite.db q) !! kk = Some r ∧
              (- 2 ^ 63 ≤ sqlite.version r < 2 ^ 63)%Z) as Hin.
    { intros kk r. unfold printed, sqlite.orderedRows, sqlite.scans.
      rewrite list_elem_of_filter, merge_sort_Permutation, elem_of_map_to_list.
      simpl. rewrite bool_decide_eq_true. tauto. }
    assert (foldr (λ r acc, sqlite.dumpLine r +:+ acc) "" printed = "" ↔ printed = [])
      as Hempty.
    { split; [|by intros ->]. destruct printed as [|[[k1 k2] r] l]; [done|].
      simpl. unfold sqlite.dumpLine. simpl. intros Hd. destruct k1; discriminate Hd. }
    split_and!.
    + intros r Hr Hv. apply concat_contains. by apply Hin.
    + rewrite Hempty. split.
      * intros Hnil kk r Hr Hv. assert ((kk, r) ∈ printed) as Hp by (by apply Hin).
        rewrite Hnil in Hp. by apply elem_of_nil in Hp.
      * intros Hall. destruct printed as [|[kk r] l] eqn:E; [done|].
        assert ((kk, r) ∈ (kk, r) :: l) as Hp by left.
        apply Hin in Hp as [Hr Hv]. by destruct (Hall kk r).
    + intros Hrange. rewrite Hempty. split.
      * intros Hnil. apply map_empty. intros kk.
        destruct (sqlite.rows (sqlite.db q) !! kk) as [r|] eqn:Hr; [|done].
        assert ((kk, r) ∈ printed) as Hp by (apply Hin; eauto).
        rewrite Hnil in Hp. by apply elem_of_nil in Hp.
      * intros Hrows. destruct printed as [|[kk r] l] eqn:E; [done|].
        assert ((kk, r) ∈ (kk, r) :: l) as Hp by left.
        apply Hin in Hp as [Hr _]. by rewrite Hrows, lookup_empty in Hr.
Qed.

End dumps.

(** ** The further properties on the example stores *)

(** A row whose version has left the 64-bit range, as [version+1] leaves
    it on the largest integer: the row is counted, and [Dump] is empty. *)
Definition overflowed : sqlite.sqLiteStore string :=
  sqlite.New rawCodec {[ ("users", "a") := sqlite.mkRow "A" (2 ^ 63) "t0" ]}.

Lemma Dump_shows_every_entry_witness :
  sqlite.Count "users" overflowed = (1%Z, None) ∧ sqlite.Dump overflowed = "".
Proof.
  split; [by vm_compute|].
  destruct (Dump_shows_every_entry id "users" "a" usersMem overflowed) as (_ & _ & Hq).
  destruct Hq as (_ & Hempty & _); [by vm_compute|].
  apply Hempty. intros kk r Hr.
  change (sqlite.rows (sqlite.db overflowed))
    with ({[ ("users", "a") := sqlite.mkRow "A" (2 ^ 63) "t0" ]}
          : gmap (string * string) sqlite.row) in Hr.
  apply lookup_singleton_Some in Hr as [_ <-]. simpl. lia.
Defined.

(** The subscriber of [watchingMem], as its own closure names it. *)
Lemma watchingMem_reg_own :
  gomap_facts.reg watchingMem.1.1.1 (gomap.ckind watchingMem.2)
    (gomap.cid watchingMem.2) watchingMem.1.2.
Proof.
  pose proof (gomap_facts.mem_reg_watched "users" [] usersMem emptyHeap
                (gomap.ckind watchingMem.2) (gomap.cid watchingMem.2) watchingMem.1.2)
    as Hreg.
  apply Hreg. by left.
Qed.

Lemma watchingA_reg_own :
  sqlite_facts.reg watchingA.1.1.1 (sqlite.ckind watchingA.2) (sqlite.cw watchingA.2).
Proof. exact watchingA_reg. Qed.

(** A create of "b" reaches the subscriber of "users". *)
Lemma gomap_writes_reach_their_watchers_witness :
  ∃ s' h' r,
    gomap.Set_ "" "users" "b" "B" watchingMem.1.1.1 watchingMem.1.1.2 = Done (s', h', r) ∧
    chanBuf (ch watchingMem.1.2) h' =
      delivered (mkChan [] 128 false)
        (offered watchingMem.1.2 "users" "users"
           (gomap.events (gomap.SetLocked "" "users" "b" "B" watchingMem.1.1.1))).
Proof.
  destruct (gomap_writes_reach_their_watchers "" "users" "b" "B" (λ v, (v, None)) batch
              watchingMem.1.1.1 watchingMem.1.1.2 watchingMem_wf)
    as [(s' & h' & r & Hrun & Hbuf) _].
  exists s', h', r. split; [exact Hrun|].
  apply (Hbuf "users" "1" watchingMem.1.2 (mkChan [] 128 false) watchingMem_reg).
  by vm_compute.
Defined.

Lemma sqlite_writes_reach_their_subscribers_witness :
  ∃ q' h' r,
    sqlite.Set_ "users" "b" "B" "t1" watchingA.1.1.1 watchingA.1.1.2 = Done (q', h', r) ∧
    chanBuf (ch watchingA.1.2) h' =
      delivered (mkChan [] 128 false)
        (offered watchingA.1.2 "users" "users"
           (sqlite.events (sqlite.SetTx "users" "b" "B" "t1" watchingA.1.1.1))).
Proof.
  destruct (sqlite_writes_reach_their_subscribers "" "users" "b" "B" (λ v, (v, None))
              batch "t1" (λ _, "t1") watchingA.1.1.1 watchingA.1.1.2 watchingA_wf)
    as [(q' & h' & r & Hrun & Hbuf) _].
  exists q', h', r. split; [exact Hrun|].
  apply (Hbuf "users" watchingA.1.2 (mkChan [] 128 false) watchingA_reg).
  by vm_compute.
Defined.

(** Setting "b" on the in-memory example, then reading it back. *)
Lemma gomap_Set_then_Get_witness :
  ∃ s' h' created,
    gomap.Set_ "" "users" "b" "B" usersMem emptyHeap = Done (s', h', (created, None)) ∧
    gomap.Get "" "users" "b" s' = ("B", true, None).
Proof.
  destruct (gomap_Set_then_Get "" "users" "b" "B" usersMem emptyHeap usersMem_wf)
    as (s' & h' & created & Hrun & Hget & _); [by vm_compute..|].
  by exists s', h', created.
Defined.

(** Deleting "a" from the in-memory example, twice. *)
Lemma gomap_Delete_then_Get_witness :
  ∃ s' h' r,
    gomap.Delete "" "users" "a" usersMem emptyHeap = Done (s', h', r) ∧
    gomap.Get "" "users" "a" s' = ("", false, None) ∧
    gomap.Delete "" "users" "a" s' h' = Done (s', h', (false, "", None)).
Proof.
  destruct (gomap_Delete_then_Get "" "users" "a" usersMem emptyHeap usersMem_wf)
    as (s' & h' & r & Hrun & _ & Hget & _ & Hagain); [by vm_compute|].
  by exists s', h', r.
Defined.

Lemma gomap_readers_agree_witness :
  ∃ m keys values,
    gomap.List "users" [] usersMem = (Some m, None) ∧
    gomap.Keys "users" usersMem = (Some keys, None) ∧
    gomap.Values "users" usersMem = (Some values, None) ∧
    gomap.Count "users" usersMem = (Z.of_nat (length keys), None) ∧
    length values = length keys.
Proof.
  destruct (gomap_readers_agree "" "users" [] usersMem)
    as (m & keys & values & all & Hl & Hk & Hv & Hc & _ & Hlen & _); [by vm_compute|].
  by exists m, keys, values.
Defined.

(** A store whose kind "users" is validated and holds one valid entry. *)
Definition validatedBob : gomap.memStore string :=
  gomap.setKinds {[ "users" := {[ "bob" := "bob@example.com" ]} ]} validated.

Lemma validatedBob_wf : gomap_facts.wf validatedBob emptyHeap.
Proof.
  eapply gomap_facts.mem_wf_keeps; [apply gomap_facts.keeps_setKinds|].
  apply gomap_facts.mem_wf_new.
Qed.

(** The empty value, which the validator rejects in [Set], is stored by
    [SetFn]. *)
Lemma gomap_SetFn_neither_validates_nor_compares_witness :
  (∃ s' h', gomap.SetFn "users" "bob" (λ _, ("", None)) validatedBob emptyHeap
              = Done (s', h', (false, None)) ∧
     gomap.Get "" "users" "bob" s' = ("", true, None)) ∧
  gomap.Set_ "" "users" "bob" "" validatedBob emptyHeap
    = Done (gomap.ensureKind "users" validatedBob, emptyHeap,
            (false, Some (ErrOther "email required"))).
Proof.
  destruct (gomap_SetFn_neither_validates_nor_compares "" "users" "bob"
              (λ _, ("", None)) "bob@example.com" validatedBob emptyHeap validatedBob_wf)
    as [Hok _]; [by vm_compute..|].
  destruct (Hok "" eq_refl) as (_ & Hsetfn & Hset).
  split; [exact Hsetfn|]. apply Hset. by vm_compute.
Defined.

Lemma sqlite_Set_then_Get_witness :
  ∃ q' h',
    sqlite.Set_ "users" "b" "B" "t1" usersA emptyHeap
      = Done (q', h', (bool_decide (sqlite.rows (sqlite.db usersA) !! ("users", "b") = None),
                       None)) ∧
    sqlite.Get "" "users" "b" q' = ("B", true, None).
Proof.
  destruct (sqlite_Set_then_Get "" "users" "b" "B" "B" "B" "t1" usersA emptyHeap usersA_wf)
    as (q' & h' & Hrun & Hget & _); [by vm_compute..|].
  by exists q', h'.
Defined.

(** The row of "a", at version 1, deleted and written again. *)
Lemma sqlite_Set_after_Delete_starts_at_version_1_witness :
  ∃ q1 h1 q2 h2,
    sqlite.Delete "" "users" "a" usersA emptyHeap = Done (q1, h1, (true, "A", None)) ∧
    sqlite.Get "" "users" "a" q1 = ("", false, None) ∧
    sqlite.Set_ "users" "a" "A" "t9" q1 h1 = Done (q2, h2, (true, None)) ∧
    sqlite.events (sqlite.SetTx "users" "a" "A" "t9" q1)
      = [mkEvent "users" "a" EventTypeCreate "A"] ∧
    sqlite.rows (sqlite.db q2) !! ("users", "a") = Some (sqlite.mkRow "A" 1 "t9").
Proof.
  apply (sqlite_Set_after_Delete_starts_at_version_1 "" "users" "a" "A" "A" "A" "t9"
           (sqlite.mkRow "A" 1 "t0") usersA emptyHeap usersA_wf); by vm_compute.
Defined.

Lemma sqlite_readers_agree_witness :
  ∃ keys,
    sqlite.Keys "users" usersA = (Some keys, None) ∧
    sqlite.Count "users" usersA = (Z.of_nat (length keys), None) ∧
    NoDup keys.
Proof.
  destruct (sqlite_readers_agree "" "users" [] usersA)
    as (keys & Hk & Hc & Hnd & _); [by vm_compute|].
  exists keys. split; [exact Hk|]. split; [exact Hc|exact Hnd].
Defined.

Lemma sqlite_GetAll_lists_the_rows_witness :
  ∃ all, sqlite.GetAll usersA = (Some all, None) ∧
    ∀ kind km, all !! kind = Some km → km ≠ ∅.
Proof.
  destruct (sqlite_GetAll_lists_the_rows "" usersA) as [Hok _]; [by vm_compute|].
  destruct Hok as (all & Hall & _ & _ & Hne); [intros kk r _; by vm_compute|].
  exists all. split; [exact Hall|exact Hne].
Defined.

(** With the bound 2^45 - 12 of a 64-bit target: a size of zero gets the
    default capacity, and the largest [int] is refused. *)
Lemma Watch_makes_a_new_queue_witness :
  (∃ s' h' g c cf,
     gomap.WatchRun (2 ^ 45 - 12) "users" [WithBufferSize 0] usersMem emptyHeap
       = Done (s', h', g, (Some c, Some cf, None)) ∧
     chans h' !! c = Some (mkChan [] 128 false)) ∧
  (∃ q' hq' g c cf,
     sqlite.WatchRun (2 ^ 45 - 12) "users" [WithBufferSize 0] usersA emptyHeap
       = Done (q', hq', g, (Some c, Some cf, None)) ∧
     chans hq' !! c = Some (mkChan [] 128 false)) ∧
  gomap.WatchRun (2 ^ 45 - 12) "users" [WithBufferSize (2 ^ 63 - 1)] usersMem emptyHeap
    = Panic "makechan: size out of range" ∧
  sqlite.WatchRun (2 ^ 45 - 12) "users" [WithBufferSize (2 ^ 63 - 1)] usersA emptyHeap
    = Panic "makechan: size out of range".
Proof.
  destruct (Watch_makes_a_new_queue "" (2 ^ 45 - 12) "users" [WithBufferSize 0]
              usersMem emptyHeap usersA emptyHeap usersMem_wf usersA_wf)
    as [Hfits _]; [done|by vm_compute..|].
  destruct Hfits as [(s' & h' & g & c & cf & id & Hrun & _ & Hc & _)
                     (q' & hq' & gq & cq & cfq & Hrunq & _ & Hcq & _)];
    [by vm_compute|].
  destruct (Watch_makes_a_new_queue "" (2 ^ 45 - 12) "users"
              [WithBufferSize (2 ^ 63 - 1)]
              usersMem emptyHeap usersA emptyHeap usersMem_wf usersA_wf)
    as [_ Hbig]; [done|by vm_compute..|].
  destruct Hbig as [Hm Hq]; [by vm_compute|].
  split; [|split; [|split; [exact Hm|exact Hq]]].
  - exists s', h', g, c, cf. split; [exact Hrun|]. exact Hc.
  - exists q', hq', gq, cq, cfq. split; [exact Hrunq|]. exact Hcq.
Defined.

Lemma gomap_cancel_closes_only_its_watcher_witness :
  ∃ s' h', gomap.cancel watchingMem.2 watchingMem.1.1.1 watchingMem.1.1.2 = Done (s', h') ∧
    chans h' !! ch watchingMem.1.2 = Some (mkChan [] 128 true) ∧
    gomap.kinds s' = gomap.kinds watchingMem.1.1.1.
Proof.
  destruct (gomap_cancel_closes_only_its_watcher [watchingMem.2] watchingMem.2
              watchingMem.1.2 (mkChan [] 128 false) watchingMem.1.1.1 watchingMem.1.1.2
              watchingMem_wf watchingMem_issued)
    as (s' & h' & Hrun & _ & Hc & _ & _ & Hk & _);
    [by left|exact watchingMem_reg_own|by vm_compute|].
  by exists s', h'.
Defined.

Lemma sqlite_cancel_closes_only_its_watcher_witness :
  ∃ q' h', sqlite.cancel watchingA.2 watchingA.1.1.1 watchingA.1.1.2 = Done (q', h') ∧
    chans h' !! ch (sqlite.cw watchingA.2) = Some (mkChan [] 128 true) ∧
    sqlite.db q' = sqlite.db watchingA.1.1.1.
Proof.
  destruct (sqlite_cancel_closes_only_its_watcher watchingA.2 (mkChan [] 128 false)
              watchingA.1.1.1 watchingA.1.1.2 watchingA_wf watchingA_reg_own)
    as (q' & h' & Hrun & _ & _ & Hc & _ & Hdb & _); [by vm_compute|].
  by exists q', h'.
Defined.

Lemma range_loop_ends_after_cancel_or_Close_witness :
  (∃ s1 h1 h2,
     gomap.cancel watchingMem.2 watchingMem.1.1.1 watchingMem.1.1.2 = Done (s1, h1) ∧
     example.rangeChan 1 (ch watchingMem.1.2) h1 [] = example.RangeEnded [] h2) ∧
  (∃ q1 h1 h2,
     sqlite.cancel watchingA.2 watchingA.1.1.1 watchingA.1.1.2 = Done (q1, h1) ∧
     example.rangeChan 1 (ch (sqlite.cw watchingA.2)) h1 [] = example.RangeEnded [] h2).
Proof.
  destruct (range_loop_ends_after_cancel_or_Close [watchingMem.2] watchingMem.2
              watchingMem.1.2 (mkChan [] 128 false) watchingMem.1.1.1 watchingMem.1.1.2
              watchingA.2 (mkChan [] 128 false) watchingA.1.1.1 watchingA.1.1.2
              watchingMem_wf watchingMem_issued)
    as (_ & Hmem & _ & _ & Hsq & _);
    [by left|exact watchingMem_reg_own|by vm_compute
    |exact watchingA_wf|exact watchingA_reg_own|by vm_compute|].
  split; [exact Hmem|exact Hsq].
Defined.

(** The replay of the durable example: its one row is offered to the
    empty queue of the subscriber. *)
Lemma sqlite_replay_fills_the_room_witness :
  ∃ h' evs,
    sqlite.runReplay (sqlite.mkGoroutine "users" watchingA.1.2)
      watchingA.1.1.1 watchingA.1.1.2 = Done h' ∧
    evs ≡ₚ eventsOf "users" EventTypeCreate ({[ "a" := "A" ]} : gmap string string) ∧
    chanBuf (ch watchingA.1.2) h' = delivered (mkChan [] 128 false) evs.
Proof.
  destruct (sqlite_replay_fills_the_room "users" watchingA.1.2 (mkChan [] 128 false)
              watchingA.1.1.1 watchingA.1.1.2 watchingA_wf watchingA_reg)
    as [Hok _]; [by vm_compute|].
  destruct (Hok {[ "a" := "A" ]}) as (h' & evs & Hrun & Hperm & Hbuf & _);
    [by vm_compute|].
  exists h', evs. split; [exact Hrun|]. split; [exact Hperm|exact Hbuf].
Defined.

(** Two entries replayed into a queue of one slot. *)
Definition usersTwo : gomap.memStore string :=
  gomap.setKinds {[ "users" := {[ "a" := "A"; "b" := "B" ]} ]}
    (gomap.NewMemStore (gomap.mkStoreOptions None None)).

Definition replayingMem :=
  gomap.Watch "users" [WithInitialReplay; WithBufferSize 1] usersTwo emptyHeap.

Definition replayingG : gomap.goroutine string :=
  gomap.mkGoroutine 0 0
    (eventsOf "users" EventTypeCreate ({[ "a" := "A"; "b" := "B" ]} : gmap string string)).

Lemma gomap_replay_blocks_when_full_witness :
  replayingMem.1.2 = Some replayingG ∧
  ∃ g1 h2,
    gomap.runReplay false replayingG replayingMem.1.1.2 = Done (Some g1, h2) ∧
    chanBuf 0 h2 = take 1 (gomap.gpending replayingG) ∧
    gomap.gpending g1 ≠ [].
Proof.
  split; [by vm_compute|].
  destruct (gomap_replay_blocks_when_full false replayingG (mkChan [] 1 false)
              replayingMem.1.1.2)
    as (g' & h' & Hrun & Hbuf & _ & Hmore); [by vm_compute..|].
  destruct Hmore as (g1 & -> & _ & _ & _ & Hne); [vm_compute; lia|].
  exists g1, h'. split; [exact Hrun|]. split; [exact Hbuf|exact Hne].
Defined.

(** The example stores watched with a replay, and the goroutines of those
    calls. *)
Definition replayedMem :=
  gomap_facts.watched "users" [WithInitialReplay] usersMem emptyHeap.

Definition replayedMemG : gomap.goroutine string :=
  gomap.mkGoroutine (ch replayedMem.1.2) (gomap.cdone replayedMem.2)
    (eventsOf "users" EventTypeCreate ({[ "a" := "A" ]} : gmap string string)).

Lemma replayedMem_Watch :
  gomap.Watch "users" [WithInitialReplay] usersMem emptyHeap
    = (replayedMem.1.1.1, replayedMem.1.1.2, Some replayedMemG,
       (Some (ch replayedMem.1.2), Some replayedMem.2, None)).
Proof. by vm_compute. Qed.

Lemma replayedMem_wf : gomap_facts.wf replayedMem.1.1.1 replayedMem.1.1.2.
Proof.
  exact (gomap_facts.mem_Watch_wf "users" [WithInitialReplay] usersMem emptyHeap
           usersMem_wf eq_refl eq_refl).
Qed.

Lemma replayedMem_issued :
  gomap_facts.issued [replayedMem.2] replayedMem.1.1.1 replayedMem.1.1.2.
Proof.
  assert (gomap_facts.issued [] usersMem emptyHeap) as Hiss.
  { split; [constructor|]. intros c Hc. by apply elem_of_nil in Hc. }
  exact (gomap_facts.Watch_issued "users" [WithInitialReplay] [] usersMem emptyHeap
           usersMem_wf Hiss eq_refl).
Qed.

Lemma replayedMem_reg_own :
  gomap_facts.reg replayedMem.1.1.1 (gomap.ckind replayedMem.2)
    (gomap.cid replayedMem.2) replayedMem.1.2.
Proof.
  pose proof (gomap_facts.mem_reg_watched "users" [WithInitialReplay] usersMem emptyHeap
                (gomap.ckind replayedMem.2) (gomap.cid replayedMem.2) replayedMem.1.2)
    as Hreg.
  apply Hreg. by left.
Qed.

Lemma gomap_replay_outlives_its_channel_witness :
  (∃ s1 h1, gomap.Close replayedMem.1.1.1 replayedMem.1.1.2 = Done (s1, h1, None) ∧
     ∀ pickDone, gomap.runReplay pickDone replayedMemG h1
                 = Panic "send on closed channel") ∧
  (∃ s1 h1, gomap.cancel replayedMem.2 replayedMem.1.1.1 replayedMem.1.1.2
            = Done (s1, h1) ∧
     gomap.runReplay true replayedMemG h1 = Done (None, h1) ∧
     gomap.runReplay false replayedMemG h1 = Panic "send on closed channel").
Proof.
  apply (gomap_replay_outlives_its_channel [replayedMem.2] replayedMem.2 replayedMem.1.2
           replayedMemG replayedMem.1.1.1 replayedMem.1.1.2
           replayedMem_wf replayedMem_issued);
    [by left|exact replayedMem_reg_own|by vm_compute..].
Defined.

Definition replayedA :=
  sqlite_facts.watched "users" [WithInitialReplay] usersA emptyHeap.

Definition replayedAG : sqlite.goroutine := sqlite.mkGoroutine "users" replayedA.1.2.

Lemma replayedA_Watch :
  sqlite.Watch "users" [WithInitialReplay] usersA emptyHeap
    = (replayedA.1.1.1, replayedA.1.1.2, Some replayedAG,
       (Some (ch replayedA.1.2), Some replayedA.2, None)).
Proof. reflexivity. Qed.

Lemma replayedA_wf : sqlite_facts.wf replayedA.1.1.1 replayedA.1.1.2.
Proof.
  exact (sqlite_facts.sq_Watch_wf "users" [WithInitialReplay] usersA emptyHeap
           usersA_wf eq_refl).
Qed.

Lemma replayedA_reg_own :
  sqlite_facts.reg replayedA.1.1.1 (sqlite.ckind replayedA.2) (sqlite.cw replayedA.2).
Proof.
  pose proof (sqlite_facts.sq_reg_watched "users" [WithInitialReplay] usersA emptyHeap
                "users" replayedA.1.2) as Hreg.
  apply Hreg. by left.
Qed.

Lemma sqlite_replay_after_shutdown_witness :
  (∃ q1 h1, sqlite.Close replayedA.1.1.1 replayedA.1.1.2 = Done (q1, h1, None) ∧
     sqlite.runReplay replayedAG q1 h1 = Done h1) ∧
  (∃ q1 h1, sqlite.cancel replayedA.2 replayedA.1.1.1 replayedA.1.1.2 = Done (q1, h1) ∧
     sqlite.runReplay replayedAG q1 h1 = Panic "send on closed channel").
Proof.
  apply (sqlite_replay_after_shutdown replayedA.2 replayedAG {[ "a" := "A" ]}
           replayedA.1.1.1 replayedA.1.1.2 replayedA_wf replayedA_reg_own);
    by vm_compute.
Defined.

(** "a" holds "A" when the watcher is made and is set to "B" before the
    goroutine runs. *)
Lemma gomap_replay_sends_the_snapshot_witness :
  ∃ s1 h1 g c cf s2 h2,
    gomap.Watch "users" [WithInitialReplay] usersMem emptyHeap
      = (s1, h1, Some g, (Some c, Some cf, None)) ∧
    gomap.Set_ "" "users" "a" "B" s1 h1 = Done (s2, h2, (false, None)) ∧
    gomap.Get "" "users" "a" s2 = ("B", true, None) ∧
    mkEvent "users" "a" EventTypeCreate "A" ∈ gomap.gpending g ∧
    ∀ pickDone, ∃ h3, gomap.runReplay pickDone g h2 = Done (None, h3) ∧
      chanBuf c h3 = mkEvent "users" "a" EventTypeUpdate "B" :: gomap.gpending g.
Proof.
  apply (gomap_replay_sends_the_snapshot "" "users" "a" "A" "B" [WithInitialReplay]
           usersMem emptyHeap usersMem_wf); try by vm_compute.
  vm_compute. lia.
Defined.

(** "b" is written after the watcher is made and before its goroutine
    lists the kind. *)
Lemma sqlite_replay_repeats_a_later_write_witness :
  ∃ q1 h1 g c cf q2 h2 h3 evs,
    sqlite.Watch "users" [WithInitialReplay] usersA emptyHeap
      = (q1, h1, Some g, (Some c, Some cf, None)) ∧
    sqlite.Set_ "users" "b" "B" "t1" q1 h1 = Done (q2, h2, (true, None)) ∧
    sqlite.runReplay g q2 h2 = Done h3 ∧
    chanBuf c h3 = mkEvent "users" "b" EventTypeCreate "B" :: evs ∧
    mkEvent "users" "b" EventTypeCreate "B" ∈ evs ∧
    length evs = S (size (sqlite.kindRows "users" (sqlite.rows (sqlite.db usersA)))).
Proof.
  apply (sqlite_replay_repeats_a_later_write "users" "b" "B" "B" "B" "t1"
           [WithInitialReplay] usersA emptyHeap usersA_wf).
  1-7: by vm_compute.
  - intros k r _. by vm_compute.
  - vm_compute. lia.
Defined.

(** A run with the bound 2^45 - 12 of a 64-bit target: one [Watch] on a
    new store.  The closure it returned can be called; and when it is
    called between the unlock of a [Set] and its send, the [Set] panics. *)
Definition firstWatch :=
  gomap_facts.watched "users" []
    (gomap.NewMemStore (gomap.mkStoreOptions (T:=string) None None)) emptyHeap.

Definition firstWorld : gomap_facts.world string :=
  gomap_facts.mkWorld firstWatch.1.1.1 firstWatch.1.1.2 [firstWatch.2] [] [].

Lemma firstWatch_run :
  rtc (gomap_facts.step "" (2 ^ 45 - 12))
    (gomap_facts.start (gomap.mkStoreOptions None None)) firstWorld.
Proof.
  apply rtc_once.
  apply (gomap_facts.step_Watch "" (2 ^ 45 - 12) "users" [] _ _ [] [] [] _ _
           None (ch firstWatch.1.2)); by vm_compute.
Qed.

Lemma firstWatch_reg_own :
  gomap_facts.reg firstWatch.1.1.1 (gomap.ckind firstWatch.2)
    (gomap.cid firstWatch.2) firstWatch.1.2.
Proof.
  pose proof (gomap_facts.mem_reg_watched "users" []
                (gomap.NewMemStore (gomap.mkStoreOptions (T:=string) None None))
                emptyHeap
                (gomap.ckind firstWatch.2) (gomap.cid firstWatch.2) firstWatch.1.2)
    as Hreg.
  apply Hreg. by left.
Qed.

Lemma gomap_writer_panics_only_when_overtaken_witness :
  (∃ s' h', gomap.cancel firstWatch.2 firstWatch.1.1.1 firstWatch.1.1.2 = Done (s', h')) ∧
  (∃ s1 h1,
     gomap.cancel firstWatch.2
       (gomap.after (gomap.SetLocked "" "users" "a" "A" firstWatch.1.1.1))
       firstWatch.1.1.2 = Done (s1, h1) ∧
     gomap.unlockAndSend (gomap.SetLocked "" "users" "a" "A" firstWatch.1.1.1) h1
       = Panic "send on closed channel").
Proof.
  destruct (gomap_writer_panics_only_when_overtaken "" (2 ^ 45 - 12)
              (gomap.mkStoreOptions None None) firstWorld firstWatch_run)
    as (_ & Hc & _ & _ & _ & _ & _ & _ & _ & _ & Hover & _).
  split.
  - apply Hc. by left.
  - apply (Hover firstWatch.2 firstWatch.1.2 "users" "a" "A"
             (mkEvent "users" "a" EventTypeCreate "A")).
    + by left.
    + exact firstWatch_reg_own.
    + vm_compute. by left.
    + vm_compute. by left.
    + by vm_compute.
Defined.


